(** * mcu: VASP band-gap analysis and the pyWannier90 interface

  A shallow embedding of the parts of [mcu/vasp/main.py],
  [mcu/wannier90/pywannier90_vasp.py] and [mcu/wannier90/w90.py] that the
  specification talks about, of the code around them, and the properties
  proved of them.

  Conventions.
  - A numpy array is a list (of lists, ...) in row-major order.
  - A Python exception is a value of [Py.exn]; a call that may raise returns
    a [Py.result].
  - Band energies, occupations and k-point coordinates are finite floats and
    are modelled by the rationals they denote; only comparison and
    subtraction are applied to them (the rounding of the subtraction is the
    same on both sides of every equation stated below).
  - The projection functions and the phase fix of [pywannier90_vasp.py] are
    written against an interface of float operations and evaluated with
    exact real and complex numbers.
  - The floats that go to and come from the .amn and .mmn files are IEEE
    binary64 numbers ([spec_float]), text is [string].
  - Functions of modules outside these three files (mcu.cell, libwannier90,
    the WAVECAR reader) are parameters of the sections that use them.
  - The tables of the Wannier90 User Guide that the specification refers
    [theta_lmr] to are written down in [UserGuide], from the guide and not
    from the code, and the code is compared with them. *)

From Stdlib Require Import String Ascii.
From Stdlib Require Import List ZArith QArith Qround Bool Lia.
From Stdlib Require Import Reals Qreals Lra.
From Stdlib Require Import NArith SpecFloat.
From Stdlib Require Lqa.
Import ListNotations.

Set Implicit Arguments.
Set Warnings "-register-all".

(* ================================================================== *)
(** * The Python run-time the code relies on *)
(* ================================================================== *)

Module Py.

(** The values of the dynamically typed arguments ([efermi], [lm], the
    arguments of an exception): None, a float, an int, a str, or a list. *)
Inductive value : Type :=
| None_
| Float (q : Q)
| Int (z : Z)
| Str (s : string)
| List_ (l : list value).

Definition is_float (v : value) : bool :=
  match v with Float _ => true | _ => false end.

(** The built-in exceptions that the modelled code can raise.  [Exception]
    is the generic class raised by the source's own [raise Exception(...)],
    with the tuple of arguments it was given. *)
Inductive exn : Type :=
| IndexError
| ValueError
| TypeError
| NameError
| AttributeError
| AssertionError
| UnboundLocalError
| Exception (args : list value).

Inductive result (A : Type) : Type :=
| Ok (a : A)
| Raise (e : exn).
Arguments Ok {A} a.
Arguments Raise {A} e.

Definition bind {A B} (m : result A) (f : A -> result B) : result B :=
  match m with
  | Ok a => f a
  | Raise e => Raise e
  end.

Definition assert (b : bool) : result unit :=
  if b then Ok tt else Raise AssertionError.

(** [a[i]] on a list or along the first axis of an array: negative indices
    count from the end, anything outside [-len, len) raises IndexError. *)
Definition getitem {A} (a : list A) (i : Z) : result A :=
  let n := Z.of_nat (length a) in
  let j := if (i <? 0)%Z then (i + n)%Z else i in
  if ((0 <=? j)%Z && (j <? n)%Z)%bool then
    match nth_error a (Z.to_nat j) with
    | Some x => Ok x
    | None => Raise IndexError
    end
  else Raise IndexError.

(** [a[n:]] for [n >= 0]. *)
Definition slice_from {A} (n : nat) (a : list A) : list A := skipn n a.

(** [range(n)] *)
Definition range (n : nat) : list nat := seq 0 n.

(** A loop that builds one result per element and stops at the first
    exception. *)
Fixpoint mapM {A B} (f : A -> result B) (l : list A) : result (list B) :=
  match l with
  | [] => Ok []
  | x :: t =>
      match f x with
      | Ok y =>
          match mapM f t with
          | Ok ys => Ok (y :: ys)
          | Raise e => Raise e
          end
      | Raise e => Raise e
      end
  end.

(** A loop that threads an accumulator. *)
Fixpoint foldM {A B} (f : B -> A -> result B) (l : list A) (b : B) : result B :=
  match l with
  | [] => Ok b
  | x :: t =>
      match f b x with
      | Ok b' => foldM f t b'
      | Raise e => Raise e
      end
  end.

End Py.

Declare Scope py_scope.
Delimit Scope py_scope with py.
Notation "x <- m ;; k" := (Py.bind m (fun x => k))
(at level 61, m at next level, right associativity) : py_scope.
Notation "m ;;; k" := (Py.bind m (fun _ => k))
(at level 61, right associativity) : py_scope.

(* ================================================================== *)
(** * numpy *)
(* ================================================================== *)

Module np.
Import Py.

Definition Qltb (x y : Q) : bool :=
  match x ?= y with Lt => true | _ => false end.

(** [np.count_nonzero] on floats and on booleans. *)
Definition count_nonzero (w : list Q) : nat :=
  length (filter (fun x => negb (Qeq_bool x 0)) w).

Definition count_true (b : list bool) : nat :=
  length (filter (fun x => x) b).

(** [np.argmax]: the index of the first occurrence of the maximum;
    ValueError on an empty sequence. *)
Fixpoint argmax_from (best_i : nat) (best : Q) (i : nat) (l : list Q) : nat :=
  match l with
  | [] => best_i
  | x :: t =>
      if Qltb best x then argmax_from i x (S i) t
      else argmax_from best_i best (S i) t
  end.

Definition argmax (l : list Q) : result nat :=
  match l with
  | [] => Raise ValueError
  | x :: t => Ok (argmax_from 0 x 1 t)
  end.

Fixpoint argmin_from (best_i : nat) (best : Q) (i : nat) (l : list Q) : nat :=
  match l with
  | [] => best_i
  | x :: t =>
      if Qltb x best then argmin_from i x (S i) t
      else argmin_from best_i best (S i) t
  end.

Definition argmin (l : list Q) : result nat :=
  match l with
  | [] => Raise ValueError
  | x :: t => Ok (argmin_from 0 x 1 t)
  end.

(** [np.vstack([a, b])] for two-dimensional [a] with at least one row: the
    rows of [b] are appended; a row of another width raises ValueError. *)
Definition vstack {A} (a b : list (list A)) : result (list (list A)) :=
  match a with
  | [] => Ok (a ++ b)
  | r :: _ =>
      if forallb (fun row => Nat.eqb (length row) (length r)) b
      then Ok (a ++ b) else Raise ValueError
  end.

Definition zeros {A} (zero : A) (n : nat) : list A := repeat zero n.

End np.

(* ================================================================== *)
(** * mcu.vasp.read: the parsed files *)
(* ================================================================== *)

Module read.

Definition kpoint : Type := (Q * Q * Q)%type.

(** What the methods of [read.vasprun] leave on the object once called
    ([get_band], [get_dos]); the parser itself is not part of the modelled
    code, so a parsed file is an input.
    - [band[spin][kpt][band]] is the pair (energy, occupation);
    - [efermi] is present when the file carries a density of states. *)
Record vasprun : Type := Build_vasprun {
  NBANDS : nat;
  ISPIN : nat;
  kpointlist : list kpoint;
  weights : list Q;
  band : list (list (list (Q * Q)));
  efermi : option Q
}.

Record OUTCAR : Type := Build_OUTCAR {
  outcar_efermi : Q
}.

End read.

(* ================================================================== *)
(** * mcu.vasp.main: class VASP *)
(* ================================================================== *)

Module VASP.
Import Py.

(** [self.vasprun] is one parsed file or a list of them. *)
Inductive runs : Type :=
| One (v : read.vasprun)
| Many (vs : list read.vasprun).

Inductive outcars : Type :=
| NoOutcar
| OneOutcar (o : read.OUTCAR)
| ManyOutcar (os : list read.OUTCAR).

(** Lines written by [print]; the numbers of a formatted line are kept as
    they are passed to the format string. *)
Inductive line : Type :=
| Text (s : string)
| PSpin (spin : nat)
| PVBM (e occ : Q) (k : read.kpoint)
| PCBM (e occ : Q) (k : read.kpoint)
| PDirect (gap : Q)                (* '  Direct bandgap   : %6.3f' *)
| PIndirect (gap : Q)              (* '  Indirect bandgap : %6.3f' *)
| PDirectOfIndirect (gap : Q).     (* '  Direct bandgap   : %7.4f' *)

(** The attributes of a VASP object that the modelled methods read or
    write, and the text printed so far.  An attribute that may be read before
    it was ever assigned is an option. *)
Record self : Type := Build_self {
  vasprun : runs;
  useOUTCAR : option bool;
  outcar : outcars;
  efermi : option value;
  kpts : list read.kpoint;
  band : list (list (list Q));
  co_occ : list (list (list Q));
  co_occ_ : list (list (list bool));
  bandgap : list Q;
  stdout : list line
}.

Definition set_efermi (e : value) (s : self) : self :=
  Build_self (vasprun s) (useOUTCAR s) (outcar s) (Some e) (kpts s) (band s)
             (co_occ s) (co_occ_ s) (bandgap s) (stdout s).

Definition set_arrays (k : list read.kpoint) (b c : list (list (list Q)))
           (c_ : list (list (list bool))) (s : self) : self :=
  Build_self (vasprun s) (useOUTCAR s) (outcar s) (efermi s) k b c c_
             (bandgap s) (stdout s).

Definition set_bandgap (g : list Q) (s : self) : self :=
  Build_self (vasprun s) (useOUTCAR s) (outcar s) (efermi s) (kpts s) (band s)
             (co_occ s) (co_occ_ s) g (stdout s).

Definition add_stdout (l : line) (s : self) : self :=
  Build_self (vasprun s) (useOUTCAR s) (outcar s) (efermi s) (kpts s) (band s)
             (co_occ s) (co_occ_ s) (bandgap s) (stdout s ++ [l]).

(** ** Methods: a state transformer that may raise.  What was assigned and
    printed before an exception stays. *)
Definition M (A : Type) : Type := self -> self * result A.

Definition ret {A} (a : A) : M A := fun s => (s, Ok a).
Definition bindM {A B} (m : M A) (f : A -> M B) : M B :=
  fun s => match m s with
           | (s', Ok a) => f a s'
           | (s', Raise e) => (s', Raise e)
           end.
Definition lift {A} (r : result A) : M A := fun s => (s, r).
Definition get : M self := fun s => (s, Ok s).
Definition modify (f : self -> self) : M unit := fun s => (f s, Ok tt).
Definition print (l : line) : M unit := modify (add_stdout l).


Declare Scope vasp_scope.
Delimit Scope vasp_scope with vasp.
Notation "x <- m ;; k" := (bindM m (fun x => k))
  (at level 61, m at next level, right associativity) : vasp_scope.
Notation "m ;;; k" := (bindM m (fun _ => k))
  (at level 61, right associativity) : vasp_scope.
Local Open Scope vasp_scope.

Fixpoint for_ {A} (l : list A) (body : A -> M unit) : M unit :=
  match l with
  | [] => ret tt
  | x :: t => body x ;;; for_ t body
  end.

(** ** get_efermi *)
Definition append_efermi (e : Q) (s : self) : self :=
  match efermi s with
  | Some (List_ l) => set_efermi (List_ (l ++ [Float e])) s
  | _ => s
  end.

Definition get_efermi : M unit :=
  s <- get ;;
  match vasprun s with
  | One v =>
      match read.efermi v with
      | Some e => modify (set_efermi (Float e))
      | None =>
          match useOUTCAR s with
          | None => lift (Raise AttributeError)
          | Some false => print (Text "Fermi level need to be read from OUTCAR")
          | Some true =>
              match outcar s with
              | OneOutcar o => modify (set_efermi (Float (read.outcar_efermi o)))
              | _ => lift (Raise AttributeError)
              end
          end
      end
  | Many vs =>
      modify (set_efermi (List_ [])) ;;;
      for_ (combine (range (length vs)) vs) (fun '(i, v) =>
        match read.efermi v with
        | Some e => modify (append_efermi e)
        | None =>
            match useOUTCAR s with
            | None => lift (Raise AttributeError)
            | Some false => print (Text "Fermi level need to be read from OUTCAR")
            | Some true =>
                match outcar s with
                | ManyOutcar os =>
                    o <- lift (getitem os (Z.of_nat i)) ;;
                    modify (append_efermi (read.outcar_efermi o))
                | OneOutcar _ => lift (Raise TypeError)
                | NoOutcar => lift (Raise AttributeError)
                end
            end
        end)
  end.

(** ** get_bandgap *)

(** [bandedge[spin,kpt]]: the entries [0,0], [0,1], [1,0], [1,1]. *)
Record edge : Type := Build_edge {
  homo_e : Q; homo_occ : Q; lumo_e : Q; lumo_occ : Q
}.

(** The body of the loop over k-points (lines 147-154). *)
Definition edge_at (s : self) (spin kpt : nat) : result edge :=
  (band_s <- getitem (band s) (Z.of_nat spin) ;;
   band_kpt <- getitem band_s (Z.of_nat kpt) ;;
   occ_s <- getitem (co_occ_ s) (Z.of_nat spin) ;;
   occ <- getitem occ_s (Z.of_nat kpt) ;;
   let homo_idx := (Z.of_nat (np.count_true occ) - 1)%Z in
   let lumo_idx := (homo_idx + 1)%Z in
   e_h <- getitem band_kpt homo_idx ;;
   co_s <- getitem (co_occ s) (Z.of_nat spin) ;;
   co_k <- getitem co_s (Z.of_nat kpt) ;;
   o_h <- getitem co_k homo_idx ;;
   e_l <- getitem band_kpt lumo_idx ;;
   o_l <- getitem co_k lumo_idx ;;
   Ok (Build_edge e_h o_h e_l o_l))%py.

Definition append_bandgap (g : Q) (s : self) : self :=
  set_bandgap (bandgap s ++ [g]) s.

(** The body of the loop over spin channels (lines 145-174). *)
Definition spin_block (nkpts spin : nat) : M unit :=
  print (PSpin spin) ;;;
  s <- get ;;
  bandedge <- lift (mapM (edge_at s spin) (range nkpts)) ;;
  vbm_idx <- lift (np.argmax (map homo_e bandedge)) ;;
  cbm_idx <- lift (np.argmin (map lumo_e bandedge)) ;;
  let direct := Nat.eqb vbm_idx cbm_idx in
  at_vbm <- lift (getitem bandedge (Z.of_nat vbm_idx)) ;;
  k_vbm <- lift (getitem (kpts s) (Z.of_nat vbm_idx)) ;;
  print (PVBM (homo_e at_vbm) (homo_occ at_vbm) k_vbm) ;;;
  at_cbm <- lift (getitem bandedge (Z.of_nat cbm_idx)) ;;
  k_cbm <- lift (getitem (kpts s) (Z.of_nat cbm_idx)) ;;
  print (PCBM (lumo_e at_cbm) (lumo_occ at_cbm) k_cbm) ;;;
  let bandgap := lumo_e at_cbm - homo_e at_vbm in
  modify (append_bandgap bandgap) ;;;
  if direct then print (PDirect bandgap)
  else
    print (PIndirect bandgap) ;;;
    let gap1 := lumo_e at_cbm - homo_e at_cbm in
    let gap2 := lumo_e at_vbm - homo_e at_vbm in
    let direct_gap := if np.Qltb gap2 gap1 then gap2 else gap1 in
    print (PDirectOfIndirect direct_gap).

(** The accumulators of the loop over the runs (lines 118-121). *)
Record acc : Type := Build_acc {
  bands : list (list Q);
  kptss : list read.kpoint;
  co_occ1 : list (list Q);
  co_occ2 : list (list bool)
}.

(** The body of the loop over the runs (lines 123-134). *)
Definition stack_run (spin : nat) (efermi : list Q) (a : acc)
           (iv : nat * read.vasprun) : result acc :=
  (let '(i, vasprun) := iv in
   band_s <- getitem (read.band vasprun) (Z.of_nat spin) ;;
   let band := map (map fst) band_s in
   let kpts := read.kpointlist vasprun in
   let weight := read.weights vasprun in
   let nonzero := np.count_nonzero weight in
   let kpts := slice_from nonzero kpts in
   let band := slice_from nonzero band in
   let co_occ := map (map snd) (slice_from nonzero band_s) in
   ef <- getitem efermi (Z.of_nat i) ;;
   let co_occ_ := map (map (fun e => np.Qltb e ef)) band in
   bands' <- np.vstack (bands a) band ;;
   let kptss' := kptss a ++ kpts in
   co_occ1' <- np.vstack (co_occ1 a) co_occ ;;
   co_occ2' <- np.vstack (co_occ2 a) co_occ_ ;;
   Ok (Build_acc bands' kptss' co_occ1' co_occ2'))%py.

(** The arrays collected over the spin channels (lines 114-137), with the
    [kptss] of the last channel. *)
Record collected : Type := Build_collected {
  band_spin : list (list (list Q));
  co_occ_spin1 : list (list (list Q));
  co_occ_spin2 : list (list (list bool));
  last_kptss : option (list read.kpoint)
}.

Definition collect_spin (vs : list read.vasprun) (nbands : nat)
           (efermi : list Q) (c : collected) (spin : nat) : result collected :=
  (let init := Build_acc [np.zeros 0 nbands] [(0, 0, 0)]
                         [np.zeros 0 nbands] [np.zeros false nbands] in
   a <- foldM (stack_run spin efermi) (combine (range (length vs)) vs) init ;;
   Ok (Build_collected (band_spin c ++ [slice_from 1 (bands a)])
                       (co_occ_spin1 c ++ [slice_from 1 (co_occ1 a)])
                       (co_occ_spin2 c ++ [slice_from 1 (co_occ2 a)])
                       (Some (kptss a))))%py.

(** The asserts on a list of Fermi levels (lines 106-108); they leave the
    floats [efermi[0..len(self.vasprun)-1]]. *)
Definition check_efermi_list (efermi : value) (n : nat) : result (list Q) :=
  match efermi with
  | List_ l =>
      mapM (fun i =>
              (e <- getitem l (Z.of_nat i) ;;
               match e with
               | Float q => Ok q
               | _ => Raise AssertionError
               end)%py) (range n)
  | _ => Raise AssertionError
  end.

(** What the two branches of lines 95-140 leave: [ispin], and the arrays
    assigned to [self.kpts], [self.band], [self.co_occ], [self.co_occ_]. *)
Record arrays : Type := Build_arrays {
  a_ispin : nat;
  a_kpts : list read.kpoint;
  a_band : list (list (list Q));
  a_co_occ : list (list (list Q));
  a_co_occ_ : list (list (list bool))
}.

(** One vasprun.xml file (lines 95-104). *)
Definition load_one (v : read.vasprun) (efermi : value) : result arrays :=
  (assert (is_float efermi) ;;;
   let band := map (map (map fst)) (read.band v) in
   let co_occ := map (map (map snd)) (read.band v) in
   let co_occ_ := map (map (map (fun o => np.Qltb (1 # 2) o))) co_occ in
   Ok (Build_arrays (read.ISPIN v) (read.kpointlist v) band co_occ co_occ_))%py.

(** Several vasprun.xml files (lines 105-140). *)
Definition load_many (vs : list read.vasprun) (efermi : value) : result arrays :=
  (efs <- check_efermi_list efermi (length vs) ;;
   v0 <- getitem vs 0 ;;
   let nbands := read.NBANDS v0 in
   let ispin := read.ISPIN v0 in
   c <- foldM (collect_spin vs nbands efs) (range ispin)
              (Build_collected [] [] [] None) ;;
   kptss <- match last_kptss c with
            | Some k => Ok k
            | None => Raise UnboundLocalError
            end ;;
   Ok (Build_arrays ispin (slice_from 1 kptss)
                    (band_spin c) (co_occ_spin1 c) (co_occ_spin2 c)))%py.

Definition get_bandgap (efermi : value) : M unit :=
  efermi <- match efermi with
            | None_ =>
                get_efermi ;;;
                s <- get ;;
                match VASP.efermi s with
                | Some e => ret e
                | None => lift (Raise AttributeError)
                end
            | _ => ret efermi
            end ;;
  s <- get ;;
  a <- lift (match vasprun s with
             | One v => load_one v efermi
             | Many vs => load_many vs efermi
             end) ;;
  modify (set_arrays (a_kpts a) (a_band a) (a_co_occ a) (a_co_occ_ a)) ;;;
  let ispin := a_ispin a in
  let nkpts := length (a_kpts a) in
  modify (set_bandgap []) ;;;
  for_ (range ispin) (spin_block nkpts).

(** ** _generate_band, the branch for a list of runs (lines 233-254): the
    k-points and the shifted bands that are handed to the path
    construction below it.  The method is only ever called with
    [vasprun = self.vasprun] (plot_band, plot_pband), so the asserts over
    [range(len(self.vasprun))] range over the argument. *)
Definition shift_run (spin : nat) (efermi : list Q)
           (a : list (list Q) * list read.kpoint)
           (iv : nat * read.vasprun) : result (list (list Q) * list read.kpoint) :=
  (let '(bands, kptss) := a in
   let '(i, run) := iv in
   band_s <- getitem (read.band run) (Z.of_nat spin) ;;
   let band := map (map fst) band_s in
   let kpts := read.kpointlist run in
   let weight := read.weights run in
   let nonzero := np.count_nonzero weight in
   let kpts := slice_from nonzero kpts in
   let band := slice_from nonzero band in
   ef <- getitem efermi (Z.of_nat i) ;;
   let band := map (map (fun e => e - ef)) band in
   bands' <- np.vstack bands band ;;
   Ok (bands', kptss ++ kpts))%py.

Definition generate_band_many (vasprun : list read.vasprun)
           (efermi : value) (spin : nat)
  : result (list read.kpoint * list (list Q)) :=
  (efs <- check_efermi_list efermi (length vasprun) ;;
   v0 <- getitem vasprun 0 ;;
   let nbands := read.NBANDS v0 in
   a <- foldM (shift_run spin efs) (combine (range (length vasprun)) vasprun)
              ([np.zeros 0 nbands], [(0, 0, 0)]) ;;
   let '(bands, kptss) := a in
   Ok (slice_from 1 kptss, slice_from 1 bands))%py.

End VASP.

(* ================================================================== *)
(** * mcu.vasp.main: VASP.__init__ *)
(* ================================================================== *)

Module Init.
Import Py VASP.

(** A VASP object right after [__init__]: the attributes it may have
    assigned, the run [get_info] was called with, and what was printed. *)
Record object : Type := Build_object {
  o_vasprun : option runs;
  o_info : option read.vasprun;
  o_useOUTCAR : option bool;
  o_outcar : outcars;
  o_stdout : list line
}.

(** [path + '/' + xml + '.xml'] and [path + '/' + outcar] *)
Definition xml_file (path xml : string) : string :=
  (path ++ "/" ++ xml ++ ".xml")%string.

Definition outcar_file (path outcar : string) : string :=
  (path ++ "/" ++ outcar)%string.

(** [print('Cannot find:', file)] *)
Definition cannot_find (file : string) : line :=
  Text ("Cannot find: " ++ file)%string.

Section Files.

(** [utils.check_exist] and the parsers [read.vasprun], [read.OUTCAR] are
    not part of the modelled code: which files exist and what they parse to
    are parameters. *)
Variable check_exist : string -> bool.
Variable read_vasprun : string -> read.vasprun.
Variable read_OUTCAR : string -> read.OUTCAR.

(** The loop of lines 26-31 from the element [vaspruns] on: [loaded] is
    [self.vasprun] so far, [out] the lines printed so far.  Returning before
    the end of the list is the [break]. *)
Fixpoint load_vaspruns (path : string) (vaspruns : list value)
         (loaded : list read.vasprun) (out : list line)
  : list read.vasprun * list line * result unit :=
  match vaspruns with
  | [] => (loaded, out, Ok tt)
  | Str xml :: rest =>
      let xml_file := xml_file path xml in
      if negb (check_exist xml_file)
      then (loaded, out ++ [cannot_find xml_file], Ok tt)
      else load_vaspruns path rest (loaded ++ [read_vasprun xml_file]) out
  | _ :: _ => (loaded, out, Raise TypeError)
  end.

(** The loop of lines 39-45; [use] is [self.useOUTCAR]. *)
Fixpoint load_outcars (path : string) (outcars : list value)
         (loaded : list read.OUTCAR) (use : option bool) (out : list line)
  : list read.OUTCAR * option bool * list line * result unit :=
  match outcars with
  | [] => (loaded, use, out, Ok tt)
  | Str outcar :: rest =>
      let outcar_file := outcar_file path outcar in
      if negb (check_exist outcar_file)
      then (loaded, use, out ++ [cannot_find outcar_file], Ok tt)
      else load_outcars path rest (loaded ++ [read_OUTCAR outcar_file])
                        (Some true) out
  | _ :: _ => (loaded, use, out, Raise TypeError)
  end.

Definition is_None (v : value) : bool :=
  match v with None_ => true | _ => false end.

(** [VASP.__init__(path, vaspruns, outcars)] *)
Definition init (path : string) (vaspruns outcars : value)
  : object * result unit :=
  match vaspruns with
  | Str name =>
      let v := read_vasprun (xml_file path name) in
      let o := Build_object (Some (One v)) (Some v) (Some false) NoOutcar [] in
      match outcars with
      | None_ => (o, Ok tt)
      | Str file =>
          (Build_object (Some (One v)) (Some v) (Some true)
                        (OneOutcar (read_OUTCAR file)) [], Ok tt)
      | _ => (o, Raise TypeError)
      end
  | List_ names =>
      let '(loaded, out, r) := load_vaspruns path names [] [] in
      let o := Build_object (Some (Many loaded)) None None NoOutcar out in
      match r with
      | Raise e => (o, Raise e)
      | Ok _ =>
          match getitem loaded 0 with
          | Raise e => (o, Raise e)
          | Ok v0 =>
              let o := Build_object (Some (Many loaded)) (Some v0) None NoOutcar out in
              match outcars with
              | None_ => (o, Ok tt)
              | List_ files =>
                  if negb (Nat.eqb (length files) (length names))
                  then (o, Raise AssertionError)
                  else
                    let '(os, use, out', r) := load_outcars path files [] None out in
                    (Build_object (Some (Many loaded)) (Some v0) use
                                  (ManyOutcar os) out', r)
              | _ => (o, Raise AssertionError)
              end
          end
      end
  | _ =>
      (Build_object None None None NoOutcar
                    [Text "Provide a string or a list of names for *.xml file"%string],
       Ok tt)
  end.

End Files.

End Init.

(* ================================================================== *)
(** * mcu.vasp.main: VASP._generate_pband *)
(* ================================================================== *)

Module Pband.
Import Py.

(** [s.split(sep)] for a one-character separator. *)
Fixpoint split (sep : ascii) (s : string) : list string :=
  match s with
  | EmptyString => [EmptyString]
  | String c rest =>
      if Ascii.eqb c sep then EmptyString :: split sep rest
      else match split sep rest with
           | [] => [String c EmptyString]
           | h :: t => String c h :: t
           end
  end.

(** [x in l] and [l.index(x)] on a list of strings. *)
Definition mem (x : string) (l : list string) : bool :=
  existsb (String.eqb x) l.

Fixpoint index_from (n : nat) (x : string) (l : list string) : result nat :=
  match l with
  | [] => Raise ValueError
  | y :: t => if String.eqb y x then Ok n else index_from (S n) x t
  end.

Definition index (l : list string) (x : string) : result nat := index_from 0 x l.

(** [v in lm_list] for any value [v]: only a str can be equal to a label. *)
Definition known (lm_list : list string) (v : value) : bool :=
  match v with
  | Str s => mem s lm_list
  | _ => false
  end.

Definition strs (l : list string) : value := List_ (map Str l).

Definition p_orbitals : list string := ["px"; "py"; "pz"]%string.
Definition d_orbitals : list string := ["dxy"; "dyz"; "dz2"; "dxz"; "dx2-y2"]%string.

Definition lm_shortcut_1 : list string :=
  ["p"; "d"; "sp"; "ps"; "pd"; "dp"; "sd"; "ds";
   "spd"; "sdp"; "psd"; "pds"; "dsp"; "dps"]%string.

Definition lm_shortcut_3 : list string := ["sp"; "sd"; "pd"]%string.

(** The expansion of a shortcut of style 1 (lines 392-421). *)
Definition expand_1 (lm : string) : list value :=
  let s := Str "s" in
  let p := strs p_orbitals in
  let d := strs d_orbitals in
  if String.eqb lm "p" then [p]
  else if String.eqb lm "d" then [d]
  else if String.eqb lm "sp" then [s; p]
  else if String.eqb lm "ps" then [p; s]
  else if String.eqb lm "sd" then [s; d]
  else if String.eqb lm "ds" then [d; s]
  else if String.eqb lm "pd" then [p; d]
  else if String.eqb lm "dp" then [d; p]
  else if String.eqb lm "spd" then [s; p; d]
  else if String.eqb lm "sdp" then [s; d; p]
  else if String.eqb lm "psd" then [p; s; d]
  else if String.eqb lm "pds" then [p; d; s]
  else if String.eqb lm "dsp" then [d; s; p]
  else if String.eqb lm "dps" then [d; p; s]
  else [Str lm].

(** The check of a list [lm] (lines 423-430 and 512-519): every str entry,
    and every member of every other entry, must be in [lm_list]. *)
Definition check_item (lm_list : list string) (lm : value) (each_lm : value)
  : result unit :=
  match each_lm with
  | Str s =>
      if negb (mem s lm_list)
      then Raise (Exception [Str "WARNING:"; lm;
                             Str "is not recognizable. lm must be one of these";
                             strs lm_list])
      else Ok tt
  | List_ orbs =>
      foldM (fun _ orb =>
               if negb (known lm_list orb)
               then Raise (Exception [Str "WARNING:"; orb;
                                      Str "is not recognizable. lm must be one of these";
                                      strs lm_list])
               else Ok tt) orbs tt
  | _ => Raise TypeError
  end.

Definition check_list (lm_list : list string) (lm : value) (items : list value)
  : result unit :=
  foldM (fun _ each_lm => check_item lm_list lm each_lm) items tt.

(** The parsing of one 'atom:orbitals' label of style 2 (lines 452-461). *)
Definition expand_2 (lm_ : list string) : list string :=
  flat_map (fun o => if String.eqb o "p" then p_orbitals
                     else if String.eqb o "d" then d_orbitals
                     else [o]) lm_.

Definition parse_label (lm : string) : result (string * list string) :=
  match split ":" lm with
  | [atom; lm_] => Ok (atom, expand_2 (split "," lm_))
  | _ => Raise ValueError
  end.

Section Floats.

(** The float type and its operations are those of numpy; nothing below
    depends on what they compute.  [fzero] is the 0 a sum starts from. *)
Variable F : Type.
Variable fadd : F -> F -> F.
Variable fdiv : F -> F -> F.
Variable fzero : F.

(** What [_generate_pband] may return. *)
Inductive ndarray : Type :=
| Arr0 (x : F)
| Arr1 (v : list F)
| Arr2 (g : list (list F))
| Arr3 (c : list (list (list F))).

(** A running sum that starts as the int 0 and becomes an array with the
    first [+=]. *)
Inductive running (A : Type) : Type :=
| Zero
| Sum (a : A).
Arguments Zero {A}.
Arguments Sum {A} a.

Definition map2 {A} (f : A -> A -> A) (a b : list A) : list A :=
  map (fun xy => f (fst xy) (snd xy)) (combine a b).

Definition grid : Type := list (list F).

Definition grid_add : grid -> grid -> grid := map2 (map2 fadd).
Definition grid_div : grid -> grid -> grid := map2 (map2 fdiv).

Definition add_grid (acc : running grid) (g : grid) : running grid :=
  match acc with
  | Zero => Sum (map (map (fadd fzero)) g)
  | Sum a => Sum (grid_add a g)
  end.

Definition vsum (v : list F) : F := fold_left fadd v fzero.

(** [a.sum(axis=2)] of [a[kpt][band][atom][lm]]: the sum over the atoms. *)
Definition sum_atoms (nlm : nat) (a : list (list (list (list F))))
  : list (list (list F)) :=
  map (map (fun rows => fold_left (map2 fadd) rows (repeat fzero nlm))) a.

(** [a[:,:,idx]] of [a[kpt][band][lm]] *)
Definition column (a : list (list (list F))) (idx : nat) : result grid :=
  mapM (mapM (fun v => getitem v (Z.of_nat idx))) a.

(** [np.asarray(pband)]: arrays of one shape stack, ints make a vector, a
    mix is refused (numpy 1.24 and later). *)
Definition asarray (pband : list (running grid)) : result ndarray :=
  if forallb (fun p => match p with Sum _ => true | Zero => false end) pband
  then Ok (Arr3 (flat_map (fun p => match p with Sum g => [g] | Zero => [] end) pband))
  else if forallb (fun p => match p with Zero => true | Sum _ => false end) pband
       then Ok (Arr1 (map (fun _ => fzero) pband))
       else Raise ValueError.

(** The loop of lines 438-447 ([per_total] is [Some total] in style 1) and
    of lines 526-535 ([None], style 3). *)
Definition projection (lm_list : list string) (proj_wf : list (list (list F)))
           (per_total : option grid) (each_lm : value) : result (running grid) :=
  let scaled (g : grid) := match per_total with
                           | Some total => grid_div g total
                           | None => g
                           end in
  match each_lm with
  | Str s =>
      (idx_lm <- index lm_list s ;;
       g <- column proj_wf idx_lm ;;
       Ok (Sum (scaled g)))%py
  | List_ orbs =>
      foldM (fun proj_val orb =>
               match orb with
               | Str o =>
                   (idx_lm <- index lm_list o ;;
                    g <- column proj_wf idx_lm ;;
                    Ok (add_grid proj_val (scaled g)))%py
               | _ => Raise ValueError
               end) orbs Zero
  | _ => Raise TypeError
  end.

(** Lines 484-494: one entry of [pband] per (atom, orbitals) label. *)
Definition projection_2 (lm_list atom : list string)
           (proj_wf : list (list (list (list F)))) (total : grid)
           (label : string * list string) : result grid :=
  (let '(a, lms) := label in
   let idx_atom := filter (fun idx => String.eqb a (nth idx atom EmptyString))
                          (range (length atom)) in
   idx_lm <- mapM (index lm_list) lms ;;
   proj_val_atom <-
     foldM (fun acc idx =>
              sl <- mapM (mapM (fun rows => getitem rows (Z.of_nat idx))) proj_wf ;;
              Ok (match acc with
                  | Zero => Sum (map (map (map (fadd fzero))) sl)
                  | Sum c => Sum (map2 (map2 (map2 fadd)) c sl)
                  end)) idx_atom Zero ;;
   proj_val <-
     foldM (fun acc idx =>
              match proj_val_atom with
              | Zero => Raise TypeError
              | Sum c => g <- column c idx ;; Ok (add_grid acc g)
              end) idx_lm Zero ;;
   Ok (match proj_val with
       | Zero => map (map (fdiv fzero)) total
       | Sum g => grid_div g total
       end))%py.

(** [_generate_pband], lines 385-541: [proj_wf] and [lm_list] are what
    lines 363-382 collected for the chosen spin channel, [atom] is
    [self.atom], and [one_run] tells whether [self.vasprun] is a single run
    (it must be, for [self.vasprun.atom] in style 2). *)
Definition generate_pband (one_run : bool) (atom lm_list : list string)
           (proj_wf : list (list (list (list F)))) (style : Z) (lm : value)
  : result ndarray :=
  let nlm := length lm_list in
  (if (style =? 1)%Z then
     let lm_shortcut := lm_shortcut_1 in
     items <-
       match lm with
       | Str s =>
           if (negb (mem s lm_list) && negb (mem s lm_shortcut))%bool
           then Raise (Exception [Str "WARNING:"; lm;
                                  Str "is not recognizable. lm must be";
                                  strs lm_list; strs lm_shortcut])
           else Ok (expand_1 s)
       | List_ items => check_list lm_list lm items ;;; Ok items
       | _ => Raise (Exception [Str "lm is not recognizable"])
       end ;;
     let proj_wf := sum_atoms nlm proj_wf in
     let total := map (map vsum) proj_wf in
     pband <- mapM (projection lm_list proj_wf (Some total)) items ;;
     asarray pband
   else if (style =? 2)%Z then
     labels <-
       match lm with
       | Str s => label <- parse_label s ;; Ok [label]
       | List_ items =>
           (if one_run then Ok tt else Raise AttributeError) ;;;
           mapM (fun orb => match orb with
                            | Str s => parse_label s
                            | _ => Raise AttributeError
                            end) items
       | _ => Raise UnboundLocalError
       end ;;
     let total := map (map (fun rows => vsum (map vsum rows))) proj_wf in
     pband <- mapM (projection_2 lm_list atom proj_wf total) labels ;;
     Ok (Arr3 pband)
   else if (style =? 3)%Z then
     let lm_shortcut := lm_shortcut_3 in
     items <-
       match lm with
       | Str s =>
           if negb (mem s lm_shortcut)
           then Raise (Exception [Str "WARNING:"; lm;
                                  Str "is not recognizable. lm must be";
                                  strs lm_shortcut])
           else if String.eqb s "sp" then Ok [Str "s"; strs p_orbitals]
           else if String.eqb s "sd" then Ok [Str "s"; strs d_orbitals]
           else if String.eqb s "pd" then Ok [strs p_orbitals; strs d_orbitals]
           else Raise (Exception [Str "WARNING:"; lm;
                                  Str "is not recognizable. lm must be one of these";
                                  strs lm_shortcut; Str "or a list"])
       | List_ items =>
           assert (Nat.eqb (length items) 2) ;;;
           check_list lm_list lm items ;;; Ok items
       | _ => Raise (Exception [Str "lm is not recognizable"])
       end ;;
     let proj_wf := sum_atoms nlm proj_wf in
     pband <- mapM (projection lm_list proj_wf None) items ;;
     pband <- asarray pband ;;
     match pband with
     | Arr3 (first :: rest) =>
         Ok (Arr2 (grid_div first (fold_left grid_add rest first)))
     | Arr1 (first :: rest) =>
         Ok (Arr0 (fdiv first (fold_left fadd rest first)))
     | _ => Raise IndexError
     end
   else Raise (Exception [Str "mcu currently supports only style: 0,1,2"]))%py.

End Floats.

End Pband.

(* ================================================================== *)
(** * Floating-point numbers *)
(* ================================================================== *)

(** The functions of [pywannier90_vasp.py] compute with numpy floats.  They
    are written against the operations numpy provides, an interface: what is
    proved of their control flow holds for every implementation of it, and
    what depends on arithmetic is proved for the exact one ([Exact] below). *)
Class Floating (F : Type) : Type := {
  lit : Q -> F;                 (* a literal: 2, 0.5, 1e-8, 3/2 *)
  pi : F;                       (* np.pi *)
  fadd : F -> F -> F;
  fsub : F -> F -> F;
  fneg : F -> F;                (* -x *)
  fmul : F -> F -> F;
  fdiv : F -> F -> F;
  fpow : F -> F -> F;           (* x ** y, y a float *)
  fpowi : F -> Z -> F;          (* x ** n, n an int *)
  fsqrt : F -> F;               (* np.sqrt *)
  fexp : F -> F;                (* np.exp *)
  fcos : F -> F;
  fsin : F -> F;
  farccos : F -> F;
  farctan : F -> F;
  fsign : F -> F;               (* np.sign *)
  fltb : F -> F -> bool;        (* x < y *)
  feqb : F -> F -> bool         (* x == y *)
}.

Declare Scope float_scope.
Delimit Scope float_scope with fl.
Notation "x + y" := (fadd x y) : float_scope.
Notation "x - y" := (fsub x y) : float_scope.
Notation "x * y" := (fmul x y) : float_scope.
Notation "x / y" := (fdiv x y) : float_scope.
Notation "x ** y" := (fpow x y) (at level 30, right associativity) : float_scope.
Notation "x ^ n" := (fpowi x n) : float_scope.
Notation "- x" := (fneg x) : float_scope.
Notation "x <? y" := (fltb x y) : float_scope.

(* ================================================================== *)
(** * mcu.wannier90.pywannier90_vasp: projection functions *)
(* ================================================================== *)

Module pywannier90.
Import Py.

Section Projections.

Context {F : Type} {num : Floating F}.
Local Open Scope float_scope.

(** A vector of three floats, a 3x3 matrix by rows, an array along the grid
    points. *)
Definition vec : Type := (F * F * F)%type.
Definition matrix : Type := (vec * vec * vec)%type.

Definition vx (v : vec) : F := fst (fst v).
Definition vy (v : vec) : F := snd (fst v).
Definition vz (v : vec) : F := snd v.

Definition dot (a b : vec) : F := vx a * vx b + vy a * vy b + vz a * vz b.

(** [np.linalg.norm] *)
Definition norm (v : vec) : F := fsqrt (vx v * vx v + vy v * vy v + vz v * vz v).

(** [np.cross] *)
Definition cross (a b : vec) : vec :=
  (vy a * vz b - vz a * vy b,
   vz a * vx b - vx a * vz b,
   vx a * vy b - vy a * vx b).

Definition scale_inv (v : vec) (n : F) : vec := (vx v / n, vy v / n, vz v / n).

(** [angle(v1, v2)] *)
Definition angle (v1 v2 : vec) : F :=
  let cosa := dot v1 v2 / norm v1 / norm v2 in
  farccos cosa.

(** [transform(x_vec, z_vec)]: the matrix returned, [tran_matrix.T], has
    [cos(angle(original[v], new[u]))] in row [u], column [v].  The assert
    compares the computed scalar product with 0: which axes pass depends on
    the implementation of the float operations. *)
Definition transform (x_vec z_vec : vec) : result matrix :=
  let x_vec := scale_inv x_vec (norm x_vec) in
  let z_vec := scale_inv z_vec (norm z_vec) in
  (assert (feqb (dot x_vec z_vec) (lit 0)) ;;;
   let y_vec := cross x_vec z_vec in
   let e0 : vec := (lit 1, lit 0, lit 0) in
   let e1 : vec := (lit 0, lit 1, lit 0) in
   let e2 : vec := (lit 0, lit 0, lit 1) in
   let row (n : vec) : vec :=
     (fcos (angle e0 n), fcos (angle e1 n), fcos (angle e2 n)) in
   Ok (row x_vec, row y_vec, row z_vec))%py.

(** [R_r(r_norm, r, zona)] on one radius; on an array it acts entry by
    entry. *)
Definition R_r (r_norm : F) (r : Z) (zona : F) : F :=
  if (r =? 1)%Z then
    lit 2 * zona ** lit (3 # 2) * fexp (- zona * r_norm)
  else if (r =? 2)%Z then
    lit 1 / lit 2 / fsqrt (lit 2) * zona ** lit (3 # 2)
    * (lit 2 - zona * r_norm) * fexp (- zona * r_norm / lit 2)
  else
    fsqrt (lit 4 / lit 27) * zona ** lit (3 # 2)
    * (lit 1 - lit 2 * zona * r_norm / lit 3
       + lit 2 * (zona ^ 2) * (r_norm ^ 2) / lit 27)
    * fexp (- zona * r_norm / lit 3).

(** Arrays along the grid points.  [a +: b], [a -: b], [c *: a] are numpy's
    [a + b], [a - b] and [c * a] on arrays of one shape. *)
Definition zip_with (f : F -> F -> F) (a b : list F) : list F :=
  map (fun xy => f (fst xy) (snd xy)) (combine a b).

Local Notation "a +: b" := (zip_with fadd a b) (at level 50, left associativity).
Local Notation "a -: b" := (zip_with fsub a b) (at level 50, left associativity).
Local Notation "c *: a" := (map (fmul c) a) (at level 40, left associativity).

(** [theta(func, cost, phi)].  [cost] and [phi] are arrays of one shape,
    as [g_r] passes them; another name than the sixteen below leaves the
    local [theta] unassigned.  Arrays of two different lengths are refused
    with ValueError as numpy does, except that numpy stretches an array of
    length 1 to the length of the other, which is not modelled. *)
Definition theta (func : string) (cost phi : list F) : result (list F) :=
  let of_cost (f : F -> F) : result (list F) := Ok (map f cost) in
  let of_both (f : F -> F -> F) : result (list F) :=
    if Nat.eqb (length cost) (length phi) then Ok (zip_with f cost phi)
    else Raise ValueError in
  let sint (c : F) : F := fsqrt (lit 1 - c ^ 2) in
  if String.eqb func "s" then
    of_cost (fun _ => lit 1 / fsqrt (lit 4 * pi) * lit 1)
  else if String.eqb func "pz" then
    of_cost (fun c => fsqrt (lit 3 / lit 4 / pi) * c)
  else if String.eqb func "px" then
    of_both (fun c p => fsqrt (lit 3 / lit 4 / pi) * sint c * fcos p)
  else if String.eqb func "py" then
    of_both (fun c p => fsqrt (lit 3 / lit 4 / pi) * sint c * fsin p)
  else if String.eqb func "dz2" then
    of_cost (fun c => fsqrt (lit 5 / lit 16 / pi) * (lit 3 * c ^ 2 - lit 1))
  else if String.eqb func "dxz" then
    of_both (fun c p => fsqrt (lit 15 / lit 4 / pi) * sint c * c * fcos p)
  else if String.eqb func "dyz" then
    of_both (fun c p => fsqrt (lit 15 / lit 4 / pi) * sint c * c * fsin p)
  else if String.eqb func "dx2-y2" then
    of_both (fun c p => fsqrt (lit 15 / lit 16 / pi) * (sint c ^ 2)
                        * fcos (lit 2 * p))
  else if String.eqb func "pxy" then
    of_both (fun c p => fsqrt (lit 15 / lit 16 / pi) * (sint c ^ 2)
                        * fsin (lit 2 * p))
  else if String.eqb func "fz3" then
    of_cost (fun c => fsqrt (lit 7) / lit 4 / fsqrt pi
                      * (lit 5 * c ^ 3 - lit 3 * c))
  else if String.eqb func "fxz2" then
    of_both (fun c p => fsqrt (lit 21) / lit 4 / fsqrt (lit 2 * pi)
                        * (lit 5 * c ^ 2 - lit 1) * sint c * fcos p)
  else if String.eqb func "fyz2" then
    of_both (fun c p => fsqrt (lit 21) / lit 4 / fsqrt (lit 2 * pi)
                        * (lit 5 * c ^ 2 - lit 1) * sint c * fsin p)
  else if String.eqb func "fz(x2-y2)" then
    of_both (fun c p => fsqrt (lit 105) / lit 4 / fsqrt pi
                        * sint c ^ 2 * c * fcos (lit 2 * p))
  else if String.eqb func "fxyz" then
    of_both (fun c p => fsqrt (lit 105) / lit 4 / fsqrt pi
                        * sint c ^ 2 * c * fsin (lit 2 * p))
  else if String.eqb func "fx(x2-3y2)" then
    of_both (fun c p => fsqrt (lit 35) / lit 4 / fsqrt (lit 2 * pi)
                        * sint c ^ 3
                        * (fcos p ^ 2 - lit 3 * fsin p ^ 2) * fcos p)
  else if String.eqb func "fy(3x2-y2)" then
    of_both (fun c p => fsqrt (lit 35) / lit 4 / fsqrt (lit 2 * pi)
                        * sint c ^ 3
                        * (lit 3 * fcos p ^ 2 - fsin p ^ 2) * fsin p)
  else Raise UnboundLocalError.

(** The if/elif chain of [theta_lmr] (lines 185-260), in order: the test
    of each branch and what it assigns to the local [theta_lmr].  The two
    sp3d branches for mr = 4 and 5 apply the float [np.sqrt(2)] to the sum
    in brackets. *)
Definition branch : Type :=
  ((Z -> Z -> bool) * (list F -> list F -> result (list F)))%type.

Definition at_ (l0 mr0 : Z) : Z -> Z -> bool :=
  fun l mr => ((l =? l0)%Z && (mr =? mr0)%Z)%bool.

Definition plain (func : string) : list F -> list F -> result (list F) :=
  fun cost phi => theta func cost phi.

Definition sp2_like (a b c : F) (sign : bool)
  : list F -> list F -> result (list F) :=
  fun cost phi =>
    (s <- theta "s" cost phi ;;
     px <- theta "px" cost phi ;;
     py <- theta "py" cost phi ;;
     Ok (if sign then a *: s -: b *: px +: c *: py
         else a *: s -: b *: px -: c *: py))%py.

Definition sp2_third : list F -> list F -> result (list F) :=
  fun cost phi =>
    (s <- theta "s" cost phi ;;
     px <- theta "px" cost phi ;;
     Ok ((lit 1 / fsqrt (lit 3)) *: s +: (lit 2 / fsqrt (lit 6)) *: px))%py.

Definition sp3 (s_px s_py s_pz : bool) : list F -> list F -> result (list F) :=
  fun cost phi =>
    (s <- theta "s" cost phi ;;
     px <- theta "px" cost phi ;;
     py <- theta "py" cost phi ;;
     pz <- theta "pz" cost phi ;;
     let t1 := if s_px then s +: px else s -: px in
     let t2 := if s_py then t1 +: py else t1 -: py in
     let t3 := if s_pz then t2 +: pz else t2 -: pz in
     Ok ((lit 1 / lit 2) *: t3))%py.

Definition not_callable : list F -> list F -> result (list F) :=
  fun cost phi =>
    (pz <- theta "pz" cost phi ;;
     dz2 <- theta "dz2" cost phi ;;
     Raise TypeError)%py.

Definition sp3d2_xy (p : string) (plus_p plus_d : bool)
  : list F -> list F -> result (list F) :=
  fun cost phi =>
    (s <- theta "s" cost phi ;;
     pp <- theta p cost phi ;;
     dz2 <- theta "dz2" cost phi ;;
     dx2 <- theta "dx2-y2" cost phi ;;
     let a := (lit 1 / fsqrt (lit 6)) *: s in
     let b := (lit 1 / fsqrt (lit 2)) *: pp in
     let c := (lit 1 / fsqrt (lit 12)) *: dz2 in
     let d := (lit 1 / lit 2) *: dx2 in
     let t1 := if plus_p then a +: b else a -: b in
     let t2 := t1 -: c in
     Ok (if plus_d then t2 +: d else t2 -: d))%py.

Definition sp3d2_z (plus_p : bool) : list F -> list F -> result (list F) :=
  fun cost phi =>
    (s <- theta "s" cost phi ;;
     pz <- theta "pz" cost phi ;;
     dz2 <- theta "dz2" cost phi ;;
     let a := (lit 1 / fsqrt (lit 6)) *: s in
     let b := (lit 1 / fsqrt (lit 2)) *: pz in
     let c := (lit 1 / fsqrt (lit 3)) *: dz2 in
     Ok (if plus_p then a +: b +: c else a -: b +: c))%py.

Definition sp_ (plus : bool) : list F -> list F -> result (list F) :=
  fun cost phi =>
    (s <- theta "s" cost phi ;;
     px <- theta "px" cost phi ;;
     Ok ((lit 1 / fsqrt (lit 2)) *: (if plus then s +: px else s -: px)))%py.

Definition branches : list branch :=
  let r3 := lit 1 / fsqrt (lit 3) in
  let r6 := lit 1 / fsqrt (lit 6) in
  let r2 := lit 1 / fsqrt (lit 2) in
  [ (fun l _ => (l =? 0)%Z, plain "s");
    (at_ 1 1, plain "pz");
    (at_ 1 2, plain "px");
    (at_ 1 3, plain "py");
    (at_ 2 1, plain "dz2");
    (at_ 2 2, plain "dxz");
    (at_ 2 3, plain "dyz");
    (at_ 2 4, plain "dx2-y2");
    (at_ 2 5, plain "pxy");
    (at_ 3 1, plain "fz3");
    (at_ 3 2, plain "fxz2");
    (at_ 3 3, plain "fyz2");
    (at_ 3 4, plain "fz(x2-y2)");
    (at_ 3 5, plain "fxyz");
    (at_ 3 6, plain "fx(x2-3y2)");
    (at_ 3 7, plain "fy(3x2-y2)");
    (at_ (-1) 1, sp_ true);
    (at_ (-1) 2, sp_ false);
    (at_ (-2) 1, sp2_like r3 r6 r2 true);
    (at_ (-2) 2, sp2_like r3 r6 r2 false);
    (at_ (-2) 3, sp2_third);
    (at_ (-3) 1, sp3 true true true);
    (at_ (-3) 2, sp3 true false false);
    (at_ (-3) 3, sp3 false true false);
    (at_ (-3) 4, sp3 false false true);
    (at_ (-4) 1, sp2_like r3 r6 r2 true);
    (at_ (-4) 2, sp2_like r3 r6 r2 false);
    (at_ (-4) 3, sp2_third);
    (at_ (-4) 4, not_callable);
    (at_ (-4) 5, not_callable);
    (at_ (-5) 1, sp3d2_xy "px" false true);
    (at_ (-5) 2, sp3d2_xy "px" true true);
    (at_ (-5) 3, sp3d2_xy "py" false false);
    (at_ (-5) 4, sp3d2_xy "py" true false);
    (at_ (-5) 5, sp3d2_z false);
    (at_ (-5) 6, sp3d2_z true) ].

Definition Z_in (x : Z) (l : list Z) : bool := existsb (Z.eqb x) l.

(** [theta_lmr(l, mr, cost, phi)]: the two asserts, then the first branch
    whose test holds; when none does the local [theta_lmr] is returned
    unassigned. *)
Definition theta_lmr (l mr : Z) (cost phi : list F) : result (list F) :=
  (assert (Z_in l [0; 1; 2; 3; -1; -2; -3; -4; -5]%Z) ;;;
   assert (Z_in mr [1; 2; 3; 4; 5; 6; 7]%Z) ;;;
   match find (fun b : branch => fst b l mr) branches with
   | Some b => snd b cost phi
   | None => Raise UnboundLocalError
   end)%py.

(** ** g_r *)

Definition sub_vec (a b : vec) : vec := (vx a - vx b, vy a - vy b, vz a - vz b).

Definition sub_scalar (a : vec) (c : F) : vec := (vx a - c, vy a - c, vz a - c).

(** One row of [np.einsum('iv,uv ->iu', r_vec, T)] *)
Definition rotate (T : matrix) (r : vec) : vec :=
  let '(t0, t1, t2) := T in (dot r t0, dot r t1, dot r t2).

(** Lines 281-287: the vectors from the site to the grid points in the
    frame of the projection, and their lengths, after the shift of 1e-5
    that is applied when some length is below 1e-8. *)
Definition frame (grids_coor : list vec) (site x_axis z_axis : vec)
  : result (list vec * list F) :=
  (T <- transform x_axis z_axis ;;
   let r_vec := map (fun p => rotate T (sub_vec p site)) grids_coor in
   let r_norm := map norm r_vec in
   if existsb (fun n => n <? lit (1 # 100000000)) r_norm then
     T <- transform x_axis z_axis ;;
     let r_vec := map (fun p => rotate T (sub_scalar (sub_vec p site)
                                                     (lit (1 # 100000))))
                      grids_coor in
     Ok (r_vec, map norm r_vec)
   else Ok (r_vec, r_norm))%py.

(** Lines 290-297, for one grid point. *)
Definition phi_of (r : vec) : F :=
  if lit (1 # 100000000) <? vx r then farctan (vy r / vx r)
  else if vx r <? - lit (1 # 100000000) then farctan (vy r / vx r) + pi
  else fsign (vy r) * lit (1 # 2) * pi.

(** [const.AUTOA], the Bohr radius in Angstrom, is declared in mcu.vasp and
    not part of the modelled code. *)
Variable AUTOA : F.

Definition g_r (grids_coor : list vec) (site : vec) (l mr r : Z) (zona : F)
           (x_axis z_axis : vec) (unit : string) : result (list F) :=
  let unit_conv := if String.eqb unit "A" then AUTOA else lit 1 in
  (fr <- frame grids_coor site x_axis z_axis ;;
   let '(r_vec, r_norm) := fr in
   let cost := zip_with fdiv (map vz r_vec) r_norm in
   let phi := map phi_of r_vec in
   th <- theta_lmr l mr cost phi ;;
   Ok (zip_with fmul th (map (fun n => R_r (n / unit_conv) r zona) r_norm)))%py.

End Projections.

End pywannier90.

(* ================================================================== *)
(** * Exact arithmetic *)
(* ================================================================== *)

(** The implementation of the float interface without rounding: a float
    is a real number, or [None] for what numpy calls nan or inf (the result
    of a division by zero, of a root of a negative number, ...).  [None]
    propagates through every operation and compares false with everything.
    A value that numpy would bring back from inf to a finite number (1/inf)
    stays [None] here.  Nothing is rounded: a test for equality or a bound
    that holds of the real numbers can fail of the floats that numpy
    computes (the scalar product of two orthogonal unit vectors need not be
    0.0, the quotient of a scalar product by the two norms can exceed 1.0),
    so that what is proved with this implementation on whether an assert
    passes or an arccos is nan is proved of the formulas, not of every
    run. *)
Module Exact.

Definition float : Type := option R.

Definition lift1 (f : R -> R) (a : float) : float :=
  match a with Some x => Some (f x) | None => None end.

Definition lift2 (f : R -> R -> R) (a b : float) : float :=
  match a, b with Some x, Some y => Some (f x y) | _, _ => None end.

Definition div (a b : float) : float :=
  match a, b with
  | Some x, Some y => if Req_dec_T y 0 then None else Some (x / y)%R
  | _, _ => None
  end.

Definition sqrt_ (a : float) : float :=
  match a with
  | Some x => if Rlt_dec x 0 then None else Some (sqrt x)
  | None => None
  end.

Definition arccos (a : float) : float :=
  match a with
  | Some x => if Rle_dec (-1) x
              then if Rle_dec x 1 then Some (acos x) else None
              else None
  | None => None
  end.

(** x ** y for a float y: defined for a positive base, and for base 0 with
    a non-negative exponent. *)
Definition pow_ (a b : float) : float :=
  match a, b with
  | Some x, Some y =>
      if Rlt_dec 0 x then Some (Rpower x y)
      else if Req_dec_T x 0
           then if Rlt_dec 0 y then Some 0%R
                else if Req_dec_T y 0 then Some 1%R else None
           else None
  | _, _ => None
  end.

(** x ** n for an int n *)
Definition powi (a : float) (n : Z) : float :=
  match a with
  | Some x =>
      if (0 <=? n)%Z then Some (x ^ Z.to_nat n)%R
      else if Req_dec_T x 0 then None else Some (powerRZ x n)
  | None => None
  end.

Definition sign (a : float) : float :=
  match a with
  | Some x => if Rlt_dec x 0 then Some (-1)%R
              else if Rlt_dec 0 x then Some 1%R else Some 0%R
  | None => None
  end.

Definition ltb (a b : float) : bool :=
  match a, b with
  | Some x, Some y => if Rlt_dec x y then true else false
  | _, _ => false
  end.

Definition eqb (a b : float) : bool :=
  match a, b with
  | Some x, Some y => if Req_dec_T x y then true else false
  | _, _ => false
  end.

#[export] Instance exact : Floating (option R) := {
  lit q := Some (Q2R q);
  pi := Some PI;
  fadd := lift2 Rplus;
  fsub := lift2 Rminus;
  fneg := lift1 Ropp;
  fmul := lift2 Rmult;
  fdiv := div;
  fpow := pow_;
  fpowi := powi;
  fsqrt := sqrt_;
  fexp := lift1 exp;
  fcos := lift1 cos;
  fsin := lift1 sin;
  farccos := arccos;
  farctan := lift1 atan;
  fsign := sign;
  fltb := ltb;
  feqb := eqb
}.

(** A point or a vector with real coordinates, as a vector of floats. *)
Definition point (x y z : R) : float * float * float := (Some x, Some y, Some z).

End Exact.

(* ================================================================== *)
(** * Complex numbers in exact arithmetic *)
(* ================================================================== *)

(** A numpy complex128 without rounding: a pair of reals, or [None] when a
    part is nan or inf. *)
Module ExactComplex.
Local Open Scope R_scope.

Definition complex : Type := option (R * R).

Definition conj (z : complex) : complex :=
  match z with Some (a, b) => Some (a, - b) | None => None end.

Definition mul (z w : complex) : complex :=
  match z, w with
  | Some (a, b), Some (c, d) => Some (a * c - b * d, a * d + b * c)
  | _, _ => None
  end.

(** [z / w]; a zero divisor gives nan or inf. *)
Definition div (z w : complex) : complex :=
  match z, w with
  | Some (a, b), Some (c, d) =>
      if Req_dec_T (c * c + d * d) 0 then None
      else Some ((a * c + b * d) / (c * c + d * d),
                 (b * c - a * d) / (c * c + d * d))
  | _, _ => None
  end.

(** [z.real], [z.imag], [np.absolute(z)] *)
Definition real (z : complex) : option R :=
  match z with Some (a, _) => Some a | None => None end.

Definition imag (z : complex) : option R :=
  match z with Some (_, b) => Some b | None => None end.

Definition absolute (z : complex) : option R :=
  match z with Some (a, b) => Some (sqrt (a * a + b * b)) | None => None end.

(** A float or an int where a complex number is expected. *)
Definition of_float (x : option R) : complex :=
  match x with Some a => Some (a, 0) | None => None end.

Definition of_int (n : Z) : complex := Some (IZR n, 0).

(** [np.argmax] on floats: the first nan if there is one, else the first
    occurrence of the maximum. *)
Fixpoint argmax_from (best_i : nat) (best : option R) (i : nat)
         (l : list (option R)) : nat :=
  match best with
  | None => best_i
  | Some b =>
      match l with
      | [] => best_i
      | None :: _ => i
      | Some x :: t =>
          if Rlt_dec b x then argmax_from i (Some x) (S i) t
          else argmax_from best_i best (S i) t
      end
  end.

Definition argmax (l : list (option R)) : Py.result nat :=
  match l with
  | [] => Py.Raise Py.ValueError
  | x :: t => Py.Ok (argmax_from 0 x 1 t)
  end.

End ExactComplex.

(* ================================================================== *)
(** * str and float: splitting, formatting and parsing *)
(* ================================================================== *)

Module Str.

(** A str is the sequence of its code points, all below 256 here. *)
Definition newline : string := String "010"%char EmptyString.

Definition is_empty (s : string) : bool :=
  match s with EmptyString => true | _ => false end.

(** [c.isspace()] *)
Definition is_space (c : ascii) : bool :=
  let n := N_of_ascii c in
  ((9 <=? n) && (n <=? 13) || (28 <=? n) && (n <=? 32)
   || (n =? 133) || (n =? 160))%N.

(** [s.split()]: the maximal runs of characters that are not blank; [w] is
    the run read so far. *)
Fixpoint words (w s : string) : list string :=
  match s with
  | EmptyString => if is_empty w then [] else [w]
  | String c r =>
      if is_space c
      then if is_empty w then words EmptyString r
           else w :: words EmptyString r
      else words (w ++ String c EmptyString) r
  end.

Definition split (s : string) : list string := words EmptyString s.

Fixpoint spaces (n : nat) : string :=
  match n with
  | O => EmptyString
  | S k => String " " (spaces k)
  end.

(** The field width of a conversion: blanks on the left. *)
Definition rjust (width : nat) (s : string) : string :=
  spaces (width - String.length s) ++ s.

Definition digit (n : N) : ascii := ascii_of_N (48 + n).

(** The last [k] decimal digits of [n]. *)
Fixpoint last_digits (k : nat) (n : N) : string :=
  match k with
  | O => EmptyString
  | S k' => last_digits k' (n / 10) ++ String (digit (n mod 10)) EmptyString
  end.

Fixpoint count_digits (fuel : nat) (n : N) : nat :=
  match fuel with
  | O => 1
  | S f => if (n <? 10)%N then 1 else S (count_digits f (n / 10))
  end.

(** The decimal numeral of [n]. *)
Definition decimal (n : N) : string :=
  last_digits (count_digits (N.to_nat (N.size n)) n) n.

(** ['%d' % z] *)
Definition format_d (z : Z) : string :=
  match z with
  | Zneg p => "-" ++ decimal (Npos p)
  | _ => decimal (Z.to_N z)
  end.

End Str.

(** Python's floats are IEEE binary64 numbers: [S754_finite s m e] is
    (-1)^s * m * 2^e. *)
Module Binary64.
Import Py Str.

Definition float : Type := spec_float.
Definition prec : Z := 53.
Definition emax : Z := 1024.

(** A complex number: its real and its imaginary part. *)
Definition complex : Type := float * float.
Definition real (z : complex) : float := fst z.
Definition imag (z : complex) : float := snd z.

(** |m * 2^e| * 10^digits, rounded to the nearest integer, ties to even. *)
Definition scaled (digits : nat) (m : positive) (e : Z) : N :=
  let num := (Npos m * 10 ^ N.of_nat digits)%N in
  match e with
  | Zneg p =>
      let den := (2 ^ Npos p)%N in
      let q := (num / den)%N in
      let r := (num mod den)%N in
      if ((den <? 2 * r) || (2 * r =? den) && N.odd q)%N
      then (q + 1)%N else q
  | _ => (num * 2 ^ Z.to_N e)%N
  end.

Definition sign (s : bool) : string := if s then "-" else EmptyString.

(** [n] / 10^digits in fixed-point notation. *)
Definition fixed (digits : nat) (n : N) : string :=
  decimal (n / 10 ^ N.of_nat digits) ++
  match digits with
  | O => EmptyString
  | _ => "." ++ last_digits digits n
  end.

(** ['%.<digits>f' % x] *)
Definition numeral (digits : nat) (x : float) : string :=
  match x with
  | S754_nan => "nan"
  | S754_infinity s => sign s ++ "inf"
  | S754_zero s => sign s ++ fixed digits 0
  | S754_finite s m e => sign s ++ fixed digits (scaled digits m e)
  end.

(** ['%<width>.<digits>f' % x] *)
Definition format_f (width digits : nat) (x : float) : string :=
  rjust width (numeral digits x).

(** The float nearest to (-1)^s * n * 10^k, ties to even. *)
Definition nearest (s : bool) (n : N) (k : Z) : float :=
  match (n * 10 ^ Z.to_N k)%N, (10 ^ Z.to_N (- k))%N with
  | Npos a, Npos b =>
      SFdiv prec emax (S754_finite s a 0) (S754_finite false b 0)
  | _, _ => S754_zero s
  end.

Definition digit_value (c : ascii) : option N :=
  let n := N_of_ascii c in
  if ((48 <=? n) && (n <=? 57))%N then Some (n - 48)%N else None.

(** The number that a run of digits denotes, read after [acc]. *)
Fixpoint number (acc : N) (s : string) : option N :=
  match s with
  | EmptyString => Some acc
  | String c r =>
      match digit_value c with
      | Some d => number (10 * acc + d) r
      | None => None
      end
  end.

(** The part before the first character that satisfies [p], and the part
    after it if there is one. *)
Fixpoint break (p : ascii -> bool) (s : string) : string * option string :=
  match s with
  | EmptyString => (EmptyString, None)
  | String c r =>
      if p c then (EmptyString, Some r)
      else let '(a, b) := break p r in (String c a, b)
  end.

Definition sign_of (s : string) : bool * string :=
  match s with
  | String "-" r => (true, r)
  | String "+" r => (false, r)
  | _ => (false, s)
  end.

Definition lower (c : ascii) : ascii :=
  let n := N_of_ascii c in
  if ((65 <=? n) && (n <=? 90))%N then ascii_of_N (n + 32) else c.

Fixpoint lowercase (s : string) : string :=
  match s with
  | EmptyString => EmptyString
  | String c r => String (lower c) (lowercase r)
  end.

Definition is_e (c : ascii) : bool := Ascii.eqb (lower c) "e".
Definition is_dot (c : ascii) : bool := Ascii.eqb c ".".

Definition exponent (ex : option string) : option Z :=
  match ex with
  | None => Some 0%Z
  | Some t =>
      let '(s, d) := sign_of t in
      if is_empty d then None
      else match number 0 d with
           | Some v => Some (if s then (- Z.of_N v)%Z else Z.of_N v)
           | None => None
           end
  end.

(** [float(s)] for a str without blanks and underscores: nan, inf or
    infinity in any case, or digits with an optional point and an optional
    exponent, after an optional sign; ValueError otherwise. *)
Definition float_ (s : string) : result float :=
  let '(sg, body) := sign_of s in
  let name := lowercase body in
  if String.eqb name "nan" then Ok S754_nan
  else if String.eqb name "inf" || String.eqb name "infinity"
  then Ok (S754_infinity sg)
  else
    let '(mantissa, ex) := break is_e body in
    let '(ip, fp) := break is_dot mantissa in
    let fp := match fp with Some f => f | None => EmptyString end in
    if is_empty ip && is_empty fp then Raise ValueError
    else
      match number 0 ip with
      | Some i =>
          match number i fp, exponent ex with
          | Some n, Some x =>
              Ok (nearest sg n (x - Z.of_nat (String.length fp)))
          | _, _ => Raise ValueError
          end
      | None => Raise ValueError
      end.

End Binary64.

(* ================================================================== *)
(** * mcu.wannier90.pywannier90_vasp: class W90 *)
(* ================================================================== *)

Module W90.
Import Py.

(** ** get_wannier, lines 683-687: the global phase.  [WF0[x][n]] is the
    value of Wannier function [n] at grid point [x], as
    [libwannier90.get_WF0s] returned it. *)
Definition column {A} (a : list (list A)) (j : nat) : result (list A) :=
  mapM (fun row => getitem row (Z.of_nat j)) a.

Definition fix_phase (num_wann : nat) (num_kpts_loc : Z)
           (WF0 : list (list ExactComplex.complex))
  : result (list (list ExactComplex.complex)) :=
  (* max_index = (WF0*WF0.conj()).real.argmax(axis=0) *)
  (max_index <-
     mapM (fun n =>
             col <- column WF0 n ;;
             ExactComplex.argmax
               (map (fun z => ExactComplex.real
                                (ExactComplex.mul z (ExactComplex.conj z))) col))
          (range num_wann) ;;
   (* norm_wfs = np.diag(WF0[max_index,:]) *)
   norm_wfs <-
     mapM (fun n =>
             x <- getitem max_index (Z.of_nat n) ;;
             row <- getitem WF0 (Z.of_nat x) ;;
             getitem row (Z.of_nat n))
          (range num_wann) ;;
   (* norm_wfs = norm_wfs/np.absolute(norm_wfs) *)
   let norm_wfs :=
     map (fun z => ExactComplex.div z
                     (ExactComplex.of_float (ExactComplex.absolute z)))
         norm_wfs in
   (* WF0 = WF0/norm_wfs/self.num_kpts_loc *)
   mapM (fun row =>
           if Nat.eqb (length row) (length norm_wfs)
           then Ok (map (fun zu =>
                           ExactComplex.div
                             (ExactComplex.div (fst zu) (snd zu))
                             (ExactComplex.of_int num_kpts_loc))
                        (combine row norm_wfs))
           else Raise ValueError)
        WF0)%py.

(** ** export_AME, lines 651-655: the lines written to wannier90.amn.
    [A_matrix_loc[k_id][ith_wann][band]] is the projection of band [band]
    on Wannier function [ith_wann] at k-point [k_id]. *)
Definition amn_line (band ith_wann k_id : nat) (z : Binary64.complex)
  : string :=
  ("    " ++ Str.format_d (Z.of_nat band + 1) ++
   "    " ++ Str.format_d (Z.of_nat ith_wann + 1) ++
   "    " ++ Str.format_d (Z.of_nat k_id + 1) ++
   "    " ++ Binary64.format_f 22 18 (Binary64.real z) ++
   "    " ++ Binary64.format_f 22 18 (Binary64.imag z) ++
   Str.newline)%string.

Definition export_AME (num_kpts_loc num_wann_loc num_bands_loc : nat)
           (A_matrix_loc : list (list (list Binary64.complex)))
  : result (list string) :=
  (let header :=
     [("    " ++
       Str.format_d (Z.of_nat (num_bands_loc * num_kpts_loc * num_wann_loc))
       ++ Str.newline)%string;
      ("    " ++ Str.format_d (Z.of_nat num_bands_loc) ++
       "    " ++ Str.format_d (Z.of_nat num_kpts_loc) ++
       "    " ++ Str.format_d (Z.of_nat num_wann_loc) ++
       Str.newline)%string] in
   data <-
     mapM (fun k_id =>
       mapM (fun ith_wann =>
         mapM (fun band =>
                 a <- getitem A_matrix_loc (Z.of_nat k_id) ;;
                 b <- getitem a (Z.of_nat ith_wann) ;;
                 z <- getitem b (Z.of_nat band) ;;
                 Ok (amn_line band ith_wann k_id z))
              (range num_bands_loc))
            (range num_wann_loc))
          (range num_kpts_loc) ;;
   Ok (header ++ concat (concat data)))%py.

(** ** read_A_mat, lines 512-530.  [file] holds the lines of
    wannier90.vasp.amn; [readline] returns the empty str at the end of the
    file. *)
Definition readline (file : list string) : string * list string :=
  match file with
  | [] => (EmptyString, [])
  | l :: rest => (l, rest)
  end.

Fixpoint read_lines (n : nat) (file : list string) : list (list string) :=
  match n with
  | O => []
  | S k => let '(l, rest) := readline file in Str.split l :: read_lines k rest
  end.

Definition read_A_mat (num_kpts_loc num_wann_loc num_bands_loc : nat)
           (file : list string)
  : result (list (list (list Binary64.complex))) :=
  (let file := snd (readline file) in
   let file := snd (readline file) in
   let num_data := (num_bands_loc * num_wann_loc * num_kpts_loc)%nat in
   let lines := read_lines num_data file in
   mapM (fun i =>
     mapM (fun j =>
       mapM (fun k =>
               let p := Z.of_nat (i * num_wann_loc * num_bands_loc
                                  + j * num_bands_loc + k) in
               l <- getitem lines p ;;
               t <- getitem l 3 ;;
               x <- Binary64.float_ t ;;
               l <- getitem lines p ;;
               t <- getitem l 4 ;;
               y <- Binary64.float_ t ;;
               Ok (x, y))
            (range num_bands_loc))
          (range num_wann_loc))
        (range num_kpts_loc))%py.

End W90.

(* ================================================================== *)
(** * mcu.vasp.main: the k-path of a band structure *)
(* ================================================================== *)

(** The x axis of a band plot, as [VASP._generate_band] computes it from
    the k-points (lines 203-208 and 257-262; the same lines are applied to
    the labelled k-points at lines 274-278, and in
    [mcu.wannier90.w90.main._generate_band]), and the coordinates of the
    high-symmetry points of a conventional band structure (lines 211-219).
    The k-points are the rows of an array of shape (N, 3), the reciprocal
    lattice [b] is an array of shape (3, 3). *)
Module KPath.
Import Py pywannier90.

Section Path.
Context {F : Type} {num : Floating F}.
Local Open Scope float_scope.

(** One row of [kpts.dot(b)] *)
Definition row_dot (k : vec) (b : matrix) : vec :=
  let '(b0, b1, b2) := b in
  (vx k * vx b0 + vy k * vx b1 + vz k * vx b2,
   vx k * vy b0 + vy k * vy b1 + vz k * vy b2,
   vx k * vz b0 + vy k * vz b1 + vz k * vz b2).

(** One entry of [np.sqrt(((temp_kpts - abs_kpts)**2).sum(axis=1))] *)
Definition distance (t a : vec) : F :=
  fsqrt ((vx t - vx a) ^ 2 + (vy t - vy a) ^ 2 + (vz t - vz a) ^ 2).

(** [a.cumsum()] *)
Fixpoint cumsum_from (acc : F) (a : list F) : list F :=
  match a with
  | [] => []
  | x :: a' => (acc + x) :: cumsum_from (acc + x) a'
  end.

Definition cumsum (a : list F) : list F :=
  match a with
  | [] => []
  | x :: a' => x :: cumsum_from x a'
  end.

(** Lines 203-208: [temp_kpts[0] = abs_kpts[0]] raises IndexError on an
    array without rows; [temp_kpts[1:] = abs_kpts[:-1]]. *)
Definition path_of (kpts : list vec) (b : matrix) : result (list F) :=
  let abs_kpts := map (fun k => row_dot k b) kpts in
  (first <- getitem abs_kpts 0 ;;
   let temp_kpts := first :: removelast abs_kpts in
   Ok (cumsum (map (fun ta => distance (fst ta) (snd ta))
                   (combine temp_kpts abs_kpts))))%py.

(** nan is the float that differs from itself. *)
Definition isnan (x : F) : bool := negb (feqb x x).

(** [path.max()]: nan when an entry is nan; ValueError on an empty array. *)
Definition amax (a : list F) : result F :=
  match a with
  | [] => Raise ValueError
  | x :: a' =>
      Ok (fold_left (fun m y => if isnan m then m
                                else if isnan y then y
                                else if m <? y then y else m) a' x)
  end.

(** Lines 211-219, with [nkpts = highsym_kpt.shape[0]].  The division is
    only evaluated inside the loop, where [nkpts - 1 >= 2]. *)
Definition sym_kpoint_coor_of (path : list F) (nkpts : nat) : result (list F) :=
  (coors <- mapM (fun kpt : nat =>
                    let idx := (((Z.of_nat (length path) + Z.of_nat nkpts - 2)
                                 / (Z.of_nat nkpts - 1) - 1)
                                * (Z.of_nat kpt + 1))%Z in
                    getitem path idx)
                 (range (nkpts - 2)) ;;
   top <- amax path ;;
   Ok ([lit 0] ++ coors ++ [lit 1 * top]))%py.

(** Lines 203-219: the path and the coordinates of the high-symmetry
    points. *)
Definition conventional (kpts : list vec) (b : matrix) (nkpts : nat)
  : result (list F * list F) :=
  (path <- path_of kpts b ;;
   sym_kpoint_coor <- sym_kpoint_coor_of path nkpts ;;
   Ok (path, sym_kpoint_coor))%py.

End Path.

End KPath.


(* ================================================================== *)
(** * mcu.wannier90.pywannier90_vasp: the overlap matrix on file *)
(* ================================================================== *)

(** The part of [export_AME] that writes wannier90.mmn (lines 635-648) and
    [read_M_mat] (lines 440-466).  [M_matrix_loc[k_id][nn][n][m]] is an
    array of shape (num_kpts_loc, nntot_loc, num_bands_loc, num_bands_loc)
    and [nn_list[nn][k_id]] holds the neighbour of k-point [k_id] in
    direction [nn] and the three integers of its lattice shift.  A file is
    the list of its lines. *)
Module Mmn.
Import Py Str.

(** [int(s)] for a str without blanks and underscores: digits after an
    optional sign; ValueError otherwise.  [read_M_mat] stores the integers
    in an array of dtype int; the numerals are taken to be within its
    range (an integer beyond 64 bits, which [export_AME] cannot write,
    raises OverflowError there). *)
Definition int_ (s : string) : result Z :=
  let '(sg, body) := Binary64.sign_of s in
  if is_empty body then Raise ValueError
  else match Binary64.number 0 body with
       | Some v => Ok (if sg then (- Z.of_N v)%Z else Z.of_N v)
       | None => Raise ValueError
       end.

(** Line 645 *)
Definition block_line (k_id1 k_id2 nnn nnm nnl : Z) : string :=
  ("    " ++ format_d k_id1 ++ "  " ++ format_d k_id2 ++
   "    " ++ format_d nnn ++ "  " ++ format_d nnm ++ "  " ++ format_d nnl ++
   newline)%string.

(** Line 648 *)
Definition mmn_line (z : Binary64.complex) : string :=
  ("    " ++ Binary64.format_f 22 18 (Binary64.real z) ++
   "  " ++ Binary64.format_f 22 18 (Binary64.imag z) ++ newline)%string.

(** [a[1:4]] *)
Definition slice_1_4 {A} (a : list A) : list A := firstn 3 (skipn 1 a).

(** Lines 635-648: the lines written to wannier90.mmn. *)
Definition export_mmn (num_kpts_loc nntot_loc num_bands_loc : nat)
           (nn_list : list (list (list Z)))
           (M_matrix_loc : list (list (list (list Binary64.complex))))
  : result (list string) :=
  (let nband2 := (num_bands_loc ^ 2)%nat in
   let header :=
     [("Generated by the pyWannier90" ++ newline)%string;
      ("    " ++ format_d (Z.of_nat num_bands_loc) ++
       "    " ++ format_d (Z.of_nat num_kpts_loc) ++
       "    " ++ format_d (Z.of_nat nntot_loc) ++ newline)%string] in
   blocks <-
     mapM (fun k_id =>
       mapM (fun nn =>
               let k_id1 := (Z.of_nat k_id + 1)%Z in
               a <- getitem nn_list (Z.of_nat nn) ;;
               b <- getitem a (Z.of_nat k_id) ;;
               k_id2 <- getitem b 0 ;;
               match slice_1_4 b with
               | [nnn; nnm; nnl] =>
                   Mk <- getitem M_matrix_loc (Z.of_nat k_id) ;;
                   Mkn <- getitem Mk (Z.of_nat nn) ;;
                   let M_matrix := concat Mkn in
                   entries <- mapM (fun m => z <- getitem M_matrix (Z.of_nat m) ;;
                                             Ok (mmn_line z))
                                   (range nband2) ;;
                   Ok (block_line k_id1 k_id2 nnn nnm nnl :: entries)
               | _ => Raise ValueError
               end)
            (range nntot_loc))
          (range num_kpts_loc) ;;
   Ok (header ++ concat (concat blocks)))%py.

(** Lines 448-453: for each of the [num_mmn] blocks, one line whose fields
    are converted to int, then [nband2] lines that are split and
    collected. *)
Fixpoint read_blocks (num_mmn nband2 : nat) (file : list string)
  : result (list (list string)) :=
  match num_mmn with
  | O => Ok []
  | S k =>
      let '(l, rest) := W90.readline file in
      (_ <- mapM int_ (split l) ;;
       let lines := W90.read_lines nband2 rest in
       more <- read_blocks k nband2 (skipn nband2 rest) ;;
       Ok (lines ++ more))%py
  end.

(** [x, y = np.float64(xy)]: two fields, each the numeral of a float. *)
Definition two_floats (xy : list string) : result Binary64.complex :=
  match xy with
  | [tx; ty] =>
      (x <- Binary64.float_ tx ;;
       y <- Binary64.float_ ty ;;
       Ok (x, y))%py
  | _ => Raise ValueError
  end.

Definition read_M_mat (num_kpts_loc nntot_loc num_bands_loc : nat)
           (file : list string)
  : result (list (list (list (list Binary64.complex)))) :=
  (let num_mmn := (nntot_loc * num_kpts_loc)%nat in
   let file := snd (W90.readline file) in
   let file := snd (W90.readline file) in
   lines <- read_blocks num_mmn (num_bands_loc * num_bands_loc) file ;;
   let M1 := num_bands_loc in
   let M2 := (M1 * num_bands_loc)%nat in
   let M3 := (M2 * nntot_loc)%nat in
   mapM (fun k_id =>
     mapM (fun nn =>
       mapM (fun n =>
         mapM (fun m =>
                 xy <- getitem lines
                         (Z.of_nat (k_id * M3 + nn * M2 + n * M1 + m)) ;;
                 two_floats xy)
              (range num_bands_loc))
            (range num_bands_loc))
          (range nntot_loc))
        (range num_kpts_loc))%py.

End Mmn.


(* ================================================================== *)
(** * mcu.wannier90.pywannier90_vasp: the reality check of get_wannier *)
(* ================================================================== *)

(** Lines 683-693 of [get_wannier], in exact arithmetic: the phase fix
    ([W90.fix_phase]), then the loop that prints, for each Wannier function,
    the largest |imag / real| over the grid points where |real| >= 0.01, and
    the return of [WF0].  What is printed before an exception stays
    printed. *)
Module Reality.
Import Py Exact.
Local Open Scope R_scope.

(** [np.abs] on a float *)
Definition fabs (x : option R) : option R := Exact.lift1 Rabs x.

(** [x >= y] on floats; False when one of them is nan. *)
Definition geb (x y : option R) : bool :=
  match x, y with
  | Some a, Some b => if Rle_dec b a then true else false
  | _, _ => false
  end.

(** Line 691 for one Wannier function. *)
Definition ratio_max (WF0 : list (list ExactComplex.complex)) (WF_id : nat)
  : result (option R) :=
  (col <- W90.column WF0 WF_id ;;
   let kept :=
     filter (fun z => geb (fabs (ExactComplex.real z)) (lit (1 # 100))) col in
   KPath.amax
     (map (fun z => fabs (fdiv (ExactComplex.imag z) (ExactComplex.real z)))
          kept))%py.

(** Lines 690-692: the pairs (WF_id, ratio_max) printed, and how the loop
    ends. *)
Fixpoint reality_check (WF0 : list (list ExactComplex.complex))
         (ids : list nat) : list (nat * option R) * result unit :=
  match ids with
  | [] => ([], Ok tt)
  | WF_id :: rest =>
      match ratio_max WF0 WF_id with
      | Raise e => ([], Raise e)
      | Ok r =>
          let '(out, res) := reality_check WF0 rest in
          ((WF_id, r) :: out, res)
      end
  end.

(** Lines 683-693. *)
Definition get_wannier_tail (num_wann_loc : nat) (num_kpts_loc : Z)
           (WF0 : list (list ExactComplex.complex))
  : list (nat * option R) * result (list (list ExactComplex.complex)) :=
  match W90.fix_phase num_wann_loc num_kpts_loc WF0 with
  | Raise e => ([], Raise e)
  | Ok WF0 =>
      let '(out, res) := reality_check WF0 (range num_wann_loc) in
      (out, (res ;;; Ok WF0)%py)
  end.

End Reality.


(* ================================================================== *)
(** * mcu.vasp.main: the band window of plot_pband *)
(* ================================================================== *)

(** Lines 599-604 of [VASP.plot_pband], for a [band_idx] that is a list of
    ints.  The list is the caller's object and the assignments change it in
    place: the function is modelled as the content of the list after the
    lines, and how they end.  The plot then uses the bands
    [band_idx[0]] to [band_idx[1]]. *)
Module BandWindow.
Import Py.
Local Open Scope Z_scope.

(** [a[i] = x] for [0 <= i < len(a)] *)
Fixpoint setitem {A} (a : list A) (i : nat) (x : A) : list A :=
  match a, i with
  | [], _ => []
  | _ :: t, O => x :: t
  | y :: t, S j => y :: setitem t j x
  end.

Definition window (nbands : Z) (band_idx : list Z) : list Z * result unit :=
  match getitem band_idx 0, getitem band_idx 1 with
  | Ok b0, Ok b1 =>
      if b0 <=? b1 then
        let band_idx := if b0 <? 1 then setitem band_idx 0 1 else band_idx in
        let band_idx :=
          if nbands <? b1 then setitem band_idx 1 nbands else band_idx in
        let band_idx := setitem band_idx 0 (nth 0 band_idx 0 - 1) in
        let band_idx := setitem band_idx 1 (nth 1 band_idx 0 - 1) in
        (band_idx, Ok tt)
      else (band_idx, Raise AssertionError)
  | Raise e, _ => (band_idx, Raise e)
  | _, Raise e => (band_idx, Raise e)
  end.

(** [k] calls of [plot_pband] with the same list object, as far as the
    band window is concerned. *)
Fixpoint calls (k : nat) (nbands : Z) (band_idx : list Z)
  : list Z * result unit :=
  match k with
  | O => (band_idx, Ok tt)
  | S k' =>
      match window nbands band_idx with
      | (band_idx, Ok _) => calls k' nbands band_idx
      | r => r
      end
  end.

End BandWindow.


(* ================================================================== *)
(** * mcu.wannier90.w90: class main, the cell and its symmetry *)
(* ================================================================== *)

(** [get_symmetry], [to_convcell], [to_primcell] and [write_cif] of
    [mcu.wannier90.w90.main] (lines 44-96).  The functions of
    [mcu.cell.spg_wrapper], [mcu.cell.utils] and [mcu.cell.cell_io] are not
    part of the modelled code: they are parameters, and each may raise.  An
    object of the class has the attribute [cell] from [__init__]; the
    attribute [cell_type] exists only once [get_symmetry()] has set it.
    The class defines no [to_stdcell]. *)
Module W90Main.
Import Py.

Section Externals.

Variables Cell Symmetry : Type.

(** [spg_wrapper.get_sym(cell, symprec, ...)]: is_std and is_prim; and
    with [export_operator=True]: the space group and its operators. *)
Variable get_sym : Cell -> result (bool * bool).
Variable get_sym_operators : Cell -> result Symmetry.
Variables cell_to_std cell_to_prim : Cell -> result Cell.
(** Lines 86-89 and 91-94: the space group P1 and its operators. *)
Variable p1 : Cell -> result Symmetry.
(** Lines 95-96: [cell_utils.symop_mat2xyz] and [cell_io.write_cif]. *)
Variable write_cif_file : Cell -> Symmetry -> result unit.

Record main : Type := Build_main {
  cell : Cell;
  cell_type : option (bool * bool)
}.

(** A method: the object after the call, and the value returned or the
    exception raised. *)
Definition M (A : Type) : Type := main -> main * result A.

Definition get_symmetry (arg : option Cell) : M unit := fun self =>
  match arg with
  | None =>
      match get_sym (cell self) with
      | Ok t => (Build_main (cell self) (Some t), Ok tt)
      | Raise e => (self, Raise e)
      end
  | Some c =>
      match get_sym c with
      | Ok _ => (self, Ok tt)
      | Raise e => (self, Raise e)
      end
  end.

(** [self.cell_type[i] = True] *)
Definition set_cell_type (i : nat) : M unit := fun self =>
  match cell_type self with
  | None => (self, Raise AttributeError)
  | Some (s, p) =>
      (Build_main (cell self)
                  (Some (if Nat.eqb i 0 then (true, p) else (s, true))),
       Ok tt)
  end.

Definition to_cell (convert : Cell -> result Cell) (i : nat)
           (arg : option Cell) : M (option Cell) := fun self =>
  match arg with
  | None =>
      match convert (cell self) with
      | Ok c =>
          match set_cell_type i (Build_main c (cell_type self)) with
          | (self, Ok _) => (self, Ok None)
          | (self, Raise e) => (self, Raise e)
          end
      | Raise e => (self, Raise e)
      end
  | Some c =>
      match convert c with
      | Ok c' => (self, Ok (Some c'))
      | Raise e => (self, Raise e)
      end
  end.

Definition to_convcell : option Cell -> M (option Cell) := to_cell cell_to_std 0.
Definition to_primcell : option Cell -> M (option Cell) := to_cell cell_to_prim 1.

(** [cell = self.to_primcell(cell, symprec)], line 83: with a cell given,
    the method returns the converted cell. *)
Definition write_cif (arg : option Cell) (symmetry : bool) : M unit := fun self =>
  let finish (c : Cell) (s : result Symmetry) : main * result unit :=
    (self, (sym <- s ;; write_cif_file c sym)%py) in
  match arg with
  | None =>
      let c := cell self in
      match cell_type self with
      | None => (self, Raise AttributeError)
      | Some (is_std, is_prim) =>
          if (is_std && symmetry)%bool then
            (* self.to_stdcell *)
            (self, Raise AttributeError)
          else if (is_prim && symmetry)%bool then
            match to_primcell (Some c) self with
            | (_, Ok (Some c')) => finish c' (get_sym_operators c')
            | (_, Ok None) => (self, Raise TypeError)
            | (_, Raise e) => (self, Raise e)
            end
          else finish c (p1 c)
      end
  | Some c => finish c (p1 c)
  end.

End Externals.

End W90Main.


(* ================================================================== *)
(** * mcu.wannier90.pywannier90_vasp: W90.export_AME as a method *)
(* ================================================================== *)

(** [export_AME] (lines 622-660) on an object.  The three matrices are
    attributes that [__init__] sets to None.  The other attributes and the
    files are the [State]; [make_win], [setup], [get_M_mat], [get_A_mat]
    and [get_epsilon_mat] work on them through the WAVECAR and libwannier90
    and are parameters here, and so are the three [with] blocks that write
    the files (lines 635-660, modelled by [Mmn.export_mmn] and
    [W90.export_AME]).  [export_unk] is declared as
    [def export_unk(self, grid = [50,50,50])]. *)
Module W90Export.
Import Py.

Section Externals.

Variables State Marr Aarr Earr : Type.

Record w90 : Type := Build_w90 {
  rest : State;
  M_matrix_loc : option Marr;
  A_matrix_loc : option Aarr;
  eigenvalues_loc : option Earr
}.

Variables make_win setup : State -> State * result unit.
Variable get_M_mat : State -> State * result Marr.
Variable get_A_mat : State -> State * result Aarr.
Variable get_epsilon_mat : State -> State * result Earr.
Variable write_files : w90 -> w90 * result unit.

Definition with_rest (self : w90) (s : State) : w90 :=
  Build_w90 s (M_matrix_loc self) (A_matrix_loc self) (eigenvalues_loc self).

(** Lines 627-633.  [self.export_unk(self, grid = grid)] passes [self] for
    the parameter [grid] and [grid] again by name: the call raises
    TypeError before the body of [export_unk] is entered. *)
Definition export_AME (self : w90) : w90 * result unit :=
  match A_matrix_loc self with
  | None =>
      match make_win (rest self) with
      | (s, Raise e) => (with_rest self s, Raise e)
      | (s, Ok _) =>
      match setup s with
      | (s, Raise e) => (with_rest self s, Raise e)
      | (s, Ok _) =>
      match get_M_mat s with
      | (s, Raise e) => (with_rest self s, Raise e)
      | (s, Ok M) =>
      let self := Build_w90 s (Some M) (A_matrix_loc self) (eigenvalues_loc self) in
      match get_A_mat s with
      | (s, Raise e) => (with_rest self s, Raise e)
      | (s, Ok A) =>
      let self := Build_w90 s (M_matrix_loc self) (Some A) (eigenvalues_loc self) in
      match get_epsilon_mat s with
      | (s, Raise e) => (with_rest self s, Raise e)
      | (s, Ok E) =>
      let self := Build_w90 s (M_matrix_loc self) (A_matrix_loc self) (Some E) in
      (self, Raise TypeError)
      end end end end end
  | Some _ => write_files self
  end.

End Externals.

End W90Export.


(* ================================================================== *)
(** * The tables of the Wannier90 User Guide *)
(* ================================================================== *)

(** Modelled from the spec: the specification refers the values of
    [theta_lmr] to Table 3.1 and Table 3.2 of Chapter 3 of the Wannier90
    User Guide.  The definitions below are the entries of these two tables
    as the guide prints them, and are not read off the code: the angular
    functions Theta_{l,mr}(theta, phi) as functions of the polar angle
    theta and of the azimuthal angle phi for l = 0, 1, 2, 3 (Table 3.1),
    and the hybrids for l = -1, ..., -5 as linear combinations of them
    (Table 3.2). *)
Module UserGuide.
Local Open Scope R_scope.

Definition angular : Type := R -> R -> R.

(** Table 3.1 *)
Definition s : angular := fun _ _ => 1 / sqrt (4 * PI).

Definition pz : angular := fun t _ => sqrt (3 / (4 * PI)) * cos t.
Definition px : angular := fun t p => sqrt (3 / (4 * PI)) * sin t * cos p.
Definition py : angular := fun t p => sqrt (3 / (4 * PI)) * sin t * sin p.

Definition dz2 : angular :=
  fun t _ => sqrt (5 / (16 * PI)) * (3 * cos t ^ 2 - 1).
Definition dxz : angular :=
  fun t p => sqrt (15 / (4 * PI)) * sin t * cos t * cos p.
Definition dyz : angular :=
  fun t p => sqrt (15 / (4 * PI)) * sin t * cos t * sin p.
Definition dx2_y2 : angular :=
  fun t p => sqrt (15 / (16 * PI)) * sin t ^ 2 * cos (2 * p).
Definition dxy : angular :=
  fun t p => sqrt (15 / (16 * PI)) * sin t ^ 2 * sin (2 * p).

Definition fz3 : angular :=
  fun t _ => sqrt 7 / (4 * sqrt PI) * (5 * cos t ^ 3 - 3 * cos t).
Definition fxz2 : angular :=
  fun t p => sqrt 21 / (4 * sqrt (2 * PI)) * (5 * cos t ^ 2 - 1) * sin t * cos p.
Definition fyz2 : angular :=
  fun t p => sqrt 21 / (4 * sqrt (2 * PI)) * (5 * cos t ^ 2 - 1) * sin t * sin p.
Definition fz_x2_y2 : angular :=
  fun t p => sqrt 105 / (4 * sqrt PI) * sin t ^ 2 * cos t * cos (2 * p).
Definition fxyz : angular :=
  fun t p => sqrt 105 / (4 * sqrt PI) * sin t ^ 2 * cos t * sin (2 * p).
Definition fx_x2_3y2 : angular :=
  fun t p => sqrt 35 / (4 * sqrt (2 * PI)) * sin t ^ 3
             * (cos p ^ 2 - 3 * sin p ^ 2) * cos p.
Definition fy_3x2_y2 : angular :=
  fun t p => sqrt 35 / (4 * sqrt (2 * PI)) * sin t ^ 3
             * (3 * cos p ^ 2 - sin p ^ 2) * sin p.

(** Table 3.2 *)
Definition sp_1 : angular :=
  fun t p => 1 / sqrt 2 * s t p + 1 / sqrt 2 * px t p.
Definition sp_2 : angular :=
  fun t p => 1 / sqrt 2 * s t p - 1 / sqrt 2 * px t p.

Definition sp2_1 : angular :=
  fun t p => 1 / sqrt 3 * s t p - 1 / sqrt 6 * px t p + 1 / sqrt 2 * py t p.
Definition sp2_2 : angular :=
  fun t p => 1 / sqrt 3 * s t p - 1 / sqrt 6 * px t p - 1 / sqrt 2 * py t p.
Definition sp2_3 : angular :=
  fun t p => 1 / sqrt 3 * s t p + 2 / sqrt 6 * px t p.

Definition sp3_1 : angular :=
  fun t p => 1 / 2 * (s t p + px t p + py t p + pz t p).
Definition sp3_2 : angular :=
  fun t p => 1 / 2 * (s t p + px t p - py t p - pz t p).
Definition sp3_3 : angular :=
  fun t p => 1 / 2 * (s t p - px t p + py t p - pz t p).
Definition sp3_4 : angular :=
  fun t p => 1 / 2 * (s t p - px t p - py t p + pz t p).

Definition sp3d_1 : angular :=
  fun t p => 1 / sqrt 3 * s t p - 1 / sqrt 6 * px t p + 1 / sqrt 2 * py t p.
Definition sp3d_2 : angular :=
  fun t p => 1 / sqrt 3 * s t p - 1 / sqrt 6 * px t p - 1 / sqrt 2 * py t p.
Definition sp3d_3 : angular :=
  fun t p => 1 / sqrt 3 * s t p + 2 / sqrt 6 * px t p.
Definition sp3d_4 : angular :=
  fun t p => 1 / sqrt 2 * pz t p + 1 / sqrt 2 * dz2 t p.
Definition sp3d_5 : angular :=
  fun t p => - (1 / sqrt 2) * pz t p + 1 / sqrt 2 * dz2 t p.

Definition sp3d2_1 : angular :=
  fun t p => 1 / sqrt 6 * s t p - 1 / sqrt 2 * px t p
             - 1 / sqrt 12 * dz2 t p + 1 / 2 * dx2_y2 t p.
Definition sp3d2_2 : angular :=
  fun t p => 1 / sqrt 6 * s t p + 1 / sqrt 2 * px t p
             - 1 / sqrt 12 * dz2 t p + 1 / 2 * dx2_y2 t p.
Definition sp3d2_3 : angular :=
  fun t p => 1 / sqrt 6 * s t p - 1 / sqrt 2 * py t p
             - 1 / sqrt 12 * dz2 t p - 1 / 2 * dx2_y2 t p.
Definition sp3d2_4 : angular :=
  fun t p => 1 / sqrt 6 * s t p + 1 / sqrt 2 * py t p
             - 1 / sqrt 12 * dz2 t p - 1 / 2 * dx2_y2 t p.
Definition sp3d2_5 : angular :=
  fun t p => 1 / sqrt 6 * s t p - 1 / sqrt 2 * pz t p + 1 / sqrt 3 * dz2 t p.
Definition sp3d2_6 : angular :=
  fun t p => 1 / sqrt 6 * s t p + 1 / sqrt 2 * pz t p + 1 / sqrt 3 * dz2 t p.

(** The entry of the tables for l and mr, if there is one. *)
Definition Theta (l mr : Z) : option angular :=
  match l, mr with
  | 0, 1 => Some s
  | 1, 1 => Some pz
  | 1, 2 => Some px
  | 1, 3 => Some py
  | 2, 1 => Some dz2
  | 2, 2 => Some dxz
  | 2, 3 => Some dyz
  | 2, 4 => Some dx2_y2
  | 2, 5 => Some dxy
  | 3, 1 => Some fz3
  | 3, 2 => Some fxz2
  | 3, 3 => Some fyz2
  | 3, 4 => Some fz_x2_y2
  | 3, 5 => Some fxyz
  | 3, 6 => Some fx_x2_3y2
  | 3, 7 => Some fy_3x2_y2
  | -1, 1 => Some sp_1
  | -1, 2 => Some sp_2
  | -2, 1 => Some sp2_1
  | -2, 2 => Some sp2_2
  | -2, 3 => Some sp2_3
  | -3, 1 => Some sp3_1
  | -3, 2 => Some sp3_2
  | -3, 3 => Some sp3_3
  | -3, 4 => Some sp3_4
  | -4, 1 => Some sp3d_1
  | -4, 2 => Some sp3d_2
  | -4, 3 => Some sp3d_3
  | -4, 4 => Some sp3d_4
  | -4, 5 => Some sp3d_5
  | -5, 1 => Some sp3d2_1
  | -5, 2 => Some sp3d2_2
  | -5, 3 => Some sp3d2_3
  | -5, 4 => Some sp3d2_4
  | -5, 5 => Some sp3d2_5
  | -5, 6 => Some sp3d2_6
  | _, _ => None
  end%Z.

End UserGuide.


(* ================================================================== *)
(** * Properties *)
(* ================================================================== *)

Unset Implicit Arguments.

(** ** Python run-time facts *)

Module PyFacts.
Import Py.

Lemma bind_Ok {A B} (m : result A) (f : A -> result B) (b : B) :
  bind m f = Ok b -> exists a, m = Ok a /\ f a = Ok b.
Proof.
  destruct m as [a|e]; simpl; intros H; [eauto | discriminate].
Qed.

Lemma getitem_nat {A} (a : list A) (i : nat) :
  getitem a (Z.of_nat i) =
  match nth_error a i with Some x => Ok x | None => Raise IndexError end.
Proof.
  unfold getitem.
  destruct (Z.ltb_spec (Z.of_nat i) 0) as [Hneg|_]; [lia|].
  destruct (Z.leb_spec 0 (Z.of_nat i)) as [_|Hneg]; [|lia].
  rewrite Nat2Z.id. simpl.
  destruct (Z.ltb_spec (Z.of_nat i) (Z.of_nat (length a))) as [Hlt|Hge].
  - reflexivity.
  - destruct (nth_error a i) eqn:E; [|reflexivity].
    assert (nth_error a i <> None) as Hn by congruence.
    apply nth_error_Some in Hn. lia.
Qed.

Lemma getitem_nat_Ok {A} (a : list A) (i : nat) (x : A) :
  getitem a (Z.of_nat i) = Ok x <-> nth_error a i = Some x.
Proof.
  rewrite getitem_nat. destruct (nth_error a i); split; congruence.
Qed.

Lemma mapM_Ok {A B} (f : A -> result B) (l : list A) (ys : list B) :
  mapM f l = Ok ys <-> Forall2 (fun x y => f x = Ok y) l ys.
Proof.
  revert ys. induction l as [|x t IH]; intros ys; simpl.
  - split; intros H.
    + injection H as <-. constructor.
    + inversion H. reflexivity.
  - destruct (f x) as [y|e] eqn:Ef.
    + destruct (mapM f t) as [ys'|e] eqn:Et.
      * split; intros H.
        -- injection H as <-. constructor; [assumption | now apply IH].
        -- inversion H as [|? y' ? ys'' Hy Hys]; subst.
           apply IH in Hys. congruence.
      * split; intros H; [discriminate|].
        inversion H as [|? y' ? ys'' Hy Hys]; subst.
        apply IH in Hys. discriminate.
    + split; intros H; [discriminate|].
      inversion H; subst. congruence.
Qed.

Lemma mapM_length {A B} (f : A -> result B) (l : list A) (ys : list B) :
  mapM f l = Ok ys -> length ys = length l.
Proof.
  intros H. apply mapM_Ok in H. symmetry. eapply Forall2_length; eassumption.
Qed.

Lemma mapM_nth {A B} (f : A -> result B) (l : list A) (ys : list B) i x :
  mapM f l = Ok ys -> nth_error l i = Some x ->
  exists y, nth_error ys i = Some y /\ f x = Ok y.
Proof.
  intros H. apply mapM_Ok in H. revert i.
  induction H as [|x' y' l' ys' Hxy _ IH]; intros [|i] Hi; simpl in *;
    try discriminate.
  - injection Hi as <-. eauto.
  - now apply IH.
Qed.

Lemma mapM_total {A B} (f : A -> result B) (l : list A) :
  (forall x, In x l -> exists y, f x = Ok y) -> exists ys, mapM f l = Ok ys.
Proof.
  induction l as [|x t IH]; intros H; simpl.
  - eauto.
  - destruct (H x (or_introl eq_refl)) as [y ->].
    destruct IH as [ys ->]; [intros; apply H; now right|]. eauto.
Qed.

Lemma vstack_Ok {A} (a b c : list (list A)) :
  np.vstack a b = Ok c -> c = a ++ b.
Proof.
  unfold np.vstack. destruct a as [|r a'].
  - now intros [= <-].
  - destruct (forallb _ b); [now intros [= <-] | discriminate].
Qed.

Lemma snd_combine_range {A} (l : list A) :
  map snd (combine (range (length l)) l) = l.
Proof.
  unfold range. generalize 0%nat. induction l as [|x t IH]; intros n; simpl.
  - reflexivity.
  - now rewrite IH.
Qed.

End PyFacts.

(** ** Several runs: which k-points reach the combined arrays *)

Module ManyRuns.
Import Py VASP PyFacts.

(** The part of one run that is kept: everything from index
    [count_nonzero(weights)] on. *)
Definition kept_kpts (v : read.vasprun) : list read.kpoint :=
  skipn (np.count_nonzero (read.weights v)) (read.kpointlist v).

Definition kept_rows (spin : nat) (v : read.vasprun) : list (list (Q * Q)) :=
  skipn (np.count_nonzero (read.weights v)) (nth spin (read.band v) []).

Definition kept_band (spin : nat) (v : read.vasprun) : list (list Q) :=
  map (map fst) (kept_rows spin v).

Definition kept_occ (spin : nat) (v : read.vasprun) : list (list Q) :=
  map (map snd) (kept_rows spin v).

Lemma skipn_map {A B} (f : A -> B) n (l : list A) :
  skipn n (map f l) = map f (skipn n l).
Proof.
  revert l. induction n as [|n IH]; intros [|x l]; simpl; auto.
Qed.

Lemma getitem_nth {A} (a : list A) i x d :
  getitem a (Z.of_nat i) = Ok x -> x = nth i a d.
Proof.
  rewrite getitem_nat_Ok. intros H. symmetry. now apply nth_error_nth.
Qed.

Lemma stack_run_spec spin efs a iv a' :
  stack_run spin efs a iv = Ok a' ->
  bands a' = bands a ++ kept_band spin (snd iv) /\
  kptss a' = kptss a ++ kept_kpts (snd iv) /\
  co_occ1 a' = co_occ1 a ++ kept_occ spin (snd iv).
Proof.
  destruct iv as [i v]. unfold stack_run. intros H.
  apply bind_Ok in H as (band_s & Hb & H).
  apply bind_Ok in H as (ef & _ & H).
  apply bind_Ok in H as (bands' & Hv1 & H).
  apply bind_Ok in H as (occ1' & Hv2 & H).
  apply bind_Ok in H as (occ2' & _ & H).
  injection H as <-. simpl.
  apply vstack_Ok in Hv1, Hv2.
  apply getitem_nth with (d := []) in Hb. subst band_s.
  unfold kept_band, kept_occ, kept_kpts, kept_rows, slice_from in *.
  rewrite skipn_map in Hv1. auto.
Qed.

Lemma stack_runs_spec spin efs ivs : forall a a',
  foldM (stack_run spin efs) ivs a = Ok a' ->
  bands a' = bands a ++ flat_map (kept_band spin) (map snd ivs) /\
  kptss a' = kptss a ++ flat_map kept_kpts (map snd ivs) /\
  co_occ1 a' = co_occ1 a ++ flat_map (kept_occ spin) (map snd ivs).
Proof.
  induction ivs as [|iv ivs IH]; intros a a'; simpl.
  - intros [= <-]. now rewrite !app_nil_r.
  - destruct (stack_run spin efs a iv) as [a1|e] eqn:E; [|discriminate].
    intros H. apply IH in H as (H1 & H2 & H3).
    apply stack_run_spec in E as (E1 & E2 & E3).
    rewrite H1, H2, H3, E1, E2, E3, <- !app_assoc. auto.
Qed.

Lemma collect_spin_spec vs nbands efs c spin c' :
  collect_spin vs nbands efs c spin = Ok c' ->
  band_spin c' = band_spin c ++ [flat_map (kept_band spin) vs] /\
  co_occ_spin1 c' = co_occ_spin1 c ++ [flat_map (kept_occ spin) vs] /\
  last_kptss c' = Some ((0, 0, 0) :: flat_map kept_kpts vs).
Proof.
  unfold collect_spin. intros H.
  apply bind_Ok in H as (a & Ha & H). injection H as <-. simpl.
  apply stack_runs_spec in Ha as (H1 & H2 & H3).
  rewrite snd_combine_range in H1, H2, H3. simpl in H1, H2, H3.
  rewrite H1, H2, H3. auto.
Qed.

Lemma collect_spins_spec vs nbands efs spins : forall c c',
  foldM (collect_spin vs nbands efs) spins c = Ok c' ->
  band_spin c' = band_spin c ++ map (fun spin => flat_map (kept_band spin) vs) spins /\
  co_occ_spin1 c' = co_occ_spin1 c ++ map (fun spin => flat_map (kept_occ spin) vs) spins /\
  ((spins = [] /\ last_kptss c' = last_kptss c) \/
   last_kptss c' = Some ((0, 0, 0) :: flat_map kept_kpts vs)).
Proof.
  induction spins as [|spin spins IH]; intros c c'; simpl.
  - intros [= <-]. rewrite !app_nil_r. auto.
  - destruct (collect_spin vs nbands efs c spin) as [c1|e] eqn:E; [|discriminate].
    intros H. apply IH in H as (H1 & H2 & H3).
    apply collect_spin_spec in E as (E1 & E2 & E3).
    rewrite H1, H2, E1, E2, <- !app_assoc. simpl. repeat split; auto.
    right. destruct H3 as [[_ ->] | ->]; auto.
Qed.

Lemma shift_runs_spec spin efs ivs : forall a a',
  foldM (shift_run spin efs) ivs a = Ok a' ->
  snd a' = snd a ++ flat_map kept_kpts (map snd ivs) /\
  exists shifts,
    Forall2 (fun iv ef => getitem efs (Z.of_nat (fst iv)) = Ok ef) ivs shifts /\
    fst a' = fst a ++
             flat_map (fun '(ef, v) => map (map (fun e => e - ef)) (kept_band spin v))
                      (combine shifts (map snd ivs)).
Proof.
  induction ivs as [|[i v] ivs IH]; intros [b k] a'; cbn [foldM].
  - intros [= <-]. simpl. rewrite !app_nil_r. split; auto.
    exists (@nil Q). split; [apply Forall2_nil | simpl; now rewrite app_nil_r].
  - destruct (shift_run spin efs (b, k) (i, v)) as [[b1 k1]|e] eqn:E;
      [|intros ?; discriminate].
    intros H. apply IH in H as (H2 & shifts & Hs & H1). simpl in *.
    unfold shift_run in E.
    apply bind_Ok in E as (band_s & Hb & E).
    apply bind_Ok in E as (ef & Hef & E).
    apply bind_Ok in E as (bands' & Hv & E).
    injection E as <- <-.
    apply vstack_Ok in Hv. apply getitem_nth with (d := []) in Hb. subst.
    split.
    + rewrite H2, <- app_assoc. reflexivity.
    + exists (ef :: shifts). split; [constructor; assumption|].
      rewrite H1. simpl. rewrite <- !app_assoc.
      unfold kept_band, kept_rows, slice_from. now rewrite skipn_map.
Qed.

(** The floats that the asserts on [efermi] let through are the leading
    entries of the list. *)
Lemma check_efermi_list_spec efermi n efs :
  check_efermi_list efermi n = Ok efs ->
  exists l, efermi = List_ l /\ length efs = n /\
            forall i ef, nth_error efs i = Some ef -> nth_error l i = Some (Float ef).
Proof.
  unfold check_efermi_list. destruct efermi as [| | | |l]; try discriminate.
  intros H. exists l. split; [reflexivity|].
  split.
  - apply mapM_length in H. unfold range in H. now rewrite length_seq in H.
  - intros i ef Hi.
    assert (i < length efs)%nat as Hlt by (apply nth_error_Some; congruence).
    pose proof (@mapM_length _ _ _ _ _ H) as Hlen. unfold range in Hlen.
    rewrite length_seq in Hlen.
    assert (nth_error (range n) i = Some i) as Hri.
    { unfold range. rewrite nth_error_nth' with (d := 0%nat) by (rewrite length_seq; lia).
      rewrite seq_nth by lia. reflexivity. }
    destruct (@mapM_nth _ _ _ _ _ _ _ H Hri) as (y & Hy & Hf).
    rewrite Hi in Hy. injection Hy as <-.
    apply bind_Ok in Hf as (e & He & Hf).
    apply getitem_nat_Ok in He. destruct e; try discriminate.
    injection Hf as <-. assumption.
Qed.



(** Inputs on which the collection over several runs goes through: at least
    one run, one float Fermi level per run, and every run carries, for the
    spin channel, rows of [NBANDS] bands (NBANDS of the first run). *)
Definition rows_ok (nbands spin : nat) (v : read.vasprun) : Prop :=
  exists rows, nth_error (read.band v) spin = Some rows /\
               Forall (fun row => length row = nbands) rows.

Definition floats (efs : list Q) : value := List_ (map Float efs).

Lemma check_efermi_floats efs n :
  (n <= length efs)%nat ->
  check_efermi_list (floats efs) n = Ok (firstn n efs).
Proof.
  unfold check_efermi_list, floats, range. intros Hn.
  apply mapM_Ok.
  assert (forall k m, (k + m <= length efs)%nat ->
            Forall2 (fun x y => (e <- getitem (map Float efs) (Z.of_nat x) ;;
                                 match e with Float q => Ok q | _ => Raise AssertionError end)%py
                                = Ok y)
                    (seq k m) (firstn m (skipn k efs))) as G.
  { intros k m. revert k. induction m as [|m IH]; intros k Hk; simpl.
    - constructor.
    - destruct (skipn k efs) as [|x rest] eqn:E.
      + apply (f_equal (@length Q)) in E. rewrite length_skipn in E. simpl in E. lia.
      + assert (nth_error efs k = Some x) as Hx.
        { rewrite <- (Nat.add_0_r k), <- nth_error_skipn, E. reflexivity. }
        assert (skipn (S k) efs = rest) as Hr.
        { change (S k) with (1 + k)%nat. rewrite <- skipn_skipn, E. reflexivity. }
        simpl. constructor.
        * rewrite getitem_nat, nth_error_map, Hx. reflexivity.
        * rewrite <- Hr. apply IH. lia. }
  specialize (G 0%nat n). simpl in G. apply G. lia.
Qed.

Lemma vstack_total {A} (r : list A) (a b : list (list A)) :
  Forall (fun row => length row = length r) b ->
  np.vstack (r :: a) b = Ok ((r :: a) ++ b).
Proof.
  intros H. unfold np.vstack.
  replace (forallb _ b) with true; [reflexivity|].
  symmetry. apply forallb_forall. intros row Hin.
  rewrite Forall_forall in H. apply Nat.eqb_eq. now apply H.
Qed.

Lemma Forall_skipn_map {A B} (P : B -> Prop) (f : A -> B) n (l : list A) :
  Forall (fun x => P (f x)) l -> Forall P (skipn n (map f l)).
Proof.
  intros H. rewrite skipn_map. apply Forall_map.
  revert l H. induction n as [|n IH]; intros [|x l] H; simpl; auto.
  inversion H; auto.
Qed.

Lemma stack_run_total nbands spin efs a i v ef :
  rows_ok nbands spin v ->
  nth_error efs i = Some ef ->
  (exists t, bands a = np.zeros 0 nbands :: t) ->
  (exists t, co_occ1 a = np.zeros 0 nbands :: t) ->
  (exists t, co_occ2 a = np.zeros false nbands :: t) ->
  exists a', stack_run spin efs a (i, v) = Ok a' /\
             (exists t, bands a' = np.zeros 0 nbands :: t) /\
             (exists t, co_occ1 a' = np.zeros 0 nbands :: t) /\
             (exists t, co_occ2 a' = np.zeros false nbands :: t).
Proof.
  intros (rows & Hrows & Hw) Hef (t1 & H1) (t2 & H2) (t3 & H3).
  unfold stack_run.
  apply getitem_nat_Ok in Hrows. rewrite Hrows. cbn [bind].
  apply getitem_nat_Ok in Hef. rewrite Hef. cbn [bind].
  rewrite H1, H2, H3. unfold slice_from.
  rewrite vstack_total.
  2:{ unfold np.zeros. rewrite repeat_length. apply Forall_skipn_map.
      eapply Forall_impl; [|exact Hw]. simpl. intros row Hr.
      now rewrite length_map. }
  cbn [bind]. rewrite vstack_total.
  2:{ unfold np.zeros. rewrite repeat_length. apply Forall_map.
      apply Forall_forall. intros row Hin.
      rewrite length_map. rewrite Forall_forall in Hw. apply Hw.
      revert Hin. clear. generalize (np.count_nonzero (read.weights v)).
      intros n. revert rows. induction n; intros [|x l]; simpl; auto. }
  cbn [bind]. rewrite vstack_total.
  2:{ unfold np.zeros. rewrite repeat_length. apply Forall_map.
      apply Forall_skipn_map.
      eapply Forall_impl; [|exact Hw]. simpl. intros row Hr.
      now rewrite !length_map. }
  cbn [bind]. eexists. split; [reflexivity|].
  cbn [bands co_occ1 co_occ2 app]. repeat split; eexists; reflexivity.
Qed.

Lemma nth_error_firstn_lt {A} (l : list A) n i :
  (i < n)%nat -> nth_error (firstn n l) i = nth_error l i.
Proof.
  revert l i. induction n as [|n IH]; intros [|x l] [|i] H; simpl; auto;
    try lia. apply IH. lia.
Qed.

Lemma In_combine_seq {A} (vs : list A) k i v :
  In (i, v) (combine (seq k (length vs)) vs) ->
  (k <= i < k + length vs)%nat /\ In v vs.
Proof.
  revert k. induction vs as [|x vs IH]; intros k; simpl; [tauto|].
  intros [[= <- <-] | H].
  - split; [lia | auto].
  - apply IH in H as [H1 H2]. split; [lia | auto].
Qed.

Lemma stack_runs_total nbands spin efs ivs : forall a,
  (forall i v, In (i, v) ivs ->
     rows_ok nbands spin v /\ exists ef, nth_error efs i = Some ef) ->
  (exists t, bands a = np.zeros 0 nbands :: t) ->
  (exists t, co_occ1 a = np.zeros 0 nbands :: t) ->
  (exists t, co_occ2 a = np.zeros false nbands :: t) ->
  exists a', foldM (stack_run spin efs) ivs a = Ok a'.
Proof.
  induction ivs as [|[i v] ivs IH]; intros a Hin H1 H2 H3; cbn [foldM].
  - eauto.
  - destruct (Hin i v (or_introl eq_refl)) as (Hrows & ef & Hef).
    destruct (stack_run_total _ _ _ a _ _ _ Hrows Hef H1 H2 H3) as (a1 & -> & G1 & G2 & G3).
    apply IH; auto. intros; apply Hin; now right.
Qed.

Lemma collect_spin_total vs nbands efs c spin :
  (length vs <= length efs)%nat ->
  (forall v, In v vs -> rows_ok nbands spin v) ->
  exists c', collect_spin vs nbands efs c spin = Ok c'.
Proof.
  intros Hlen Hrows. unfold collect_spin.
  edestruct (stack_runs_total nbands spin efs (combine (range (length vs)) vs))
    as (a & ->).
  - intros i v Hin. apply In_combine_seq in Hin as [Hi Hv]. split; auto.
    destruct (nth_error efs i) eqn:E; eauto.
    apply nth_error_None in E. lia.
  - simpl; eauto.
  - simpl; eauto.
  - simpl; eauto.
  - cbn [bind]. eauto.
Qed.

Lemma collect_spins_total vs nbands efs spins : forall c,
  (length vs <= length efs)%nat ->
  (forall spin v, In spin spins -> In v vs -> rows_ok nbands spin v) ->
  exists c', foldM (collect_spin vs nbands efs) spins c = Ok c'.
Proof.
  induction spins as [|spin spins IH]; intros c Hlen Hrows; cbn [foldM].
  - eauto.
  - destruct (collect_spin_total vs nbands efs c spin Hlen) as (c1 & ->).
    + intros v Hv. apply Hrows; simpl; auto.
    + apply IH; auto. intros; apply Hrows; simpl; auto.
Qed.

(** Inputs on which [load_many] goes through. *)
Definition well_shaped (vs : list read.vasprun) (efs : list Q) : Prop :=
  exists v0, nth_error vs 0 = Some v0 /\
    length efs = length vs /\
    (0 < read.ISPIN v0)%nat /\
    forall spin v, (spin < read.ISPIN v0)%nat -> In v vs ->
                   rows_ok (read.NBANDS v0) spin v.

Lemma load_many_total vs efs :
  well_shaped vs efs -> exists a, load_many vs (floats efs) = Ok a.
Proof.
  intros (v0 & Hv0 & Hlen & Hspin & Hrows). unfold load_many.
  rewrite check_efermi_floats by lia. cbn [bind].
  change (getitem vs 0) with (getitem vs (Z.of_nat 0)). apply getitem_nat_Ok in Hv0. rewrite Hv0.
  cbn [bind].
  destruct (collect_spins_total vs (read.NBANDS v0) (firstn (length vs) efs)
              (range (read.ISPIN v0)) (Build_collected [] [] [] None))
    as (c & Hc).
  - rewrite length_firstn. lia.
  - intros spin v Hs Hv. apply Hrows; auto.
    unfold range in Hs. apply in_seq in Hs. lia.
  - rewrite Hc. cbn [bind].
    apply collect_spins_spec in Hc as (_ & _ & [[Hnil _] | ->]).
    + unfold range in Hnil. destruct (read.ISPIN v0); [lia | discriminate].
    + cbn [bind]. eauto.
Qed.

Lemma generate_band_many_total vs efs spin :
  well_shaped vs efs ->
  (forall v0, nth_error vs 0 = Some v0 -> (spin < read.ISPIN v0)%nat) ->
  exists r, generate_band_many vs (floats efs) spin = Ok r.
Proof.
  intros (v0 & Hv0 & Hlen & Hspin & Hrows) Hs. unfold generate_band_many.
  rewrite check_efermi_floats by lia. cbn [bind].
  change (getitem vs 0) with (getitem vs (Z.of_nat 0)).
  pose proof Hv0 as Hg. apply getitem_nat_Ok in Hg. rewrite Hg. cbn [bind].
  assert (forall ivs a,
            (forall i v, In (i, v) ivs ->
               rows_ok (read.NBANDS v0) spin v /\
               exists ef, nth_error (firstn (length vs) efs) i = Some ef) ->
            (exists t, fst a = np.zeros 0 (read.NBANDS v0) :: t) ->
            exists a', foldM (shift_run spin (firstn (length vs) efs)) ivs a = Ok a') as G.
  { induction ivs as [|[i v] ivs IH]; intros [b k] Hin (t & Ht); cbn [foldM].
    - eauto.
    - destruct (Hin i v (or_introl eq_refl)) as ((rows & Hr & Hw) & ef & Hef).
      unfold shift_run at 1.
      apply getitem_nat_Ok in Hr. rewrite Hr. cbn [bind].
      apply getitem_nat_Ok in Hef. rewrite Hef. cbn [bind].
      simpl in Ht. subst b. rewrite vstack_total.
      + cbn [bind]. apply IH; [intros; apply Hin; now right | simpl; eauto].
      + unfold np.zeros, slice_from. rewrite repeat_length.
        apply Forall_map. apply Forall_skipn_map.
        eapply Forall_impl; [|exact Hw]. simpl. intros row Hrow.
        now rewrite !length_map. }
  destruct (G (combine (range (length vs)) vs)
              ([np.zeros 0 (read.NBANDS v0)], [(0, 0, 0)])) as ([b k] & ->).
  - intros i v Hin. apply In_combine_seq in Hin as [Hi Hv]. split.
    + apply Hrows; auto.
    + rewrite nth_error_firstn_lt by lia.
      destruct (nth_error efs i) eqn:E; eauto.
      apply nth_error_None in E. lia.
  - simpl; eauto.
  - cbn [bind]. eauto.
Qed.

Lemma shifts_are_efermi (efs : list Q) vs (shifts : list Q) :
  length efs = length vs ->
  Forall2 (fun (iv : nat * read.vasprun) ef => getitem efs (Z.of_nat (fst iv)) = Ok ef)
          (combine (range (length vs)) vs) shifts ->
  shifts = efs.
Proof.
  intros Hlen H.
  assert (forall k (vs : list read.vasprun) (shifts : list Q),
            (k + length vs = length efs)%nat ->
            Forall2 (fun (iv : nat * read.vasprun) ef =>
                       getitem efs (Z.of_nat (fst iv)) = Ok ef)
                    (combine (seq k (length vs)) vs) shifts ->
            shifts = skipn k efs) as G.
  { clear. intros k vs. revert k. induction vs as [|v vs IH]; intros k shifts Hk HF.
    - inversion HF. simpl in Hk. symmetry. apply skipn_all2. lia.
    - simpl in HF. inversion HF as [|? ef ? rest Hef Hrest]; subst.
      simpl in Hef. apply getitem_nat_Ok in Hef.
      apply IH in Hrest; [|simpl in Hk; lia]. subst rest.
      clear -Hef. revert efs Hef. induction k as [|k IHk]; intros [|x l] H;
        simpl in *; try discriminate.
      + now injection H as <-.
      + now apply IHk. }
  apply (G 0%nat vs shifts); [simpl; lia | exact H].
Qed.

(** C9.  In the branches for several vasprun.xml files of [get_bandgap]
    ([load_many]) and of [_generate_band] ([generate_band_many]), each run
    contributes its k-points and band rows from index
    [count_nonzero(weights)] on, and nothing else: the combined arrays are
    the concatenation, run after run, of what is left after dropping the
    first [count_nonzero(weights)] k-points ([_generate_band] also shifts the
    rows of run [i] by [efermi[i]]).  On well-shaped inputs both branches
    return such arrays. *)
Theorem many_runs_drop_leading_kpoints :
  forall (vs : list read.vasprun) (efermi : value),
    (forall a, load_many vs efermi = Ok a ->
       a_kpts a = flat_map kept_kpts vs /\
       a_band a = map (fun spin => flat_map (kept_band spin) vs) (range (a_ispin a)) /\
       a_co_occ a = map (fun spin => flat_map (kept_occ spin) vs) (range (a_ispin a)))
    /\
    (forall spin kpts band,
       generate_band_many vs efermi spin = Ok (kpts, band) ->
       kpts = flat_map kept_kpts vs /\
       exists efs, check_efermi_list efermi (length vs) = Ok efs /\
         band = flat_map (fun '(ef, v) => map (map (fun e => e - ef)) (kept_band spin v))
                         (combine efs vs))
    /\
    (forall efs, well_shaped vs efs -> efermi = floats efs ->
       (exists a, load_many vs efermi = Ok a) /\
       (forall spin v0, nth_error vs 0 = Some v0 -> (spin < read.ISPIN v0)%nat ->
          exists r, generate_band_many vs efermi spin = Ok r)).
Proof.
  intros vs efermi. split; [|split].
  - intros a H. unfold load_many in H.
    apply bind_Ok in H as (efs & _ & H).
    apply bind_Ok in H as (v0 & _ & H).
    apply bind_Ok in H as (c & Hc & H).
    apply bind_Ok in H as (kptss & Hk & H).
    injection H as <-. cbn [a_kpts a_band a_co_occ a_ispin].
    apply collect_spins_spec in Hc as (H1 & H2 & H3). simpl in H1, H2.
    rewrite H1, H2. repeat split.
    destruct H3 as [[_ H3] | H3]; rewrite H3 in Hk; simpl in Hk;
      [discriminate|]. injection Hk as <-. reflexivity.
  - intros spin kpts band H. unfold generate_band_many in H.
    apply bind_Ok in H as (efs & Hefs & H).
    apply bind_Ok in H as (v0 & _ & H).
    apply bind_Ok in H as ([b k] & Hf & H).
    injection H as <- <-.
    apply shift_runs_spec in Hf as (Hk & shifts & Hs & Hb). simpl in Hk, Hb.
    rewrite snd_combine_range in Hk, Hb.
    pose proof (check_efermi_list_spec _ _ _ Hefs) as (l & _ & Hlen & _).
    apply shifts_are_efermi in Hs; [|assumption]. subst shifts.
    split; [rewrite Hk; reflexivity|].
    exists efs. split; [assumption | rewrite Hb; reflexivity].
  - intros efs Hwf ->. split.
    + now apply load_many_total.
    + intros spin v0 Hv0 Hs. apply generate_band_many_total; [assumption|].
      intros v0' Hv0'. congruence.
Qed.

(** Two runs of one spin channel and two bands; the first k-point of each
    carries the only non-zero weight. *)
Definition run_a : read.vasprun :=
  read.Build_vasprun 2 1 [(0, 0, 0); (1 # 2, 0, 0); (1 # 2, 1 # 2, 0)] [1; 0; 0]
    [[[(-1, 1); (1, 0)]; [(-2, 1); (2, 0)]; [(-3, 1); (3 # 2, 0)]]] None.

Definition run_b : read.vasprun :=
  read.Build_vasprun 2 1 [(0, 0, 0); (0, 0, 1 # 2)] [1; 0]
    [[[(-1, 1); (1, 0)]; [(-1 # 2, 1); (5 # 2, 0)]]] None.

Lemma runs_ab_well_shaped : well_shaped [run_a; run_b] [0; 1 # 4].
Proof.
  exists run_a. repeat split; simpl; try lia.
  intros spin v Hs [<- | [<- | []]]; assert (spin = 0%nat) as -> by lia;
    eexists; (split; [reflexivity|]); repeat constructor.
Qed.

Lemma many_runs_drop_leading_kpoints_witness :
  (exists a, load_many [run_a; run_b] (floats [0; 1 # 4]) = Ok a /\
             a_kpts a = [(1 # 2, 0, 0); (1 # 2, 1 # 2, 0); (0, 0, 1 # 2)] /\
             a_band a = [[[-2; 2]; [-3; 3 # 2]; [-1 # 2; 5 # 2]]]) /\
  (exists kpts band,
      generate_band_many [run_a; run_b] (floats [0; 1 # 4]) 0 = Ok (kpts, band) /\
      kpts = [(1 # 2, 0, 0); (1 # 2, 1 # 2, 0); (0, 0, 1 # 2)]).
Proof.
  destruct (many_runs_drop_leading_kpoints [run_a; run_b] (floats [0; 1 # 4]))
    as (Hload & Hgen & Htotal).
  destruct (Htotal [0; 1 # 4] runs_ab_well_shaped eq_refl) as ((a & Ha) & Hg).
  destruct (Hg 0%nat run_a eq_refl) as ([kpts band] & Hr); [simpl; lia|].
  split.
  - exists a. split; [exact Ha|].
    destruct (Hload a Ha) as (Hk & Hb & _). split; [exact Hk|].
    rewrite Hb. replace (a_ispin a) with 1%nat; [reflexivity|].
    vm_compute in Ha. now injection Ha as <-.
  - exists kpts, band. split; [exact Hr|].
    exact (proj1 (Hgen 0%nat kpts band Hr)).
Defined.

End ManyRuns.


(** ** numpy facts: argmax and argmin *)

Module NpFacts.
Import Py.

Lemma Qltb_false (x y : Q) : np.Qltb x y = false -> y <= x.
Proof.
  unfold np.Qltb. destruct (x ?= y) eqn:E; try discriminate; intros _.
  - apply Qeq_alt in E. rewrite E. apply Qle_refl.
  - apply Qgt_alt in E. now apply Qlt_le_weak.
Qed.

Lemma Qltb_true (x y : Q) : np.Qltb x y = true -> x < y.
Proof.
  unfold np.Qltb. destruct (x ?= y) eqn:E; try discriminate; intros _.
  now apply Qlt_alt.
Qed.

(** [pre] is the part of the array already scanned, [b] the best value so
    far and [bi] its index. *)
Lemma argmax_from_spec (l : list Q) : forall (pre : list Q) (bi : nat) (b : Q),
  nth_error pre bi = Some b ->
  (forall y, In y pre -> y <= b) ->
  exists x, nth_error (pre ++ l) (np.argmax_from bi b (length pre) l) = Some x /\
            forall y, In y (pre ++ l) -> y <= x.
Proof.
  induction l as [|x l IH]; intros pre bi b Hb Hmax; simpl.
  - exists b. rewrite app_nil_r. auto.
  - destruct (np.Qltb b x) eqn:E.
    + specialize (IH (pre ++ [x]) (length pre) x).
      rewrite <- app_assoc, length_app in IH. simpl in IH.
      rewrite Nat.add_1_r in IH. apply IH.
      * rewrite nth_error_app2, Nat.sub_diag by lia. reflexivity.
      * intros y Hy. apply in_app_or in Hy as [Hy | [<- | []]].
        -- apply Qle_trans with b; [auto|]. apply Qlt_le_weak. now apply Qltb_true.
        -- apply Qle_refl.
    + specialize (IH (pre ++ [x]) bi b).
      rewrite <- app_assoc, length_app in IH. simpl in IH.
      rewrite Nat.add_1_r in IH. apply IH.
      * rewrite nth_error_app1; [assumption|].
        apply nth_error_Some. congruence.
      * intros y Hy. apply in_app_or in Hy as [Hy | [<- | []]]; auto.
        now apply Qltb_false.
Qed.

Lemma argmax_spec (l : list Q) (i : nat) :
  np.argmax l = Ok i ->
  exists x, nth_error l i = Some x /\ forall y, In y l -> y <= x.
Proof.
  destruct l as [|x l]; simpl; [discriminate|]. intros [= <-].
  destruct (argmax_from_spec l [x] 0%nat x eq_refl) as (m & Hm & Hmax);
    [|eauto].
  intros y [<- | []]. apply Qle_refl.
Qed.

Lemma argmin_from_spec (l : list Q) : forall (pre : list Q) (bi : nat) (b : Q),
  nth_error pre bi = Some b ->
  (forall y, In y pre -> b <= y) ->
  exists x, nth_error (pre ++ l) (np.argmin_from bi b (length pre) l) = Some x /\
            forall y, In y (pre ++ l) -> x <= y.
Proof.
  induction l as [|x l IH]; intros pre bi b Hb Hmin; simpl.
  - exists b. rewrite app_nil_r. auto.
  - destruct (np.Qltb x b) eqn:E.
    + specialize (IH (pre ++ [x]) (length pre) x).
      rewrite <- app_assoc, length_app in IH. simpl in IH.
      rewrite Nat.add_1_r in IH. apply IH.
      * rewrite nth_error_app2, Nat.sub_diag by lia. reflexivity.
      * intros y Hy. apply in_app_or in Hy as [Hy | [<- | []]].
        -- apply Qle_trans with b; [|auto]. apply Qlt_le_weak. now apply Qltb_true.
        -- apply Qle_refl.
    + specialize (IH (pre ++ [x]) bi b).
      rewrite <- app_assoc, length_app in IH. simpl in IH.
      rewrite Nat.add_1_r in IH. apply IH.
      * rewrite nth_error_app1; [assumption|].
        apply nth_error_Some. congruence.
      * intros y Hy. apply in_app_or in Hy as [Hy | [<- | []]]; auto.
        now apply Qltb_false.
Qed.

Lemma argmin_spec (l : list Q) (i : nat) :
  np.argmin l = Ok i ->
  exists x, nth_error l i = Some x /\ forall y, In y l -> x <= y.
Proof.
  destruct l as [|x l]; simpl; [discriminate|]. intros [= <-].
  destruct (argmin_from_spec l [x] 0%nat x eq_refl) as (m & Hm & Hmin);
    [|eauto].
  intros y [<- | []]. apply Qle_refl.
Qed.

Lemma argmax_total (l : list Q) : l <> [] -> exists i, np.argmax l = Ok i.
Proof. destruct l; [congruence | simpl; eauto]. Qed.

Lemma argmin_total (l : list Q) : l <> [] -> exists i, np.argmin l = Ok i.
Proof. destruct l; [congruence | simpl; eauto]. Qed.

End NpFacts.


(** ** get_bandgap: the loop over the spin channels *)

Module Bandgap.
Import Py VASP PyFacts NpFacts.

(** The line that classifies a gap. *)
Definition is_direct_line (l : line) : bool :=
  match l with PDirect _ => true | _ => false end.

Definition is_indirect_line (l : line) : bool :=
  match l with PIndirect _ => true | _ => false end.

Definition verdict_free (out : list line) : Prop :=
  existsb is_direct_line out = false /\ existsb is_indirect_line out = false.

(** The arrays that the loop reads. *)
Definition same_arrays (s s' : self) : Prop :=
  band s' = band s /\ co_occ s' = co_occ s /\ co_occ_ s' = co_occ_ s /\
  kpts s' = kpts s.

(** A completed pass of the loop body for [spin]: what it computed, printed
    ([out]) and appended to [self.bandgap] ([gap]). *)
Definition processed (nkpts : nat) (s : self) (spin : nat)
           (out : list line) (gap : Q) : Prop :=
  exists bandedge vbm_idx cbm_idx at_vbm at_cbm,
    mapM (edge_at s spin) (range nkpts) = Ok bandedge /\
    np.argmax (map homo_e bandedge) = Ok vbm_idx /\
    np.argmin (map lumo_e bandedge) = Ok cbm_idx /\
    nth_error bandedge vbm_idx = Some at_vbm /\
    nth_error bandedge cbm_idx = Some at_cbm /\
    gap = lumo_e at_cbm - homo_e at_vbm /\
    (existsb is_direct_line out = true <-> vbm_idx = cbm_idx) /\
    (existsb is_indirect_line out = true <-> vbm_idx <> cbm_idx).

Lemma same_arrays_refl s : same_arrays s s.
Proof. repeat split. Qed.

Lemma same_arrays_trans s1 s2 s3 :
  same_arrays s1 s2 -> same_arrays s2 s3 -> same_arrays s1 s3.
Proof.
  unfold same_arrays. intros (A1 & A2 & A3 & A4) (B1 & B2 & B3 & B4).
  repeat split; congruence.
Qed.

Lemma edge_at_same_arrays s s' spin kpt :
  same_arrays s s' -> edge_at s' spin kpt = edge_at s spin kpt.
Proof.
  intros (H1 & H2 & H3 & H4). unfold edge_at. now rewrite H1, H2, H3.
Qed.

Lemma mapM_ext {A B} (f g : A -> result B) (l : list A) :
  (forall x, f x = g x) -> mapM f l = mapM g l.
Proof.
  intros H. induction l as [|x t IH]; simpl; [reflexivity|].
  now rewrite H, IH.
Qed.

Lemma processed_same_arrays nkpts s s' spin out gap :
  same_arrays s s' -> processed nkpts s spin out gap ->
  processed nkpts s' spin out gap.
Proof.
  intros Hs (be & v & c & av & ac & H & Hrest).
  exists be, v, c, av, ac. split; [|exact Hrest].
  rewrite <- H. apply mapM_ext. intros k. now apply edge_at_same_arrays.
Qed.

Lemma verdict_free_app a b :
  verdict_free a -> verdict_free b -> verdict_free (a ++ b).
Proof.
  unfold verdict_free. rewrite !existsb_app.
  intros [-> ->] [-> ->]. auto.
Qed.

Ltac raised_with tail :=
  cbn [fst snd]; split;
  [ unfold same_arrays; auto
  | right; split;
    [ eexists; reflexivity
    | split;
      [ reflexivity
      | exists tail; split;
        [ simpl; rewrite <- ?app_assoc; reflexivity
        | split; reflexivity ] ] ] ].

(** One pass either completes, or raises before it printed a verdict and
    before it touched [self.bandgap]. *)
Lemma spin_block_inv (nkpts spin : nat) (s : self) :
  same_arrays s (fst (spin_block nkpts spin s)) /\
  ((snd (spin_block nkpts spin s) = Ok tt /\
    exists out gap,
      processed nkpts s spin out gap /\
      stdout (fst (spin_block nkpts spin s)) = stdout s ++ out /\
      bandgap (fst (spin_block nkpts spin s)) = bandgap s ++ [gap])
   \/
   ((exists e, snd (spin_block nkpts spin s) = Raise e) /\
    bandgap (fst (spin_block nkpts spin s)) = bandgap s /\
    exists tail, stdout (fst (spin_block nkpts spin s)) = stdout s ++ tail /\
                 verdict_free tail)).
Proof.
  cbv beta delta [spin_block bindM print modify lift get ret] iota.
  assert (edge_at (add_stdout (PSpin spin) s) spin = edge_at s spin) as ->.
  { unfold edge_at. reflexivity. }
  destruct (mapM (edge_at s spin) (range nkpts)) as [bandedge|e] eqn:Hbe.
  2:{ raised_with [PSpin spin]. }
  destruct (np.argmax (map homo_e bandedge)) as [vbm|e] eqn:Hvbm.
  2:{ raised_with [PSpin spin]. }
  destruct (np.argmin (map lumo_e bandedge)) as [cbm|e] eqn:Hcbm.
  2:{ raised_with [PSpin spin]. }
  destruct (getitem bandedge (Z.of_nat vbm)) as [at_vbm|e] eqn:Hav.
  2:{ raised_with [PSpin spin]. }
  destruct (getitem (kpts (add_stdout (PSpin spin) s)) (Z.of_nat vbm)) as [k_vbm|e].
  2:{ raised_with [PSpin spin]. }
  destruct (getitem bandedge (Z.of_nat cbm)) as [at_cbm|e] eqn:Hac.
  2:{ raised_with [PSpin spin; PVBM (homo_e at_vbm) (homo_occ at_vbm) k_vbm]. }
  destruct (getitem (kpts (add_stdout (PSpin spin) s)) (Z.of_nat cbm)) as [k_cbm|e].
  2:{ raised_with [PSpin spin; PVBM (homo_e at_vbm) (homo_occ at_vbm) k_vbm]. }
  apply getitem_nat_Ok in Hav, Hac.
  destruct (Nat.eqb vbm cbm) eqn:Hd.
  - cbn [fst snd]. split; [unfold same_arrays; auto|]. left. split; [reflexivity|].
    eexists [PSpin spin; _; _; _], _. split; [|split].
    2:{ simpl. rewrite <- !app_assoc. reflexivity. }
    2:{ reflexivity. }
    + exists bandedge, vbm, cbm, at_vbm, at_cbm.
      apply Nat.eqb_eq in Hd.
      repeat (split; [first [assumption | reflexivity]|]).
      split; (split; [intros H | intros H; simpl]);
        first [assumption | reflexivity | discriminate | contradiction].
  - cbn [fst snd]. split; [unfold same_arrays; auto|]. left. split; [reflexivity|].
    eexists [PSpin spin; _; _; _; _], _. split; [|split].
    2:{ simpl. rewrite <- !app_assoc. reflexivity. }
    2:{ reflexivity. }
    + exists bandedge, vbm, cbm, at_vbm, at_cbm.
      apply Nat.eqb_neq in Hd.
      repeat (split; [first [assumption | reflexivity]|]).
      split; (split; [intros H | intros H; simpl]);
        first [assumption | reflexivity | discriminate | contradiction].
Qed.

Lemma same_arrays_sym s s' : same_arrays s s' -> same_arrays s' s.
Proof. unfold same_arrays. intros (A1 & A2 & A3 & A4). auto. Qed.

(** The loop over the spin channels: the passes that completed, in order,
    and what a pass that raised left behind. *)
Lemma for_spin_blocks (nkpts : nat) (spins : list nat) : forall s,
  same_arrays s (fst (for_ spins (spin_block nkpts) s)) /\
  exists (done : list (list line * Q)) (tail : list line),
    (length done <= length spins)%nat /\
    (forall i spin og, nth_error spins i = Some spin -> nth_error done i = Some og ->
                       processed nkpts s spin (fst og) (snd og)) /\
    stdout (fst (for_ spins (spin_block nkpts) s)) =
      stdout s ++ concat (map fst done) ++ tail /\
    bandgap (fst (for_ spins (spin_block nkpts) s)) = bandgap s ++ map snd done /\
    verdict_free tail /\
    (snd (for_ spins (spin_block nkpts) s) = Ok tt ->
     length done = length spins /\ tail = []).
Proof.
  induction spins as [|spin spins IH]; intros s.
  - cbn. split; [apply same_arrays_refl|]. exists [], []. cbn.
    rewrite !app_nil_r. repeat split; auto. intros [|i] ? ? ?; discriminate.
  - cbn [for_]. unfold bindM.
    pose proof (spin_block_inv nkpts spin s) as (Hsame & Hcase).
    destruct (spin_block nkpts spin s) as [s1 [[]|e]] eqn:Hblock; cbn [fst snd] in *.
    + destruct Hcase as [(_ & out & gap & Hp & Hout & Hgap) | ((e & He) & _)];
        [|discriminate].
      destruct (IH s1) as (Hsame1 & done & tail & Hlen & Hdone & Hso & Hbg & Htail & Hok).
      split; [eapply same_arrays_trans; eassumption|].
      exists ((out, gap) :: done), tail. cbn [length map concat fst snd].
      split; [lia|]. split; [|split; [|split; [|split]]].
      * intros [|i] sp og Hsp Hog; cbn in Hsp, Hog.
        -- injection Hsp as <-. injection Hog as <-. exact Hp.
        -- apply processed_same_arrays with s1; [now apply same_arrays_sym|].
           eapply Hdone; eassumption.
      * rewrite Hso, Hout, <- !app_assoc. reflexivity.
      * rewrite Hbg, Hgap, <- app_assoc. reflexivity.
      * exact Htail.
      * intros Hr. destruct (Hok Hr) as [-> ->]. auto.
    + destruct Hcase as [(Hr & _) | (_ & Hgap & tail & Hout & Htail)];
        [discriminate|].
      split; [assumption|]. exists [], tail. cbn.
      rewrite app_nil_r.
      split; [lia|]. split; [intros [|i] ? ? ? ?; discriminate|].
      split; [assumption|]. split; [assumption|]. split; [assumption|].
      discriminate.
Qed.

(** A step that keeps [self.vasprun] and prints no verdict. *)
Definition quiet (s s' : self) : Prop :=
  vasprun s' = vasprun s /\
  exists pre, stdout s' = stdout s ++ pre /\ verdict_free pre.

Lemma quiet_refl s : quiet s s.
Proof. split; [reflexivity|]. exists []. now rewrite app_nil_r. Qed.

Lemma quiet_same s s' :
  vasprun s' = vasprun s -> stdout s' = stdout s -> quiet s s'.
Proof.
  intros Hv Hs. split; [assumption|]. exists []. now rewrite app_nil_r.
Qed.

Lemma quiet_trans a b c : quiet a b -> quiet b c -> quiet a c.
Proof.
  intros (V1 & p1 & S1 & F1) (V2 & p2 & S2 & F2). split; [congruence|].
  exists (p1 ++ p2). rewrite S2, S1, app_assoc.
  split; [reflexivity | now apply verdict_free_app].
Qed.

Lemma quiet_text s t : quiet s (add_stdout (Text t) s).
Proof. split; [reflexivity|]. exists [Text t]. now repeat split. Qed.

Lemma for_invariant {A} (R : self -> self -> Prop) (body : A -> M unit) (l : list A) :
  (forall s, R s s) ->
  (forall a b c, R a b -> R b c -> R a c) ->
  (forall x s, R s (fst (body x s))) ->
  forall s, R s (fst (for_ l body s)).
Proof.
  intros Hrefl Htrans Hbody. induction l as [|x l IH]; intros s.
  - apply Hrefl.
  - cbn [for_]. unfold bindM. specialize (Hbody x s).
    destruct (body x s) as [s1 [[]|e]]; cbn [fst] in *.
    + eapply Htrans; [exact Hbody | apply IH].
    + exact Hbody.
Qed.

Lemma get_efermi_quiet s : quiet s (fst (get_efermi s)).
Proof.
  unfold get_efermi, bindM, get. destruct (vasprun s) as [v|vs] eqn:Hv.
  - destruct (read.efermi v); [now apply quiet_same|].
    destruct (useOUTCAR s) as [[|]|]; try apply quiet_refl.
    + destruct (outcar s); now apply quiet_same.
    + apply quiet_text.
  - unfold modify at 1. cbv beta iota.
    apply quiet_trans with (set_efermi (List_ []) s); [now apply quiet_same|].
    apply (for_invariant quiet); [apply quiet_refl | apply quiet_trans|].
    intros [i v] st. destruct (read.efermi v).
    + unfold modify, append_efermi. cbn [fst].
      destruct (efermi st) as [[| | | |l]|]; now apply quiet_same.
    + destruct (useOUTCAR s) as [[|]|]; try apply quiet_refl.
      * destruct (outcar s); try apply quiet_refl.
        unfold bindM, lift. destruct (getitem os (Z.of_nat i)); cbn [fst].
        -- unfold modify, append_efermi. cbn [fst].
           destruct (efermi st) as [[| | | |l]|]; now apply quiet_same.
        -- apply quiet_refl.
      * apply quiet_text.
Qed.

(** The run loaded by [get_bandgap]: [ispin] of the (first) run. *)
Definition load (r : runs) (efermi : value) : result arrays :=
  match r with
  | One v => load_one v efermi
  | Many vs => load_many vs efermi
  end.

(** Lines 95-174, once the Fermi level is known. *)
Definition run_from (ef : value) : M unit :=
  (s <- get ;;
   a <- lift (match vasprun s with
              | One v => load_one v ef
              | Many vs => load_many vs ef
              end) ;;
   modify (set_arrays (a_kpts a) (a_band a) (a_co_occ a) (a_co_occ_ a)) ;;;
   modify (set_bandgap []) ;;;
   for_ (range (a_ispin a)) (spin_block (length (a_kpts a))))%vasp.

Lemma run_from_eq (ef : value) (s0 : self) :
  run_from ef s0 =
  match load (vasprun s0) ef with
  | Ok a => for_ (range (a_ispin a)) (spin_block (length (a_kpts a)))
              (set_bandgap [] (set_arrays (a_kpts a) (a_band a) (a_co_occ a)
                                          (a_co_occ_ a) s0))
  | Raise e => (s0, Raise e)
  end.
Proof.
  unfold run_from, bindM, get, lift, modify, load.
  destruct (match vasprun s0 with One v => _ | Many vs => _ end); reflexivity.
Qed.

Lemma get_bandgap_given (efermi : value) (s : self) :
  efermi <> None_ -> get_bandgap efermi s = run_from efermi s.
Proof. destruct efermi; [congruence | reflexivity ..]. Qed.

Lemma get_bandgap_None (s : self) :
  get_bandgap None_ s =
  match get_efermi s with
  | (s1, Ok _) =>
      match VASP.efermi s1 with
      | Some ef => run_from ef s1
      | None => (s1, Raise AttributeError)
      end
  | (s1, Raise e) => (s1, Raise e)
  end.
Proof.
  unfold get_bandgap, run_from. unfold bindM at 1. unfold bindM at 1.
  destruct (get_efermi s) as [s1 [[]|e]]; [|reflexivity].
  unfold bindM at 1. unfold get at 1. cbv beta iota.
  destruct (VASP.efermi s1); reflexivity.
Qed.

(** [get_bandgap] is: resolve the Fermi level, load the arrays, and run
    the loop over the spin channels. *)
Lemma get_bandgap_stages (efermi : value) (s : self) :
  exists s0, quiet s s0 /\
    ((exists e, get_bandgap efermi s = (s0, Raise e)) \/
     exists ef a,
       load (vasprun s) ef = Ok a /\
       (efermi <> None_ -> ef = efermi /\ s0 = s) /\
       get_bandgap efermi s =
       for_ (range (a_ispin a)) (spin_block (length (a_kpts a)))
            (set_bandgap [] (set_arrays (a_kpts a) (a_band a) (a_co_occ a)
                                        (a_co_occ_ a) s0))).
Proof.
  assert (forall ef s0, quiet s s0 ->
            (exists e, run_from ef s0 = (s0, Raise e)) \/
            exists a, load (vasprun s) ef = Ok a /\
              run_from ef s0 =
              for_ (range (a_ispin a)) (spin_block (length (a_kpts a)))
                   (set_bandgap [] (set_arrays (a_kpts a) (a_band a) (a_co_occ a)
                                               (a_co_occ_ a) s0))) as Hrun.
  { intros ef s0 (Hv & _). rewrite run_from_eq, Hv.
    destruct (load (vasprun s) ef) as [a|e]; eauto. }
  destruct efermi as [|q|z|str|l].
  - pose proof (get_efermi_quiet s) as Hq. rewrite get_bandgap_None.
    destruct (get_efermi s) as [s1 [[]|e]]; cbn [fst] in Hq;
      exists s1; (split; [assumption|]); [|eauto].
    destruct (VASP.efermi s1) as [ef|]; [|eauto].
    destruct (Hrun ef s1 Hq) as [He | (a & Hl & Hr)]; [auto|].
    right. exists ef, a.
    split; [assumption | split; [intros H; congruence | assumption]].
  - exists s. split; [apply quiet_refl|]. rewrite get_bandgap_given by congruence.
    destruct (Hrun (Float q) s (quiet_refl s)) as [He | (a & Hl & Hr)]; [auto|].
    right. exists (Float q), a. auto.
  - exists s. split; [apply quiet_refl|]. rewrite get_bandgap_given by congruence.
    destruct (Hrun (Int z) s (quiet_refl s)) as [He | (a & Hl & Hr)]; [auto|].
    right. exists (Int z), a. auto.
  - exists s. split; [apply quiet_refl|]. rewrite get_bandgap_given by congruence.
    destruct (Hrun (Str str) s (quiet_refl s)) as [He | (a & Hl & Hr)]; [auto|].
    right. exists (Str str), a. auto.
  - exists s. split; [apply quiet_refl|]. rewrite get_bandgap_given by congruence.
    destruct (Hrun (List_ l) s (quiet_refl s)) as [He | (a & Hl & Hr)]; [auto|].
    right. exists (List_ l), a. auto.
Qed.


(** ** One vasprun.xml: the band edges by the occupation threshold *)

(** The band edges of one k-point as the specification words them: [row]
    lists (energy, occupation) band by band. *)
Definition occupied (eo : Q * Q) : bool := np.Qltb (1 # 2) (snd eo).

Definition homo_index (row : list (Q * Q)) : Z :=
  (Z.of_nat (length (filter occupied row)) - 1)%Z.

Definition lumo_index (row : list (Q * Q)) : Z := (homo_index row + 1)%Z.

Definition homo_energy (row : list (Q * Q)) : result Q :=
  getitem (map fst row) (homo_index row).

Definition lumo_energy (row : list (Q * Q)) : result Q :=
  getitem (map fst row) (lumo_index row).

Lemma count_true_occupied (row : list (Q * Q)) :
  np.count_true (map (fun o => np.Qltb (1 # 2) o) (map snd row)) =
  length (filter occupied row).
Proof.
  unfold np.count_true. induction row as [|eo row IH]; simpl; [reflexivity|].
  unfold occupied at 1. destruct (np.Qltb (1 # 2) (snd eo)); simpl; now rewrite IH.
Qed.

Lemma getitem_map {A B} (f : A -> B) (a : list A) (i : Z) :
  getitem (map f a) i =
  match getitem a i with Ok x => Ok (f x) | Raise e => Raise e end.
Proof.
  unfold getitem. rewrite length_map.
  destruct (_ && _)%bool; [|reflexivity].
  rewrite nth_error_map. destruct (nth_error a _); reflexivity.
Qed.

(** After [load_one], the loop body reads the edges of row [kpt] of
    [band[spin]] of the file. *)
Lemma edge_at_one (v : read.vasprun) (s : self) (spin kpt : nat) (e : edge) :
  band s = map (map (map fst)) (read.band v) ->
  co_occ s = map (map (map snd)) (read.band v) ->
  co_occ_ s = map (map (map (fun o => np.Qltb (1 # 2) o))) (co_occ s) ->
  edge_at s spin kpt = Ok e ->
  exists rows row,
    nth_error (read.band v) spin = Some rows /\
    nth_error rows kpt = Some row /\
    homo_energy row = Ok (homo_e e) /\
    lumo_energy row = Ok (lumo_e e).
Proof.
  intros Hb Hc Hc_ H. unfold edge_at in H. rewrite Hc_, Hc, Hb in H.
  rewrite !getitem_map in H.
  destruct (getitem (read.band v) (Z.of_nat spin)) as [rows|] eqn:Hrows;
    [|discriminate].
  cbn [bind] in H. rewrite !getitem_map in H.
  destruct (getitem rows (Z.of_nat kpt)) as [row|] eqn:Hrow; [|discriminate].
  cbn [bind] in H. rewrite count_true_occupied in H.
  apply bind_Ok in H as (e_h & Heh & H).
  apply bind_Ok in H as (o_h & _ & H).
  apply bind_Ok in H as (e_l & Hel & H).
  apply bind_Ok in H as (o_l & _ & H).
  injection H as <-. cbn [homo_e lumo_e].
  apply getitem_nat_Ok in Hrows, Hrow.
  exists rows, row. repeat split; assumption.
Qed.

Lemma edge_at_one_total (v : read.vasprun) (s : self) (spin kpt : nat) rows row :
  band s = map (map (map fst)) (read.band v) ->
  co_occ s = map (map (map snd)) (read.band v) ->
  co_occ_ s = map (map (map (fun o => np.Qltb (1 # 2) o))) (co_occ s) ->
  nth_error (read.band v) spin = Some rows ->
  nth_error rows kpt = Some row ->
  (length (filter occupied row) < length row)%nat ->
  exists e, edge_at s spin kpt = Ok e.
Proof.
  intros Hb Hc Hc_ Hrows Hrow Hocc. unfold edge_at. rewrite Hc_, Hc, Hb.
  rewrite !getitem_map.
  apply getitem_nat_Ok in Hrows, Hrow. rewrite Hrows. cbn [bind].
  rewrite !getitem_map, Hrow. cbn [bind]. rewrite count_true_occupied.
  assert (forall {A} (l : list A) (i : Z),
            length l = length row ->
            (- Z.of_nat (length row) <= i < Z.of_nat (length row))%Z ->
            exists x, getitem l i = Ok x) as Hget.
  { intros A l i Hlen Hi. unfold getitem. rewrite Hlen.
    set (j := if (i <? 0)%Z then (i + Z.of_nat (length row))%Z else i).
    assert (0 <= j < Z.of_nat (length row))%Z as Hj
      by (subst j; destruct (Z.ltb_spec i 0); lia).
    destruct (Z.leb_spec 0 j); [|lia].
    destruct (Z.ltb_spec j (Z.of_nat (length row))); [|lia]. simpl.
    destruct (nth_error l (Z.to_nat j)) eqn:E; [eauto|].
    apply nth_error_None in E. lia. }
  destruct (Hget _ (map fst row) (Z.of_nat (length (filter occupied row)) - 1)%Z)
    as (eh & ->); [now rewrite length_map | lia |].
  destruct (Hget _ (map snd row) (Z.of_nat (length (filter occupied row)) - 1)%Z)
    as (oh & ->); [now rewrite length_map | lia |].
  destruct (Hget _ (map fst row) (Z.of_nat (length (filter occupied row)) - 1 + 1)%Z)
    as (el & ->); [now rewrite length_map | lia |].
  destruct (Hget _ (map snd row) (Z.of_nat (length (filter occupied row)) - 1 + 1)%Z)
    as (ol & ->); [now rewrite length_map | lia |].
  cbn [bind]. eauto.
Qed.

(** A loop over [range(n)] that reads row [k] of [rows] at step [k] is a
    loop over the first [n] rows. *)
Lemma mapM_range_rows {A B C} (f : nat -> result B) (g : A -> result C)
      (h : B -> C) (rows : list A) (n : nat) (ys : list B) :
  mapM f (range n) = Ok ys ->
  (forall k y, f k = Ok y ->
     exists row, nth_error rows k = Some row /\ g row = Ok (h y)) ->
  mapM g (firstn n rows) = Ok (map h ys).
Proof.
  intros H Hf. unfold range in H.
  assert (forall n k ys,
            mapM f (seq k n) = Ok ys ->
            mapM g (firstn n (skipn k rows)) = Ok (map h ys)) as G.
  { clear n ys H. induction n as [|n IH]; intros k ys H.
    - cbn in H. injection H as <-. reflexivity.
    - cbn [seq mapM] in H.
      destruct (f k) as [y|] eqn:Hy; [|discriminate].
      destruct (mapM f (seq (S k) n)) as [ys'|] eqn:Hys; [|discriminate].
      injection H as <-.
      destruct (Hf k y Hy) as (row & Hrow & Hg).
      assert (skipn k rows = row :: skipn (S k) rows) as ->.
      { clear -Hrow. revert rows Hrow.
        induction k as [|k IHk]; intros [|x l] H; cbn in *; try discriminate.
        - now injection H as <-.
        - now apply IHk. }
      cbn [firstn mapM map]. rewrite Hg, (IH (S k) ys' Hys). reflexivity. }
  apply (G n 0%nat ys H).
Qed.

Lemma spin_block_total (nkpts spin : nat) (s : self) :
  (exists bandedge, mapM (edge_at s spin) (range nkpts) = Ok bandedge) ->
  (0 < nkpts)%nat -> nkpts = length (kpts s) ->
  snd (spin_block nkpts spin s) = Ok tt.
Proof.
  intros (bandedge & Hbe) Hpos Hk.
  pose proof (mapM_length _ _ _ Hbe) as Hlen.
  unfold range in Hlen. rewrite length_seq in Hlen.
  cbv beta delta [spin_block bindM print modify lift get ret] iota.
  assert (edge_at (add_stdout (PSpin spin) s) spin = edge_at s spin) as ->
      by reflexivity.
  rewrite Hbe.
  assert (forall f : edge -> Q, map f bandedge <> []) as Hne.
  { intros f He. apply (f_equal (@length Q)) in He.
    rewrite length_map in He. cbn in He. lia. }
  destruct (argmax_total _ (Hne homo_e)) as (vbm & Hvbm). rewrite Hvbm.
  destruct (argmin_total _ (Hne lumo_e)) as (cbm & Hcbm). rewrite Hcbm.
  apply argmax_spec in Hvbm as (x & Hx & _).
  apply argmin_spec in Hcbm as (y & Hy & _).
  assert (vbm < nkpts)%nat as Hv.
  { rewrite <- Hlen, <- (length_map homo_e). apply nth_error_Some. congruence. }
  assert (cbm < nkpts)%nat as Hc.
  { rewrite <- Hlen, <- (length_map lumo_e). apply nth_error_Some. congruence. }
  rewrite !getitem_nat.
  destruct (nth_error bandedge vbm) eqn:E1;
    [|apply nth_error_None in E1; lia].
  destruct (nth_error bandedge cbm) eqn:E2;
    [|apply nth_error_None in E2; lia].
  change (kpts (add_stdout (PSpin spin) s)) with (kpts s).
  destruct (nth_error (kpts s) vbm) eqn:E3;
    [|apply nth_error_None in E3; lia].
  destruct (nth_error (kpts s) cbm) eqn:E4;
    [|apply nth_error_None in E4; lia].
  destruct (Nat.eqb vbm cbm); reflexivity.
Qed.

Lemma for_spin_blocks_total (nkpts : nat) (spins : list nat) : forall s,
  (forall spin s1, In spin spins -> same_arrays s s1 ->
                   snd (spin_block nkpts spin s1) = Ok tt) ->
  snd (for_ spins (spin_block nkpts) s) = Ok tt.
Proof.
  induction spins as [|spin spins IH]; intros s H.
  - reflexivity.
  - cbn [for_]. unfold bindM.
    pose proof (H spin s (or_introl eq_refl) (same_arrays_refl s)) as Hok.
    pose proof (spin_block_inv nkpts spin s) as (Hsame & _).
    destruct (spin_block nkpts spin s) as [s1 [[]|e]]; cbn [fst snd] in *;
      [|discriminate].
    apply IH. intros sp s2 Hin Hs2. apply H; [now right|].
    eapply same_arrays_trans; eassumption.
Qed.

(** A file on which the loop cannot raise: some k-point when there is a spin
    channel, the rows of every channel present, and at every k-point at least
    one band that is not occupied. *)
Definition one_ok (v : read.vasprun) : Prop :=
  forall spin, (spin < read.ISPIN v)%nat ->
    (0 < length (read.kpointlist v))%nat /\
    exists rows, nth_error (read.band v) spin = Some rows /\
      forall kpt, (kpt < length (read.kpointlist v))%nat ->
        exists row, nth_error rows kpt = Some row /\
                    (length (filter occupied row) < length row)%nat.

(** C2.  One vasprun.xml and a float Fermi level.  At each k-point the
    highest occupied band is taken to be band number (count of bands with
    occupation > 0.5) - 1 and the lowest unoccupied one the band after it;
    the gap appended to [self.bandgap] for a spin channel is the smallest
    LUMO energy over the k-points minus the largest HOMO energy over the
    k-points.  On a file that is [one_ok] the call returns. *)
Theorem bandgap_is_min_lumo_minus_max_homo
        (v : read.vasprun) (ef : Q) (s : self) :
  vasprun s = One v ->
  let s' := fst (get_bandgap (Float ef) s) in
  let r := snd (get_bandgap (Float ef) s) in
  let nkpts := length (read.kpointlist v) in
  (r = Ok tt ->
   length (bandgap s') = read.ISPIN v /\
   forall spin gap, nth_error (bandgap s') spin = Some gap ->
     exists rows homo lumo hmax lmin,
       nth_error (read.band v) spin = Some rows /\
       mapM homo_energy (firstn nkpts rows) = Ok homo /\
       mapM lumo_energy (firstn nkpts rows) = Ok lumo /\
       In hmax homo /\ (forall h, In h homo -> h <= hmax) /\
       In lmin lumo /\ (forall l, In l lumo -> lmin <= l) /\
       gap = lmin - hmax) /\
  (one_ok v -> r = Ok tt).
Proof.
  intros Hv. cbv zeta.
  rewrite get_bandgap_given by congruence. rewrite run_from_eq, Hv.
  cbn [load load_one assert is_float bind a_ispin a_kpts a_band a_co_occ a_co_occ_].
  set (s2 := set_bandgap [] (set_arrays _ _ _ _ s)).
  set (nkpts := length (read.kpointlist v)).
  assert (band s2 = map (map (map fst)) (read.band v)) as Hb by reflexivity.
  assert (co_occ s2 = map (map (map snd)) (read.band v)) as Hc by reflexivity.
  assert (co_occ_ s2 = map (map (map (fun o => np.Qltb (1 # 2) o))) (co_occ s2))
    as Hc_ by reflexivity.
  assert (kpts s2 = read.kpointlist v) as Hk by reflexivity.
  assert (bandgap s2 = []) as Hg by reflexivity.
  clearbody s2. split.
  - intros Hr.
    destruct (for_spin_blocks nkpts (range (read.ISPIN v)) s2)
      as (_ & done & tail & _ & Hdone & _ & Hbg & _ & Hok).
    destruct (Hok Hr) as [Hn _]. rewrite Hbg, Hg. cbn [app].
    split; [rewrite length_map, Hn; unfold range; apply length_seq|].
    intros spin gap Hgap. rewrite nth_error_map in Hgap.
    destruct (nth_error done spin) as [og|] eqn:Hog; [|discriminate].
    injection Hgap as <-.
    assert (nth_error (range (read.ISPIN v)) spin = Some spin) as Hsp.
    { assert (spin < length done)%nat by (apply nth_error_Some; congruence).
      unfold range in *. rewrite length_seq in Hn.
      rewrite nth_error_nth' with (d := 0%nat) by (rewrite length_seq; lia).
      rewrite seq_nth by lia. reflexivity. }
    destruct (Hdone spin spin og Hsp Hog)
      as (be & vbm & cbm & av & ac & Hbe & Hvbm & Hcbm & Hav & Hac & Hgap & _).
    apply argmax_spec in Hvbm as (hmax & Hhmax & Hmax).
    apply argmin_spec in Hcbm as (lmin & Hlmin & Hmin).
    rewrite nth_error_map, Hav in Hhmax. injection Hhmax as <-.
    rewrite nth_error_map, Hac in Hlmin. injection Hlmin as <-.
    (* the rows of this spin channel: read at the k-point of the VBM *)
    assert (exists rows, nth_error (read.band v) spin = Some rows) as (rows & Hrows).
    { assert (nth_error (range nkpts) vbm = Some vbm) as Hrv.
      { assert (vbm < length be)%nat by (apply nth_error_Some; congruence).
        pose proof (mapM_length _ _ _ Hbe) as Hl.
        unfold range in *. rewrite length_seq in Hl.
        rewrite nth_error_nth' with (d := 0%nat) by (rewrite length_seq; lia).
        rewrite seq_nth by lia. reflexivity. }
      destruct (mapM_nth _ _ _ _ _ Hbe Hrv) as (e & _ & He).
      destruct (edge_at_one v s2 spin vbm e Hb Hc Hc_ He) as (rows & _ & Hr' & _).
      eauto. }
    exists rows, (map homo_e be), (map lumo_e be), (homo_e av), (lumo_e ac).
    split; [assumption|].
    split; [|split].
    + apply (mapM_range_rows (edge_at s2 spin)); [assumption|].
      intros k y Hy.
      destruct (edge_at_one v s2 spin k y Hb Hc Hc_ Hy) as (rows' & row & R1 & R2 & R3 & _).
      exists row. split; [congruence | assumption].
    + apply (mapM_range_rows (edge_at s2 spin)); [assumption|].
      intros k y Hy.
      destruct (edge_at_one v s2 spin k y Hb Hc Hc_ Hy) as (rows' & row & R1 & R2 & _ & R4).
      exists row. split; [congruence | assumption].
    + split; [apply in_map; eapply nth_error_In; eassumption|].
      split; [assumption|].
      split; [apply in_map; eapply nth_error_In; eassumption|].
      split; assumption.
  - intros Hok. apply for_spin_blocks_total.
    intros spin s1 Hin (A1 & A2 & A3 & A4).
    unfold range in Hin. apply in_seq in Hin.
    destruct (Hok spin) as (Hpos & rows & Hrows & Hrow); [lia|].
    apply spin_block_total; [|assumption|rewrite A4, Hk; reflexivity].
    apply mapM_total. intros k Hk'. unfold range in Hk'. apply in_seq in Hk'.
    destruct (Hrow k) as (row & Hr & Hocc); [lia|].
    apply (edge_at_one_total v s1 spin k rows row); try assumption; congruence.
Qed.

(** One spin channel, two k-points, three bands: the valence band peaks at
    the first k-point, the conduction band dips at the second. *)
Definition silicon_like : read.vasprun :=
  read.Build_vasprun 3 1 [(0, 0, 0); (1 # 2, 0, 0)] [1 # 2; 1 # 2]
    [[[(-1, 1); (0, 1); (2, 0)];
      [(-2, 1); (-1 # 2, 1); (1, 0)]]] None.

Definition fresh (r : runs) : self :=
  Build_self r (Some false) NoOutcar None [] [] [] [] [] [].

Lemma bandgap_is_min_lumo_minus_max_homo_witness :
  snd (get_bandgap (Float 0) (fresh (One silicon_like))) = Ok tt /\
  length (bandgap (fst (get_bandgap (Float 0) (fresh (One silicon_like))))) = 1%nat.
Proof.
  destruct (bandgap_is_min_lumo_minus_max_homo
              silicon_like 0 (fresh (One silicon_like)) eq_refl) as (Hgap & Hret).
  assert (one_ok silicon_like) as Hok.
  { intros spin Hs. cbn in Hs. assert (spin = 0%nat) as -> by lia.
    split; [cbn; lia|]. eexists. split; [reflexivity|].
    intros [|[|k]] Hk; cbn in Hk; try lia;
      (eexists; split; [reflexivity | vm_compute; lia]). }
  split; [exact (Hret Hok) | exact (proj1 (Hgap (Hret Hok)))].
Defined.

(** The run on [silicon_like]: VBM at the first k-point, CBM at the second,
    so the gap of 1 is reported as indirect. *)
Example silicon_like_is_indirect :
  stdout (fst (get_bandgap (Float 0) (fresh (One silicon_like)))) =
  [PSpin 0; PVBM 0 1 (0, 0, 0); PCBM 1 0 (1 # 2, 0, 0);
   PIndirect (1 + - 0); PDirectOfIndirect (1 + - (-1 # 2))].
Proof. vm_compute. reflexivity. Qed.

End Bandgap.


(** ** _generate_pband: labels that are not recognized *)

Module PbandFacts.
Import Py Pband PyFacts.

(** A label of style 2 is well formed when it reads 'atom:orbitals' and
    every orbital, after the expansion of 'p' and 'd', is in [lm_list]. *)
Definition well_formed_2 (lm_list : list string) (lm : string) : Prop :=
  exists atom lms, parse_label lm = Ok (atom, lms) /\
                   forallb (fun o => mem o lm_list) lms = true.

Lemma index_from_Raise (l : list string) (x : string) : forall n e,
  index_from n x l = Raise e -> e = ValueError.
Proof.
  induction l as [|y l IH]; intros n e; cbn.
  - now intros [= <-].
  - destruct (String.eqb y x); [discriminate | apply IH].
Qed.

Lemma index_from_mem (l : list string) (x : string) : forall n,
  mem x l = false -> index_from n x l = Raise ValueError.
Proof.
  unfold mem. induction l as [|y l IH]; intros n H; cbn in *.
  - reflexivity.
  - apply orb_false_elim in H as [H1 H2].
    rewrite String.eqb_sym, H1. now apply IH.
Qed.

Lemma index_from_Ok (l : list string) (x : string) : forall n,
  mem x l = true -> exists i, index_from n x l = Ok i.
Proof.
  unfold mem. induction l as [|y l IH]; intros n H; cbn in *.
  - discriminate.
  - destruct (String.eqb y x) eqn:E; [eauto|].
    rewrite String.eqb_sym, E in H. now apply IH.
Qed.

(** Looking up the orbitals of a label raises ValueError as soon as one of
    them is unknown. *)
Lemma indices_unknown (lm_list lms : list string) :
  forallb (fun o => mem o lm_list) lms = false ->
  mapM (index lm_list) lms = Raise ValueError.
Proof.
  induction lms as [|o lms IH]; cbn [forallb mapM]; [discriminate|].
  intros H. destruct (index lm_list o) as [i|e] eqn:E.
  - apply andb_false_iff in H as [H | H].
    + unfold index in E. rewrite index_from_mem in E by assumption. discriminate.
    + now rewrite IH.
  - apply index_from_Raise in E. now subst e.
Qed.

(** C8, as the code has it.  In style 1 a str [lm] that is neither in
    [lm_list] nor a shortcut, and in style 3 a str [lm] that is not one of
    the three shortcuts, raises [Exception] with a free-text message that
    names [lm] and the accepted labels.  Style 2 makes no such check: a str
    [lm] that is not a well-formed 'atom:orbitals' label fails with the
    built-in ValueError (the unpacking of [lm.split(':')], or
    [lm_list.index]). *)
Theorem unrecognized_label_raises
        (F : Type) (fadd fdiv : F -> F -> F) (fzero : F)
        (one_run : bool) (atom lm_list : list string)
        (proj_wf : list (list (list (list F)))) (lm : string) :
  (mem lm lm_list = false -> mem lm lm_shortcut_1 = false ->
   generate_pband fadd fdiv fzero one_run atom lm_list proj_wf 1 (Str lm) =
   Raise (Exception [Str "WARNING:"; Str lm;
                     Str "is not recognizable. lm must be";
                     strs lm_list; strs lm_shortcut_1])) /\
  (mem lm lm_shortcut_3 = false ->
   generate_pband fadd fdiv fzero one_run atom lm_list proj_wf 3 (Str lm) =
   Raise (Exception [Str "WARNING:"; Str lm;
                     Str "is not recognizable. lm must be";
                     strs lm_shortcut_3])) /\
  (~ well_formed_2 lm_list lm ->
   generate_pband fadd fdiv fzero one_run atom lm_list proj_wf 2 (Str lm) =
   Raise ValueError).
Proof.
  split; [|split].
  - intros H1 H2. unfold generate_pband. cbn [Z.eqb Pos.eqb].
    rewrite H1, H2. reflexivity.
  - intros H3. unfold generate_pband. cbn [Z.eqb Pos.eqb].
    rewrite H3. reflexivity.
  - intros Hwf. unfold generate_pband. cbn [Z.eqb Pos.eqb].
    destruct (parse_label lm) as [[a lms]|e] eqn:Hp.
    + cbn [bind mapM]. unfold projection_2 at 1.
      destruct (forallb (fun o => mem o lm_list) lms) eqn:Hf.
      * exfalso. apply Hwf. exists a, lms. auto.
      * rewrite (indices_unknown lm_list lms Hf). reflexivity.
    + cbn [bind]. unfold parse_label in Hp.
      destruct (split ":" lm) as [|? [|? [|? ?]]]; congruence.
Qed.

(** The labels of a VASP run with s, p and d orbitals. *)
Definition vasp_lm_list : list string :=
  ["s"; "py"; "pz"; "px"; "dxy"; "dyz"; "dz2"; "dxz"; "dx2-y2"]%string.

Lemma unrecognized_label_raises_witness :
  generate_pband Qplus Qdiv 0 true ["Ni"%string] vasp_lm_list [] 1 (Str "f") =
  Raise (Exception [Str "WARNING:"; Str "f";
                    Str "is not recognizable. lm must be";
                    strs vasp_lm_list; strs lm_shortcut_1]) /\
  generate_pband Qplus Qdiv 0 true ["Ni"%string] vasp_lm_list [] 3 (Str "f") =
  Raise (Exception [Str "WARNING:"; Str "f";
                    Str "is not recognizable. lm must be";
                    strs lm_shortcut_3]) /\
  generate_pband Qplus Qdiv 0 true ["Ni"%string] vasp_lm_list [] 2 (Str "Ni:f") =
  Raise ValueError.
Proof.
  destruct (unrecognized_label_raises Q Qplus Qdiv 0 true ["Ni"%string]
              vasp_lm_list [] "f") as (H1 & H3 & _).
  destruct (unrecognized_label_raises Q Qplus Qdiv 0 true ["Ni"%string]
              vasp_lm_list [] "Ni:f") as (_ & _ & H2).
  split; [apply H1; reflexivity|]. split; [apply H3; reflexivity|].
  apply H2. intros (a & lms & Hp & Hf).
  vm_compute in Hp. injection Hp as <- <-. vm_compute in Hf. discriminate.
Defined.

(** In style 2 the unrecognized label 'f' does not raise [Exception]: the
    unpacking of ['f'.split(':')] raises ValueError. *)
Lemma style_2_label_raises_ValueError :
  mem "f" vasp_lm_list = false /\
  mem "f" lm_shortcut_1 = false /\
  generate_pband Qplus Qdiv 0 true ["Ni"%string] vasp_lm_list [] 2 (Str "f") =
  Raise ValueError /\
  ~ exists args,
      generate_pband Qplus Qdiv 0 true ["Ni"%string] vasp_lm_list [] 2 (Str "f") =
      Raise (Exception args).
Proof.
  repeat split; try reflexivity. intros (args & H). vm_compute in H. discriminate.
Qed.

End PbandFacts.


(** ** VASP.__init__: missing files *)

Module InitFacts.
Import Py VASP Init.

Section Files.

Variable check_exist : string -> bool.
Variable read_vasprun : string -> read.vasprun.
Variable read_OUTCAR : string -> read.OUTCAR.

(** The names before the first missing file are loaded, in order; the
    message is printed once and the loop is left without an exception. *)
Lemma load_vaspruns_missing (path : string) (pre : list string) (xml : string)
      (post : list value) :
  forall loaded out,
  (forall x, In x pre -> check_exist (xml_file path x) = true) ->
  check_exist (xml_file path xml) = false ->
  load_vaspruns check_exist read_vasprun path
                (map Str pre ++ Str xml :: post) loaded out =
  (loaded ++ map (fun x => read_vasprun (xml_file path x)) pre,
   out ++ [cannot_find (xml_file path xml)], Ok tt).
Proof.
  induction pre as [|x pre IH]; intros loaded out Hpre Hxml;
    cbn [map app load_vaspruns].
  - rewrite Hxml. cbn [negb map]. now rewrite app_nil_r.
  - rewrite (Hpre x (or_introl eq_refl)). cbn [negb].
    rewrite IH; [|intros; apply Hpre; now right|assumption].
    cbn [map]. now rewrite <- app_assoc.
Qed.

Lemma load_outcars_missing (path : string) (pre : list string) (outcar : string)
      (post : list value) :
  forall loaded use out,
  (forall x, In x pre -> check_exist (outcar_file path x) = true) ->
  check_exist (outcar_file path outcar) = false ->
  load_outcars check_exist read_OUTCAR path
               (map Str pre ++ Str outcar :: post) loaded use out =
  (loaded ++ map (fun x => read_OUTCAR (outcar_file path x)) pre,
   match pre with [] => use | _ :: _ => Some true end,
   out ++ [cannot_find (outcar_file path outcar)], Ok tt).
Proof.
  induction pre as [|x pre IH]; intros loaded use out Hpre Hxml;
    cbn [map app load_outcars].
  - rewrite Hxml. cbn [negb map]. now rewrite app_nil_r.
  - rewrite (Hpre x (or_introl eq_refl)). cbn [negb].
    rewrite IH; [|intros; apply Hpre; now right|assumption].
    cbn [map]. rewrite <- app_assoc. destruct pre; reflexivity.
Qed.

(** A missing .xml file that is not the first of the list: [__init__]
    returns, with the runs before it loaded and the message printed. *)
Lemma init_later_xml_missing (path : string) (first : string)
      (pre : list string) (xml : string) (post : list value) :
  (forall x, In x (first :: pre) -> check_exist (xml_file path x) = true) ->
  check_exist (xml_file path xml) = false ->
  init check_exist read_vasprun read_OUTCAR path
       (List_ (map Str (first :: pre) ++ Str xml :: post)) None_ =
  (Build_object
     (Some (Many (map (fun x => read_vasprun (xml_file path x)) (first :: pre))))
     (Some (read_vasprun (xml_file path first))) None NoOutcar
     [cannot_find (xml_file path xml)],
   Ok tt).
Proof.
  intros Hpre Hxml. unfold init.
  rewrite (load_vaspruns_missing path (first :: pre) xml post [] [] Hpre Hxml).
  reflexivity.
Qed.

(** A missing OUTCAR file, whatever its position: [__init__] returns, with
    the OUTCAR files before it loaded and the message printed. *)
Lemma init_outcar_missing (path : string) (xmls : list string)
      (pre : list string) (outcar : string) (post : list value) (v0 : read.vasprun) :
  (forall x, In x xmls -> check_exist (xml_file path x) = true) ->
  length xmls = length (map Str pre ++ Str outcar :: post) ->
  (forall x, In x pre -> check_exist (outcar_file path x) = true) ->
  check_exist (outcar_file path outcar) = false ->
  exists o,
    init check_exist read_vasprun read_OUTCAR path
         (List_ (map Str xmls)) (List_ (map Str pre ++ Str outcar :: post)) =
    (o, Ok tt) /\
    o_outcar o = ManyOutcar (map (fun x => read_OUTCAR (outcar_file path x)) pre) /\
    o_stdout o = [cannot_find (outcar_file path outcar)].
Proof.
  intros Hx Hlen Hpre Hmiss. unfold init.
  assert (forall l loaded out,
            (forall x, In x l -> check_exist (xml_file path x) = true) ->
            load_vaspruns check_exist read_vasprun path (map Str l) loaded out =
            (loaded ++ map (fun x => read_vasprun (xml_file path x)) l, out, Ok tt))
    as Hall.
  { induction l as [|x l IH]; intros loaded out Hl; cbn [map load_vaspruns].
    - now rewrite app_nil_r.
    - rewrite (Hl x (or_introl eq_refl)). cbn [negb].
      rewrite IH by (intros; apply Hl; now right). now rewrite <- app_assoc. }
  rewrite (Hall xmls [] [] Hx). cbn [app].
  set (files := map Str pre ++ Str outcar :: post) in *.
  assert (Nat.eqb (length files) (length (map Str xmls)) = true) as Heq
    by (rewrite length_map; apply Nat.eqb_eq; congruence).
  rewrite Heq. cbn [negb].
  destruct xmls as [|x0 xmls];
    [subst files; rewrite length_app in Hlen; cbn in Hlen; lia|].
  cbn [map getitem length]. cbn -[load_outcars files].
  subst files.
  rewrite (load_outcars_missing path pre outcar post [] None [] Hpre Hmiss).
  eexists. split; [reflexivity|]. split; reflexivity.
Qed.

End Files.

(** When the first .xml file of the list is the missing one, whatever the
    other files, the message is printed, the loop is left with nothing
    loaded, and [self.get_info(self.vasprun[0])] raises IndexError. *)
Lemma init_first_xml_missing_raises :
  forall (read_vasprun : string -> read.vasprun)
         (read_OUTCAR : string -> read.OUTCAR)
         (path xml : string) (rest : list value) (outcars : value),
    init (fun _ => false) read_vasprun read_OUTCAR path
         (List_ (Str xml :: rest)) outcars =
    (Build_object (Some (Many [])) None None NoOutcar
                  [cannot_find (xml_file path xml)],
     Raise IndexError).
Proof. reflexivity. Qed.

(** C7, as the code has it and where it departs.  A missing .xml file is
    answered by the message and the end of the loop, with the runs before
    it kept; [__init__] then goes on to [self.get_info(self.vasprun[0])],
    which raises IndexError when the missing file is the first of the list
    and nothing was loaded: only a missing file that is not the first one
    is passed over without an exception.  A missing OUTCAR file, at any
    position, is answered by the message and the end of the loop, with the
    OUTCAR files before it kept, and no exception. *)
Theorem init_missing_file
        (check_exist : string -> bool)
        (read_vasprun : string -> read.vasprun)
        (read_OUTCAR : string -> read.OUTCAR) (path : string) :
  (forall (pre : list string) (xml : string) (post : list value),
     (forall x, In x pre -> check_exist (xml_file path x) = true) ->
     check_exist (xml_file path xml) = false ->
     let r := init check_exist read_vasprun read_OUTCAR path
                   (List_ (map Str pre ++ Str xml :: post)) None_ in
     o_vasprun (fst r) =
       Some (Many (map (fun x => read_vasprun (xml_file path x)) pre)) /\
     o_stdout (fst r) = [cannot_find (xml_file path xml)] /\
     snd r = match pre with
             | [] => Raise IndexError
             | _ :: _ => Ok tt
             end) /\
  (forall (xmls pre : list string) (outcar : string) (post : list value),
     (forall x, In x xmls -> check_exist (xml_file path x) = true) ->
     length xmls = length (map Str pre ++ Str outcar :: post) ->
     (forall x, In x pre -> check_exist (outcar_file path x) = true) ->
     check_exist (outcar_file path outcar) = false ->
     let r := init check_exist read_vasprun read_OUTCAR path
                   (List_ (map Str xmls))
                   (List_ (map Str pre ++ Str outcar :: post)) in
     o_outcar (fst r) =
       ManyOutcar (map (fun x => read_OUTCAR (outcar_file path x)) pre) /\
     o_stdout (fst r) = [cannot_find (outcar_file path outcar)] /\
     snd r = Ok tt).
Proof.
  split.
  - intros pre xml post Hpre Hxml r. subst r. destruct pre as [|first pre].
    + cbn [map app init load_vaspruns]. rewrite Hxml. cbn. auto.
    + rewrite (init_later_xml_missing check_exist read_vasprun read_OUTCAR
                 path first pre xml post Hpre Hxml).
      cbn [fst snd o_vasprun o_stdout]. auto.
  - intros xmls pre outcar post Hx Hlen Hpre Hmiss r. subst r.
    destruct (init_outcar_missing check_exist read_vasprun read_OUTCAR
                path xmls pre outcar post (read_vasprun path)
                Hx Hlen Hpre Hmiss)
      as (o & -> & Ho & Hs).
    cbn [fst snd]. auto.
Qed.

Lemma init_missing_file_witness :
  snd (init (fun f => String.eqb f "./a.xml") (fun _ => ManyRuns.run_a)
            (fun _ => read.Build_OUTCAR 0) "."
            (List_ (map Str ["a"%string] ++ [Str "b"])) None_) = Ok tt /\
  snd (init (fun f => String.eqb f "./a.xml") (fun _ => ManyRuns.run_a)
            (fun _ => read.Build_OUTCAR 0) "."
            (List_ (map Str [] ++ [Str "b"])) None_) = Raise IndexError.
Proof.
  destruct (init_missing_file (fun f => String.eqb f "./a.xml")
              (fun _ => ManyRuns.run_a) (fun _ => read.Build_OUTCAR 0) ".")
    as [H _].
  split.
  - destruct (H ["a"%string] "b"%string []) as (_ & _ & Hr).
    + intros x [<- | []]. reflexivity.
    + reflexivity.
    + exact Hr.
  - destruct (H [] "b"%string []) as (_ & _ & Hr).
    + intros x [].
    + reflexivity.
    + exact Hr.
Defined.

End InitFacts.


(** ** The projection functions: which branch is taken *)

Module ProjectionFacts.
Import Py pywannier90.

Section AnyFloat.

Context {F : Type} {num : Floating F}.
Local Open Scope float_scope.

(** C10.  [R_r] has a value for every radial index: the n = 1
    hydrogen-like function for r = 1, the n = 2 function for r = 2, and the
    n = 3 function for every other r, 0 and 4 included; no error is raised. *)
Theorem R_r_branches (r_norm zona : F) :
  R_r r_norm 1 zona = lit 2 * zona ** lit (3 # 2) * fexp (- zona * r_norm) /\
  R_r r_norm 2 zona =
    lit 1 / lit 2 / fsqrt (lit 2) * zona ** lit (3 # 2)
    * (lit 2 - zona * r_norm) * fexp (- zona * r_norm / lit 2) /\
  forall r : Z, r <> 1%Z -> r <> 2%Z ->
    R_r r_norm r zona =
      fsqrt (lit 4 / lit 27) * zona ** lit (3 # 2)
      * (lit 1 - lit 2 * zona * r_norm / lit 3
         + lit 2 * (zona ^ 2) * (r_norm ^ 2) / lit 27)
      * fexp (- zona * r_norm / lit 3).
Proof.
  split; [reflexivity|]. split; [reflexivity|].
  intros r H1 H2. unfold R_r.
  destruct (Z.eqb_spec r 1); [contradiction|].
  destruct (Z.eqb_spec r 2); [contradiction|]. reflexivity.
Qed.

(** The names [theta] knows. *)
Definition theta_names : list string :=
  ["s"; "pz"; "px"; "py"; "dz2"; "dxz"; "dyz"; "dx2-y2"; "pxy"; "fz3"; "fxz2";
   "fyz2"; "fz(x2-y2)"; "fxyz"; "fx(x2-3y2)"; "fy(3x2-y2)"]%string.

Lemma zip_with_length (f : F -> F -> F) (a b : list F) :
  length a = length b -> length (zip_with f a b) = length a.
Proof.
  intros E. unfold zip_with. rewrite length_map, length_combine, <- E.
  apply Nat.min_id.
Qed.

(** Arrays of the length of [cost]. *)
Definition shaped (cost : list F) (r : result (list F)) : Prop :=
  exists a, r = Ok a /\ length a = length cost.

Lemma theta_shaped (func : string) (cost phi : list F) :
  In func theta_names -> length cost = length phi ->
  shaped cost (theta func cost phi).
Proof.
  intros Hin Hlen. unfold shaped, theta.
  rewrite Hlen, Nat.eqb_refl, <- Hlen.
  repeat (destruct Hin as [<- | Hin];
          [cbn [String.eqb Ascii.eqb Bool.eqb]; eexists; split; [reflexivity|];
           first [apply length_map | now apply zip_with_length] |]).
  destruct Hin.
Qed.

(** The pairs (l, mr) of Table 3.1 (l >= 0) and Table 3.2 (l < 0) of the
    wannier90 User Guide: mr runs from 1 to the number of orbitals of the
    shell or of the hybrid set. *)
Definition orbitals (l : Z) : Z :=
  if (l =? 0)%Z then 1 else if (l =? 1)%Z then 3 else if (l =? 2)%Z then 5
  else if (l =? 3)%Z then 7 else if (l =? -1)%Z then 2 else if (l =? -2)%Z then 3
  else if (l =? -3)%Z then 4 else if (l =? -4)%Z then 5 else if (l =? -5)%Z then 6
  else 0.

Definition in_table (l mr : Z) : bool := ((1 <=? mr)%Z && (mr <=? orbitals l)%Z)%bool.

(** What the two asserts let through. *)
Definition accepted (l mr : Z) : bool :=
  (Z_in l [0; 1; 2; 3; -1; -2; -3; -4; -5]%Z && Z_in mr [1; 2; 3; 4; 5; 6; 7]%Z)%bool.

(** The pairs that have a branch: those of the tables, and l = 0 with any
    mr; the branches for sp3d-4 and sp3d-5 are the two that call a float. *)
Definition has_branch (l mr : Z) : bool := ((l =? 0)%Z || in_table l mr)%bool.

Definition calls_float (l mr : Z) : bool :=
  ((l =? -4)%Z && ((mr =? 4)%Z || (mr =? 5)%Z))%bool.

Definition reached (l mr : Z) : list (@branch F) :=
  filter (fun b : branch => fst b l mr) branches.

Ltac shaped_sum :=
  repeat first [ rewrite length_map | rewrite zip_with_length ]; congruence.

Ltac use_theta name cost phi Hlen x Hx Lx :=
  let Hin := fresh in
  assert (In name theta_names) as Hin by (cbn; tauto);
  destruct (theta_shaped name cost phi Hin Hlen) as (x & Hx & Lx);
  clear Hin.

Lemma plain_shaped (func : string) (cost phi : list F) :
  In func theta_names -> length cost = length phi ->
  shaped cost (plain func cost phi).
Proof. apply theta_shaped. Qed.

Lemma sp_shaped (plus : bool) (cost phi : list F) :
  length cost = length phi -> shaped cost (sp_ plus cost phi).
Proof.
  intros Hlen. unfold sp_.
  use_theta "s"%string cost phi Hlen s Hs Ls. use_theta "px"%string cost phi Hlen px Hpx Lpx.
  rewrite Hs, Hpx. cbn [bind]. eexists. split; [reflexivity|].
  destruct plus; shaped_sum.
Qed.

Lemma sp2_like_shaped (a b c : F) (sign : bool) (cost phi : list F) :
  length cost = length phi -> shaped cost (sp2_like a b c sign cost phi).
Proof.
  intros Hlen. unfold sp2_like.
  use_theta "s"%string cost phi Hlen s Hs Ls. use_theta "px"%string cost phi Hlen px Hpx Lpx.
  use_theta "py"%string cost phi Hlen py Hpy Lpy.
  rewrite Hs, Hpx, Hpy. cbn [bind]. eexists. split; [reflexivity|].
  destruct sign; shaped_sum.
Qed.

Lemma sp2_third_shaped (cost phi : list F) :
  length cost = length phi -> shaped cost (sp2_third cost phi).
Proof.
  intros Hlen. unfold sp2_third.
  use_theta "s"%string cost phi Hlen s Hs Ls. use_theta "px"%string cost phi Hlen px Hpx Lpx.
  rewrite Hs, Hpx. cbn [bind]. eexists. split; [reflexivity|]. shaped_sum.
Qed.

Lemma sp3_shaped (s_px s_py s_pz : bool) (cost phi : list F) :
  length cost = length phi -> shaped cost (sp3 s_px s_py s_pz cost phi).
Proof.
  intros Hlen. unfold sp3.
  use_theta "s"%string cost phi Hlen s Hs Ls. use_theta "px"%string cost phi Hlen px Hpx Lpx.
  use_theta "py"%string cost phi Hlen py Hpy Lpy. use_theta "pz"%string cost phi Hlen pz Hpz Lpz.
  rewrite Hs, Hpx, Hpy, Hpz. cbn [bind]. eexists. split; [reflexivity|].
  destruct s_px, s_py, s_pz; shaped_sum.
Qed.

Lemma sp3d2_xy_shaped (p : string) (plus_p plus_d : bool) (cost phi : list F) :
  In p theta_names -> length cost = length phi ->
  shaped cost (sp3d2_xy p plus_p plus_d cost phi).
Proof.
  intros Hp Hlen. unfold sp3d2_xy.
  use_theta "s"%string cost phi Hlen s Hs Ls.
  destruct (theta_shaped p cost phi Hp Hlen) as (pp & Hpp & Lpp).
  use_theta "dz2"%string cost phi Hlen dz2 Hdz2 Ldz2.
  use_theta "dx2-y2"%string cost phi Hlen dx2 Hdx2 Ldx2.
  rewrite Hs, Hpp, Hdz2, Hdx2. cbn [bind]. eexists. split; [reflexivity|].
  destruct plus_p, plus_d; shaped_sum.
Qed.

Lemma sp3d2_z_shaped (plus_p : bool) (cost phi : list F) :
  length cost = length phi -> shaped cost (sp3d2_z plus_p cost phi).
Proof.
  intros Hlen. unfold sp3d2_z.
  use_theta "s"%string cost phi Hlen s Hs Ls. use_theta "pz"%string cost phi Hlen pz Hpz Lpz.
  use_theta "dz2"%string cost phi Hlen dz2 Hdz2 Ldz2.
  rewrite Hs, Hpz, Hdz2. cbn [bind]. eexists. split; [reflexivity|].
  destruct plus_p; shaped_sum.
Qed.

Lemma not_callable_raises (cost phi : list F) :
  not_callable cost phi = Raise TypeError.
Proof. reflexivity. Qed.

Lemma accepted_cases (l mr : Z) :
  accepted l mr = true ->
  In l [0; 1; 2; 3; -1; -2; -3; -4; -5]%Z /\ In mr [1; 2; 3; 4; 5; 6; 7]%Z.
Proof.
  unfold accepted, Z_in. rewrite andb_true_iff, !existsb_exists.
  intros [(x & Hx & Ex) (y & Hy & Ey)].
  apply Z.eqb_eq in Ex, Ey. subst. auto.
Qed.


Ltac branch_shaped Hlen :=
  cbn [snd];
  first [ apply plain_shaped; [cbn; tauto | exact Hlen]
        | apply sp_shaped; exact Hlen
        | apply sp2_like_shaped; exact Hlen
        | apply sp2_third_shaped; exact Hlen
        | apply sp3_shaped; exact Hlen
        | apply sp3d2_xy_shaped; [cbn; tauto | exact Hlen]
        | apply sp3d2_z_shaped; exact Hlen ].

(** The chain of [theta_lmr], for every implementation of the float
    operations.  Of the 63 pairs (l, mr) that the two asserts accept, those
    with a branch (l = 0 with any mr, and the pairs the chain lists for the
    other l) other than sp3d-4 and sp3d-5 reach exactly one branch of the
    chain, and [theta_lmr] returns what that branch computes, an array of
    the shape of [cost], without raising.  A pair with no branch (such as
    l = 1, mr = 4) reaches none, and the return of the unassigned local
    raises UnboundLocalError. *)
Lemma theta_lmr_by_branch (l mr : Z) (cost phi : list F) :
  accepted l mr = true -> length cost = length phi ->
  (has_branch l mr = true -> calls_float l mr = false ->
   exists b, reached l mr = [b] /\
             theta_lmr l mr cost phi = snd b cost phi /\
             shaped cost (snd b cost phi)) /\
  (has_branch l mr = false ->
   reached l mr = [] /\ theta_lmr l mr cost phi = Raise UnboundLocalError).
Proof.
  intros Hacc Hlen. apply accepted_cases in Hacc as [Hl Hmr].
  cbn [In] in Hl, Hmr.
  repeat (destruct Hl as [<- | Hl]); try contradiction;
    repeat (destruct Hmr as [<- | Hmr]); try contradiction;
    (split;
     [ intros Hb Hc;
       first [ discriminate Hb | discriminate Hc
             | eexists; split;
               [reflexivity | split; [reflexivity | branch_shaped Hlen]] ]
     | intros Hb; first [ discriminate Hb | split; reflexivity ] ]).
Qed.


(** The sp3d-4 and sp3d-5 branches apply the float [np.sqrt(2)] to their
    argument: 'numpy.float64' object is not callable. *)
Lemma theta_lmr_sp3d_4_5_raise (cost phi : list F) :
  theta_lmr (-4) 4 cost phi = Raise TypeError /\
  theta_lmr (-4) 5 cost phi = Raise TypeError.
Proof. split; reflexivity. Qed.

End AnyFloat.

Import Exact.

Lemma R_r_branches_witness :
  R_r (num := Exact.exact) (Some 1%R) 0 (Some 1%R) = R_r (Some 1%R) 3 (Some 1%R) /\
  R_r (num := Exact.exact) (Some 1%R) 4 (Some 1%R) = R_r (Some 1%R) 3 (Some 1%R).
Proof.
  destruct (R_r_branches (num := Exact.exact) (Some 1%R) (Some 1%R)) as (_ & _ & H3).
  split.
  - rewrite (H3 0%Z), (H3 3%Z); [reflexivity | lia | lia | lia | lia].
  - rewrite (H3 4%Z), (H3 3%Z); [reflexivity | lia | lia | lia | lia].
Defined.


End ProjectionFacts.


(** ** g_r in exact arithmetic: the radii *)

Module RadiusFacts.
Import Py pywannier90 Exact.
Local Open Scope R_scope.

(** Real vectors. *)
Definition R3 : Type := (R * R * R)%type.

Definition pt (v : R3) : vec (F := option R) :=
  let '(x, y, z) := v in point x y z.

Definition dotR (a b : R3) : R :=
  let '(a1, a2, a3) := a in let '(b1, b2, b3) := b in a1 * b1 + a2 * b2 + a3 * b3.

Definition normR (a : R3) : R :=
  let '(a1, a2, a3) := a in sqrt (a1 * a1 + a2 * a2 + a3 * a3).

Definition crossR (a b : R3) : R3 :=
  let '(a1, a2, a3) := a in
  let '(b1, b2, b3) := b in
  (a2 * b3 - a3 * b2, a3 * b1 - a1 * b3, a1 * b2 - a2 * b1).

Definition unitR (a : R3) : R3 :=
  let '(a1, a2, a3) := a in (a1 / normR a, a2 / normR a, a3 / normR a).

Definition subR (a b : R3) : R3 :=
  let '(a1, a2, a3) := a in let '(b1, b2, b3) := b in (a1 - b1, a2 - b2, a3 - b3).

Lemma lit_0 : lit 0 = Some 0.
Proof. cbn. f_equal. unfold Q2R. cbn. lra. Qed.

Lemma lit_1 : lit 1 = Some 1.
Proof. cbn. f_equal. unfold Q2R. cbn. lra. Qed.

Lemma dot_pt (a b : R3) : dot (pt a) (pt b) = Some (dotR a b).
Proof. destruct a as [[a1 a2] a3], b as [[b1 b2] b3]. reflexivity. Qed.

Lemma norm_pt (a : R3) : norm (pt a) = Some (normR a).
Proof.
  destruct a as [[a1 a2] a3]. cbn.
  destruct (Rlt_dec (a1 * a1 + a2 * a2 + a3 * a3) 0) as [Hneg|_]; [|reflexivity].
  exfalso. nra.
Qed.

Lemma cross_pt (a b : R3) : cross (pt a) (pt b) = pt (crossR a b).
Proof. destruct a as [[a1 a2] a3], b as [[b1 b2] b3]. reflexivity. Qed.

Lemma sub_vec_pt (a b : R3) : sub_vec (pt a) (pt b) = pt (subR a b).
Proof. destruct a as [[a1 a2] a3], b as [[b1 b2] b3]. reflexivity. Qed.

Lemma div_Some (x n : R) : n <> 0 -> fdiv (Some x) (Some n) = Some (x / n).
Proof.
  intros Hn. cbn. unfold div.
  destruct (Req_dec_T n 0); [contradiction | reflexivity].
Qed.

Lemma div_zero (x : R) : fdiv (Some x) (Some 0) = None.
Proof.
  cbn. unfold div. destruct (Req_dec_T 0 0); [reflexivity | contradiction].
Qed.

Lemma scale_inv_pt (a : R3) (n : R) :
  n <> 0 ->
  scale_inv (pt a) (Some n) =
  pt (let '(a1, a2, a3) := a in (a1 / n, a2 / n, a3 / n)).
Proof.
  intros Hn. destruct a as [[a1 a2] a3].
  unfold scale_inv, pt, point, vx, vy, vz. cbn [fst snd].
  now rewrite !div_Some.
Qed.

Lemma normR_nonneg (a : R3) : 0 <= normR a.
Proof. destruct a as [[a1 a2] a3]. apply sqrt_pos. Qed.

Lemma normR_sqr (a : R3) : normR a * normR a = dotR a a.
Proof.
  destruct a as [[a1 a2] a3]. cbn. apply sqrt_sqrt. nra.
Qed.

Lemma normR_zero (a : R3) : normR a = 0 <-> a = (0, 0, 0).
Proof.
  split.
  - intros Hn. pose proof (normR_sqr a) as Hs. rewrite Hn in Hs.
    destruct a as [[a1 a2] a3]. cbn in Hs.
    assert (a1 = 0) by nra. assert (a2 = 0) by nra. assert (a3 = 0) by nra.
    subst. reflexivity.
  - intros ->. cbn. replace (0 * 0 + 0 * 0 + 0 * 0) with 0 by lra. apply sqrt_0.
Qed.

Lemma normR_unit (a : R3) : normR a <> 0 -> dotR (unitR a) (unitR a) = 1.
Proof.
  intros Hn. pose proof (normR_sqr a) as Hs.
  destruct a as [[a1 a2] a3]. cbn [unitR dotR] in *.
  set (n := normR (a1, a2, a3)) in *.
  replace (a1 / n * (a1 / n) + a2 / n * (a2 / n) + a3 / n * (a3 / n))
    with ((a1 * a1 + a2 * a2 + a3 * a3) / (n * n)) by (field; assumption).
  rewrite <- Hs. field. assumption.
Qed.

(** Lagrange's identity and the Gram determinant of three vectors. *)
Lemma cross_sqr (a b : R3) :
  dotR (crossR a b) (crossR a b) = dotR a a * dotR b b - dotR a b * dotR a b.
Proof. destruct a as [[a1 a2] a3], b as [[b1 b2] b3]. cbn. ring. Qed.

Lemma gram (a b v : R3) :
  dotR v (crossR a b) * dotR v (crossR a b) =
  dotR v v * dotR a a * dotR b b + 2 * dotR v a * dotR a b * dotR v b
  - dotR v v * (dotR a b * dotR a b) - dotR a a * (dotR v b * dotR v b)
  - dotR b b * (dotR v a * dotR v a).
Proof.
  destruct a as [[a1 a2] a3], b as [[b1 b2] b3], v as [[v1 v2] v3]. cbn. ring.
Qed.

(** In an orthonormal frame the squares of the components add up to the
    square of the length. *)
Lemma parseval (a b v : R3) :
  dotR a a = 1 -> dotR b b = 1 -> dotR a b = 0 ->
  dotR v a * dotR v a + dotR v (crossR a b) * dotR v (crossR a b)
  + dotR v b * dotR v b = dotR v v.
Proof. intros Ha Hb Hab. rewrite gram, Ha, Hb, Hab. ring. Qed.

Lemma normR_of_unit (n : R3) : dotR n n = 1 -> normR n = 1.
Proof.
  intros Hn. pose proof (normR_sqr n) as Hs. rewrite Hn in Hs.
  pose proof (normR_nonneg n). nra.
Qed.

Lemma unit_component_bound (n : R3) :
  dotR n n = 1 ->
  let '(n1, n2, n3) := n in -1 <= n1 <= 1 /\ -1 <= n2 <= 1 /\ -1 <= n3 <= 1.
Proof. destruct n as [[n1 n2] n3]. cbn. intros Hn. repeat split; nra. Qed.

Lemma cos_arccos (c : R) : -1 <= c <= 1 -> fcos (farccos (Some c)) = Some c.
Proof.
  intros [Hl Hu]. cbn. unfold arccos.
  destruct (Rle_dec (-1) c); [|contradiction].
  destruct (Rle_dec c 1); [|contradiction].
  cbn. f_equal. apply cos_acos. split; assumption.
Qed.

(** The rows of [transform]: for a unit vector [n], the cosines of its
    angles with the three axes are its components. *)
Lemma direction_cosines (n : R3) :
  dotR n n = 1 ->
  (fcos (angle (Some 1, Some 0, Some 0) (pt n)),
   fcos (angle (Some 0, Some 1, Some 0) (pt n)),
   fcos (angle (Some 0, Some 0, Some 1) (pt n))) = pt n.
Proof.
  intros Hn. pose proof (normR_of_unit n Hn) as Hn1.
  pose proof (unit_component_bound n Hn) as Hb.
  change (Some 1, Some 0, Some 0) with (pt (1, 0, 0)).
  change (Some 0, Some 1, Some 0) with (pt (0, 1, 0)).
  change (Some 0, Some 0, Some 1) with (pt (0, 0, 1)).
  unfold angle. rewrite !dot_pt, !norm_pt, Hn1.
  assert (normR (1, 0, 0) = 1) as -> by (apply normR_of_unit; cbn; ring).
  assert (normR (0, 1, 0) = 1) as -> by (apply normR_of_unit; cbn; ring).
  assert (normR (0, 0, 1) = 1) as -> by (apply normR_of_unit; cbn; ring).
  rewrite !div_Some by lra.
  destruct n as [[n1 n2] n3]. destruct Hb as (B1 & B2 & B3). cbn [dotR pt point].
  replace ((1 * n1 + 0 * n2 + 0 * n3) / 1 / 1) with n1 by field.
  replace ((0 * n1 + 1 * n2 + 0 * n3) / 1 / 1) with n2 by field.
  replace ((0 * n1 + 0 * n2 + 1 * n3) / 1 / 1) with n3 by field.
  now rewrite !cos_arccos.
Qed.

(** Axes that pass the assert of [transform]. *)
Definition axes_ok (x z : R3) : Prop :=
  normR x <> 0 /\ normR z <> 0 /\ dotR (unitR x) (unitR z) = 0.

Definition frameR (x z : R3) : R3 * R3 * R3 :=
  (unitR x, crossR (unitR x) (unitR z), unitR z).

Lemma transform_exact (x z : R3) :
  axes_ok x z ->
  transform (pt x) (pt z) =
  Ok (pt (unitR x), pt (crossR (unitR x) (unitR z)), pt (unitR z)).
Proof.
  intros (Hx & Hz & Hxz). unfold transform.
  rewrite !norm_pt, !scale_inv_pt by assumption.
  change (pt (let '(a1, a2, a3) := x in (a1 / normR x, a2 / normR x, a3 / normR x)))
    with (pt (unitR x)).
  change (pt (let '(a1, a2, a3) := z in (a1 / normR z, a2 / normR z, a3 / normR z)))
    with (pt (unitR z)).
  rewrite dot_pt, lit_0, lit_1, Hxz.
  assert (feqb (Some 0) (Some 0) = true) as ->.
  { cbn. unfold eqb. destruct (Req_dec_T 0 0); [reflexivity | contradiction]. }
  cbn [assert bind]. rewrite cross_pt.
  pose proof (normR_unit x Hx) as Ux. pose proof (normR_unit z Hz) as Uz.
  assert (dotR (crossR (unitR x) (unitR z)) (crossR (unitR x) (unitR z)) = 1) as Uy.
  { rewrite cross_sqr, Ux, Uz, Hxz. ring. }
  rewrite (direction_cosines _ Ux), (direction_cosines _ Uy),
    (direction_cosines _ Uz).
  reflexivity.
Qed.

Lemma rotate_pt (a b c v : R3) :
  rotate (pt a, pt b, pt c) (pt v) = pt (dotR v a, dotR v b, dotR v c).
Proof. unfold rotate. now rewrite !dot_pt. Qed.

(** [transform] keeps lengths. *)
Lemma norm_rotate (x z v : R3) :
  axes_ok x z ->
  norm (rotate (pt (unitR x), pt (crossR (unitR x) (unitR z)), pt (unitR z)) (pt v))
  = Some (normR v).
Proof.
  intros (Hx & Hz & Hxz). rewrite rotate_pt, norm_pt. f_equal.
  pose proof (parseval (unitR x) (unitR z) v (normR_unit x Hx) (normR_unit z Hz) Hxz)
    as Hp.
  unfold normR at 1. rewrite Hp.
  destruct v as [[v1 v2] v3]. reflexivity.
Qed.

(** The two thresholds of [g_r]. *)
Definition eps : R := Q2R (1 # 100000000).
Definition delta : R := Q2R (1 # 100000).

Lemma eps_value : eps = / 100000000.
Proof. unfold eps, Q2R. cbn. lra. Qed.

Lemma delta_value : delta = / 100000.
Proof. unfold delta, Q2R. cbn. lra. Qed.

(** The site moved by 1e-5 along each axis. *)
Definition shifted (site : R3) : R3 :=
  let '(s1, s2, s3) := site in (s1 + delta, s2 + delta, s3 + delta).

Lemma sub_scalar_pt (p site : R3) :
  sub_scalar (pt (subR p site)) (lit (1 # 100000)) = pt (subR p (shifted site)).
Proof.
  destruct p as [[p1 p2] p3], site as [[s1 s2] s3].
  cbn [shifted subR pt point].
  replace (p1 - (s1 + delta)) with (p1 - s1 - delta) by ring.
  replace (p2 - (s2 + delta)) with (p2 - s2 - delta) by ring.
  replace (p3 - (s3 + delta)) with (p3 - s3 - delta) by ring.
  reflexivity.
Qed.

(** A grid point closer to the site than 1e-8. *)
Definition near (site p : R3) : Prop := normR (subR p site) < eps.

Lemma any_near (site : R3) (grids : list R3) :
  existsb (fun n => fltb n (lit (1 # 100000000)))
          (map (fun p => Some (normR (subR p site))) grids) = true
  <-> exists p, In p grids /\ near site p.
Proof.
  rewrite existsb_exists. split.
  - intros (n & Hin & Hlt). apply in_map_iff in Hin as (p & <- & Hp).
    exists p. split; [assumption|]. cbn in Hlt. unfold ltb in Hlt.
    fold eps in Hlt. destruct (Rlt_dec (normR (subR p site)) eps);
      [assumption | discriminate].
  - intros (p & Hp & Hnear). exists (Some (normR (subR p site))).
    split; [apply in_map_iff; eauto|]. cbn. unfold ltb. fold eps.
    destruct (Rlt_dec (normR (subR p site)) eps); [reflexivity | contradiction].
Qed.

(** The radii that [g_r] divides by, in exact arithmetic: the distances to
    the site, or to the shifted site when some grid point is near. *)
Lemma frame_exact (grids : list R3) (site x z : R3) :
  axes_ok x z ->
  exists r_vec,
    length r_vec = length grids /\
    ((forall p, In p grids -> ~ near site p) /\
    frame (map pt grids) (pt site) (pt x) (pt z) =
    Ok (r_vec, map (fun p => Some (normR (subR p site))) grids)
    \/
    (exists p, In p grids /\ near site p) /\
    frame (map pt grids) (pt site) (pt x) (pt z) =
    Ok (r_vec, map (fun p => Some (normR (subR p (shifted site)))) grids)).
Proof.
  intros Hax. unfold frame. rewrite (transform_exact x z Hax). cbn [bind].
  rewrite !map_map.
  assert (map (fun p => norm (rotate (pt (unitR x), pt (crossR (unitR x) (unitR z)),
                                     pt (unitR z)) (sub_vec (pt p) (pt site)))) grids
          = map (fun p => Some (normR (subR p site))) grids) as ->.
  { apply map_ext. intros p. now rewrite sub_vec_pt, norm_rotate. }
  destruct (existsb _ _) eqn:Hany.
  - apply any_near in Hany. eexists. split; [|right; split; [assumption|]].
    2:{ cbn [bind]. f_equal. f_equal.
        apply map_ext. intros p.
        now rewrite sub_vec_pt, sub_scalar_pt, norm_rotate. }
    now rewrite length_map.
  - eexists. split; [|left; split; [|reflexivity]]; [now rewrite length_map|].
    intros p Hp Hnear.
    assert (existsb (fun n => fltb n (lit (1 # 100000000)))
                    (map (fun p => Some (normR (subR p site))) grids) = true)
      as Ht by (apply any_near; eauto).
    congruence.
Qed.

Lemma subR_zero (p q : R3) : subR p q = (0, 0, 0) <-> p = q.
Proof.
  destruct p as [[p1 p2] p3], q as [[q1 q2] q3]. cbn. split.
  - intros [= H1 H2 H3]. f_equal; [f_equal|]; lra.
  - intros [= -> -> ->]. f_equal; [f_equal|]; lra.
Qed.

(** A point near the site is not at the shifted site. *)
Lemma near_not_shifted (site p : R3) : near site p -> p <> shifted site.
Proof.
  intros Hnear ->. unfold near in Hnear.
  pose proof (normR_sqr (subR (shifted site) site)) as Hs.
  pose proof (normR_nonneg (subR (shifted site) site)) as Hn.
  destruct site as [[s1 s2] s3]. cbn [shifted subR dotR] in *.
  rewrite eps_value in Hnear. rewrite delta_value in *.
  set (n := normR _) in *. clearbody n.
  replace ((s1 + / 100000 - s1) * (s1 + / 100000 - s1)
           + (s2 + / 100000 - s2) * (s2 + / 100000 - s2)
           + (s3 + / 100000 - s3) * (s3 + / 100000 - s3))
    with (3 / 10000000000) in Hs by field.
  assert (n * n <= n * / 100000000) as H1
    by (apply Rmult_le_compat_l; lra).
  assert (n * / 100000000 <= / 100000000 * / 100000000) as H2
    by (apply Rmult_le_compat_r; lra).
  lra.
Qed.

(** C4, as the code has it, in exact arithmetic.  [g_r] tests the radii
    once.  When no grid point is closer than 1e-8 to the site, every radius
    it divides by is at least 1e-8.  When one is, the radii are recomputed
    once with the site shifted by 1e-5 along each axis, and are not tested
    again: the recomputed radius of a grid point is zero exactly when the
    point lies at the shifted site, so it is non-zero for every other grid
    point, and in particular for the points that were closer than 1e-8. *)
Theorem radii_after_shift (grids : list R3) (site x z : R3) :
  axes_ok x z ->
  exists r_vec r_norm,
    frame (map pt grids) (pt site) (pt x) (pt z) = Ok (r_vec, r_norm) /\
    forall i p, nth_error grids i = Some p ->
      exists rho,
        nth_error r_norm i = Some (Some rho) /\
        ((forall q, In q grids -> ~ near site q) -> eps <= rho) /\
        (rho = 0 <-> (exists q, In q grids /\ near site q) /\ p = shifted site) /\
        (near site p -> rho <> 0).
Proof.
  intros Hax.
  destruct (frame_exact grids site x z Hax)
    as (r_vec & _ & [(Hfar & ->) | (Hnear & ->)]).
  - eexists _, _. split; [reflexivity|]. intros i p Hp.
    exists (normR (subR p site)).
    assert (eps <= normR (subR p site)) as Hge.
    { apply Rnot_lt_le. apply (Hfar p). eapply nth_error_In; eassumption. }
    assert (0 < eps) as Hpos by (rewrite eps_value; lra).
    split; [rewrite nth_error_map, Hp; reflexivity|].
    split; [auto|]. split; [|intros; lra].
    split; [intros; lra|].
    intros ((q & Hq & Hqn) & _). exfalso. exact (Hfar q Hq Hqn).
  - eexists _, _. split; [reflexivity|]. intros i p Hp.
    exists (normR (subR p (shifted site))).
    split; [rewrite nth_error_map, Hp; reflexivity|].
    split; [|split].
    + intros Hfar. destruct Hnear as (q & Hq & Hqn). exfalso. exact (Hfar q Hq Hqn).
    + rewrite normR_zero, subR_zero. tauto.
    + intros Hp_near. rewrite normR_zero, subR_zero.
      now apply near_not_shifted.
Qed.

Lemma default_axes_ok : axes_ok (1, 0, 0) (0, 0, 1).
Proof.
  assert (normR (1, 0, 0) = 1) as Hx by (apply normR_of_unit; cbn; ring).
  assert (normR (0, 0, 1) = 1) as Hz by (apply normR_of_unit; cbn; ring).
  unfold axes_ok, unitR. rewrite Hx, Hz.
  split; [lra|]. split; [lra|]. cbn. field.
Qed.

Lemma radii_after_shift_witness :
  exists r_vec r_norm rho,
    frame (map pt [(1, 0, 0)]) (pt (0, 0, 0)) (pt (1, 0, 0)) (pt (0, 0, 1)) =
    Ok (r_vec, r_norm) /\
    nth_error r_norm 0 = Some (Some rho).
Proof.
  destruct (radii_after_shift [(1, 0, 0)] (0, 0, 0) (1, 0, 0) (0, 0, 1)
                              default_axes_ok) as (r_vec & r_norm & Hf & Hr).
  destruct (Hr 0%nat (1, 0, 0) eq_refl) as (rho & Hrho & _).
  exists r_vec, r_norm, rho. split; assumption.
Defined.

Lemma div_by_zero (a : option R) : fdiv a (Some 0) = None.
Proof. destruct a as [x|]; [apply div_zero | reflexivity]. Qed.

Lemma mul_None_r (a : option R) : fmul a None = None.
Proof. destruct a; reflexivity. Qed.

(** A grid with a point at the site and a point at the shifted site: the
    first triggers the shift, the second then has radius 0, and the value
    of g_r there (pz orbital, l = 1, mr = 1) is the nan of the division. *)
Lemma g_r_divides_by_zero :
  let grids := [(0, 0, 0); (delta, delta, delta)] in
  near (0, 0, 0) (0, 0, 0) /\
  (exists r_vec r_norm,
      frame (map pt grids) (pt (0, 0, 0)) (pt (1, 0, 0)) (pt (0, 0, 1)) =
      Ok (r_vec, r_norm) /\
      nth_error r_norm 1 = Some (Some 0)) /\
  exists out,
    g_r (Some 1) (map pt grids) (pt (0, 0, 0)) 1 1 1 (Some 1)
        (pt (1, 0, 0)) (pt (0, 0, 1)) "B" = Ok out /\
    nth_error out 1 = Some None.
Proof.
  cbv zeta.
  assert (near (0, 0, 0) (0, 0, 0)) as Hnear.
  { unfold near. replace (normR (subR (0, 0, 0) (0, 0, 0))) with 0.
    - rewrite eps_value. lra.
    - symmetry. apply normR_zero. apply subR_zero. reflexivity. }
  assert (normR (subR (delta, delta, delta) (shifted (0, 0, 0))) = 0) as Hzero.
  { apply normR_zero. apply subR_zero. cbn. f_equal; [f_equal|]; lra. }
  destruct (frame_exact [(0, 0, 0); (delta, delta, delta)] (0, 0, 0)
                        (1, 0, 0) (0, 0, 1) default_axes_ok)
    as (r_vec & Hlen & [(Hfar & _) | (_ & Hframe)]).
  { exfalso. apply (Hfar (0, 0, 0)); [now left | exact Hnear]. }
  cbn [map] in Hframe. rewrite Hzero in Hframe.
  split; [exact Hnear|]. split.
  - eexists _, _. split; [exact Hframe | reflexivity].
  - unfold g_r. cbn [map]. rewrite Hframe. cbn [bind].
    destruct r_vec as [|v0 [|v1 [|v2 r_vec]]]; try discriminate Hlen.
    cbn [map zip_with combine fst snd].
    rewrite div_by_zero.
    change (theta_lmr 1 1 ?c ?p) with (theta "pz" c p).
    cbn [theta String.eqb Ascii.eqb Bool.eqb map].
    rewrite mul_None_r. cbn [bind zip_with combine map fst snd].
    eexists. split; reflexivity.
Qed.

End RadiusFacts.


(** ** get_wannier: the global phase, in exact arithmetic *)

Module PhaseFacts.
Import Py ExactComplex W90 PyFacts.
Local Open Scope R_scope.

(** The squared modulus, and the modulus. *)
Definition modulus2 (z : R * R) : R := fst z * fst z + snd z * snd z.
Definition modulus (z : R * R) : R := sqrt (modulus2 z).

Lemma modulus2_nonneg (z : R * R) : 0 <= modulus2 z.
Proof. destruct z as [a b]. unfold modulus2. cbn. nra. Qed.

Lemma modulus2_zero (z : R * R) : modulus2 z = 0 <-> z = (0, 0).
Proof.
  destruct z as [a b]. unfold modulus2. cbn. split.
  - intros Hz. assert (a = 0) by nra. assert (b = 0) by nra. now subst.
  - intros [= -> ->]. ring.
Qed.

Lemma modulus_sqr (z : R * R) : modulus z * modulus z = modulus2 z.
Proof. apply sqrt_sqrt. apply modulus2_nonneg. Qed.

Lemma modulus_pos (z : R * R) : z <> (0, 0) -> 0 < modulus z.
Proof.
  intros Hz. apply sqrt_lt_R0.
  pose proof (modulus2_nonneg z). pose proof (modulus2_zero z). 
  destruct (Req_dec (modulus2 z) 0); [tauto | lra].
Qed.

Lemma real_mul_conj (z : R * R) :
  real (mul (Some z) (conj (Some z))) = Some (modulus2 z).
Proof. destruct z as [a b]. cbn. unfold modulus2. cbn. f_equal. ring. Qed.

(** The unit-modulus phase of a non-zero number; nan for zero. *)
Lemma phase_of (w : R * R) :
  div (Some w) (of_float (absolute (Some w))) =
  if Req_dec_T (modulus2 w) 0 then None
  else Some (fst w / modulus w, snd w / modulus w).
Proof.
  destruct w as [a b]. cbn [absolute of_float div fst snd].
  change (sqrt (a * a + b * b)) with (modulus (a, b)).
  pose proof (modulus_sqr (a, b)) as Hs.
  destruct (Req_dec_T (modulus (a, b) * modulus (a, b) + 0 * 0) 0) as [E|E];
    destruct (Req_dec_T (modulus2 (a, b)) 0) as [E'|E']; try reflexivity.
  - exfalso. apply E'. lra.
  - exfalso. apply E. lra.
  - assert (modulus (a, b) <> 0) as Hm
      by (intros Hm; apply E'; rewrite <- Hs, Hm; ring).
    f_equal. f_equal; field; assumption.
Qed.

(** An entry after the fix: rotated by the conjugate phase of [w] and
    divided by the number of k-points. *)
Definition fixed (z w : R * R) (N : Z) : R * R :=
  ((fst z * fst w + snd z * snd w) / (modulus w * IZR N),
   (snd z * fst w - fst z * snd w) / (modulus w * IZR N)).

Lemma fixed_entry (z w : R * R) (N : Z) :
  w <> (0, 0) -> (0 < N)%Z ->
  div (div (Some z) (div (Some w) (of_float (absolute (Some w))))) (of_int N)
  = Some (fixed z w N).
Proof.
  intros Hw HN. rewrite phase_of.
  pose proof (modulus_pos w Hw) as Hm. pose proof (modulus_sqr w) as Hs.
  assert (0 < IZR N) as HNr by (apply IZR_lt; assumption).
  destruct (Req_dec_T (modulus2 w) 0) as [E|E]; [rewrite <- Hs in E; nra|].
  destruct z as [x y], w as [a b]. cbn [fst snd] in *.
  set (r := modulus (a, b)) in *.
  assert (a / r * (a / r) + b / r * (b / r) = 1) as Hu.
  { unfold modulus2 in Hs. cbn [fst snd] in Hs.
    replace (a / r * (a / r) + b / r * (b / r)) with ((a * a + b * b) / (r * r))
      by (field; lra).
    rewrite <- Hs. field. lra. }
  unfold div at 2. rewrite Hu.
  destruct (Req_dec_T 1 0) as [E1|_]; [lra|].
  unfold of_int, div.
  destruct (Req_dec_T (IZR N * IZR N + 0 * 0) 0) as [E2|_]; [nra|].
  unfold fixed. cbn [fst snd]. fold r. f_equal. f_equal; field; lra.
Qed.

Lemma fixed_self (w : R * R) (N : Z) :
  w <> (0, 0) -> (0 < N)%Z -> fixed w w N = (modulus w / IZR N, 0).
Proof.
  intros Hw HN. pose proof (modulus_pos w Hw) as Hm.
  pose proof (modulus_sqr w) as Hs.
  assert (0 < IZR N) as HNr by (apply IZR_lt; assumption).
  destruct w as [a b]. unfold fixed, modulus2 in *. cbn [fst snd] in *.
  set (r := modulus (a, b)) in *. f_equal.
  - rewrite <- Hs. field. lra.
  - field. lra.
Qed.

Lemma fixed_modulus2 (z w : R * R) (N : Z) :
  w <> (0, 0) -> (0 < N)%Z ->
  modulus2 (fixed z w N) = modulus2 z / (IZR N * IZR N).
Proof.
  intros Hw HN. pose proof (modulus_pos w Hw) as Hm.
  pose proof (modulus_sqr w) as Hs.
  assert (0 < IZR N) as HNr by (apply IZR_lt; assumption).
  destruct z as [x y], w as [a b]. unfold fixed, modulus2 in *.
  cbn [fst snd] in *. set (r := modulus (a, b)) in *.
  replace ((x * a + y * b) / (r * IZR N) * ((x * a + y * b) / (r * IZR N))
           + (y * a - x * b) / (r * IZR N) * ((y * a - x * b) / (r * IZR N)))
    with ((x * x + y * y) * (a * a + b * b) / (r * r) / (IZR N * IZR N))
    by (field; lra).
  rewrite <- Hs. field. lra.
Qed.

(** [np.argmax] on finite floats. *)
Lemma argmax_from_finite (l : list R) : forall (pre : list R) (bi : nat) (b : R),
  nth_error pre bi = Some b ->
  (forall y, In y pre -> y <= b) ->
  exists x, nth_error (pre ++ l)
                      (argmax_from bi (Some b) (length pre) (map Some l)) = Some x /\
            forall y, In y (pre ++ l) -> y <= x.
Proof.
  induction l as [|x l IH]; intros pre bi b Hb Hmax; cbn [map argmax_from].
  - exists b. rewrite app_nil_r. auto.
  - destruct (Rlt_dec b x) as [Hlt|Hge].
    + specialize (IH (pre ++ [x]) (length pre) x).
      rewrite <- app_assoc, length_app in IH. cbn [length app] in IH.
      rewrite Nat.add_1_r in IH. apply IH.
      * rewrite nth_error_app2, Nat.sub_diag by lia. reflexivity.
      * intros y Hy. apply in_app_or in Hy as [Hy | [<- | []]].
        -- specialize (Hmax y Hy). lra.
        -- lra.
    + specialize (IH (pre ++ [x]) bi b).
      rewrite <- app_assoc, length_app in IH. cbn [length app] in IH.
      rewrite Nat.add_1_r in IH. apply IH.
      * rewrite nth_error_app1; [assumption|].
        apply nth_error_Some. congruence.
      * intros y Hy. apply in_app_or in Hy as [Hy | [<- | []]]; auto. lra.
Qed.

Lemma argmax_finite (l : list R) :
  l <> [] ->
  exists m x, argmax (map Some l) = Ok m /\ nth_error l m = Some x /\
              forall y, In y l -> y <= x.
Proof.
  destruct l as [|x l]; [congruence|]. intros _. cbn [map argmax].
  destruct (argmax_from_finite l [x] 0%nat x eq_refl) as (y & Hy & Hmax).
  - intros y [<- | []]. lra.
  - eexists _, y. split; [reflexivity|]. split; assumption.
Qed.

(** A grid of finite values with [nw] columns. *)
Definition finite (W : list (list (R * R))) : list (list complex) :=
  map (map Some) W.

Definition entry (W : list (list (R * R))) (i n : nat) : R * R :=
  nth n (nth i W []) (0, 0).

Definition rectangular (nw : nat) (W : list (list (R * R))) : Prop :=
  Forall (fun row => length row = nw) W.

Lemma rectangular_row nw W i row :
  rectangular nw W -> nth_error W i = Some row -> length row = nw.
Proof.
  intros Hr Hi. unfold rectangular in Hr. rewrite Forall_forall in Hr.
  apply Hr. eapply nth_error_In; eassumption.
Qed.

Lemma column_finite nw W n :
  rectangular nw W -> (n < nw)%nat ->
  column (finite W) n = Ok (map (fun row => Some (nth n row (0, 0))) W).
Proof.
  intros Hr Hn. unfold column, finite.
  induction W as [|row W IH]; cbn [map mapM]; [reflexivity|].
  inversion Hr as [|? ? Hrow Hrest]; subst.
  rewrite getitem_nat, nth_error_map.
  destruct (nth_error row n) as [z|] eqn:E.
  - cbn [option_map]. rewrite (IH Hrest).
    now rewrite (nth_error_nth _ _ (0, 0) E).
  - apply nth_error_None in E. lia.
Qed.

(** The index chosen for column [n]: an entry of largest modulus. *)
Lemma max_index_finite nw W n :
  rectangular nw W -> W <> [] -> (n < nw)%nat ->
  exists m,
    (col <- column (finite W) n ;;
     argmax (map (fun z => real (mul z (conj z))) col))%py = Ok m /\
    (m < length W)%nat /\
    forall i, (i < length W)%nat ->
              modulus2 (entry W i n) <= modulus2 (entry W m n).
Proof.
  intros Hr Hne Hn. rewrite (column_finite nw W n Hr Hn). cbn [bind].
  rewrite map_map.
  assert (map (fun row => real (mul (Some (nth n row (0, 0)))
                                    (conj (Some (nth n row (0, 0)))))) W
          = map Some (map (fun row => modulus2 (nth n row (0, 0))) W)) as ->.
  { rewrite map_map. apply map_ext. intros row. apply real_mul_conj. }
  destruct (argmax_finite (map (fun row => modulus2 (nth n row (0, 0))) W))
    as (m & x & Hm & Hx & Hmax).
  { destruct W; [congruence | discriminate]. }
  exists m. split; [assumption|].
  assert (m < length W)%nat as Hlt.
  { rewrite <- (length_map (fun row => modulus2 (nth n row (0, 0)))).
    apply nth_error_Some. congruence. }
  split; [assumption|]. intros i Hi.
  rewrite nth_error_map in Hx. unfold entry.
  destruct (nth_error W m) as [rm|] eqn:Em; [|discriminate].
  injection Hx as <-.
  rewrite (nth_error_nth _ _ [] Em).
  apply Hmax. apply in_map_iff. exists (nth i W []). split; [reflexivity|].
  apply nth_In. assumption.
Qed.

Lemma nth_error_range (n i : nat) : (i < n)%nat -> nth_error (range n) i = Some i.
Proof.
  intros Hi. unfold range.
  rewrite nth_error_nth' with (d := 0%nat) by (rewrite length_seq; lia).
  rewrite seq_nth by lia. reflexivity.
Qed.

Lemma In_range (n i : nat) : In i (range n) -> (i < n)%nat.
Proof. unfold range. intros Hi. apply in_seq in Hi. lia. Qed.

Lemma nth_error_combine_Some {A B} (a : list A) (b : list B) n x y :
  nth_error a n = Some x -> nth_error b n = Some y ->
  nth_error (combine a b) n = Some (x, y).
Proof.
  revert b n. induction a as [|x' a IH]; intros [|y' b] [|n] E1 E2;
    cbn in *; try discriminate.
  - now injection E1 as ->; injection E2 as ->.
  - now apply IH.
Qed.

(** The division of one entry by the phase of its column and by the
    number of k-points. *)
Definition divided (z w : R * R) (N : Z) : complex :=
  div (div (Some z) (div (Some w) (of_float (absolute (Some w))))) (of_int N).

(** [fix_phase] on a finite grid: it returns, and every entry is the
    input entry divided by the phase of the entry that [np.argmax] chose
    for its column. *)
Lemma fix_phase_finite (nw : nat) (N : Z) (W : list (list (R * R))) :
  rectangular nw W -> W <> [] ->
  exists (max_index : list nat) (WF : list (list complex)),
    fix_phase nw N (finite W) = Ok WF /\
    length max_index = nw /\
    (forall n m, nth_error max_index n = Some m ->
       (m < length W)%nat /\
       forall i, (i < length W)%nat ->
                 modulus2 (entry W i n) <= modulus2 (entry W m n)) /\
    forall i n m, (i < length W)%nat -> nth_error max_index n = Some m ->
      exists row, nth_error WF i = Some row /\
                  nth_error row n = Some (divided (entry W i n) (entry W m n) N).
Proof.
  intros Hr Hne. unfold fix_phase.
  (* max_index *)
  destruct (mapM_total
              (fun n => (col <- column (finite W) n ;;
                         argmax (map (fun z => real (mul z (conj z))) col))%py)
              (range nw)) as (ms & Hms).
  { intros n Hn. apply In_range in Hn.
    destruct (max_index_finite nw W n Hr Hne Hn) as (m & Hm & _). eauto. }
  rewrite Hms. cbn [bind].
  pose proof (mapM_length _ _ _ Hms) as Lms. unfold range in Lms.
  rewrite length_seq in Lms.
  assert (forall n m, nth_error ms n = Some m ->
            (n < nw)%nat /\ (m < length W)%nat /\
            forall i, (i < length W)%nat ->
                      modulus2 (entry W i n) <= modulus2 (entry W m n)) as Hspec.
  { intros n m Hnm.
    assert (n < nw)%nat as Hn by (rewrite <- Lms; apply nth_error_Some; congruence).
    split; [assumption|].
    destruct (mapM_nth _ _ _ _ _ Hms (nth_error_range nw n Hn)) as (m' & Hm' & Hf).
    rewrite Hnm in Hm'. injection Hm' as <-.
    destruct (max_index_finite nw W n Hr Hne Hn) as (m2 & Hm2 & Hlt & Hmax).
    rewrite Hf in Hm2. injection Hm2 as <-. auto. }
  (* norm_wfs *)
  destruct (mapM_total
              (fun n => (x <- getitem ms (Z.of_nat n) ;;
                         row <- getitem (finite W) (Z.of_nat x) ;;
                         getitem row (Z.of_nat n))%py)
              (range nw)) as (ws & Hws).
  { intros n Hn. apply In_range in Hn.
    destruct (nth_error ms n) as [m|] eqn:Em;
      [|apply nth_error_None in Em; lia].
    destruct (Hspec n m Em) as (_ & Hm & _).
    rewrite getitem_nat, Em. cbn [bind]. unfold finite.
    rewrite getitem_nat, nth_error_map.
    destruct (nth_error W m) as [row|] eqn:Er;
      [|apply nth_error_None in Er; lia].
    cbn [option_map bind]. rewrite getitem_nat, nth_error_map.
    pose proof (rectangular_row nw W m row Hr Er) as Lr.
    destruct (nth_error row n) eqn:En; [cbn; eauto|].
    apply nth_error_None in En. lia. }
  rewrite Hws. cbn [bind].
  pose proof (mapM_length _ _ _ Hws) as Lws. unfold range in Lws.
  rewrite length_seq in Lws.
  assert (forall n m, nth_error ms n = Some m ->
                      nth_error ws n = Some (Some (entry W m n))) as Hw.
  { intros n m Hnm. destruct (Hspec n m Hnm) as (Hn & Hm & _).
    destruct (mapM_nth _ _ _ _ _ Hws (nth_error_range nw n Hn)) as (w & Hwn & Hf).
    rewrite Hwn. f_equal.
    rewrite getitem_nat, Hnm in Hf. cbn [bind] in Hf. unfold finite in Hf.
    rewrite getitem_nat, nth_error_map in Hf.
    destruct (nth_error W m) as [row|] eqn:Er;
      [|apply nth_error_None in Er; lia].
    cbn [option_map bind] in Hf. rewrite getitem_nat, nth_error_map in Hf.
    pose proof (rectangular_row nw W m row Hr Er) as Lr.
    destruct (nth_error row n) as [z|] eqn:En;
      [|apply nth_error_None in En; lia].
    cbn in Hf. injection Hf as <-. unfold entry.
    now rewrite (nth_error_nth _ _ [] Er), (nth_error_nth _ _ (0, 0) En). }
  (* the division, row by row *)
  set (us := map (fun z => div z (of_float (absolute z))) ws).
  assert (length us = nw) as Lus by (subst us; now rewrite length_map).
  set (g := fun row : list complex =>
              if Nat.eqb (length row) (length us)
              then Ok (map (fun zu => div (div (fst zu) (snd zu)) (of_int N))
                           (combine row us))
              else Raise ValueError).
  destruct (mapM_total g (finite W)) as (WF & HWF).
  { intros row Hin. unfold finite in Hin. apply in_map_iff in Hin as (r & <- & Hr').
    unfold g. rewrite length_map, Lus.
    unfold rectangular in Hr. rewrite Forall_forall in Hr.
    rewrite (Hr r Hr'), Nat.eqb_refl. eauto. }
  exists ms, WF. split; [exact HWF|]. split; [assumption|].
  split; [intros n m Hnm; destruct (Hspec n m Hnm) as (_ & ? & ?); auto|].
  intros i n m Hi Hnm. destruct (Hspec n m Hnm) as (Hn & Hm & _).
  destruct (nth_error W i) as [r|] eqn:Er; [|apply nth_error_None in Er; lia].
  assert (nth_error (finite W) i = Some (map Some r)) as Ei
    by (unfold finite; rewrite nth_error_map, Er; reflexivity).
  destruct (mapM_nth _ _ _ _ _ HWF Ei) as (row & Hrow & Hg).
  exists row. split; [assumption|].
  unfold g in Hg. pose proof (rectangular_row nw W i r Hr Er) as Lr.
  rewrite length_map, Lr, Lus, Nat.eqb_refl in Hg. injection Hg as <-.
  rewrite nth_error_map.
  match goal with
  | |- context [nth_error ?c n] =>
      assert (nth_error c n
              = Some (Some (entry W i n),
                      div (Some (entry W m n))
                          (of_float (absolute (Some (entry W m n)))))) as ->
  end.
  { destruct (nth_error r n) as [z|] eqn:En;
      [|apply nth_error_None in En; lia].
    assert (entry W i n = z) as ->
      by (unfold entry; now rewrite (nth_error_nth _ _ [] Er),
                                    (nth_error_nth _ _ (0, 0) En)).
    assert (nth_error (map Some r) n = Some (Some z)) as E1
      by (rewrite nth_error_map, En; reflexivity).
    assert (nth_error us n = Some (div (Some (entry W m n))
                                       (of_float (absolute (Some (entry W m n))))))
      as E2 by (subst us; rewrite nth_error_map, (Hw n m Hnm); reflexivity).
    now apply nth_error_combine_Some. }
  reflexivity.
Qed.

(** C6, as the code has it, in exact arithmetic.  [WF0] is a finite grid
    with [num_wann] columns and at least one grid point, and there is at
    least one k-point.  After the phase fix, for every Wannier function [n]
    that is not zero all over the grid, the value at the grid point [m]
    chosen by [np.argmax] is |w| / num_kpts, where [w] is the value there
    before the fix: its imaginary part is zero and its real part is
    positive, and no value of column [n] has a larger modulus. *)
Theorem phase_fix_makes_maximum_real (nw : nat) (N : Z) (W : list (list (R * R))) :
  rectangular nw W -> W <> [] -> (0 < N)%Z ->
  exists (max_index : list nat) (WF : list (list complex)),
    fix_phase nw N (finite W) = Ok WF /\
    length max_index = nw /\
    forall n m, nth_error max_index n = Some m ->
      (forall i, (i < length W)%nat ->
                 modulus2 (entry W i n) <= modulus2 (entry W m n)) /\
      (entry W m n <> (0, 0) ->
       (exists row, nth_error WF m = Some row /\
                    nth_error row n =
                    Some (Some (modulus (entry W m n) / IZR N, 0))) /\
       0 < modulus (entry W m n) / IZR N /\
       forall i, (i < length W)%nat ->
         exists row z, nth_error WF i = Some row /\
                       nth_error row n = Some (Some z) /\
                       modulus2 z <= modulus2 (modulus (entry W m n) / IZR N, 0)).
Proof.
  intros Hr Hne HN.
  destruct (fix_phase_finite nw N W Hr Hne)
    as (ms & WF & HWF & Lms & Hmax & Hentry).
  exists ms, WF. split; [assumption|]. split; [assumption|].
  intros n m Hnm. destruct (Hmax n m Hnm) as (Hm & Hle).
  split; [assumption|]. intros Hw.
  assert (0 < IZR N) as HNr by (apply IZR_lt; assumption).
  pose proof (modulus_pos _ Hw) as Hpos.
  split; [|split].
  - destruct (Hentry m n m Hm Hnm) as (row & Hrow & Hz).
    exists row. split; [assumption|]. rewrite Hz. unfold divided.
    rewrite fixed_entry, fixed_self by assumption. reflexivity.
  - apply Rdiv_lt_0_compat; assumption.
  - intros i Hi. destruct (Hentry i n m Hi Hnm) as (row & Hrow & Hz).
    exists row, (fixed (entry W i n) (entry W m n) N).
    split; [assumption|]. split.
    + rewrite Hz. unfold divided. now rewrite fixed_entry.
    + rewrite <- (fixed_self _ N Hw HN), !fixed_modulus2 by assumption.
      apply Rmult_le_compat_r; [|apply Hle; assumption].
      apply Rlt_le. apply Rinv_0_lt_compat. nra.
Qed.

Lemma phase_fix_makes_maximum_real_witness :
  exists WF, fix_phase 1 2 (finite [[(0, 2)]; [(1, 0)]]) = Ok WF.
Proof.
  destruct (phase_fix_makes_maximum_real 1 2 [[(0, 2)]; [(1, 0)]])
    as (ms & WF & HWF & _).
  - repeat constructor.
  - discriminate.
  - reflexivity.
  - exists WF. exact HWF.
Defined.

(** A Wannier function that is zero all over the grid: its phase is 0/0,
    and every value of the column, the one of maximal modulus included, is
    nan after the fix. *)
Lemma phase_fix_of_zero_function :
  exists WF row,
    fix_phase 1 1 (finite [[(0, 0)]]) = Ok WF /\
    nth_error WF 0 = Some row /\ nth_error row 0 = Some None.
Proof.
  destruct (fix_phase_finite 1 1 [[(0, 0)]])
    as (ms & WF & HWF & Lms & Hmax & Hentry).
  - repeat constructor.
  - discriminate.
  - destruct ms as [|m [|]]; try discriminate Lms.
    destruct (Hmax 0%nat m eq_refl) as (Hm & _). cbn [length] in Hm.
    assert (m = 0%nat) as -> by lia.
    destruct (Hentry 0%nat 0%nat 0%nat) as (row & Hrow & Hz);
      [cbn; lia | reflexivity |].
    exists WF, row. split; [assumption|]. split; [assumption|].
    rewrite Hz. unfold divided. rewrite phase_of.
    change (entry [[(0, 0)]] 0 0) with (0, 0).
    destruct (Req_dec_T (modulus2 (0, 0)) 0) as [_|E]; [reflexivity|].
    exfalso. apply E. apply modulus2_zero. reflexivity.
Qed.

End PhaseFacts.

(** ** The .amn file: written by export_AME, read by read_A_mat *)

Module AmnFacts.
Import Py Str Binary64 W90 PyFacts.

(** *** Strings *)

Fixpoint all (p : ascii -> bool) (s : string) : bool :=
  match s with
  | EmptyString => true
  | String c r => p c && all p r
  end.

Definition is_digit (c : ascii) : bool :=
  match digit_value c with Some _ => true | None => false end.

Definition solid (c : ascii) : bool := negb (is_space c).

Lemma append_assoc (a b c : string) :
  ((a ++ b) ++ c = a ++ (b ++ c))%string.
Proof. induction a as [|x a IH]; simpl; [reflexivity | now rewrite IH]. Qed.

Lemma append_empty (a : string) : (a ++ EmptyString)%string = a.
Proof. induction a as [|x a IH]; simpl; [reflexivity | now rewrite IH]. Qed.

Lemma length_append (a b : string) :
  String.length (a ++ b) = (String.length a + String.length b)%nat.
Proof. induction a as [|x a IH]; simpl; [reflexivity | now rewrite IH]. Qed.

Lemma all_append (p : ascii -> bool) (a b : string) :
  all p (a ++ b) = all p a && all p b.
Proof.
  induction a as [|x a IH]; simpl; [reflexivity|].
  now rewrite IH, andb_assoc.
Qed.

Lemma all_impl (p q : ascii -> bool) (s : string) :
  (forall c, p c = true -> q c = true) -> all p s = true -> all q s = true.
Proof.
  intros H. induction s as [|c r IH]; simpl; [reflexivity|].
  intros Hs. apply andb_prop in Hs as [Hc Hr].
  now rewrite (H c Hc), IH.
Qed.

Lemma digit_value_digit (r : N) : (r < 10)%N -> digit_value (digit r) = Some r.
Proof.
  intros H.
  assert (r = 0 \/ r = 1 \/ r = 2 \/ r = 3 \/ r = 4 \/ r = 5 \/ r = 6
          \/ r = 7 \/ r = 8 \/ r = 9)%N as C by lia.
  repeat (destruct C as [-> | C]; [reflexivity|]). now subst.
Qed.

Lemma is_digit_digit (r : N) : (r < 10)%N -> is_digit (digit r) = true.
Proof. intros H. unfold is_digit. now rewrite digit_value_digit. Qed.

Lemma digit_is_solid (c : ascii) : is_digit c = true -> solid c = true.
Proof.
  destruct c as [[] [] [] [] [] [] [] []]; try reflexivity; discriminate.
Qed.

Lemma digit_is_not_e (c : ascii) : is_digit c = true -> is_e c = false.
Proof.
  destruct c as [[] [] [] [] [] [] [] []]; try reflexivity; discriminate.
Qed.

Lemma digit_is_not_dot (c : ascii) : is_digit c = true -> is_dot c = false.
Proof.
  destruct c as [[] [] [] [] [] [] [] []]; try reflexivity; discriminate.
Qed.

(** *** Numerals *)

Lemma length_last_digits (k : nat) (n : N) :
  String.length (last_digits k n) = k.
Proof.
  revert n. induction k as [|k IH]; intros n; simpl; [reflexivity|].
  rewrite length_append, IH. simpl. lia.
Qed.

Lemma last_digits_are_digits (k : nat) (n : N) :
  all is_digit (last_digits k n) = true.
Proof.
  revert n. induction k as [|k IH]; intros n; simpl; [reflexivity|].
  rewrite all_append, IH. simpl.
  rewrite is_digit_digit; [reflexivity|]. apply N.mod_lt. discriminate.
Qed.

Lemma number_append (acc : N) (a b : string) :
  number acc (a ++ b) =
  match number acc a with Some v => number v b | None => None end.
Proof.
  revert acc. induction a as [|c a IH]; intros acc; simpl; [reflexivity|].
  destruct (digit_value c); [apply IH | reflexivity].
Qed.

Lemma number_last_digits (k : nat) (acc n : N) :
  number acc (last_digits k n) =
  Some (acc * 10 ^ N.of_nat k + n mod 10 ^ N.of_nat k)%N.
Proof.
  revert acc n. induction k as [|k IH]; intros acc n.
  - simpl. rewrite N.mod_1_r. f_equal. lia.
  - cbn [last_digits]. rewrite number_append, IH. cbn [number].
    rewrite digit_value_digit by (apply N.mod_lt; discriminate).
    f_equal. rewrite Nnat.Nat2N.inj_succ, N.pow_succ_r'.
    rewrite (N.Div0.mod_mul_r n 10 (10 ^ N.of_nat k)). lia.
Qed.

Lemma count_digits_bound (fuel : nat) (n : N) :
  (n < 2 ^ N.of_nat fuel)%N -> (n < 10 ^ N.of_nat (count_digits fuel n))%N.
Proof.
  revert n. induction fuel as [|f IH]; intros n H.
  - simpl in *. lia.
  - cbn [count_digits]. destruct (N.ltb_spec n 10) as [L|L]; [simpl; lia|].
    rewrite Nnat.Nat2N.inj_succ, N.pow_succ_r'.
    rewrite Nnat.Nat2N.inj_succ, N.pow_succ_r' in H.
    assert (n / 10 < 2 ^ N.of_nat f)%N as Hd.
    { apply N.Div0.div_lt_upper_bound. lia. }
    specialize (IH _ Hd).
    pose proof (N.Div0.div_mod n 10).
    assert (n mod 10 < 10)%N by (apply N.mod_lt; discriminate). lia.
Qed.

Lemma count_digits_pos (fuel : nat) (n : N) :
  exists k, count_digits fuel n = S k.
Proof.
  destruct fuel as [|f]; simpl; [now exists 0%nat|].
  destruct (n <? 10)%N; eauto.
Qed.

Lemma number_decimal (n : N) : number 0 (decimal n) = Some n.
Proof.
  unfold decimal. rewrite number_last_digits. f_equal.
  rewrite N.mod_small; [lia|].
  apply count_digits_bound. rewrite Nnat.N2Nat.id.
  apply N.size_gt.
Qed.

Lemma decimal_are_digits (n : N) : all is_digit (decimal n) = true.
Proof. apply last_digits_are_digits. Qed.

Lemma decimal_head (n : N) :
  exists c r, decimal n = String c r /\ is_digit c = true /\
              all is_digit r = true.
Proof.
  pose proof (decimal_are_digits n) as H.
  assert (String.length (decimal n) <> 0%nat) as L.
  { unfold decimal. rewrite length_last_digits.
    destruct (count_digits_pos (N.to_nat (N.size n)) n) as [k ->].
    discriminate. }
  destruct (decimal n) as [|c r]; [now elim L|].
  simpl in H. apply andb_prop in H as [Hc Hr]. eauto.
Qed.

(** *** float() of what '%f' writes *)

Lemma break_none (p : ascii -> bool) (s : string) :
  all (fun c => negb (p c)) s = true -> break p s = (s, None).
Proof.
  induction s as [|c r IH]; simpl; [reflexivity|].
  intros H. apply andb_prop in H as [Hc Hr].
  apply negb_true_iff in Hc. now rewrite Hc, IH.
Qed.

Lemma break_at (p : ascii -> bool) (a : string) (c : ascii) (b : string) :
  all (fun c => negb (p c)) a = true -> p c = true ->
  break p (a ++ String c b) = (a, Some b).
Proof.
  intros Ha Hc. induction a as [|x a IH]; simpl.
  - now rewrite Hc.
  - simpl in Ha. apply andb_prop in Ha as [Hx Ha].
    apply negb_true_iff in Hx. now rewrite Hx, IH.
Qed.

Lemma sign_of_sign (s : bool) (c : ascii) (r : string) :
  is_digit c = true ->
  sign_of (sign s ++ String c r) = (s, String c r).
Proof.
  intros H. destruct s; [reflexivity|]. simpl.
  destruct c as [[] [] [] [] [] [] [] []]; try reflexivity; discriminate.
Qed.

Lemma digit_is_no_name (c : ascii) (r : string) :
  is_digit c = true ->
  String.eqb (lowercase (String c r)) "nan" = false /\
  String.eqb (lowercase (String c r)) "inf" = false /\
  String.eqb (lowercase (String c r)) "infinity" = false.
Proof.
  destruct c as [[] [] [] [] [] [] [] []]; try discriminate;
    intros _; repeat split; reflexivity.
Qed.

(** The value that [float] gives to the numeral of [n] / 10^digits. *)
Lemma float_fixed (s : bool) (digits : nat) (n : N) :
  float_ (sign s ++ fixed digits n) = Ok (nearest s n (- Z.of_nat digits)).
Proof.
  unfold fixed.
  destruct (decimal_head (n / 10 ^ N.of_nat digits))
    as (c & r & E & Hc & Hr).
  pose proof (number_decimal (n / 10 ^ N.of_nat digits)) as Hip.
  rewrite E in *.
  assert (all (fun c => negb (is_e c)) (String c r) = true) as He.
  { apply all_impl with (p := is_digit).
    - intros x Hx. now rewrite digit_is_not_e.
    - simpl. now rewrite Hc, Hr. }
  assert (all (fun c => negb (is_dot c)) (String c r) = true) as Hd.
  { apply all_impl with (p := is_digit).
    - intros x Hx. now rewrite digit_is_not_dot.
    - simpl. now rewrite Hc, Hr. }
  destruct digits as [|k].
  - rewrite append_empty. unfold float_.
    rewrite sign_of_sign by assumption.
    destruct (digit_is_no_name c r Hc) as (N1 & N2 & N3).
    rewrite N1, N2, N3. cbn [orb].
    rewrite (break_none is_e _ He), (break_none is_dot _ Hd).
    cbn [is_empty andb]. rewrite Hip. cbn [number exponent String.length].
    do 2 f_equal. simpl. rewrite N.div_1_r. reflexivity.
  - set (fp := last_digits (S k) n).
    assert (all (fun c => negb (is_e c)) (String c r ++ String "." fp) = true)
      as He'.
    { rewrite all_append, He. cbn [andb all].
      apply all_impl with (p := is_digit); [|apply last_digits_are_digits].
      intros x Hx. now rewrite digit_is_not_e. }
    change (sign s ++ String c r ++ "." ++ fp)%string
      with (sign s ++ String c (r ++ String "." fp))%string.
    unfold float_. rewrite sign_of_sign by assumption.
    destruct (digit_is_no_name c (r ++ String "." fp) Hc) as (N1 & N2 & N3).
    rewrite N1, N2, N3. cbn [orb].
    change (String c (r ++ String "." fp))%string
      with (String c r ++ String "." fp)%string.
    rewrite (break_none is_e _ He').
    rewrite (break_at is_dot (String c r) "." fp Hd eq_refl).
    cbn [is_empty andb]. rewrite Hip. unfold fp.
    rewrite number_last_digits, length_last_digits. cbn [exponent].
    pose proof (N.Div0.div_mod n (10 ^ N.of_nat (S k))).
    do 2 f_equal; lia.
Qed.

(** What [read_A_mat] makes of a float that [export_AME] wrote: the float
    nearest to its value rounded to 18 decimal places. *)
Definition reread (x : float) : float :=
  match x with
  | S754_finite s m e => nearest s (scaled 18 m e) (-18)
  | _ => x
  end.

Lemma float_numeral (x : float) : float_ (numeral 18 x) = Ok (reread x).
Proof.
  destruct x as [s|s| |s m e]; cbn [numeral reread].
  - apply (float_fixed s 18 0).
  - destruct s; reflexivity.
  - reflexivity.
  - apply (float_fixed s 18).
Qed.

(** *** Splitting a line *)

Lemma words_spaces (k : nat) (r : string) :
  words EmptyString (spaces k ++ r) = words EmptyString r.
Proof. induction k as [|k IH]; simpl; [reflexivity | exact IH]. Qed.

Lemma words_solid (acc w r : string) :
  all solid w = true -> words acc (w ++ r) = words (acc ++ w) r.
Proof.
  revert acc. induction w as [|c w IH]; intros acc H; simpl.
  - now rewrite append_empty.
  - simpl in H. apply andb_prop in H as [Hc Hw].
    unfold solid in Hc. apply negb_true_iff in Hc. rewrite Hc.
    rewrite IH by assumption. now rewrite append_assoc.
Qed.

Definition word (w : string) : Prop :=
  all solid w = true /\ is_empty w = false.

Lemma words_word (w : string) (c : ascii) (r : string) :
  word w -> is_space c = true ->
  words EmptyString (w ++ String c r) = w :: words EmptyString r.
Proof.
  intros [Hs He] Hc. rewrite words_solid by assumption.
  cbn [append words]. now rewrite Hc, He.
Qed.

Lemma split_fields (d1 d2 d3 t1 t2 : string) (a b : nat) :
  word d1 -> word d2 -> word d3 -> word t1 -> word t2 ->
  split ("    " ++ d1 ++ "    " ++ d2 ++ "    " ++ d3 ++
         "    " ++ (spaces a ++ t1) ++ "    " ++ (spaces b ++ t2) ++ newline)
  = [d1; d2; d3; t1; t2].
Proof.
  intros H1 H2 H3 H4 H5. unfold split.
  change (words EmptyString
            (spaces 4 ++ d1 ++ String " " (spaces 3 ++ d2 ++
             String " " (spaces 3 ++ d3 ++
             String " " (spaces 3 ++ (spaces a ++ t1) ++
             String " " (spaces 3 ++ (spaces b ++ t2) ++ newline)))))
          = [d1; d2; d3; t1; t2]).
  rewrite words_spaces, words_word by (assumption || reflexivity).
  rewrite words_spaces, words_word by (assumption || reflexivity).
  rewrite words_spaces, words_word by (assumption || reflexivity).
  rewrite words_spaces, append_assoc, words_spaces.
  rewrite words_word by (assumption || reflexivity).
  rewrite words_spaces, append_assoc, words_spaces.
  unfold newline. rewrite words_word by (assumption || reflexivity).
  reflexivity.
Qed.

Lemma word_digits (s : string) :
  all is_digit s = true -> is_empty s = false -> word s.
Proof.
  intros H E. split; [|assumption].
  apply all_impl with (p := is_digit); [apply digit_is_solid | assumption].
Qed.

Lemma word_decimal (n : N) : word (decimal n).
Proof.
  destruct (decimal_head n) as (c & r & E & Hc & Hr). rewrite E.
  apply word_digits; [simpl; now rewrite Hc, Hr | reflexivity].
Qed.

Lemma word_format_d (z : Z) : word (format_d z).
Proof.
  destruct z as [|p|p]; cbn [format_d]; try apply word_decimal.
  destruct (word_decimal (N.pos p)) as [H _]. split; [|reflexivity].
  cbn [append all]. now rewrite H.
Qed.

Lemma word_fixed (s : bool) (digits : nat) (n : N) :
  word (sign s ++ fixed digits n).
Proof.
  assert (word (fixed digits n)) as [H E].
  { unfold fixed.
    destruct (word_decimal (n / 10 ^ N.of_nat digits)) as [H E]. split.
    - rewrite all_append, H. destruct digits as [|k]; [reflexivity|].
      cbn [andb append all].
      change (solid ".") with true. cbn [andb].
      apply all_impl with (p := is_digit);
        [apply digit_is_solid | apply last_digits_are_digits].
    - destruct (decimal (n / 10 ^ N.of_nat digits)); [discriminate|].
      reflexivity. }
  destruct s.
  - change (word (String "-" (fixed digits n))). split; [|reflexivity].
    change (solid "-" && all solid (fixed digits n) = true).
    now rewrite H.
  - split; assumption.
Qed.

Lemma word_numeral (digits : nat) (x : float) : word (numeral digits x).
Proof.
  destruct x as [s|s| |s m e]; cbn [numeral];
    try apply word_fixed; try destruct s; split; reflexivity.
Qed.

Lemma split_amn_line (band ith_wann k_id : nat) (z : complex) :
  split (amn_line band ith_wann k_id z) =
  [format_d (Z.of_nat band + 1); format_d (Z.of_nat ith_wann + 1);
   format_d (Z.of_nat k_id + 1);
   numeral 18 (real z); numeral 18 (imag z)].
Proof.
  unfold amn_line, format_f, rjust.
  apply split_fields; try apply word_format_d; apply word_numeral.
Qed.

(** *** Loops over an array and its flattening *)

Fixpoint imap_from {A B} (s : nat) (g : nat -> A -> B) (l : list A) : list B :=
  match l with
  | [] => []
  | x :: t => g s x :: imap_from (S s) g t
  end.

Lemma imap_from_length {A B} (g : nat -> A -> B) (l : list A) (s : nat) :
  length (imap_from s g l) = length l.
Proof.
  revert s. induction l as [|x t IH]; intros s; simpl; [reflexivity|].
  now rewrite IH.
Qed.

Lemma imap_from_nth {A B} (g : nat -> A -> B) (l : list A) (s i : nat) :
  nth_error (imap_from s g l) i = option_map (g (s + i)%nat) (nth_error l i).
Proof.
  revert s i. induction l as [|x t IH]; intros s [|i]; simpl;
    try reflexivity.
  - now rewrite Nat.add_0_r.
  - rewrite IH. now rewrite Nat.add_succ_r.
Qed.

Lemma imap_from_map {A B} (g : A -> B) (l : list A) (s : nat) :
  imap_from s (fun _ => g) l = map g l.
Proof.
  revert s. induction l as [|x t IH]; intros s; simpl; [reflexivity|].
  now rewrite IH.
Qed.

Lemma mapM_seq_imap {A B} (f : nat -> result B) (g : nat -> A -> B)
      (l : list A) (s : nat) :
  (forall i x, nth_error l i = Some x -> f (s + i)%nat = Ok (g (s + i)%nat x)) ->
  mapM f (seq s (length l)) = Ok (imap_from s g l).
Proof.
  revert s. induction l as [|x t IH]; intros s H; simpl; [reflexivity|].
  pose proof (H 0%nat x eq_refl) as H0. rewrite Nat.add_0_r in H0.
  rewrite H0, IH; [reflexivity|].
  intros i y Hi. specialize (H (S i) y Hi).
  now rewrite Nat.add_succ_r in H.
Qed.

Lemma mapM_range_imap {A B} (f : nat -> result B) (g : nat -> A -> B)
      (l : list A) (n : nat) :
  length l = n ->
  (forall i x, nth_error l i = Some x -> f i = Ok (g i x)) ->
  mapM f (range n) = Ok (imap_from 0 g l).
Proof.
  intros <- H. unfold range. apply mapM_seq_imap. exact H.
Qed.

Lemma concat_uniform_length {A} (L : list (list A)) (n : nat) :
  Forall (fun l => length l = n) L ->
  length (concat L) = (length L * n)%nat.
Proof.
  induction 1 as [|l L Hl _ IH]; simpl; [reflexivity|].
  rewrite length_app, IH, Hl. reflexivity.
Qed.

Lemma concat_uniform_nth {A} (L : list (list A)) (n i j : nat) :
  Forall (fun l => length l = n) L -> (j < n)%nat ->
  nth_error (concat L) (i * n + j) =
  match nth_error L i with
  | Some l => nth_error l j
  | None => None
  end.
Proof.
  intros H Hj. revert i. induction H as [|l L Hl _ IH]; intros i.
  - assert (forall B m, nth_error (@nil B) m = None) as E
      by (intros B [|m]; reflexivity).
    cbn [concat]. now rewrite !E.
  - destruct i as [|i]; simpl.
    + apply nth_error_app1. lia.
    + rewrite nth_error_app2 by lia. rewrite <- IH. f_equal. lia.
Qed.

Lemma read_lines_all (file : list string) :
  read_lines (length file) file = map split file.
Proof.
  induction file as [|l rest IH]; simpl; [reflexivity | now rewrite IH].
Qed.

(** *** The round trip *)

Definition shape (nk nw nb : nat) (A : list (list (list complex))) : Prop :=
  length A = nk /\
  Forall (fun a => length a = nw /\ Forall (fun b => length b = nb) a) A.

(** The data lines in the order of the loops of [export_AME]. *)
Definition data_lines (A : list (list (list complex)))
  : list (list (list string)) :=
  imap_from 0
    (fun k_id a =>
       imap_from 0
         (fun ith_wann b =>
            imap_from 0 (fun band z => amn_line band ith_wann k_id z) b)
         a)
    A.

Definition header (nk nw nb : nat) : list string :=
  [("    " ++ format_d (Z.of_nat (nb * nk * nw)) ++ newline)%string;
   ("    " ++ format_d (Z.of_nat nb) ++
    "    " ++ format_d (Z.of_nat nk) ++
    "    " ++ format_d (Z.of_nat nw) ++ newline)%string].

Lemma export_AME_lines (nk nw nb : nat) (A : list (list (list complex))) :
  shape nk nw nb A ->
  export_AME nk nw nb A =
  Ok (header nk nw nb ++ concat (concat (data_lines A))).
Proof.
  intros [Hk HA]. unfold export_AME.
  rewrite (mapM_range_imap _
             (fun k_id a =>
                imap_from 0
                  (fun ith_wann b =>
                     imap_from 0
                       (fun band z => amn_line band ith_wann k_id z) b) a)
             A nk Hk); [reflexivity|].
  intros i a Hi.
  assert (length a = nw /\ Forall (fun b => length b = nb) a) as [Hw Ha].
  { rewrite Forall_forall in HA. apply HA. eapply nth_error_In; eassumption. }
  apply (mapM_range_imap _ _ a _ Hw).
  intros j b Hj.
  assert (length b = nb) as Hb.
  { rewrite Forall_forall in Ha. apply Ha. eapply nth_error_In; eassumption. }
  apply (mapM_range_imap _ _ b _ Hb).
  intros k z Hz.
  rewrite getitem_nat, Hi. cbn [bind].
  rewrite getitem_nat, Hj. cbn [bind].
  rewrite getitem_nat, Hz. reflexivity.
Qed.

Definition reread_complex (z : complex) : complex :=
  (reread (real z), reread (imag z)).

Lemma data_lines_rows (nk nw nb : nat) (A : list (list (list complex))) :
  shape nk nw nb A ->
  length (data_lines A) = nk /\
  Forall (fun d => length d = nw) (data_lines A) /\
  Forall (fun r => length r = nb) (concat (data_lines A)).
Proof.
  intros [Hk HA]. unfold data_lines. split; [|split].
  - now rewrite imap_from_length.
  - apply Forall_forall. intros d Hd.
    apply In_nth_error in Hd as [i Hi].
    rewrite imap_from_nth in Hi.
    destruct (nth_error A i) as [a|] eqn:Ea; [|discriminate].
    injection Hi as <-. rewrite imap_from_length.
    rewrite Forall_forall in HA. apply HA. eapply nth_error_In; eassumption.
  - apply Forall_concat. apply Forall_forall. intros d Hd.
    apply In_nth_error in Hd as [i Hi].
    rewrite imap_from_nth in Hi.
    destruct (nth_error A i) as [a|] eqn:Ea; [|discriminate].
    injection Hi as <-.
    assert (Forall (fun b => length b = nb) a) as Ha.
    { rewrite Forall_forall in HA. apply HA. eapply nth_error_In; eassumption. }
    apply Forall_forall. intros r Hr.
    apply In_nth_error in Hr as [j Hj].
    rewrite imap_from_nth in Hj.
    destruct (nth_error a j) as [b|] eqn:Eb; [|discriminate].
    injection Hj as <-. rewrite imap_from_length.
    rewrite Forall_forall in Ha. apply Ha. eapply nth_error_In; eassumption.
Qed.

Lemma data_line_at (nk nw nb : nat) (A : list (list (list complex)))
      (i j k : nat) a b z :
  shape nk nw nb A ->
  nth_error A i = Some a -> nth_error a j = Some b -> nth_error b k = Some z ->
  nth_error (concat (concat (data_lines A)))
            (i * nw * nb + j * nb + k) = Some (amn_line k j i z).
Proof.
  intros HA Hi Hj Hk.
  destruct (data_lines_rows nk nw nb A HA) as (_ & Hrows & Hcols).
  destruct HA as [Hlen HA].
  assert (length a = nw /\ Forall (fun b => length b = nb) a) as [Hw Ha].
  { rewrite Forall_forall in HA. apply HA. eapply nth_error_In; eassumption. }
  assert (length b = nb) as Hb.
  { rewrite Forall_forall in Ha. apply Ha. eapply nth_error_In; eassumption. }
  assert (j < nw)%nat as Lj by (rewrite <- Hw; apply nth_error_Some; congruence).
  assert (k < nb)%nat as Lk by (rewrite <- Hb; apply nth_error_Some; congruence).
  replace (i * nw * nb + j * nb + k)%nat with ((i * nw + j) * nb + k)%nat
    by lia.
  rewrite (concat_uniform_nth _ nb (i * nw + j) k Hcols Lk).
  rewrite (concat_uniform_nth _ nw i j Hrows Lj).
  unfold data_lines. rewrite imap_from_nth, Hi. cbn [option_map].
  rewrite imap_from_nth, Hj. cbn [option_map].
  rewrite imap_from_nth, Hk. reflexivity.
Qed.

Lemma read_after_export (nk nw nb : nat) (A : list (list (list complex))) :
  shape nk nw nb A ->
  read_A_mat nk nw nb (header nk nw nb ++ concat (concat (data_lines A))) =
  Ok (map (map (map reread_complex)) A).
Proof.
  intros HA. unfold read_A_mat.
  change (snd (readline (snd (readline
            (header nk nw nb ++ concat (concat (data_lines A)))))))
    with (concat (concat (data_lines A))).
  destruct (data_lines_rows nk nw nb A HA) as (Hn & Hrows & Hcols).
  assert (length (concat (concat (data_lines A))) = (nb * nw * nk)%nat) as L.
  { rewrite (concat_uniform_length _ nb Hcols).
    rewrite (concat_uniform_length _ nw Hrows). lia. }
  cbv zeta. rewrite <- L, read_lines_all.
  pose proof HA as [Hk HA'].
  rewrite <- (imap_from_map (map (map reread_complex)) A 0).
  apply (mapM_range_imap _ _ A _ Hk). intros i a Hi.
  assert (length a = nw /\ Forall (fun b => length b = nb) a) as [Hw Ha].
  { rewrite Forall_forall in HA'. apply HA'. eapply nth_error_In; eassumption. }
  rewrite <- (imap_from_map (map reread_complex) a 0).
  apply (mapM_range_imap _ _ a _ Hw). intros j b Hj.
  assert (length b = nb) as Hb.
  { rewrite Forall_forall in Ha. apply Ha. eapply nth_error_In; eassumption. }
  rewrite <- (imap_from_map reread_complex b 0).
  apply (mapM_range_imap _ _ b _ Hb). intros k z Hz.
  rewrite !getitem_nat, nth_error_map.
  rewrite (data_line_at nk nw nb A i j k a b z HA Hi Hj Hz).
  cbn [option_map bind]. rewrite split_amn_line.
  change (getitem [?a0; ?a1; ?a2; ?a3; ?a4] 3) with (Ok a3).
  change (getitem (?a0 :: ?a1 :: ?a2 :: ?a3 :: ?a4 :: nil) 4) with (Ok a4).
  cbn [bind]. rewrite !float_numeral. reflexivity.
Qed.

(** C5, as the code has it.  [export_AME] and [read_A_mat] use the same
    order of lines (k-point outermost, then Wannier function, band
    innermost) and the same two columns for the real and the imaginary
    part, and every line that is written is read back without an
    exception.  The parts go through ['%22.18f']: what is read back is,
    for every entry, the float nearest to the real part rounded to 18
    decimal places and the float nearest to the imaginary part rounded to
    18 decimal places, not the entry itself. *)
Theorem amn_round_trip (nk nw nb : nat) (A : list (list (list complex))) :
  shape nk nw nb A ->
  exists file,
    export_AME nk nw nb A = Ok file /\
    read_A_mat nk nw nb file = Ok (map (map (map reread_complex)) A).
Proof.
  intros HA. exists (header nk nw nb ++ concat (concat (data_lines A))).
  split; [apply export_AME_lines | apply read_after_export]; assumption.
Qed.

(** 1/2, 1/4 and -3/2, and 2^-70. *)
Definition half : float := S754_finite false 4503599627370496 (-53).
Definition quarter : float := S754_finite false 4503599627370496 (-54).
Definition minus_three_halves : float :=
  S754_finite true 6755399441055744 (-52).
Definition tiny : float := S754_finite false 4503599627370496 (-122).

Lemma amn_round_trip_witness :
  exists file,
    export_AME 2 1 2 [[[(half, quarter); (S754_zero false, half)]];
                      [[(quarter, minus_three_halves); (half, half)]]]
    = Ok file /\
    read_A_mat 2 1 2 file =
    Ok (map (map (map reread_complex))
            [[[(half, quarter); (S754_zero false, half)]];
             [[(quarter, minus_three_halves); (half, half)]]]).
Proof.
  apply (amn_round_trip 2 1 2).
  split; [reflexivity|]. repeat constructor.
Defined.

(** An entry whose parts have at most 18 decimal places and a modulus that
    is not tiny comes back as it was written; these do. *)
Example amn_round_trip_of_dyadic_entries :
  exists file,
    export_AME 2 1 2 [[[(half, quarter); (S754_zero false, half)]];
                      [[(quarter, minus_three_halves); (half, half)]]]
    = Ok file /\
    read_A_mat 2 1 2 file =
    Ok [[[(half, quarter); (S754_zero false, half)]];
        [[(quarter, minus_three_halves); (half, half)]]].
Proof. eexists. split; vm_compute; reflexivity. Qed.

(** The entry 2^-70 is written as 0.000000000000000000 and read back as 0. *)
Lemma amn_round_trip_loses_small_entries :
  exists file,
    export_AME 1 1 1 [[[(tiny, S754_zero false)]]] = Ok file /\
    read_A_mat 1 1 1 file = Ok [[[(S754_zero false, S754_zero false)]]] /\
    [[[(S754_zero false, S754_zero false)]]] <>
    [[[(tiny, S754_zero false)]]].
Proof.
  eexists. split; [vm_compute; reflexivity|].
  split; [vm_compute; reflexivity | discriminate].
Qed.

End AmnFacts.

(** ** get_efermi on several runs *)

Module EfermiFacts.
Import Py VASP Init PyFacts.

(** The Fermi level that [get_efermi] takes for run [v] when OUTCAR files
    are in use: the one of the vasprun.xml file if it carries one, else the
    one of the OUTCAR file at the same position. *)
Definition fermi_level (v : read.vasprun) (o : option read.OUTCAR) : option Q :=
  match read.efermi v with
  | Some e => Some e
  | None => option_map read.outcar_efermi o
  end.

(** The body of the loop of lines 77-85. *)
Definition efermi_body (s0 : self) : nat * read.vasprun -> M unit :=
  fun '(i, v) =>
    match read.efermi v with
    | Some e => modify (append_efermi e)
    | None =>
        match useOUTCAR s0 with
        | None => lift (Raise AttributeError)
        | Some false => print (Text "Fermi level need to be read from OUTCAR")
        | Some true =>
            match outcar s0 with
            | ManyOutcar os =>
                (o <- lift (getitem os (Z.of_nat i)) ;;
                 modify (append_efermi (read.outcar_efermi o)))%vasp
            | OneOutcar _ => lift (Raise TypeError)
            | NoOutcar => lift (Raise AttributeError)
            end
        end
    end.

Lemma get_efermi_many (s : self) (vs : list read.vasprun) :
  vasprun s = Many vs ->
  get_efermi s =
  for_ (combine (seq 0 (length vs)) vs) (efermi_body s)
       (set_efermi (List_ []) s).
Proof.
  intros Hv. unfold get_efermi. unfold bindM at 1. unfold VASP.get.
  cbv beta iota. rewrite Hv. unfold bindM at 1. unfold modify at 1.
  reflexivity.
Qed.

Lemma set_efermi_twice (a b : value) (s : self) :
  set_efermi a (set_efermi b s) = set_efermi a s.
Proof. reflexivity. Qed.

Lemma append_to_list (acc : list value) (e : Q) (s : self) :
  efermi s = Some (List_ acc) ->
  append_efermi e s = set_efermi (List_ (acc ++ [Float e])) s.
Proof. intros H. unfold append_efermi. now rewrite H. Qed.

Lemma efermi_loop (os : list read.OUTCAR) (s0 : self) :
  useOUTCAR s0 = Some true -> outcar s0 = ManyOutcar os ->
  forall (vs : list read.vasprun) (k : nat) (s : self) (acc : list value),
    efermi s = Some (List_ acc) ->
    (forall i v, nth_error vs i = Some v -> read.efermi v = None ->
                 (k + i < length os)%nat) ->
    exists es,
      length es = length vs /\
      (forall i v, nth_error vs i = Some v ->
         exists e, nth_error es i = Some e /\
                   fermi_level v (nth_error os (k + i)) = Some e) /\
      for_ (combine (seq k (length vs)) vs) (efermi_body s0) s =
      (set_efermi (List_ (acc ++ map Float es)) s, Ok tt).
Proof.
  intros Huse Hout. unfold efermi_body. rewrite Huse, Hout.
  induction vs as [|v vs IH]; intros k s acc Hacc Hos.
  - exists []. split; [reflexivity|].
    split; [intros [|i] v Hi; discriminate|]. cbn. rewrite app_nil_r.
    destruct s; cbn in *. now rewrite Hacc.
  - cbn [length seq combine for_].
    assert (exists e, fermi_level v (nth_error os k) = Some e /\
              (match read.efermi v with
               | Some e => modify (append_efermi e)
               | None =>
                   (o <- lift (getitem os (Z.of_nat k)) ;;
                    modify (append_efermi (read.outcar_efermi o)))%vasp
               end) s = (set_efermi (List_ (acc ++ [Float e])) s, Ok tt))
      as (e & He & Hstep).
    { unfold fermi_level. destruct (read.efermi v) as [e|] eqn:Ev.
      - exists e. split; [reflexivity|].
        unfold modify. now rewrite (append_to_list acc).
      - assert (k < length os)%nat as Lk.
        { specialize (Hos 0%nat v eq_refl Ev). lia. }
        destruct (nth_error os k) as [o|] eqn:Eo;
          [|apply nth_error_None in Eo; lia].
        exists (read.outcar_efermi o). split; [reflexivity|].
        unfold bindM, lift. rewrite getitem_nat, Eo.
        unfold modify. now rewrite (append_to_list acc). }
    destruct (IH (S k) (set_efermi (List_ (acc ++ [Float e])) s)
                 (acc ++ [Float e]) eq_refl) as (es & Les & Hes & Hloop).
    { intros i w Hi Hw. specialize (Hos (S i) w Hi Hw). lia. }
    exists (e :: es). split; [cbn; now rewrite Les|]. split.
    { intros [|i] w Hi; cbn in Hi.
      - injection Hi as <-. exists e. rewrite Nat.add_0_r. now split.
      - destruct (Hes i w Hi) as (e' & He' & Hf). exists e'.
        split; [exact He'|]. now rewrite Nat.add_succ_r. }
    unfold bindM at 1. rewrite Hstep, Hloop.
    cbn [map]. rewrite <- app_assoc. reflexivity.
Qed.

(** X1.  [get_efermi] on a list of runs with OUTCAR files in use leaves in
    [self.efermi] one Fermi level per run, in the order of the runs: the one
    of the vasprun.xml file when it has one, else the one of the OUTCAR file
    at the same position in [self.outcar].  It prints nothing and raises
    nothing, provided [self.outcar] reaches every run whose file has no
    Fermi level. *)
Theorem get_efermi_one_level_per_run
        (s : self) (vs : list read.vasprun) (os : list read.OUTCAR) :
  vasprun s = Many vs -> useOUTCAR s = Some true -> outcar s = ManyOutcar os ->
  (forall i v, nth_error vs i = Some v -> read.efermi v = None ->
               (i < length os)%nat) ->
  exists es,
    length es = length vs /\
    (forall i v, nth_error vs i = Some v ->
       exists e, nth_error es i = Some e /\
                 fermi_level v (nth_error os i) = Some e) /\
    snd (get_efermi s) = Ok tt /\
    efermi (fst (get_efermi s)) = Some (List_ (map Float es)) /\
    stdout (fst (get_efermi s)) = stdout s.
Proof.
  intros Hv Hu Ho Hreach.
  destruct (efermi_loop os s Hu Ho vs 0 (set_efermi (List_ []) s) []
                        eq_refl) as (es & Les & Hes & Hloop).
  { intros i v Hi He. cbn. eauto. }
  exists es. split; [assumption|]. split; [exact Hes|].
  rewrite (get_efermi_many s vs Hv), Hloop. cbn. repeat split; reflexivity.
Qed.

(** Two runs without a Fermi level of their own and their OUTCAR files. *)
Lemma get_efermi_one_level_per_run_witness :
  exists es,
    efermi (fst (get_efermi
                   (Build_self (Many [ManyRuns.run_a; ManyRuns.run_b])
                               (Some true)
                               (ManyOutcar [read.Build_OUTCAR 1;
                                            read.Build_OUTCAR 2])
                               None [] [] [] [] [] [])))
    = Some (List_ (map Float es)) /\ length es = 2%nat.
Proof.
  destruct (get_efermi_one_level_per_run
              (Build_self (Many [ManyRuns.run_a; ManyRuns.run_b]) (Some true)
                          (ManyOutcar [read.Build_OUTCAR 1;
                                       read.Build_OUTCAR 2])
                          None [] [] [] [] [] [])
              [ManyRuns.run_a; ManyRuns.run_b]
              [read.Build_OUTCAR 1; read.Build_OUTCAR 2]
              eq_refl eq_refl eq_refl)
    as (es & L & _ & _ & He & _).
  - intros [|[|i]] v Hi _; cbn in *; try lia. destruct i; discriminate.
  - exists es. split; assumption.
Defined.

(** *** An object made from a list of names without OUTCAR files *)

(** The object that [__init__] leaves, as the methods find it:
    [self.efermi] is not assigned yet, and [self.kpts] is what [get_info]
    read from the first run. *)
Definition after_init (o : object) : option self :=
  match o_vasprun o with
  | Some rs =>
      Some (Build_self rs (o_useOUTCAR o) (o_outcar o) None
                       match o_info o with
                       | Some v => read.kpointlist v
                       | None => []
                       end [] [] [] [] (o_stdout o))
  | None => None
  end.

(** The Fermi levels that the files of [vs] carry. *)
Definition own_levels (vs : list read.vasprun) : list Q :=
  flat_map (fun v => match read.efermi v with Some e => [e] | None => [] end) vs.

Lemma efermi_loop_unset (s0 : self) :
  useOUTCAR s0 = None ->
  forall (pre : list read.vasprun) (rest : list read.vasprun) (k : nat)
         (s : self) (acc : list value),
    efermi s = Some (List_ acc) ->
    Forall (fun w => read.efermi w <> None) pre ->
    for_ (combine (seq k (length (pre ++ rest))) (pre ++ rest))
         (efermi_body s0) s =
    for_ (combine (seq (k + length pre) (length rest)) rest) (efermi_body s0)
         (set_efermi (List_ (acc ++ map Float (own_levels pre))) s).
Proof.
  intros Huse. induction pre as [|v pre IH]; intros rest k s acc Hacc Hpre.
  - cbn [app length own_levels flat_map map]. rewrite Nat.add_0_r, app_nil_r.
    destruct s; cbn in *. now rewrite Hacc.
  - inversion Hpre as [|? ? Hv Hpre']; subst.
    cbn [app length seq combine for_].
    destruct (read.efermi v) as [e|] eqn:Ev; [|congruence].
    unfold bindM at 1. unfold efermi_body at 1. rewrite Ev.
    unfold modify. rewrite (append_to_list acc e s Hacc).
    rewrite (IH rest (S k) (set_efermi (List_ (acc ++ [Float e])) s)
                (acc ++ [Float e]) eq_refl Hpre').
    rewrite set_efermi_twice. cbn [own_levels flat_map]. rewrite Ev.
    cbn [app map]. rewrite <- app_assoc. cbn [app].
    replace (S k + length pre)%nat with (k + S (length pre))%nat by lia.
    reflexivity.
Qed.

(** X2.  An object made by [__init__] from a list of names without OUTCAR
    files never gets the attribute [useOUTCAR].  On such an object
    [get_efermi] raises AttributeError at the first run whose file has no
    Fermi level, leaving in [self.efermi] the levels of the runs before it;
    when every file has one, it returns with one level per run. *)
Theorem get_efermi_without_outcars
        (check_exist : string -> bool)
        (read_vasprun : string -> read.vasprun)
        (read_OUTCAR : string -> read.OUTCAR)
        (path : string) (names : list value) (o : object) (s : self)
        (vs : list read.vasprun) :
  init check_exist read_vasprun read_OUTCAR path (List_ names) None_
  = (o, Ok tt) ->
  after_init o = Some s -> vasprun s = Many vs ->
  useOUTCAR s = None /\
  (forall pre v post,
     vs = pre ++ v :: post ->
     Forall (fun w => read.efermi w <> None) pre -> read.efermi v = None ->
     snd (get_efermi s) = Raise AttributeError /\
     efermi (fst (get_efermi s)) = Some (List_ (map Float (own_levels pre)))) /\
  (Forall (fun w => read.efermi w <> None) vs ->
   snd (get_efermi s) = Ok tt /\
   efermi (fst (get_efermi s)) = Some (List_ (map Float (own_levels vs))) /\
   length (own_levels vs) = length vs).
Proof.
  intros Hinit Hs Hv.
  assert (useOUTCAR s = None) as Hu.
  { unfold init in Hinit.
    destruct (load_vaspruns check_exist read_vasprun path names [] [])
      as [[loaded out] r].
    destruct r as [[]|e]; [|discriminate].
    destruct (getitem loaded 0) as [v0|e]; [|discriminate].
    injection Hinit as <-. unfold after_init in Hs. cbn in Hs.
    injection Hs as <-. reflexivity. }
  split; [exact Hu|]. split.
  - intros pre v post -> Hpre Hnone.
    assert (get_efermi s =
            (set_efermi (List_ ([] ++ map Float (own_levels pre)))
                        (set_efermi (List_ []) s), Raise AttributeError)) as E.
    { rewrite (get_efermi_many s _ Hv).
      rewrite (efermi_loop_unset s Hu pre (v :: post) 0
                 (set_efermi (List_ []) s) [] eq_refl Hpre).
      cbn [length seq combine for_]. unfold bindM at 1.
      unfold efermi_body at 1. rewrite Hnone, Hu. reflexivity. }
    rewrite E. split; reflexivity.
  - intros Hall. rewrite (get_efermi_many s _ Hv).
    pose proof (efermi_loop_unset s Hu vs [] 0 (set_efermi (List_ []) s) []
                                  eq_refl Hall) as E.
    rewrite app_nil_r in E. rewrite E. cbn. repeat split.
    clear -Hall. unfold own_levels.
    induction Hall as [|v vs Hv _ IH]; [reflexivity|].
    cbn [flat_map]. destruct (read.efermi v); [|congruence].
    cbn [app length]. now rewrite IH.
Qed.

Definition with_level (e : Q) : read.vasprun :=
  read.Build_vasprun 1 1 [(0, 0, 0)] [1] [[[(0, 0)]]] (Some e).

Lemma get_efermi_without_outcars_witness :
  snd (get_efermi
         (Build_self (Many [with_level 1; ManyRuns.run_a]) None NoOutcar None
                     [(0, 0, 0)] [] [] [] [] [])) = Raise AttributeError.
Proof.
  destruct (get_efermi_without_outcars
              (fun _ => true)
              (fun f => if String.eqb f "./a.xml" then with_level 1
                        else ManyRuns.run_a)
              (fun _ => read.Build_OUTCAR 0) "." [Str "a"; Str "b"]
              (Build_object (Some (Many [with_level 1; ManyRuns.run_a]))
                            (Some (with_level 1)) None NoOutcar [])
              (Build_self (Many [with_level 1; ManyRuns.run_a]) None NoOutcar
                          None [(0, 0, 0)] [] [] [] [] [])
              [with_level 1; ManyRuns.run_a]
              eq_refl eq_refl eq_refl) as (_ & H & _).
  destruct (H [with_level 1] ManyRuns.run_a [] eq_refl) as [Hr _].
  - repeat constructor. discriminate.
  - reflexivity.
  - exact Hr.
Defined.

End EfermiFacts.

(** ** get_bandgap: what a completed call reports, and its edge cases *)

Module BandgapReport.
Import Py VASP PyFacts NpFacts Bandgap.

(** The lines of one spin channel (lines 145-174) and the gap appended to
    [self.bandgap], from the band edges [bandedge] of the k-points. *)
Definition report (nkpts : nat) (s : self) (spin : nat)
           (out : list line) (gap : Q) : Prop :=
  exists bandedge vbm_idx cbm_idx at_vbm at_cbm k_vbm k_cbm,
    mapM (edge_at s spin) (range nkpts) = Ok bandedge /\
    np.argmax (map homo_e bandedge) = Ok vbm_idx /\
    np.argmin (map lumo_e bandedge) = Ok cbm_idx /\
    nth_error bandedge vbm_idx = Some at_vbm /\
    nth_error bandedge cbm_idx = Some at_cbm /\
    nth_error (kpts s) vbm_idx = Some k_vbm /\
    nth_error (kpts s) cbm_idx = Some k_cbm /\
    gap = lumo_e at_cbm - homo_e at_vbm /\
    out = [PSpin spin;
           PVBM (homo_e at_vbm) (homo_occ at_vbm) k_vbm;
           PCBM (lumo_e at_cbm) (lumo_occ at_cbm) k_cbm] ++
          (if Nat.eqb vbm_idx cbm_idx then [PDirect gap]
           else
             let gap1 := lumo_e at_cbm - homo_e at_cbm in
             let gap2 := lumo_e at_vbm - homo_e at_vbm in
             [PIndirect gap;
              PDirectOfIndirect (if np.Qltb gap2 gap1 then gap2 else gap1)]).

Lemma report_same_arrays nkpts s s' spin out gap :
  same_arrays s s' -> report nkpts s spin out gap ->
  report nkpts s' spin out gap.
Proof.
  intros Hs (be & vbm & cbm & av & ac & kv & kc & H1 & H).
  exists be, vbm, cbm, av, ac, kv, kc. split.
  - rewrite <- H1. apply mapM_ext. intros k.
    now apply edge_at_same_arrays.
  - destruct Hs as (_ & _ & _ & ->). exact H.
Qed.

Lemma spin_block_report (nkpts spin : nat) (s : self) :
  snd (spin_block nkpts spin s) = Ok tt ->
  same_arrays s (fst (spin_block nkpts spin s)) /\
  exists out gap,
    report nkpts s spin out gap /\
    stdout (fst (spin_block nkpts spin s)) = stdout s ++ out /\
    bandgap (fst (spin_block nkpts spin s)) = bandgap s ++ [gap].
Proof.
  unfold spin_block, bindM, print, modify, lift, VASP.get.
  assert (edge_at (add_stdout (PSpin spin) s) spin = edge_at s spin) as ->
    by reflexivity.
  destruct (mapM (edge_at s spin) (range nkpts)) as [bandedge|e] eqn:Hbe;
    [|discriminate].
  destruct (np.argmax (map homo_e bandedge)) as [vbm|e] eqn:Hvbm;
    [|discriminate].
  destruct (np.argmin (map lumo_e bandedge)) as [cbm|e] eqn:Hcbm;
    [|discriminate].
  destruct (getitem bandedge (Z.of_nat vbm)) as [at_vbm|e] eqn:Hav;
    [|discriminate].
  change (kpts (add_stdout (PSpin spin) s)) with (kpts s).
  destruct (getitem (kpts s) (Z.of_nat vbm)) as [k_vbm|e] eqn:Hkv;
    [|discriminate].
  destruct (getitem bandedge (Z.of_nat cbm)) as [at_cbm|e] eqn:Hac;
    [|discriminate].
  destruct (getitem (kpts s) (Z.of_nat cbm)) as [k_cbm|e] eqn:Hkc;
    [|discriminate].
  apply getitem_nat_Ok in Hav, Hac, Hkv, Hkc.
  intros _.
  destruct (Nat.eqb vbm cbm) eqn:Hd; cbn [fst snd];
    (split; [unfold same_arrays; auto|]);
    eexists _, _;
    (split; [exists bandedge, vbm, cbm, at_vbm, at_cbm, k_vbm, k_cbm;
             repeat (split; [first [eassumption | reflexivity]|]);
             rewrite Hd; reflexivity|]);
    (split; [cbn; rewrite <- !app_assoc; reflexivity | reflexivity]).
Qed.

Lemma for_reports (nkpts : nat) (spins : list nat) : forall s,
  snd (for_ spins (spin_block nkpts) s) = Ok tt ->
  exists done : list (list line * Q),
    Forall2 (fun spin og => report nkpts s spin (fst og) (snd og)) spins done /\
    stdout (fst (for_ spins (spin_block nkpts) s)) =
      stdout s ++ concat (map fst done) /\
    bandgap (fst (for_ spins (spin_block nkpts) s)) = bandgap s ++ map snd done.
Proof.
  induction spins as [|spin spins IH]; intros s.
  - intros _. exists []. cbn. rewrite !app_nil_r. repeat split. constructor.
  - cbn [for_]. unfold bindM.
    pose proof (spin_block_report nkpts spin s) as Hb.
    destruct (spin_block nkpts spin s) as [s1 [[]|e]] eqn:Hblock;
      cbn [fst snd] in *; [|discriminate].
    intros Hr. destruct (Hb eq_refl) as (Hsame & out & gap & Hrep & Hout & Hgap).
    destruct (IH s1 Hr) as (done & Hdone & Hso & Hbg).
    exists ((out, gap) :: done). split; [|split].
    + constructor; [exact Hrep|].
      eapply Forall2_impl; [|exact Hdone].
      intros a b Hab. eapply report_same_arrays; [|exact Hab].
      now apply same_arrays_sym.
    + rewrite Hso, Hout. cbn. now rewrite <- !app_assoc.
    + rewrite Hbg, Hgap. cbn. now rewrite <- app_assoc.
Qed.

Lemma Forall2_nth {A B} (R : A -> B -> Prop) (l : list A) (l' : list B)
      (i : nat) (x : A) (y : B) :
  Forall2 R l l' -> nth_error l i = Some x -> nth_error l' i = Some y ->
  R x y.
Proof.
  intros H. revert i. induction H as [|a b l l' Hab _ IH]; intros [|i] Hx Hy;
    try discriminate; cbn in Hx, Hy.
  - injection Hx as <-. injection Hy as <-. exact Hab.
  - exact (IH i Hx Hy).
Qed.

(** X3.  What a call of [get_bandgap] that returns has printed and left in
    [self.bandgap]: after what [get_efermi] may have printed, one block of
    lines per spin channel (ISPIN blocks) and one gap per block.  The block
    of spin [i] comes from the band edges of all the k-points of
    [self.kpts]: it is the spin, the valence-band maximum (at the k-point
    that [np.argmax] gives), the conduction-band minimum (at the k-point
    that [np.argmin] gives), and then, when the two k-points are the same,
    'Direct bandgap' with the gap, and otherwise 'Indirect bandgap' with
    the gap followed by a 'Direct bandgap' that is the smaller of the two
    vertical gaps, the one at the k-point of the CBM ([gap1]) and the one
    at the k-point of the VBM ([gap2]).  The gap is E(CBM) - E(VBM), and
    the direct gap that follows an indirect one is never smaller than
    it. *)
Theorem get_bandgap_report (efermi : value) (s : self) :
  snd (get_bandgap efermi s) = Ok tt ->
  let s' := fst (get_bandgap efermi s) in
  exists (pre : list line) (done : list (list line * Q)),
    stdout s' = stdout s ++ pre ++ concat (map fst done) /\
    verdict_free pre /\
    bandgap s' = map snd done /\
    (exists ef a, load (vasprun s) ef = Ok a /\ length done = a_ispin a) /\
    forall i out gap, nth_error done i = Some (out, gap) ->
      exists bandedge vbm_idx cbm_idx at_vbm at_cbm k_vbm k_cbm,
        mapM (edge_at s' i) (range (length (kpts s'))) = Ok bandedge /\
        np.argmax (map homo_e bandedge) = Ok vbm_idx /\
        np.argmin (map lumo_e bandedge) = Ok cbm_idx /\
        nth_error bandedge vbm_idx = Some at_vbm /\
        nth_error bandedge cbm_idx = Some at_cbm /\
        nth_error (kpts s') vbm_idx = Some k_vbm /\
        nth_error (kpts s') cbm_idx = Some k_cbm /\
        gap = lumo_e at_cbm - homo_e at_vbm /\
        let gap1 := lumo_e at_cbm - homo_e at_cbm in
        let gap2 := lumo_e at_vbm - homo_e at_vbm in
        let head := [PSpin i;
                     PVBM (homo_e at_vbm) (homo_occ at_vbm) k_vbm;
                     PCBM (lumo_e at_cbm) (lumo_occ at_cbm) k_cbm] in
        (vbm_idx = cbm_idx /\ out = head ++ [PDirect gap] \/
         vbm_idx <> cbm_idx /\
         exists direct_gap,
           out = head ++ [PIndirect gap; PDirectOfIndirect direct_gap] /\
           (direct_gap = gap1 \/ direct_gap = gap2) /\
           direct_gap <= gap1 /\ direct_gap <= gap2 /\
           gap <= direct_gap).
Proof.
  intros Hr. cbv zeta.
  destruct (get_bandgap_stages efermi s)
    as (s0 & (Hv0 & pre & Hpre & Hfree) & [(e & He) | (ef & a & Hload & _ & Heq)]).
  { rewrite He in Hr. discriminate. }
  rewrite Heq in *.
  set (s2 := set_bandgap [] (set_arrays (a_kpts a) (a_band a) (a_co_occ a)
                                        (a_co_occ_ a) s0)) in *.
  destruct (for_reports _ _ _ Hr) as (done & Hdone & Hso & Hbg).
  destruct (for_spin_blocks (length (a_kpts a)) (range (a_ispin a)) s2)
    as (Hsame & _).
  set (s3 := fst (for_ (range (a_ispin a)) (spin_block (length (a_kpts a))) s2))
    in *.
  assert (kpts s3 = a_kpts a) as Hk
      by (destruct Hsame as (_ & _ & _ & ->); reflexivity).
  assert (length done = a_ispin a) as Hlen.
  { apply Forall2_length in Hdone. unfold range in Hdone.
    rewrite length_seq in Hdone. symmetry. exact Hdone. }
  exists pre, done. split; [|split; [|split; [|split]]].
  - rewrite Hso. subst s2. cbn [stdout set_bandgap set_arrays]. rewrite Hpre.
    now rewrite <- app_assoc.
  - exact Hfree.
  - rewrite Hbg. reflexivity.
  - exists ef, a. split; assumption.
  - intros i out gap Hi. rewrite Hk.
    assert (nth_error (range (a_ispin a)) i = Some i) as Hspin.
    { assert (i < length done)%nat by (apply nth_error_Some; congruence).
      unfold range.
      rewrite nth_error_nth' with (d := 0%nat) by (rewrite length_seq; lia).
      now rewrite seq_nth by lia. }
    assert (report (length (a_kpts a)) s3 i out gap) as Hrep.
    { apply report_same_arrays with s2; [exact Hsame|].
      exact (Forall2_nth _ _ _ _ _ _ Hdone Hspin Hi). }
    destruct Hrep as (be & vbm & cbm & av & ac & kv & kc & Hbe & Hvbm & Hcbm
                      & Hav & Hac & Hkv & Hkc & Hgap & Hout).
    rewrite Hk in Hkv, Hkc.
    exists be, vbm, cbm, av, ac, kv, kc.
    repeat (split; [assumption|]).
    destruct (Nat.eqb_spec vbm cbm) as [E|E]; [left; split; assumption|right].
    split; [exact E|]. eexists. split; [exact Hout|].
    apply argmax_spec in Hvbm as (hmax & Hhmax & Hmax).
    apply argmin_spec in Hcbm as (lmin & Hlmin & Hmin).
    rewrite nth_error_map, Hav in Hhmax. injection Hhmax as <-.
    rewrite nth_error_map, Hac in Hlmin. injection Hlmin as <-.
    assert (homo_e ac <= homo_e av) as H1
      by (apply Hmax, in_map; eapply nth_error_In; eassumption).
    assert (lumo_e ac <= lumo_e av) as H2
      by (apply Hmin, in_map; eapply nth_error_In; eassumption).
    rewrite Hgap. cbv zeta.
    destruct (np.Qltb (lumo_e av - homo_e av) (lumo_e ac - homo_e ac)) eqn:Hlt.
    + apply Qltb_true in Hlt.
      split; [now right|]. repeat split; Lqa.lra.
    + apply Qltb_false in Hlt.
      split; [now left|]. repeat split; Lqa.lra.
Qed.

Lemma get_bandgap_report_witness :
  exists (pre : list line) (done : list (list line * Q)),
    stdout (fst (get_bandgap (Float 0) (fresh (One silicon_like)))) =
      pre ++ concat (map fst done) /\
    length done = 1%nat.
Proof.
  assert (snd (get_bandgap (Float 0) (fresh (One silicon_like))) = Ok tt)
    as H by (vm_compute; reflexivity).
  destruct (get_bandgap_report (Float 0) (fresh (One silicon_like)) H)
    as (pre & done & H1 & _ & H2 & _).
  exists pre, done. split; [exact H1|].
  apply (f_equal (@length Q)) in H2. rewrite length_map in H2.
  symmetry. exact H2.
Defined.

(** *** One run: the k-points that make the loop fail or wrap around *)

Lemma getitem_Raise {A} (a : list A) (i : Z) (e : exn) :
  getitem a i = Raise e -> e = IndexError.
Proof.
  unfold getitem. destruct (_ && _)%bool; [|congruence].
  destruct (nth_error _ _); congruence.
Qed.

Lemma edge_at_Raise (s : self) (spin kpt : nat) (e : exn) :
  edge_at s spin kpt = Raise e -> e = IndexError.
Proof.
  unfold edge_at, bind.
  repeat match goal with
         | |- context [match getitem ?a ?i with _ => _ end] =>
             let H := fresh "H" in
             destruct (getitem a i) eqn:H;
             [|intros E; injection E as <-; exact (getitem_Raise _ _ _ H)]
         end.
  discriminate.
Qed.

Lemma mapM_Raise {A B} (f : A -> result B) (l : list A) (E : exn) (x : A) :
  (forall y e, f y = Raise e -> e = E) ->
  In x l -> (forall b, f x <> Ok b) ->
  mapM f l = Raise E.
Proof.
  intros Hall. induction l as [|y l IH]; intros Hin Hx; [contradiction|].
  cbn. destruct (f y) as [b|e] eqn:Ey.
  - destruct Hin as [-> | Hin]; [elim (Hx b); exact Ey|].
    now rewrite (IH Hin Hx).
  - now rewrite (Hall y e Ey).
Qed.

(** The state in which the loop over the spin channels starts for one
    run. *)
Definition loaded (v : read.vasprun) (s : self) : self :=
  set_bandgap []
    (set_arrays (read.kpointlist v)
                (map (map (map fst)) (read.band v))
                (map (map (map snd)) (read.band v))
                (map (map (map (fun o => np.Qltb (1 # 2) o)))
                     (map (map (map snd)) (read.band v))) s).

Lemma get_bandgap_one (v : read.vasprun) (ef : Q) (s : self) :
  vasprun s = One v ->
  get_bandgap (Float ef) s =
  for_ (range (read.ISPIN v)) (spin_block (length (read.kpointlist v)))
       (loaded v s).
Proof.
  intros Hv. rewrite get_bandgap_given by discriminate.
  rewrite run_from_eq, Hv. reflexivity.
Qed.

Lemma all_occupied_no_edge (v : read.vasprun) (s : self) (spin kpt : nat)
      rows row :
  nth_error (read.band v) spin = Some rows ->
  nth_error rows kpt = Some row ->
  forallb occupied row = true ->
  forall e, edge_at (loaded v s) spin kpt <> Ok e.
Proof.
  intros Hrows Hrow Hall e He.
  destruct (edge_at_one v (loaded v s) spin kpt e eq_refl eq_refl eq_refl He)
    as (rows' & row' & R1 & R2 & _ & R4).
  assert (row' = row) as -> by congruence.
  unfold lumo_energy, lumo_index, homo_index in R4.
  assert (filter occupied row = row) as Hf.
  { clear -Hall. induction row as [|x row IH]; [reflexivity|].
    cbn in *. apply andb_prop in Hall as [Hx Hr]. rewrite Hx.
    now rewrite IH. }
  rewrite Hf in R4.
  replace (Z.of_nat (length row) - 1 + 1)%Z with (Z.of_nat (length row))
    in R4 by lia.
  rewrite getitem_nat in R4.
  assert (nth_error (map fst row) (length row) = None) as N
    by (apply nth_error_None; rewrite length_map; lia).
  rewrite N in R4. discriminate.
Qed.

(** X4.  One vasprun.xml, a float Fermi level and at least one spin
    channel.  When the file has no k-point, [get_bandgap] raises ValueError
    ([np.argmax] of an empty array); when at some k-point of the first
    spin channel every band is occupied, so that there is no band left for
    the conduction edge, it raises IndexError.  In both cases 'Spin: 0' has
    been printed and [self.bandgap] is left empty. *)
Theorem get_bandgap_without_edges (v : read.vasprun) (ef : Q) (s : self) :
  vasprun s = One v -> (0 < read.ISPIN v)%nat ->
  (read.kpointlist v = [] ->
   get_bandgap (Float ef) s =
   (add_stdout (PSpin 0) (loaded v s), Raise ValueError)) /\
  (forall rows kpt row,
     nth_error (read.band v) 0 = Some rows ->
     (kpt < length (read.kpointlist v))%nat ->
     nth_error rows kpt = Some row ->
     forallb occupied row = true ->
     get_bandgap (Float ef) s =
     (add_stdout (PSpin 0) (loaded v s), Raise IndexError)).
Proof.
  intros Hv Hspin. rewrite (get_bandgap_one v ef s Hv).
  destruct (read.ISPIN v) as [|n]; [lia|].
  unfold range. cbn [seq for_]. split.
  - intros Hk. rewrite Hk. reflexivity.
  - intros rows kpt row Hrows Hkpt Hrow Hall.
    unfold bindM at 1. unfold spin_block, bindM, print, modify, lift, VASP.get.
    assert (edge_at (add_stdout (PSpin 0) (loaded v s)) 0 = edge_at (loaded v s) 0)
      as -> by reflexivity.
    rewrite (mapM_Raise (edge_at (loaded v s) 0) _ IndexError kpt).
    + reflexivity.
    + intros y e. apply edge_at_Raise.
    + unfold range. apply in_seq. lia.
    + now apply (all_occupied_no_edge v s 0 kpt rows row).
Qed.

(** A file in which both bands of the only k-point are occupied. *)
Definition full_bands : read.vasprun :=
  read.Build_vasprun 2 1 [(0, 0, 0)] [1] [[[(-1, 1); (1, 1)]]] None.

Lemma get_bandgap_without_edges_witness :
  snd (get_bandgap (Float 0) (fresh (One full_bands))) = Raise IndexError.
Proof.
  destruct (get_bandgap_without_edges full_bands 0 (fresh (One full_bands))
              eq_refl) as [_ H].
  - cbn. lia.
  - rewrite (H [[(-1, 1); (1, 1)]] 0%nat [(-1, 1); (1, 1)]);
      [reflexivity | reflexivity | cbn; lia | reflexivity | reflexivity].
Defined.

(** X5.  One vasprun.xml and a float Fermi level, on a call that returns.
    At a k-point where no band is occupied the index of the highest
    occupied band is -1, which Python reads from the end: the valence edge
    of that k-point is the energy of the last band and its conduction edge
    the energy of the first band.  The gap of the spin channel is therefore
    at most E(first band) - E(last band) at that k-point. *)
Theorem get_bandgap_unoccupied_kpoint
        (v : read.vasprun) (ef : Q) (s : self) (spin kpt : nat)
        (rows : list (list (Q * Q))) (row : list (Q * Q)) (gap : Q) :
  vasprun s = One v ->
  snd (get_bandgap (Float ef) s) = Ok tt ->
  nth_error (bandgap (fst (get_bandgap (Float ef) s))) spin = Some gap ->
  nth_error (read.band v) spin = Some rows ->
  (kpt < length (read.kpointlist v))%nat ->
  nth_error rows kpt = Some row ->
  forallb (fun eo => negb (occupied eo)) row = true ->
  exists e_first e_last,
    nth_error (map fst row) 0 = Some e_first /\
    nth_error (map fst row) (length row - 1) = Some e_last /\
    gap <= e_first - e_last.
Proof.
  intros Hv Hr Hgap Hrows Hkpt Hrow Hnone.
  rewrite (get_bandgap_one v ef s Hv) in Hr, Hgap.
  destruct (for_reports _ _ _ Hr) as (done & Hdone & _ & Hbg).
  rewrite Hbg in Hgap. cbn [bandgap loaded set_bandgap app] in Hgap.
  rewrite nth_error_map in Hgap.
  destruct (nth_error done spin) as [[out g]|] eqn:Hd; [|discriminate].
  injection Hgap as ->.
  assert (nth_error (range (read.ISPIN v)) spin = Some spin) as Hspin.
  { assert (spin < length done)%nat by (apply nth_error_Some; congruence).
    apply Forall2_length in Hdone. unfold range in *.
    rewrite length_seq in Hdone.
    rewrite nth_error_nth' with (d := 0%nat) by (rewrite length_seq; lia).
    now rewrite seq_nth by lia. }
  pose proof (Forall2_nth _ _ _ _ _ _ Hdone Hspin Hd) as Hrep.
  destruct Hrep as (be & vbm & cbm & av & ac & kv & kc & Hbe & Hvbm & Hcbm
                    & Hav & Hac & _ & _ & Hg & _).
  cbn [fst snd] in Hg.
  assert (nth_error (range (length (read.kpointlist v))) kpt = Some kpt) as Hk.
  { unfold range.
    rewrite nth_error_nth' with (d := 0%nat) by (rewrite length_seq; lia).
    now rewrite seq_nth by lia. }
  destruct (mapM_nth _ _ _ _ _ Hbe Hk) as (e & Hin & He).
  destruct (edge_at_one v (loaded v s) spin kpt e eq_refl eq_refl eq_refl He)
    as (rows' & row' & R1 & R2 & R3 & R4).
  assert (row' = row) as -> by congruence.
  assert (filter occupied row = []) as Hf.
  { clear -Hnone. induction row as [|x row IH]; [reflexivity|].
    cbn in *. apply andb_prop in Hnone as [Hx Hr].
    apply negb_true_iff in Hx. rewrite Hx. now apply IH. }
  unfold homo_energy, lumo_energy, lumo_index, homo_index in R3, R4.
  rewrite Hf in R3, R4. cbn [length Z.of_nat] in R3, R4.
  change (0 - 1 + 1)%Z with (Z.of_nat 0) in R4.
  apply getitem_nat_Ok in R4.
  exists (lumo_e e), (homo_e e). split; [exact R4|]. split.
  - unfold getitem in R3. rewrite length_map in R3.
    change (0 - 1 <? 0)%Z with true in R3. cbn match in R3.
    destruct ((0 <=? 0 - 1 + Z.of_nat (length row))%Z &&
              (0 - 1 + Z.of_nat (length row) <? Z.of_nat (length row))%Z)%bool
      eqn:Hb; [|discriminate].
    apply andb_prop in Hb as [Hb _]. apply Z.leb_le in Hb.
    replace (Z.to_nat (0 - 1 + Z.of_nat (length row))) with (length row - 1)%nat
      in R3 by lia.
    destruct (nth_error (map fst row) (length row - 1)); congruence.
  - apply argmax_spec in Hvbm as (hmax & Hhmax & Hmax).
    apply argmin_spec in Hcbm as (lmin & Hlmin & Hmin).
    rewrite nth_error_map, Hav in Hhmax. injection Hhmax as <-.
    rewrite nth_error_map, Hac in Hlmin. injection Hlmin as <-.
    assert (homo_e e <= homo_e av) as H1
      by (apply Hmax, in_map; eapply nth_error_In; eassumption).
    assert (lumo_e ac <= lumo_e e) as H2
      by (apply Hmin, in_map; eapply nth_error_In; eassumption).
    rewrite Hg. Lqa.lra.
Qed.

(** Two k-points; nothing is occupied at the second one. *)
Definition empty_kpoint : read.vasprun :=
  read.Build_vasprun 2 1 [(0, 0, 0); (1 # 2, 0, 0)] [1 # 2; 1 # 2]
    [[[(-1, 1); (1, 0)]; [(0, 0); (2, 0)]]] None.

Lemma get_bandgap_unoccupied_kpoint_witness :
  exists e_first e_last gap,
    nth_error (bandgap (fst (get_bandgap (Float 0) (fresh (One empty_kpoint)))))
              0 = Some gap /\
    gap <= e_first - e_last.
Proof.
  assert (snd (get_bandgap (Float 0) (fresh (One empty_kpoint))) = Ok tt)
    as H by (vm_compute; reflexivity).
  destruct (get_bandgap_unoccupied_kpoint
              empty_kpoint 0 (fresh (One empty_kpoint)) 0 1
              [[(-1, 1); (1, 0)]; [(0, 0); (2, 0)]] [(0, 0); (2, 0)]
              (0 - 2) eq_refl H)
    as (e_first & e_last & _ & _ & Hle);
    [vm_compute; reflexivity | reflexivity | cbn; lia | reflexivity
    | reflexivity |].
  exists e_first, e_last, (0 - 2). split; [vm_compute; reflexivity | exact Hle].
Defined.

End BandgapReport.

(** ** Several runs: which bands count as occupied *)

Module ManyRunsOccupied.
Import Py VASP PyFacts ManyRuns.

(** The rows of [co_occ_] that a run contributes: a band is marked when its
    energy is below the Fermi level [ef] of the run. *)
Definition below (spin : nat) (ef : Q) (v : read.vasprun) : list (list bool) :=
  map (map (fun e => np.Qltb e ef)) (kept_band spin v).

Lemma stack_runs_occupied spin efs ivs : forall a a',
  foldM (stack_run spin efs) ivs a = Ok a' ->
  exists levels,
    Forall2 (fun iv ef => getitem efs (Z.of_nat (fst iv)) = Ok ef) ivs levels /\
    co_occ2 a' = co_occ2 a ++
                 flat_map (fun '(ef, v) => below spin ef v)
                          (combine levels (map snd ivs)).
Proof.
  induction ivs as [|[i v] ivs IH]; intros a a'; cbn [foldM].
  - intros [= <-]. exists (@nil Q). split; [apply Forall2_nil|].
    simpl. now rewrite app_nil_r.
  - destruct (stack_run spin efs a (i, v)) as [a1|e] eqn:E;
      [|intros ?; discriminate].
    intros H. apply IH in H as (levels & Hl & H2).
    unfold stack_run in E.
    apply bind_Ok in E as (band_s & Hb & E).
    apply bind_Ok in E as (ef & Hef & E).
    apply bind_Ok in E as (bands' & _ & E).
    apply bind_Ok in E as (occ1' & _ & E).
    apply bind_Ok in E as (occ2' & Hv & E).
    injection E as <-. cbn [co_occ2] in H2.
    apply vstack_Ok in Hv. apply getitem_nth with (d := []) in Hb. subst.
    exists (ef :: levels). split; [constructor; assumption|].
    rewrite H2. simpl. rewrite <- !app_assoc.
    unfold below, kept_band, kept_rows, slice_from. now rewrite skipn_map.
Qed.

Lemma collect_spins_occupied vs nbands efs :
  length efs = length vs ->
  forall spins c c',
    foldM (collect_spin vs nbands efs) spins c = Ok c' ->
    co_occ_spin2 c' =
    co_occ_spin2 c ++
    map (fun spin => flat_map (fun '(ef, v) => below spin ef v) (combine efs vs))
        spins.
Proof.
  intros Hlen. induction spins as [|spin spins IH]; intros c c'; simpl.
  - intros [= <-]. now rewrite app_nil_r.
  - destruct (collect_spin vs nbands efs c spin) as [c1|e] eqn:E;
      [|discriminate].
    intros H. apply IH in H. rewrite H.
    unfold collect_spin in E. apply bind_Ok in E as (a & Ha & E).
    injection E as <-. cbn [co_occ_spin2].
    apply stack_runs_occupied in Ha as (levels & Hl & H2).
    apply shifts_are_efermi in Hl; [|assumption]. subst levels.
    rewrite snd_combine_range in H2. rewrite H2. cbn [co_occ2 app slice_from skipn].
    now rewrite <- app_assoc.
Qed.

(** X6.  In the branch of [get_bandgap] for several vasprun.xml files, the
    boolean array [self.co_occ_], from which the occupied bands of every
    k-point are counted, marks a band as occupied when its energy is below
    the Fermi level given for its run.  The occupations read from the files
    go to [self.co_occ] and play no part in finding the band edges (with a
    single file, the mark is 'occupation > 0.5'). *)
Theorem many_runs_occupied_below_fermi
        (vs : list read.vasprun) (efermi : value) (a : arrays) :
  load_many vs efermi = Ok a ->
  exists efs,
    check_efermi_list efermi (length vs) = Ok efs /\
    a_co_occ_ a =
    map (fun spin => flat_map (fun '(ef, v) => below spin ef v) (combine efs vs))
        (range (a_ispin a)).
Proof.
  unfold load_many. intros H.
  apply bind_Ok in H as (efs & Hefs & H).
  apply bind_Ok in H as (v0 & _ & H).
  apply bind_Ok in H as (c & Hc & H).
  apply bind_Ok in H as (kptss & _ & H).
  injection H as <-. cbn [a_co_occ_ a_ispin].
  exists efs. split; [exact Hefs|].
  destruct (check_efermi_list_spec _ _ _ Hefs) as (_ & _ & Hlen & _).
  now rewrite (collect_spins_occupied vs _ efs Hlen _ _ _ Hc).
Qed.

Lemma many_runs_occupied_below_fermi_witness :
  exists a,
    load_many [run_a; run_b] (floats [0; 1 # 4]) = Ok a /\
    a_co_occ_ a = [[[true; false]; [true; false]; [true; false]]].
Proof.
  destruct (load_many [run_a; run_b] (floats [0; 1 # 4])) as [a|e] eqn:E;
    [|vm_compute in E; discriminate].
  destruct (many_runs_occupied_below_fermi _ _ _ E) as (efs & Hefs & Ha).
  exists a. split; [reflexivity|]. rewrite Ha.
  vm_compute in Hefs. injection Hefs as <-.
  assert (a_ispin a = 1%nat) as ->
    by (vm_compute in E; injection E as <-; reflexivity).
  reflexivity.
Defined.

End ManyRunsOccupied.

(** ** _generate_pband, style 1: the orbitals behind a label *)

Module PbandGroups.
Import Py Pband PyFacts PbandFacts.

(** The orbitals that the groups of [lm] name. *)
Definition orbitals_of (each_lm : value) : list string :=
  match each_lm with
  | Str x => [x]
  | List_ l => flat_map (fun o => match o with Str x => [x] | _ => [] end) l
  | _ => []
  end.

Definition named (items : list value) : list string :=
  flat_map orbitals_of items.

(** A group as [expand_1] makes them: an orbital, or a list of at least one
    orbital. *)
Definition group (each_lm : value) : Prop :=
  match each_lm with
  | Str _ => True
  | List_ l => l <> [] /\ Forall (fun o => exists x, o = Str x) l
  | _ => False
  end.

Lemma expand_1_groups (s : string) : Forall group (expand_1 s).
Proof.
  assert (group (strs p_orbitals)) as Hp.
  { split; [discriminate|]. repeat constructor; eexists; reflexivity. }
  assert (group (strs d_orbitals)) as Hd.
  { split; [discriminate|]. repeat constructor; eexists; reflexivity. }
  assert (forall x, group (Str x)) as Hs by (intros; exact I).
  unfold expand_1.
  repeat match goal with
         | |- context [if ?b then _ else _] => destruct b
         end; repeat (apply Forall_cons; [auto|]); apply Forall_nil.
Qed.

Lemma index_from_bound (l : list string) (x : string) : forall n i,
  index_from n x l = Ok i -> (n <= i < n + length l)%nat.
Proof.
  induction l as [|y l IH]; intros n i; cbn; [discriminate|].
  destruct (String.eqb y x).
  - intros [= <-]. lia.
  - intros H. apply IH in H. lia.
Qed.

Section Floats.

Variable F : Type.
Variable fadd : F -> F -> F.
Variable fdiv : F -> F -> F.
Variable fzero : F.


(** [a[kpt][band]] is a vector of [n] entries. *)
Definition rows_of (n : nat) (a : list (list (list F))) : Prop :=
  Forall (Forall (fun v => length v = n)) a.

Lemma map2_length {A} (f : A -> A -> A) (a b : list A) :
  length (map2 f a b) = Nat.min (length a) (length b).
Proof. unfold map2. now rewrite length_map, length_combine. Qed.

Lemma sum_atoms_rows (n : nat) (a : list (list (list (list F)))) :
  Forall (Forall (Forall (fun v => length v = n))) a ->
  rows_of n (sum_atoms fadd fzero n a).
Proof.
  intros H. unfold rows_of, sum_atoms.
  apply Forall_map. eapply Forall_impl; [|exact H]. intros g Hg.
  apply Forall_map. eapply Forall_impl; [|exact Hg]. intros rows Hrows.
  assert (forall init, length init = n ->
                       length (fold_left (map2 fadd) rows init) = n) as G.
  { induction Hrows as [|r rows Hr _ IH]; intros init Hi; [exact Hi|].
    cbn. apply IH. rewrite map2_length, Hi, Hr. apply Nat.min_id. }
  apply G, repeat_length.
Qed.

Lemma column_total (n idx : nat) (a : list (list (list F))) :
  rows_of n a -> (idx < n)%nat -> exists g, Pband.column a idx = Ok g.
Proof.
  intros H Hi. unfold rows_of in H. unfold Pband.column. apply mapM_total. intros g Hg.
  apply mapM_total. intros v Hv.
  rewrite Forall_forall in H. specialize (H g Hg).
  rewrite Forall_forall in H. specialize (H v Hv).
  rewrite getitem_nat.
  destruct (nth_error v idx) eqn:E; [eauto|].
  apply nth_error_None in E. lia.
Qed.

(** One group: its array when all its orbitals are labels, ValueError
    (from [lm_list.index]) as soon as one is not. *)
Lemma projection_group (lm_list : list string) (a : list (list (list F)))
      (per_total : option (list (list F))) (each_lm : value) :
  rows_of (length lm_list) a -> group each_lm ->
  (forallb (fun o => mem o lm_list) (orbitals_of each_lm) = true ->
   exists g, Pband.projection fadd fdiv fzero lm_list a per_total each_lm = Ok (Sum g)) /\
  (forallb (fun o => mem o lm_list) (orbitals_of each_lm) = false ->
   Pband.projection fadd fdiv fzero lm_list a per_total each_lm = Raise ValueError).
Proof.
  intros Ha Hg. destruct each_lm as [| | |x|l]; try contradiction.
  - cbn [orbitals_of forallb]. rewrite andb_true_r. split; intros Hm.
    + destruct (index_from_Ok lm_list x 0 Hm) as (i & Hi).
      pose proof (index_from_bound _ _ _ _ Hi) as Hb.
      destruct (column_total _ i a Ha) as (g & Hc); [lia|].
      cbn [Pband.projection]. unfold index. rewrite Hi. cbn [bind].
      rewrite Hc. cbn [bind]. eauto.
    + cbn [Pband.projection]. unfold index.
      now rewrite (index_from_mem lm_list x 0 Hm).
  - destruct Hg as [Hne Hl]. cbn [orbitals_of Pband.projection].
    assert (forall acc,
      (forallb (fun o => mem o lm_list)
               (flat_map (fun o => match o with Str x => [x] | _ => [] end) l)
       = true ->
       exists r,
         foldM (fun proj_val orb =>
                  match orb with
                  | Str o =>
                      (idx_lm <- index lm_list o ;;
                       g <- Pband.column a idx_lm ;;
                       Ok (add_grid fadd fzero proj_val
                             (match per_total with
                              | Some total => grid_div fdiv g total
                              | None => g
                              end)))%py
                  | _ => Raise ValueError
                  end) l acc = Ok r /\
         (l <> [] \/ (exists g, acc = Sum g) -> exists g, r = Sum g)) /\
      (forallb (fun o => mem o lm_list)
               (flat_map (fun o => match o with Str x => [x] | _ => [] end) l)
       = false ->
       foldM (fun proj_val orb =>
                match orb with
                | Str o =>
                    (idx_lm <- index lm_list o ;;
                     g <- Pband.column a idx_lm ;;
                     Ok (add_grid fadd fzero proj_val
                           (match per_total with
                            | Some total => grid_div fdiv g total
                            | None => g
                            end)))%py
                | _ => Raise ValueError
                end) l acc = Raise ValueError)) as G.
    { clear Hne. induction Hl as [|o l [x ->] _ IH]; intros acc.
      - cbn. split; [|discriminate]. intros _. exists acc. split; [reflexivity|].
        intros [H | H]; [now elim H | exact H].
      - cbn [flat_map app forallb foldM]. split; intros Hm.
        + apply andb_prop in Hm as [Hx Hm].
          destruct (index_from_Ok lm_list x 0 Hx) as (i & Hi).
          pose proof (index_from_bound _ _ _ _ Hi) as Hb.
          destruct (column_total _ i a Ha) as (g & Hc); [lia|].
          unfold index. rewrite Hi. cbn [bind]. rewrite Hc. cbn [bind].
          destruct (IH (add_grid fadd fzero acc
                          (match per_total with
                           | Some total => grid_div fdiv g total
                           | None => g
                           end))) as [IH1 _].
          destruct (IH1 Hm) as (r & Hr & Hsum). exists r. split; [exact Hr|].
          intros _. apply Hsum. right. destruct acc; cbn; eauto.
        + apply andb_false_iff in Hm as [Hx | Hm].
          * unfold index. now rewrite (index_from_mem lm_list x 0 Hx).
          * destruct (mem x lm_list) eqn:Hx.
            -- destruct (index_from_Ok lm_list x 0 Hx) as (i & Hi).
               pose proof (index_from_bound _ _ _ _ Hi) as Hb.
               destruct (column_total _ i a Ha) as (g & Hc); [lia|].
               unfold index. rewrite Hi. cbn [bind]. rewrite Hc. cbn [bind].
               now apply IH.
            -- unfold index. now rewrite (index_from_mem lm_list x 0 Hx). }
    destruct (G (@Zero (grid F))) as [G1 G2]. split; [|exact G2].
    intros Hm. destruct (G1 Hm) as (r & Hr & Hsum).
    destruct Hsum as (g & ->); [now left|]. eauto.
Qed.

Lemma projections (lm_list : list string) (a : list (list (list F)))
      (per_total : option (list (list F))) (items : list value) :
  rows_of (length lm_list) a -> Forall group items ->
  (forallb (fun o => mem o lm_list) (named items) = true ->
   exists gs, mapM (Pband.projection fadd fdiv fzero lm_list a per_total) items = Ok (map (@Sum (grid F)) gs) /\
              length gs = length items) /\
  (forallb (fun o => mem o lm_list) (named items) = false ->
   mapM (Pband.projection fadd fdiv fzero lm_list a per_total) items = Raise ValueError).
Proof.
  intros Ha Hitems. induction Hitems as [|it items Hit _ IH].
  - cbn. split; [|discriminate]. intros _. exists []. now split.
  - unfold named in *. cbn [flat_map mapM]. rewrite forallb_app.
    destruct (projection_group lm_list a per_total it Ha Hit) as [P1 P2].
    destruct IH as [IH1 IH2]. split; intros Hm.
    + apply andb_prop in Hm as [H1 H2].
      destruct (P1 H1) as (g & ->). destruct (IH1 H2) as (gs & -> & L).
      exists (g :: gs). cbn. now rewrite L.
    + destruct (forallb (fun o => mem o lm_list) (orbitals_of it)) eqn:H1.
      * destruct (P1 eq_refl) as (g & ->). cbn in Hm. now rewrite (IH2 Hm).
      * now rewrite (P2 eq_refl).
Qed.

(** X7.  [_generate_pband] in style 1 with a str [lm] that passes the
    check (a label of [lm_list] or a shortcut), on projections that have
    one value per label.  The names 'p', 'd', 'sp', ... are always replaced
    by the groups of orbitals px, py, pz and dxy, dyz, dz2, dxz, dx2-y2,
    also when the name is itself a label of [lm_list]; whether these
    orbitals are labels is not checked.  The call returns one array per
    group when every orbital of the groups is in [lm_list], and raises the
    built-in ValueError of [lm_list.index] when one is not. *)
Theorem style_1_groups
        (one_run : bool) (atom lm_list : list string)
        (proj_wf : list (list (list (list F)))) (lm : string) :
  (mem lm lm_list || mem lm lm_shortcut_1)%bool = true ->
  Forall (Forall (Forall (fun v => length v = length lm_list))) proj_wf ->
  (forallb (fun o => mem o lm_list) (named (expand_1 lm)) = true ->
   exists gs,
     generate_pband fadd fdiv fzero one_run atom lm_list proj_wf 1 (Str lm)
     = Ok (Arr3 gs) /\
     length gs = length (expand_1 lm)) /\
  (forallb (fun o => mem o lm_list) (named (expand_1 lm)) = false ->
   generate_pband fadd fdiv fzero one_run atom lm_list proj_wf 1 (Str lm)
   = Raise ValueError).
Proof.
  intros Hok Hshape. unfold generate_pband. cbn [Z.eqb Pos.eqb].
  assert ((negb (mem lm lm_list) && negb (mem lm lm_shortcut_1))%bool = false)
    as -> by (rewrite <- negb_orb, Hok; reflexivity).
  cbn [bind].
  destruct (projections lm_list (sum_atoms fadd fzero (length lm_list) proj_wf)
              (Some (map (map (vsum fadd fzero))
                         (sum_atoms fadd fzero (length lm_list) proj_wf)))
              (expand_1 lm) (sum_atoms_rows _ _ Hshape) (expand_1_groups lm))
    as [P1 P2].
  split; intros Hm.
  - destruct (P1 Hm) as (gs & -> & L). cbn [bind]. exists gs.
    split; [|exact L]. unfold asarray.
    assert (forallb (fun p : running (grid F) =>
                       match p with Sum _ => true | Zero _ => false end)
                    (map (@Sum (grid F)) gs) = true) as ->
      by (clear; induction gs; cbn; auto).
    do 2 f_equal. clear. induction gs as [|g gs IH]; cbn; [reflexivity|].
    now rewrite IH.
  - now rewrite (P2 Hm).
Qed.

End Floats.

(** The labels of a run without the decomposition into px, py, ...: the
    default label 'spd' passes the check and fails at 'px'. *)
Lemma style_1_groups_witness :
  generate_pband Qplus Qdiv 0 true ["Ni"%string] ["s"; "p"; "d"]%string
                 [[[[1; 2; 3]]]] 1 (Str "spd") = Raise ValueError /\
  exists gs,
    generate_pband Qplus Qdiv 0 true ["Ni"%string] vasp_lm_list
                   [[[[1; 1; 1; 1; 1; 1; 1; 1; 1]]]] 1 (Str "spd")
    = Ok (Arr3 gs) /\ length gs = 3%nat.
Proof.
  split.
  - destruct (style_1_groups Q Qplus Qdiv 0 true ["Ni"%string]
                ["s"; "p"; "d"]%string [[[[1; 2; 3]]]] "spd" eq_refl)
      as [_ H].
    + repeat constructor.
    + apply H. reflexivity.
  - destruct (style_1_groups Q Qplus Qdiv 0 true ["Ni"%string]
                vasp_lm_list [[[[1; 1; 1; 1; 1; 1; 1; 1; 1]]]] "spd" eq_refl)
      as [H _].
    + repeat constructor.
    + apply H. reflexivity.
Defined.

End PbandGroups.

(** ** The angular functions in exact arithmetic *)

Module AngularFacts.
Import Py pywannier90 Exact RadiusFacts.
Local Open Scope R_scope.

(** *** Evaluating float expressions on real numbers *)

Lemma lit_Z (n : Z) : lit (inject_Z n) = Some (IZR n).
Proof. cbn. f_equal. unfold Q2R. cbn. field. Qed.

Lemma lit_Q (a : Z) (b : positive) : lit (a # b) = Some (IZR a / IZR (Zpos b)).
Proof. reflexivity. Qed.

Lemma add_Some (x y : R) : fadd (Some x) (Some y) = Some (x + y).
Proof. reflexivity. Qed.

Lemma sub_Some (x y : R) : fsub (Some x) (Some y) = Some (x - y).
Proof. reflexivity. Qed.

Lemma mul_Some (x y : R) : fmul (Some x) (Some y) = Some (x * y).
Proof. reflexivity. Qed.

Lemma neg_Some (x : R) : fneg (Some x) = Some (- x).
Proof. reflexivity. Qed.

Lemma cos_Some (x : R) : fcos (Some x) = Some (cos x).
Proof. reflexivity. Qed.

Lemma sin_Some (x : R) : fsin (Some x) = Some (sin x).
Proof. reflexivity. Qed.

Lemma sqrt_Some (x : R) : 0 <= x -> fsqrt (Some x) = Some (sqrt x).
Proof.
  intros H. cbn. unfold sqrt_. destruct (Rlt_dec x 0); [lra | reflexivity].
Qed.

Lemma powi_Some (x : R) (n : positive) :
  fpowi (Some x) (Zpos n) = Some (x ^ Pos.to_nat n).
Proof. reflexivity. Qed.

Lemma pi_Some : pi = Some PI.
Proof. reflexivity. Qed.

Lemma one_minus_sqr (c : R) : -1 <= c <= 1 -> 0 <= 1 - c ^ 2.
Proof. intros H. nra. Qed.

(** Rewrites a float expression over [Some] of reals into [Some] of a real
    expression; the side conditions (a divisor is not zero, the argument of
    a root is not negative) are left to [side]. *)
Ltac evaluate side :=
  repeat first
    [ rewrite pi_Some
    | rewrite lit_Z
    | rewrite lit_Q
    | rewrite add_Some
    | rewrite sub_Some
    | rewrite mul_Some
    | rewrite neg_Some
    | rewrite cos_Some
    | rewrite sin_Some
    | rewrite powi_Some
    | rewrite div_Some by side
    | rewrite sqrt_Some by side ].

Ltac side_ok :=
  pose proof PI_RGT_0;
  repeat match goal with
         | |- _ <> _ => apply Rgt_not_eq
         | |- _ > _ => apply Rlt_gt
         | |- 0 < sqrt _ => apply sqrt_lt_R0
         | |- 0 <= sqrt _ => apply sqrt_pos
         | |- 0 <= _ / _ => apply Rlt_le
         | |- 0 < _ / _ => apply Rdiv_lt_0_compat
         | |- 0 < _ * _ => apply Rmult_lt_0_compat
         | |- 0 <= 1 - _ ^ _ => apply one_minus_sqr; assumption
         end; try lra.

(** [sin(theta)] as [theta] computes it from [cos(theta)]. *)
Definition sint (c : R) : R := sqrt (1 - c ^ 2).

Lemma lit_Q1 (a : Z) : lit (a # 1) = Some (IZR a).
Proof. cbn. f_equal. unfold Q2R. cbn. field. Qed.

Ltac theta_at_point :=
  intros;
  cbn [theta String.eqb Ascii.eqb Bool.eqb map length Nat.eqb
       zip_with combine fst snd];
  rewrite ?lit_Q1; evaluate side_ok; reflexivity.

(** The sixteen functions of [theta] at one point of the grid. *)
Lemma theta_s (c p : R) :
  theta "s" [Some c] [Some p] = Ok [Some (1 / sqrt (4 * PI) * 1)].
Proof. theta_at_point. Qed.

Lemma theta_pz (c p : R) :
  theta "pz" [Some c] [Some p] = Ok [Some (sqrt (3 / 4 / PI) * c)].
Proof. theta_at_point. Qed.

Lemma theta_px (c p : R) : -1 <= c <= 1 ->
  theta "px" [Some c] [Some p] = Ok [Some (sqrt (3 / 4 / PI) * sint c * cos p)].
Proof. theta_at_point. Qed.

Lemma theta_py (c p : R) : -1 <= c <= 1 ->
  theta "py" [Some c] [Some p] = Ok [Some (sqrt (3 / 4 / PI) * sint c * sin p)].
Proof. theta_at_point. Qed.

Lemma theta_dz2 (c p : R) :
  theta "dz2" [Some c] [Some p] =
  Ok [Some (sqrt (5 / 16 / PI) * (3 * c ^ 2 - 1))].
Proof. theta_at_point. Qed.

Lemma theta_dxz (c p : R) : -1 <= c <= 1 ->
  theta "dxz" [Some c] [Some p] =
  Ok [Some (sqrt (15 / 4 / PI) * sint c * c * cos p)].
Proof. theta_at_point. Qed.

Lemma theta_dyz (c p : R) : -1 <= c <= 1 ->
  theta "dyz" [Some c] [Some p] =
  Ok [Some (sqrt (15 / 4 / PI) * sint c * c * sin p)].
Proof. theta_at_point. Qed.

Lemma theta_dx2y2 (c p : R) : -1 <= c <= 1 ->
  theta "dx2-y2" [Some c] [Some p] =
  Ok [Some (sqrt (15 / 16 / PI) * sint c ^ 2 * cos (2 * p))].
Proof. theta_at_point. Qed.

Lemma theta_pxy (c p : R) : -1 <= c <= 1 ->
  theta "pxy" [Some c] [Some p] =
  Ok [Some (sqrt (15 / 16 / PI) * sint c ^ 2 * sin (2 * p))].
Proof. theta_at_point. Qed.

Lemma theta_fz3 (c p : R) :
  theta "fz3" [Some c] [Some p] =
  Ok [Some (sqrt 7 / 4 / sqrt PI * (5 * c ^ 3 - 3 * c))].
Proof. theta_at_point. Qed.

Lemma theta_fxz2 (c p : R) : -1 <= c <= 1 ->
  theta "fxz2" [Some c] [Some p] =
  Ok [Some (sqrt 21 / 4 / sqrt (2 * PI) * (5 * c ^ 2 - 1) * sint c * cos p)].
Proof. theta_at_point. Qed.

Lemma theta_fyz2 (c p : R) : -1 <= c <= 1 ->
  theta "fyz2" [Some c] [Some p] =
  Ok [Some (sqrt 21 / 4 / sqrt (2 * PI) * (5 * c ^ 2 - 1) * sint c * sin p)].
Proof. theta_at_point. Qed.

Lemma theta_fzx2y2 (c p : R) : -1 <= c <= 1 ->
  theta "fz(x2-y2)" [Some c] [Some p] =
  Ok [Some (sqrt 105 / 4 / sqrt PI * sint c ^ 2 * c * cos (2 * p))].
Proof. theta_at_point. Qed.

Lemma theta_fxyz (c p : R) : -1 <= c <= 1 ->
  theta "fxyz" [Some c] [Some p] =
  Ok [Some (sqrt 105 / 4 / sqrt PI * sint c ^ 2 * c * sin (2 * p))].
Proof. theta_at_point. Qed.

Lemma theta_fxx23y2 (c p : R) : -1 <= c <= 1 ->
  theta "fx(x2-3y2)" [Some c] [Some p] =
  Ok [Some (sqrt 35 / 4 / sqrt (2 * PI) * sint c ^ 3
            * (cos p ^ 2 - 3 * sin p ^ 2) * cos p)].
Proof. theta_at_point. Qed.

Lemma theta_fy3x2y2 (c p : R) : -1 <= c <= 1 ->
  theta "fy(3x2-y2)" [Some c] [Some p] =
  Ok [Some (sqrt 35 / 4 / sqrt (2 * PI) * sint c ^ 3
            * (3 * cos p ^ 2 - sin p ^ 2) * sin p)].
Proof. theta_at_point. Qed.

(** *** Sums of squares *)

(** The value of an angular function at one point of the grid, given by
    [cos(theta)] and [phi]; and the sum of the squares of several. *)
Definition at_point
           (f : list (option R) -> list (option R) -> result (list (option R)))
           (c p : R) : option R :=
  match f [Some c] [Some p] with
  | Ok (Some v :: nil) => Some v
  | _ => None
  end.

Definition sum_squares
           (fs : list (list (option R) -> list (option R) ->
                       result (list (option R))))
           (c p : R) : option R :=
  fold_right (fun f acc =>
                match at_point f c p, acc with
                | Some v, Some a => Some (v * v + a)
                | _, _ => None
                end) (Some 0) fs.

Lemma sint_sqr (c : R) : -1 <= c <= 1 -> sint c * sint c = 1 - c * c.
Proof.
  intros H. unfold sint. rewrite sqrt_sqrt by nra. ring.
Qed.

Lemma coefficient_sqr (a b : R) :
  0 <= a -> 0 < b -> sqrt (a / b) * sqrt (a / b) = a * / b.
Proof.
  intros Ha Hb. rewrite sqrt_sqrt; [reflexivity|].
  apply Rmult_le_pos; [assumption|]. apply Rlt_le, Rinv_0_lt_compat, Hb.
Qed.

Lemma coefficient_sqr' (a b : R) :
  0 <= a -> 0 < b ->
  (sqrt a / 4 / sqrt b) * (sqrt a / 4 / sqrt b) = a / 16 * / b.
Proof.
  intros Ha Hb.
  assert (sqrt b <> 0) as Hs by (apply Rgt_not_eq, sqrt_lt_R0, Hb).
  replace (sqrt a / 4 / sqrt b * (sqrt a / 4 / sqrt b))
    with ((sqrt a * sqrt a) / 16 / (sqrt b * sqrt b)) by (field; exact Hs).
  rewrite !sqrt_sqrt by lra. reflexivity.
Qed.

Lemma trig_sqr (p : R) : cos p * cos p + sin p * sin p = 1.
Proof. pose proof (sin2_cos2 p) as H. unfold Rsqr in H. lra. Qed.

(** X8.  Unsoeld's sum rule, which checks the coefficients of [theta]
    against one another: at every point (cos(theta) in [-1, 1], any phi)
    the squares of the three p functions add up to 3/(4 pi), those of the
    five d functions to 5/(4 pi), and those of the seven f functions to
    7/(4 pi).  The function that [theta] calls 'pxy' is dxy. *)
Theorem theta_sum_rule (c p : R) :
  -1 <= c <= 1 ->
  sum_squares (map theta ["pz"; "px"; "py"]%string) c p = Some (3 / (4 * PI)) /\
  sum_squares (map theta ["dz2"; "dxz"; "dyz"; "dx2-y2"; "pxy"]%string) c p
  = Some (5 / (4 * PI)) /\
  sum_squares (map theta ["fz3"; "fxz2"; "fyz2"; "fz(x2-y2)"; "fxyz";
                          "fx(x2-3y2)"; "fy(3x2-y2)"]%string) c p
  = Some (7 / (4 * PI)).
Proof.
  intros Hc. pose proof PI_RGT_0 as Hpi.
  pose proof (sint_sqr c Hc) as HS. pose proof (trig_sqr p) as HT.
  assert (PI <> 0) as Hpi0 by lra.
  unfold sum_squares, at_point. cbn [map fold_right].
  rewrite theta_pz, theta_px, theta_py, theta_dz2, theta_dxz, theta_dyz,
    theta_dx2y2, theta_pxy, theta_fz3, theta_fxz2, theta_fyz2, theta_fzx2y2,
    theta_fxyz, theta_fxx23y2, theta_fy3x2y2 by assumption.
  rewrite cos_2a, sin_2a.
  set (S := sint c) in *. set (cp := cos p) in *. set (sp := sin p) in *.
  set (q := / PI).
  split; [|split]; f_equal.
  - pose proof (coefficient_sqr (3 / 4) PI ltac:(lra) Hpi) as HA.
    fold q in HA.
    replace (3 / (4 * PI)) with (3 / 4 * q) by (unfold q; field; exact Hpi0).
    set (A := sqrt (3 / 4 / PI)) in *. clearbody A S cp sp q.
    transitivity (A * A * (c * c + S * S * (cp * cp + sp * sp))); [ring|].
    rewrite HA, HS, HT. field.
  - pose proof (coefficient_sqr (5 / 16) PI ltac:(lra) Hpi) as HA.
    pose proof (coefficient_sqr (15 / 4) PI ltac:(lra) Hpi) as HB.
    pose proof (coefficient_sqr (15 / 16) PI ltac:(lra) Hpi) as HC.
    fold q in HA, HB, HC.
    replace (5 / (4 * PI)) with (5 / 4 * q) by (unfold q; field; exact Hpi0).
    set (A := sqrt (5 / 16 / PI)) in *. set (B := sqrt (15 / 4 / PI)) in *.
    set (C := sqrt (15 / 16 / PI)) in *.
    clearbody A B C S cp sp q.
    transitivity (A * A * (3 * c ^ 2 - 1) ^ 2
                  + B * B * (S * S) * c ^ 2 * (cp * cp + sp * sp)
                  + C * C * (S * S) ^ 2 * (cp * cp + sp * sp) ^ 2); [ring|].
    rewrite HA, HB, HC, HS, HT. field.
  - pose proof (coefficient_sqr' 7 PI ltac:(lra) Hpi) as HA.
    pose proof (coefficient_sqr' 21 (2 * PI) ltac:(lra) ltac:(lra)) as HB.
    pose proof (coefficient_sqr' 105 PI ltac:(lra) Hpi) as HC.
    pose proof (coefficient_sqr' 35 (2 * PI) ltac:(lra) ltac:(lra)) as HD.
    replace (/ (2 * PI)) with (q / 2) in * by (unfold q; field; exact Hpi0).
    fold q in HA, HC.
    replace (7 / (4 * PI)) with (7 / 4 * q) by (unfold q; field; exact Hpi0).
    set (A := sqrt 7 / 4 / sqrt PI) in *.
    set (B := sqrt 21 / 4 / sqrt (2 * PI)) in *.
    set (C := sqrt 105 / 4 / sqrt PI) in *.
    set (D := sqrt 35 / 4 / sqrt (2 * PI)) in *.
    clearbody A B C D S cp sp q.
    transitivity (A * A * (5 * c ^ 3 - 3 * c) ^ 2
                  + B * B * (5 * c ^ 2 - 1) ^ 2 * (S * S) * (cp * cp + sp * sp)
                  + C * C * (S * S) ^ 2 * c ^ 2 * (cp * cp + sp * sp) ^ 2
                  + D * D * (S * S) ^ 3 * (cp * cp + sp * sp) ^ 3);
      [ring|].
    rewrite HA, HB, HC, HD, HS, HT. field.
Qed.

Lemma theta_sum_rule_witness :
  sum_squares (map theta ["pz"; "px"; "py"]%string) 0 0 = Some (3 / (4 * PI)).
Proof.
  destruct (theta_sum_rule 0 0) as [H _]; [lra | exact H].
Defined.

(** *** The hybrids *)

Lemma inv_sqrt_sqr (a : R) : 0 < a -> 1 / sqrt a * (1 / sqrt a) = / a.
Proof.
  intros Ha.
  assert (sqrt a <> 0) as Hs by (apply Rgt_not_eq, sqrt_lt_R0, Ha).
  replace (1 / sqrt a * (1 / sqrt a)) with (/ (sqrt a * sqrt a))
    by (field; exact Hs).
  now rewrite sqrt_sqrt by lra.
Qed.

Lemma two_over_sqrt_6 : 2 / sqrt 6 = 2 * (1 / sqrt 6).
Proof. unfold Rdiv. ring. Qed.

Lemma inv_sqrt_12 : 1 / sqrt 12 = 1 / sqrt 3 / 2.
Proof.
  replace 12 with (3 * (2 * 2)) by ring.
  rewrite sqrt_mult by lra. rewrite sqrt_square by lra.
  assert (sqrt 3 <> 0) as Hs by (apply Rgt_not_eq, sqrt_lt_R0; lra).
  field. exact Hs.
Qed.

(** The values of s, px, py, pz, dz2 and dx2-y2 at a point. *)
Definition Ys : R := 1 / sqrt (4 * PI) * 1.
Definition Ypz (c : R) : R := sqrt (3 / 4 / PI) * c.
Definition Ypx (c p : R) : R := sqrt (3 / 4 / PI) * sint c * cos p.
Definition Ypy (c p : R) : R := sqrt (3 / 4 / PI) * sint c * sin p.
Definition Ydz2 (c : R) : R := sqrt (5 / 16 / PI) * (3 * c ^ 2 - 1).
Definition Ydx2y2 (c p : R) : R :=
  sqrt (15 / 16 / PI) * sint c ^ 2 * cos (2 * p).

Ltac hybrid_at_point :=
  cbn [bind map zip_with combine fst snd];
  rewrite ?lit_Q1; evaluate side_ok; reflexivity.

Lemma sp_at (plus : bool) (c p : R) : -1 <= c <= 1 ->
  sp_ plus [Some c] [Some p] =
  Ok [Some (1 / sqrt 2 * (if plus then Ys + Ypx c p else Ys - Ypx c p))].
Proof.
  intros Hc. unfold sp_. rewrite theta_s, theta_px by assumption.
  destruct plus; hybrid_at_point.
Qed.

Lemma sp2_like_at (sign : bool) (c p : R) : -1 <= c <= 1 ->
  sp2_like (lit 1 / fsqrt (lit 3))%fl (lit 1 / fsqrt (lit 6))%fl
           (lit 1 / fsqrt (lit 2))%fl sign [Some c] [Some p] =
  Ok [Some (if sign
            then 1 / sqrt 3 * Ys - 1 / sqrt 6 * Ypx c p + 1 / sqrt 2 * Ypy c p
            else 1 / sqrt 3 * Ys - 1 / sqrt 6 * Ypx c p - 1 / sqrt 2 * Ypy c p)].
Proof.
  intros Hc. unfold sp2_like.
  rewrite theta_s, theta_px, theta_py by assumption.
  destruct sign; hybrid_at_point.
Qed.

Lemma sp2_third_at (c p : R) : -1 <= c <= 1 ->
  sp2_third [Some c] [Some p] =
  Ok [Some (1 / sqrt 3 * Ys + 2 / sqrt 6 * Ypx c p)].
Proof.
  intros Hc. unfold sp2_third. rewrite theta_s, theta_px by assumption.
  hybrid_at_point.
Qed.

Definition signed (plus : bool) (a b : R) : R := if plus then a + b else a - b.

Lemma sp3_at (s_px s_py s_pz : bool) (c p : R) : -1 <= c <= 1 ->
  sp3 s_px s_py s_pz [Some c] [Some p] =
  Ok [Some (1 / 2 * signed s_pz (signed s_py (signed s_px Ys (Ypx c p))
                                        (Ypy c p)) (Ypz c))].
Proof.
  intros Hc. unfold sp3.
  rewrite theta_s, theta_px, theta_py, theta_pz by assumption.
  destruct s_px, s_py, s_pz; hybrid_at_point.
Qed.

Lemma sp3d2_x_at (plus_p plus_d : bool) (c p : R) : -1 <= c <= 1 ->
  sp3d2_xy "px" plus_p plus_d [Some c] [Some p] =
  Ok [Some (signed plus_d
              (signed plus_p (1 / sqrt 6 * Ys) (1 / sqrt 2 * Ypx c p)
               - 1 / sqrt 12 * Ydz2 c)
              (1 / 2 * Ydx2y2 c p))].
Proof.
  intros Hc. unfold sp3d2_xy.
  rewrite theta_s, theta_px, theta_dz2, theta_dx2y2 by assumption.
  destruct plus_p, plus_d; hybrid_at_point.
Qed.

Lemma sp3d2_y_at (plus_p plus_d : bool) (c p : R) : -1 <= c <= 1 ->
  sp3d2_xy "py" plus_p plus_d [Some c] [Some p] =
  Ok [Some (signed plus_d
              (signed plus_p (1 / sqrt 6 * Ys) (1 / sqrt 2 * Ypy c p)
               - 1 / sqrt 12 * Ydz2 c)
              (1 / 2 * Ydx2y2 c p))].
Proof.
  intros Hc. unfold sp3d2_xy.
  rewrite theta_s, theta_py, theta_dz2, theta_dx2y2 by assumption.
  destruct plus_p, plus_d; hybrid_at_point.
Qed.

Lemma sp3d2_z_at (plus_p : bool) (c p : R) :
  sp3d2_z plus_p [Some c] [Some p] =
  Ok [Some (signed plus_p (1 / sqrt 6 * Ys) (1 / sqrt 2 * Ypz c)
            + 1 / sqrt 3 * Ydz2 c)].
Proof.
  unfold sp3d2_z. rewrite theta_s, theta_pz, theta_dz2.
  destruct plus_p; hybrid_at_point.
Qed.

(** X9.  The hybrid functions of [theta_lmr] are orthonormal
    recombinations of the functions they are built from: at every point,
    the squares of sp-1 and sp-2 add up to s^2 + px^2, those of sp2-1..3 to
    s^2 + px^2 + py^2, those of sp3-1..4 to s^2 + px^2 + py^2 + pz^2, and
    those of sp3d2-1..6 to s^2 + px^2 + py^2 + pz^2 + dz2^2 + dx2-y2^2. *)
Theorem hybrids_keep_sum_of_squares (c p : R) :
  -1 <= c <= 1 ->
  (exists v,
     sum_squares (map (theta_lmr (-1)) [1; 2]%Z) c p = Some v /\
     sum_squares (map theta ["s"; "px"]%string) c p = Some v) /\
  (exists v,
     sum_squares (map (theta_lmr (-2)) [1; 2; 3]%Z) c p = Some v /\
     sum_squares (map theta ["s"; "px"; "py"]%string) c p = Some v) /\
  (exists v,
     sum_squares (map (theta_lmr (-3)) [1; 2; 3; 4]%Z) c p = Some v /\
     sum_squares (map theta ["s"; "px"; "py"; "pz"]%string) c p = Some v) /\
  (exists v,
     sum_squares (map (theta_lmr (-5)) [1; 2; 3; 4; 5; 6]%Z) c p = Some v /\
     sum_squares (map theta ["s"; "px"; "py"; "pz"; "dz2"; "dx2-y2"]%string)
                 c p = Some v).
Proof.
  intros Hc.
  pose proof (inv_sqrt_sqr 2 ltac:(lra)) as H2.
  pose proof (inv_sqrt_sqr 3 ltac:(lra)) as H3.
  pose proof (inv_sqrt_sqr 6 ltac:(lra)) as H6.
  pose proof inv_sqrt_12 as H12.
  unfold sum_squares, at_point. cbn [map fold_right].
  change (theta_lmr (-1) 1 [Some c] [Some p]) with (sp_ true [Some c] [Some p]).
  change (theta_lmr (-1) 2 [Some c] [Some p]) with (sp_ false [Some c] [Some p]).
  change (theta_lmr (-2) 1 [Some c] [Some p])
    with (sp2_like (lit 1 / fsqrt (lit 3))%fl (lit 1 / fsqrt (lit 6))%fl
                   (lit 1 / fsqrt (lit 2))%fl true [Some c] [Some p]).
  change (theta_lmr (-2) 2 [Some c] [Some p])
    with (sp2_like (lit 1 / fsqrt (lit 3))%fl (lit 1 / fsqrt (lit 6))%fl
                   (lit 1 / fsqrt (lit 2))%fl false [Some c] [Some p]).
  change (theta_lmr (-2) 3 [Some c] [Some p])
    with (sp2_third [Some c] [Some p]).
  change (theta_lmr (-3) 1 [Some c] [Some p])
    with (sp3 true true true [Some c] [Some p]).
  change (theta_lmr (-3) 2 [Some c] [Some p])
    with (sp3 true false false [Some c] [Some p]).
  change (theta_lmr (-3) 3 [Some c] [Some p])
    with (sp3 false true false [Some c] [Some p]).
  change (theta_lmr (-3) 4 [Some c] [Some p])
    with (sp3 false false true [Some c] [Some p]).
  change (theta_lmr (-5) 1 [Some c] [Some p])
    with (sp3d2_xy "px" false true [Some c] [Some p]).
  change (theta_lmr (-5) 2 [Some c] [Some p])
    with (sp3d2_xy "px" true true [Some c] [Some p]).
  change (theta_lmr (-5) 3 [Some c] [Some p])
    with (sp3d2_xy "py" false false [Some c] [Some p]).
  change (theta_lmr (-5) 4 [Some c] [Some p])
    with (sp3d2_xy "py" true false [Some c] [Some p]).
  change (theta_lmr (-5) 5 [Some c] [Some p])
    with (sp3d2_z false [Some c] [Some p]).
  change (theta_lmr (-5) 6 [Some c] [Some p])
    with (sp3d2_z true [Some c] [Some p]).
  rewrite !sp_at, !sp2_like_at, sp2_third_at, !sp3_at, !sp3d2_x_at,
    !sp3d2_y_at, !sp3d2_z_at by assumption.
  rewrite theta_s, theta_px, theta_py, theta_pz, theta_dz2, theta_dx2y2
    by assumption.
  fold Ys (Ypx c p) (Ypy c p) (Ypz c) (Ydz2 c) (Ydx2y2 c p).
  unfold signed. rewrite two_over_sqrt_6, H12.
  set (s := Ys). set (x := Ypx c p). set (y := Ypy c p). set (z := Ypz c).
  set (d := Ydz2 c). set (e := Ydx2y2 c p).
  set (r2 := 1 / sqrt 2) in *. set (r3 := 1 / sqrt 3) in *.
  set (r6 := 1 / sqrt 6) in *.
  clearbody s x y z d e r2 r3 r6. clear Hc H12.
  repeat split; eexists; (split; [reflexivity|]); f_equal; symmetry.
  - transitivity ((r2 * r2) * 2 * (s * s + x * x)); [ring|].
    rewrite H2; field.
  - transitivity (s * s * (3 * (r3 * r3)) + x * x * (6 * (r6 * r6))
                  + y * y * (2 * (r2 * r2))); [ring|].
    rewrite H2, H3, H6; field.
  - field.
  - transitivity (s * s * (6 * (r6 * r6))
                  + (x * x + y * y + z * z) * (2 * (r2 * r2))
                  + d * d * (3 * (r3 * r3)) + e * e); [field|].
    rewrite H2, H3, H6; field.
Qed.

Lemma hybrids_keep_sum_of_squares_witness :
  exists v,
    sum_squares (map (theta_lmr (-3)) [1; 2; 3; 4]%Z) 0 0 = Some v /\
    sum_squares (map theta ["s"; "px"; "py"; "pz"]%string) 0 0 = Some v.
Proof.
  destruct (hybrids_keep_sum_of_squares 0 0) as (_ & _ & H & _);
    [lra | exact H].
Defined.

End AngularFacts.


(** ** transform: the frame of a projection *)

Module FrameFacts.
Import Py pywannier90 Exact RadiusFacts.
Local Open Scope R_scope.

(** The determinant of the matrix with rows [a], [b], [c]. *)
Definition det3 (a b c : R3) : R := dotR a (crossR b c).

Lemma scale_inv_zero (a : R3) :
  scale_inv (pt a) (Some 0) = (None, None, None).
Proof.
  destruct a as [[a1 a2] a3]. unfold scale_inv. cbn [pt point vx vy vz fst snd].
  now rewrite !div_zero.
Qed.

Lemma dot_None_l (v : vec (F := option R)) : dot (None, None, None) v = None.
Proof. reflexivity. Qed.

Lemma dot_None_r (a : R3) : dot (pt a) (None, None, None) = None.
Proof. destruct a as [[a1 a2] a3]. reflexivity. Qed.

(** A zero axis is divided by its norm 0: every coordinate is nan, the
    scalar product is nan, and the assert fails. *)
Lemma transform_zero_axis (x z : R3) :
  normR x = 0 \/ normR z = 0 ->
  transform (pt x) (pt z) = Raise AssertionError.
Proof.
  intros H0. unfold transform. rewrite !norm_pt.
  destruct (Req_dec_T (normR x) 0) as [Hx|Hx].
  { rewrite Hx, scale_inv_zero. reflexivity. }
  destruct H0 as [H0|Hz]; [contradiction|].
  rewrite (scale_inv_pt x) by assumption.
  rewrite Hz, scale_inv_zero, dot_None_r. reflexivity.
Qed.

(** Axes whose normalised scalar product is a number other than 0. *)
Lemma transform_not_orthogonal (x z : R3) :
  normR x <> 0 -> normR z <> 0 -> dotR (unitR x) (unitR z) <> 0 ->
  transform (pt x) (pt z) = Raise AssertionError.
Proof.
  intros Hx Hz Hno. unfold transform. rewrite !norm_pt.
  rewrite (scale_inv_pt x), (scale_inv_pt z) by assumption.
  change (pt (let '(a1, a2, a3) := x in (a1 / normR x, a2 / normR x, a3 / normR x)))
    with (pt (unitR x)).
  change (pt (let '(a1, a2, a3) := z in (a1 / normR z, a2 / normR z, a3 / normR z)))
    with (pt (unitR z)).
  rewrite dot_pt, lit_0.
  assert (feqb (Some (dotR (unitR x) (unitR z))) (Some 0) = false) as ->.
  { cbn. unfold eqb. destruct (Req_dec_T _ 0) as [H0|H0]; [|reflexivity].
    contradiction. }
  reflexivity.
Qed.

(** The frame of two orthogonal unit vectors [a], [c] and [a /\ c]. *)
Lemma left_handed_frame (a c : R3) :
  dotR a a = 1 -> dotR c c = 1 -> dotR a c = 0 ->
  let b := crossR a c in
  dotR b b = 1 /\ dotR a b = 0 /\ dotR b c = 0 /\ det3 a b c = -1.
Proof.
  intros Ua Uc Hac b. subst b.
  split; [rewrite cross_sqr, Ua, Uc, Hac; ring|].
  revert Ua Uc Hac. destruct a as [[a1 a2] a3], c as [[c1 c2] c3].
  unfold det3. cbn [dotR crossR]. intros Ua Uc Hac.
  split; [ring|]. split; [ring|].
  transitivity (- ((a1 * a1 + a2 * a2 + a3 * a3) * (c1 * c1 + c2 * c2 + c3 * c3)
                   - (a1 * c1 + a2 * c2 + a3 * c3) * (a1 * c1 + a2 * c2 + a3 * c3)));
    [ring|].
  rewrite Ua, Uc, Hac. ring.
Qed.

(** X10.  [transform] on real axes, in exact arithmetic.  Whenever it
    returns, both axes are non-zero, and the rows of the matrix returned are
    the unit vector along [x_vec], the vector product of the first and the
    third row, and the unit vector along [z_vec]: they are orthonormal, and
    their determinant is -1, since the second row is
    [np.cross(x_vec, z_vec)] and not [np.cross(z_vec, x_vec)]: the frame is
    left-handed.  When one of the axes is zero, the division by its norm
    gives nan, which is not equal to 0, and the assert fails.  Nothing is
    said on which non-zero axes pass the assert: the code tests the rounded
    scalar product, which can differ from 0 for orthogonal axes. *)
Theorem transform_left_handed (x z : R3) :
  (forall T, transform (pt x) (pt z) = Ok T ->
     normR x <> 0 /\ normR z <> 0 /\
     exists a b c,
       T = (pt a, pt b, pt c) /\
       a = unitR x /\ b = crossR a c /\ c = unitR z /\
       dotR a a = 1 /\ dotR b b = 1 /\ dotR c c = 1 /\
       dotR a b = 0 /\ dotR a c = 0 /\ dotR b c = 0 /\
       det3 a b c = -1) /\
  (normR x = 0 \/ normR z = 0 ->
   transform (pt x) (pt z) = Raise AssertionError).
Proof.
  split; [|apply transform_zero_axis].
  intros T HT.
  destruct (Req_dec_T (normR x) 0) as [Hx|Hx].
  { rewrite transform_zero_axis in HT by (left; exact Hx). discriminate. }
  destruct (Req_dec_T (normR z) 0) as [Hz|Hz].
  { rewrite transform_zero_axis in HT by (right; exact Hz). discriminate. }
  destruct (Req_dec_T (dotR (unitR x) (unitR z)) 0) as [Hxz|Hxz].
  2:{ rewrite transform_not_orthogonal in HT by assumption. discriminate. }
  rewrite transform_exact in HT by (repeat split; assumption).
  injection HT as <-.
  split; [exact Hx|]. split; [exact Hz|].
  pose proof (normR_unit x Hx) as Ux. pose proof (normR_unit z Hz) as Uz.
  destruct (left_handed_frame _ _ Ux Uz Hxz) as (Hb & Hab & Hbc & Hd).
  exists (unitR x), (crossR (unitR x) (unitR z)), (unitR z).
  repeat split; assumption.
Qed.

Lemma unitR_of_unit (a : R3) : dotR a a = 1 -> unitR a = a.
Proof.
  intros H. pose proof (normR_of_unit a H) as Hn.
  destruct a as [[a1 a2] a3]. unfold unitR. rewrite Hn.
  f_equal; [f_equal|]; field.
Qed.

Lemma transform_default_axes :
  transform (pt (1, 0, 0)) (pt (0, 0, 1)) =
  Ok (pt (1, 0, 0), pt (0, -1, 0), pt (0, 0, 1)).
Proof.
  rewrite (transform_exact _ _ default_axes_ok).
  rewrite !unitR_of_unit by (cbn; ring).
  cbn [crossR].
  replace (0 * 1 - 0 * 0) with 0 by ring.
  replace (0 * 0 - 1 * 1) with (-1) by ring.
  replace (1 * 0 - 0 * 0) with 0 by ring.
  reflexivity.
Qed.

(** With the default axes of [g_r], x = [1,0,0] and z = [0,0,1], the call
    returns the matrix diag(1, -1, 1): the second coordinate changes
    sign. *)
Lemma transform_left_handed_witness :
  transform (pt (1, 0, 0)) (pt (0, 0, 1)) =
    Ok (pt (1, 0, 0), pt (0, -1, 0), pt (0, 0, 1)) /\
  exists a b c,
    (pt (1, 0, 0), pt (0, -1, 0), pt (0, 0, 1)) = (pt a, pt b, pt c) /\
    det3 a b c = -1.
Proof.
  split; [exact transform_default_axes|].
  destruct (transform_left_handed (1, 0, 0) (0, 0, 1)) as [H _].
  destruct (H _ transform_default_axes)
    as (_ & _ & a & b & c & Ht & _ & _ & _ & _ & _ & _ & _ & _ & _ & Hd).
  exists a, b, c. split; assumption.
Defined.

End FrameFacts.


(** ** g_r: the p functions in Cartesian form *)

Module CartesianFacts.
Import Py pywannier90 Exact RadiusFacts AngularFacts.
Local Open Scope R_scope.

(** The coordinates of [v] in the frame that [transform] returns. *)
Definition local (x z v : R3) : R3 :=
  (dotR v (unitR x), dotR v (crossR (unitR x) (unitR z)), dotR v (unitR z)).

(** The angle [phi] that [g_r] computes for a vector of the frame. *)
Definition azimuth (v : R3) : R :=
  let '(v1, v2, _) := v in
  if Rlt_dec eps v1 then atan (v2 / v1)
  else if Rlt_dec v1 (- eps) then atan (v2 / v1) + PI
  else (if Rlt_dec v2 0 then -1 else if Rlt_dec 0 v2 then 1 else 0)
       * (1 / 2) * PI.

Lemma eps_pos : 0 < eps.
Proof. rewrite eps_value. lra. Qed.

Lemma phi_of_pt (v : R3) : phi_of (pt v) = Some (azimuth v).
Proof.
  destruct v as [[v1 v2] v3]. unfold phi_of, azimuth.
  cbn [pt point vx vy vz fst snd].
  pose proof eps_pos as He.
  change (lit (1 # 100000000)) with (Some eps).
  cbn [fltb fneg exact ltb lift1].
  destruct (Rlt_dec eps v1) as [H1|H1].
  - cbn [farctan exact]. rewrite div_Some by lra. reflexivity.
  - destruct (Rlt_dec v1 (- eps)) as [H2|H2].
    + cbn [farctan exact]. rewrite div_Some by lra. reflexivity.
    + cbn [fsign exact sign].
      destruct (Rlt_dec v2 0); [|destruct (Rlt_dec 0 v2)];
        cbn; do 2 f_equal; unfold Q2R; cbn; lra.
Qed.

Lemma frame_far (grids : list R3) (site x z : R3) :
  axes_ok x z ->
  (forall p, In p grids -> ~ near site p) ->
  frame (map pt grids) (pt site) (pt x) (pt z) =
  Ok (map (fun p => pt (local x z (subR p site))) grids,
      map (fun p => Some (normR (subR p site))) grids).
Proof.
  intros Hax Hfar. unfold frame. rewrite (transform_exact x z Hax). cbn [bind].
  rewrite !map_map.
  assert (map (fun p => norm (rotate (pt (unitR x), pt (crossR (unitR x) (unitR z)),
                                     pt (unitR z)) (sub_vec (pt p) (pt site)))) grids
          = map (fun p => Some (normR (subR p site))) grids) as ->.
  { apply map_ext. intros p. now rewrite sub_vec_pt, norm_rotate. }
  destruct (existsb _ _) eqn:Hany.
  - apply any_near in Hany as (p & Hp & Hn). exfalso. exact (Hfar p Hp Hn).
  - do 2 f_equal. apply map_ext. intros p.
    now rewrite sub_vec_pt, rotate_pt.
Qed.

Lemma zip_with_map {A : Type} (f : option R -> option R -> option R)
      (g h : A -> option R) (l : list A) :
  zip_with f (map g l) (map h l) = map (fun q => f (g q) (h q)) l.
Proof.
  unfold zip_with. induction l as [|q l IH]; [reflexivity|].
  cbn [map combine fst snd]. f_equal. exact IH.
Qed.

(** The length of a vector in the frame. *)
Lemma local_norm (x z v : R3) :
  axes_ok x z ->
  let '(v1, v2, v3) := local x z v in
  v1 * v1 + v2 * v2 + v3 * v3 = normR v * normR v.
Proof.
  intros (Hx & Hz & Hxz). unfold local.
  rewrite normR_sqr.
  pose proof (parseval (unitR x) (unitR z) v (normR_unit x Hx) (normR_unit z Hz) Hxz)
    as Hp.
  destruct v as [[a b] c]. cbn [dotR] in *. lra.
Qed.

(** sin(theta) as [theta] computes it from cos(theta) = v3 / rho. *)
Lemma sint_of_ratio (v1 v2 v3 rho : R) :
  0 < rho -> v1 * v1 + v2 * v2 + v3 * v3 = rho * rho ->
  sqrt (1 - (v3 / rho) ^ 2) = sqrt (v1 * v1 + v2 * v2) / rho.
Proof.
  intros Hr Hs.
  replace (1 - (v3 / rho) ^ 2) with ((v1 * v1 + v2 * v2) / (rho * rho)).
  - rewrite sqrt_div_alt by nra. rewrite sqrt_square by lra. reflexivity.
  - replace (v1 * v1 + v2 * v2) with (rho * rho - v3 * v3) by lra. field. lra.
Qed.

Lemma hypot_atan (v1 v2 : R) :
  v1 <> 0 -> sqrt (1 + (v2 / v1)²) = sqrt (v1 * v1 + v2 * v2) / Rabs v1.
Proof.
  intros H1.
  assert (0 < Rabs v1) as Ha by (apply Rabs_pos_lt, H1).
  replace (1 + (v2 / v1)²) with ((v1 * v1 + v2 * v2) / (Rabs v1 * Rabs v1)).
  - rewrite sqrt_div_alt by nra. rewrite sqrt_square by lra. reflexivity.
  - replace (Rabs v1 * Rabs v1) with (v1 * v1).
    + unfold Rsqr. field. exact H1.
    + unfold Rabs. destruct (Rcase_abs v1); ring.
Qed.

Lemma azimuth_cos_sin (v1 v2 v3 : R) :
  eps < Rabs v1 ->
  let h := sqrt (v1 * v1 + v2 * v2) in
  0 < h /\ h * cos (azimuth (v1, v2, v3)) = v1 /\
  h * sin (azimuth (v1, v2, v3)) = v2.
Proof.
  intros Hv. pose proof eps_pos as He. cbv zeta.
  assert (v1 <> 0) as H1.
  { intros ->. rewrite Rabs_R0 in Hv. lra. }
  assert (0 < sqrt (v1 * v1 + v2 * v2)) as Hh.
  { apply sqrt_lt_R0. nra. }
  split; [exact Hh|].
  unfold azimuth.
  destruct (Rlt_dec eps v1) as [Hp|Hp].
  - rewrite cos_atan, sin_atan, hypot_atan by exact H1.
    rewrite Rabs_right by lra. split; field; lra.
  - destruct (Rlt_dec v1 (- eps)) as [Hn|Hn].
    + rewrite neg_cos, neg_sin, cos_atan, sin_atan, hypot_atan by exact H1.
      rewrite Rabs_left by lra. split; field; lra.
    + exfalso. unfold Rabs in Hv. destruct (Rcase_abs v1); lra.
Qed.

Lemma far_radius (site q : R3) : ~ near site q -> 0 < normR (subR q site).
Proof.
  unfold near. pose proof eps_pos. lra.
Qed.

Lemma cost_bound (v1 v2 v3 rho : R) :
  0 < rho -> v1 * v1 + v2 * v2 + v3 * v3 = rho * rho -> -1 <= v3 / rho <= 1.
Proof.
  intros Hr Hs.
  assert (- rho <= v3 <= rho) as [Hl Hu] by nra.
  split.
  - apply Rmult_le_reg_r with rho; [exact Hr|]. field_simplify; lra.
  - apply Rmult_le_reg_r with rho; [exact Hr|]. field_simplify; lra.
Qed.

Section Projection.

Variables (AUTOA zona : option R) (r : Z) (unit : string).
Variables (grids : list R3) (site x z : R3).

(** The radial factor of [g_r] at a grid point. *)
Definition radial (q : R3) : option R :=
  R_r (fdiv (Some (normR (subR q site)))
            (if String.eqb unit "A" then AUTOA else lit 1)) r zona.

(** sqrt(3 / (4 pi)) times the cosine of the angle between the vector from
    the site to [q] and the unit vector [n]. *)
Definition along (n q : R3) : option R :=
  Some (sqrt (3 / 4 / PI) * (dotR (subR q site) n / normR (subR q site))).

Lemma g_r_far (l mr : Z) :
  axes_ok x z ->
  (forall q, In q grids -> ~ near site q) ->
  g_r AUTOA (map pt grids) (pt site) l mr r zona (pt x) (pt z) unit =
  (th <- theta_lmr l mr
           (map (fun q => let '(_, _, v3) := local x z (subR q site) in
                          Some (v3 / normR (subR q site))) grids)
           (map (fun q => Some (azimuth (local x z (subR q site)))) grids) ;;
   Ok (zip_with fmul th (map radial grids)))%py.
Proof.
  intros Hax Hfar. unfold g_r. rewrite (frame_far _ _ _ _ Hax Hfar).
  cbn [bind]. rewrite !map_map.
  rewrite zip_with_map.
  assert (map (fun q => fdiv (vz (pt (local x z (subR q site))))
                             (Some (normR (subR q site)))) grids =
          map (fun q => let '(_, _, v3) := local x z (subR q site) in
                        Some (v3 / normR (subR q site))) grids) as ->.
  { apply map_ext_in. intros q Hq.
    pose proof (far_radius site q (Hfar q Hq)) as Hr.
    destruct (local x z (subR q site)) as [[v1 v2] v3].
    cbn [pt point vz snd]. apply div_Some. lra. }
  assert (map (fun q => phi_of (pt (local x z (subR q site)))) grids =
          map (fun q => Some (azimuth (local x z (subR q site)))) grids) as ->.
  { apply map_ext. intros q. apply phi_of_pt. }
  reflexivity.
Qed.

(** X11.  [g_r] for the three p functions (l = 1), in exact arithmetic, on
    a grid with no point closer to the site than 1e-8 (so that the grid is
    not shifted), for axes that [transform] accepts: the value at a grid
    point q is the radial factor times sqrt(3/(4 pi)) times the cosine of
    the angle between q - site and an axis of the frame: the z axis for
    mr = 1 and, at the points whose coordinate along x is larger than 1e-8
    in absolute value, the x axis for mr = 2 and the vector
    [np.cross(x, z)] for mr = 3. *)
Theorem g_r_p_functions :
  axes_ok x z ->
  (forall q, In q grids -> ~ near site q) ->
  g_r AUTOA (map pt grids) (pt site) 1 1 r zona (pt x) (pt z) unit =
    Ok (map (fun q => fmul (along (unitR z) q) (radial q)) grids) /\
  ((forall q, In q grids -> eps < Rabs (dotR (subR q site) (unitR x))) ->
   g_r AUTOA (map pt grids) (pt site) 1 2 r zona (pt x) (pt z) unit =
     Ok (map (fun q => fmul (along (unitR x) q) (radial q)) grids) /\
   g_r AUTOA (map pt grids) (pt site) 1 3 r zona (pt x) (pt z) unit =
     Ok (map (fun q => fmul (along (crossR (unitR x) (unitR z)) q) (radial q))
             grids)).
Proof.
  intros Hax Hfar. split; [|intros Hx; split]; rewrite g_r_far by assumption.
  - change (theta_lmr 1 1 ?c ?p) with (theta "pz" c p).
    cbn [theta String.eqb Ascii.eqb Bool.eqb]. cbn [bind].
    rewrite map_map, zip_with_map. f_equal. apply map_ext_in. intros q Hq.
    f_equal. unfold along, local.
    rewrite ?lit_Q1. evaluate side_ok. reflexivity.
  - change (theta_lmr 1 2 ?c ?p) with (theta "px" c p).
    cbn [theta String.eqb Ascii.eqb Bool.eqb]. rewrite !length_map, Nat.eqb_refl.
    cbn [bind]. rewrite zip_with_map, zip_with_map.
    f_equal. apply map_ext_in. intros q Hq. f_equal.
    pose proof (far_radius site q (Hfar q Hq)) as Hr.
    pose proof (local_norm x z (subR q site) Hax) as Hn.
    specialize (Hx q Hq). unfold along.
    unfold local in *. set (rho := normR (subR q site)) in *.
    set (v1 := dotR (subR q site) (unitR x)) in *.
    set (v2 := dotR (subR q site) (crossR (unitR x) (unitR z))) in *.
    set (v3 := dotR (subR q site) (unitR z)) in *.
    clearbody rho v1 v2 v3.
    pose proof (cost_bound v1 v2 v3 rho Hr Hn) as Hc.
    destruct (azimuth_cos_sin v1 v2 v3 Hx) as (Hh & Hcos & Hsin).
    set (a := azimuth (v1, v2, v3)) in *. clearbody a.
    rewrite ?lit_Q1. evaluate side_ok. f_equal.
    change (Pos.to_nat 2) with 2%nat.
    rewrite (sint_of_ratio v1 v2 v3 rho Hr Hn).
    set (h := sqrt (v1 * v1 + v2 * v2)) in *. clearbody h.
    rewrite <- Hcos. field. lra.
  - change (theta_lmr 1 3 ?c ?p) with (theta "py" c p).
    cbn [theta String.eqb Ascii.eqb Bool.eqb]. rewrite !length_map, Nat.eqb_refl.
    cbn [bind]. rewrite zip_with_map, zip_with_map.
    f_equal. apply map_ext_in. intros q Hq. f_equal.
    pose proof (far_radius site q (Hfar q Hq)) as Hr.
    pose proof (local_norm x z (subR q site) Hax) as Hn.
    specialize (Hx q Hq). unfold along.
    unfold local in *. set (rho := normR (subR q site)) in *.
    set (v1 := dotR (subR q site) (unitR x)) in *.
    set (v2 := dotR (subR q site) (crossR (unitR x) (unitR z))) in *.
    set (v3 := dotR (subR q site) (unitR z)) in *.
    clearbody rho v1 v2 v3.
    pose proof (cost_bound v1 v2 v3 rho Hr Hn) as Hc.
    destruct (azimuth_cos_sin v1 v2 v3 Hx) as (Hh & Hcos & Hsin).
    set (a := azimuth (v1, v2, v3)) in *. clearbody a.
    rewrite ?lit_Q1. evaluate side_ok. f_equal.
    change (Pos.to_nat 2) with 2%nat.
    rewrite (sint_of_ratio v1 v2 v3 rho Hr Hn).
    set (h := sqrt (v1 * v1 + v2 * v2)) in *. clearbody h.
    rewrite <- Hsin. field. lra.
Qed.

End Projection.

Lemma unit_x_far : ~ near (0, 0, 0) (1, 0, 0).
Proof.
  unfold near. cbn [subR].
  assert (normR (1 - 0, 0 - 0, 0 - 0) = 1) as ->.
  { apply normR_of_unit. cbn. ring. }
  rewrite eps_value. lra.
Qed.

Lemma unit_x_off_axis :
  eps < Rabs (dotR (subR (1, 0, 0) (0, 0, 0)) (unitR (1, 0, 0))).
Proof.
  assert (normR (1, 0, 0) = 1) as Hn by (apply normR_of_unit; cbn; ring).
  unfold unitR. rewrite Hn. cbn [subR dotR].
  replace ((1 - 0) * (1 / 1) + (0 - 0) * (0 / 1) + (0 - 0) * (0 / 1)) with 1
    by field.
  rewrite Rabs_R1, eps_value. lra.
Qed.

Lemma g_r_p_functions_witness :
  g_r (Some 1) (map pt [(1, 0, 0)]) (pt (0, 0, 0)) 1 2 1 (Some 1)
      (pt (1, 0, 0)) (pt (0, 0, 1)) "B" =
  Ok (map (fun q => fmul (along (0, 0, 0) (unitR (1, 0, 0)) q)
                         (radial (Some 1) (Some 1) 1 "B" (0, 0, 0) q))
          [(1, 0, 0)]).
Proof.
  destruct (g_r_p_functions (Some 1) (Some 1) 1 "B" [(1, 0, 0)] (0, 0, 0)
                            (1, 0, 0) (0, 0, 1) default_axes_ok) as [_ H].
  - intros q [<- | []]. exact unit_x_far.
  - apply H. intros q [<- | []]. exact unit_x_off_axis.
Defined.

End CartesianFacts.


(** ** The k-path in exact arithmetic *)

Module KPathFacts.
Import Py pywannier90 Exact RadiusFacts AngularFacts KPath.
Local Open Scope R_scope.

(** A real matrix as an array of floats. *)
Definition ptm (b : R3 * R3 * R3) : matrix (F := option R) :=
  let '(b0, b1, b2) := b in (pt b0, pt b1, pt b2).

(** The absolute coordinates of a k-point. *)
Definition absR (b : R3 * R3 * R3) (k : R3) : R3 :=
  let '(b0, b1, b2) := b in
  let '(k0, k1, k2) := k in
  let '(b00, b01, b02) := b0 in
  let '(b10, b11, b12) := b1 in
  let '(b20, b21, b22) := b2 in
  (k0 * b00 + k1 * b10 + k2 * b20,
   k0 * b01 + k1 * b11 + k2 * b21,
   k0 * b02 + k1 * b12 + k2 * b22).

(** The distance of two points. *)
Definition distR (t a : R3) : R := normR (subR t a).

(** The lengths of the steps from [prev] along [l]. *)
Fixpoint steps (prev : R3) (l : list R3) : list R :=
  match l with
  | [] => []
  | a :: l' => distR prev a :: steps a l'
  end.

(** The running sums of [ds], started at [acc]. *)
Fixpoint sums (acc : R) (ds : list R) : list R :=
  match ds with
  | [] => []
  | d :: ds' => (acc + d) :: sums (acc + d) ds'
  end.

(** The path along the points [l]. *)
Definition pathR (l : list R3) : list R :=
  match l with
  | [] => []
  | a :: l' => 0 :: sums 0 (steps a l')
  end.

Lemma row_dot_pt (b : R3 * R3 * R3) (k : R3) :
  row_dot (pt k) (ptm b) = pt (absR b k).
Proof.
  destruct b as [[[[b00 b01] b02] [[b10 b11] b12]] [[b20 b21] b22]].
  destruct k as [[k0 k1] k2]. reflexivity.
Qed.

Lemma distance_pt (t a : R3) : distance (pt t) (pt a) = Some (distR t a).
Proof.
  destruct t as [[t0 t1] t2], a as [[a0 a1] a2].
  unfold distance, distR. cbn [pt point vx vy vz fst snd subR normR].
  evaluate ltac:(lra). change (Pos.to_nat 2) with 2%nat.
  pose proof (pow2_ge_0 (t0 - a0)). pose proof (pow2_ge_0 (t1 - a1)).
  pose proof (pow2_ge_0 (t2 - a2)).
  rewrite sqrt_Some by lra. do 2 f_equal. ring.
Qed.

Lemma distR_refl (a : R3) : distR a a = 0.
Proof.
  unfold distR. apply normR_zero. apply subR_zero. reflexivity.
Qed.

Lemma distR_nonneg (t a : R3) : 0 <= distR t a.
Proof. apply normR_nonneg. Qed.

Lemma cumsum_from_Some (acc : R) (ds : list R) :
  cumsum_from (Some acc) (map Some ds) = map Some (sums acc ds).
Proof.
  revert acc. induction ds as [|d ds IH]; intros acc; [reflexivity|].
  cbn [map cumsum_from sums]. rewrite add_Some. f_equal. apply IH.
Qed.

Lemma steps_combine (a : R3) (l : list R3) :
  map (fun ta => distance (fst ta) (snd ta))
      (combine (removelast (pt a :: map pt l)) (map pt l)) =
  map Some (steps a l).
Proof.
  revert a. induction l as [|a' l IH]; intros a; [reflexivity|].
  cbn [map].
  change (removelast (pt a :: pt a' :: map pt l))
    with (pt a :: removelast (pt a' :: map pt l)).
  cbn [map combine fst snd steps]. rewrite distance_pt. f_equal. apply IH.
Qed.

Lemma path_of_exact (b : R3 * R3 * R3) (ks : list R3) :
  ks <> [] ->
  path_of (map pt ks) (ptm b) = Ok (map Some (pathR (map (absR b) ks))).
Proof.
  intros Hne. destruct ks as [|k ks]; [contradiction|].
  unfold path_of. rewrite map_map.
  rewrite (map_ext (fun k => row_dot (pt k) (ptm b)) (fun k => pt (absR b k)))
    by (intros; apply row_dot_pt).
  rewrite <- (map_map (absR b) pt).
  cbn [map]. set (a := absR b k). set (l := map (absR b) ks).
  change (getitem (pt a :: map pt l) 0) with (Ok (A := vec (F := option R)) (pt a)).
  cbn [bind combine]. cbn [map fst snd].
  rewrite steps_combine, distance_pt, distR_refl.
  cbn [cumsum pathR map]. now rewrite cumsum_from_Some.
Qed.

Lemma sums_length (acc : R) (ds : list R) : length (sums acc ds) = length ds.
Proof.
  revert acc. induction ds as [|d ds IH]; intros acc; [reflexivity|].
  cbn. now rewrite IH.
Qed.

Lemma steps_length (a : R3) (l : list R3) : length (steps a l) = length l.
Proof.
  revert a. induction l as [|a' l IH]; intros a; [reflexivity|].
  cbn. now rewrite IH.
Qed.

Lemma pathR_length (l : list R3) : length (pathR l) = length l.
Proof.
  destruct l as [|a l]; [reflexivity|].
  cbn. now rewrite sums_length, steps_length.
Qed.

(** Consecutive entries of the running sums of the steps. *)
Lemma sums_steps_nth (acc : R) (a : R3) (l : list R3) (i : nat) (k k' : R3) :
  nth_error (a :: l) i = Some k -> nth_error (a :: l) (S i) = Some k' ->
  exists s s',
    nth_error (acc :: sums acc (steps a l)) i = Some s /\
    nth_error (acc :: sums acc (steps a l)) (S i) = Some s' /\
    s' - s = distR k k'.
Proof.
  revert acc a l. induction i as [|i IH]; intros acc a l Hk Hk'.
  - destruct l as [|a' l]; [discriminate|].
    cbn in Hk, Hk'. injection Hk as <-. injection Hk' as <-.
    exists acc, (acc + distR a a'). repeat split. ring.
  - destruct l as [|a' l]; [destruct i; discriminate|].
    cbn [nth_error] in Hk. 
    change (nth_error (a :: a' :: l) (S (S i))) with (nth_error (a' :: l) (S i)) in Hk'.
    destruct (IH (acc + distR a a') a' l Hk Hk') as (s & s' & H1 & H2 & H3).
    exists s, s'. cbn [steps sums].
    split; [exact H1|]. split; [exact H2 | exact H3].
Qed.

(** X12.  The path of a band structure, in exact arithmetic on real
    k-points: [path_of] raises IndexError when there is no k-point, and
    otherwise returns one value per k-point, the first of which is 0; each
    value exceeds the one before by the distance between the absolute
    coordinates [k.dot(b)] of the two k-points, so the path never decreases
    and a repeated k-point adds nothing. *)
Theorem path_accumulates_distances (b : R3 * R3 * R3) (ks : list R3) :
  path_of (@nil (vec (F := option R))) (ptm b) = Raise IndexError /\
  (ks <> [] ->
   exists p : list R,
     path_of (map pt ks) (ptm b) = Ok (map Some p) /\
     length p = length ks /\
     nth_error p 0 = Some 0 /\
     forall i k k',
       nth_error ks i = Some k -> nth_error ks (S i) = Some k' ->
       exists s s',
         nth_error p i = Some s /\ nth_error p (S i) = Some s' /\
         s' - s = distR (absR b k) (absR b k') /\ s <= s' /\
         (k = k' -> s' = s)).
Proof.
  split; [reflexivity|]. intros Hne.
  exists (pathR (map (absR b) ks)).
  split; [apply path_of_exact, Hne|].
  split; [now rewrite pathR_length, length_map|].
  destruct ks as [|k0 ks]; [contradiction|].
  split; [reflexivity|].
  intros i k k' Hk Hk'.
  assert (nth_error (map (absR b) (k0 :: ks)) i = Some (absR b k)) as Ha
      by (rewrite nth_error_map, Hk; reflexivity).
  assert (nth_error (map (absR b) (k0 :: ks)) (S i) = Some (absR b k')) as Ha'
      by (rewrite nth_error_map, Hk'; reflexivity).
  cbn [map] in Ha, Ha'.
  destruct (sums_steps_nth 0 _ _ i _ _ Ha Ha') as (s & s' & H1 & H2 & H3).
  exists s, s'. cbn [map pathR].
  split; [exact H1|]. split; [exact H2|]. split; [exact H3|].
  pose proof (distR_nonneg (absR b k) (absR b k')) as Hd.
  split; [lra|]. intros <-. rewrite distR_refl in H3. lra.
Qed.

Lemma path_accumulates_distances_witness :
  exists p : list R,
    path_of (map pt [(0, 0, 0); (1, 0, 0)])
            (ptm ((1, 0, 0), (0, 1, 0), (0, 0, 1))) = Ok (map Some p) /\
    nth_error p 0 = Some 0.
Proof.
  destruct (path_accumulates_distances ((1, 0, 0), (0, 1, 0), (0, 0, 1))
                                       [(0, 0, 0); (1, 0, 0)]) as [_ H].
  destruct H as (p & Hp & _ & H0 & _); [discriminate|].
  exists p. split; assumption.
Defined.

(** *** The high-symmetry points of a conventional band structure *)

Lemma isnan_Some (x : R) : isnan (Some x) = false.
Proof.
  unfold isnan. cbn. unfold eqb. destruct (Req_dec_T x x); [reflexivity | contradiction].
Qed.

Lemma steps_nonneg (a : R3) (l : list R3) : Forall (fun d => 0 <= d) (steps a l).
Proof.
  revert a. induction l as [|a' l IH]; intros a; constructor;
    [apply distR_nonneg | apply IH].
Qed.

Lemma last_cons {A : Type} (x : A) (l : list A) (d : A) :
  last (x :: l) d = last l x.
Proof.
  revert x d. induction l as [|y l IH]; intros x d; [reflexivity|].
  change (last (x :: y :: l) d) with (last (y :: l) d).
  change (last (y :: l) x) with (last (y :: l) x).
  now rewrite !IH.
Qed.

(** The maximum of running sums of non-negative steps is the last one. *)
Lemma amax_sums (acc : R) (ds : list R) :
  Forall (fun d => 0 <= d) ds ->
  fold_left (fun m y => if isnan m then m
                        else if isnan y then y
                        else if fltb m y then y else m)
            (map Some (sums acc ds)) (Some acc) =
  Some (last (sums acc ds) acc).
Proof.
  intros Hds. revert acc. induction Hds as [|d ds Hd _ IH]; intros acc;
    [reflexivity|].
  cbn [sums map fold_left]. rewrite !isnan_Some.
  assert ((if fltb (Some acc) (Some (acc + d)) then Some (acc + d) else Some acc)
          = Some (acc + d)) as ->.
  { cbn. unfold ltb. destruct (Rlt_dec acc (acc + d)); [reflexivity|].
    f_equal. lra. }
  rewrite IH. now rewrite last_cons.
Qed.

Lemma amax_path (a : R3) (l : list R3) :
  amax (map Some (pathR (a :: l))) = Ok (Some (last (pathR (a :: l)) 0)).
Proof.
  cbn [pathR map amax]. rewrite amax_sums by apply steps_nonneg.
  now rewrite last_cons.
Qed.

Lemma mapM_ok {A B : Type} (f : A -> result B) (g : A -> B) (l : list A) :
  (forall x, In x l -> f x = Ok (g x)) -> mapM f l = Ok (map g l).
Proof.
  induction l as [|x l IH]; intros H; [reflexivity|].
  cbn [mapM map]. rewrite (H x (or_introl eq_refl)), IH; [reflexivity|].
  intros y Hy. apply H. now right.
Qed.

Lemma getitem_Some (p : list R) (i : Z) :
  (0 <= i < Z.of_nat (length p))%Z ->
  getitem (map Some p) i = Ok (Some (nth (Z.to_nat i) p 0)).
Proof.
  intros Hi. unfold getitem. rewrite length_map.
  destruct (i <? 0)%Z eqn:Hneg; [lia|].
  assert ((0 <=? i)%Z && (i <? Z.of_nat (length p))%Z = true)%bool as ->.
  { apply andb_true_intro. split; [apply Z.leb_le | apply Z.ltb_lt]; lia. }
  rewrite nth_error_map.
  rewrite (nth_error_nth' p 0) by lia. reflexivity.
Qed.

(** The index of the loop at lines 214-217. *)
Definition junction (npath nkpts kpt : nat) : Z :=
  ((Z.of_nat npath + Z.of_nat nkpts - 2) / (Z.of_nat nkpts - 1) - 1)
  * (Z.of_nat kpt + 1).

Lemma junction_in_bounds (npath nkpts kpt : nat) :
  (1 <= npath)%nat -> (kpt < nkpts - 2)%nat ->
  (0 <= junction npath nkpts kpt < Z.of_nat npath)%Z.
Proof.
  intros Hn Hk. unfold junction.
  set (N := Z.of_nat npath). set (m := (Z.of_nat nkpts - 1)%Z).
  set (k := Z.of_nat kpt).
  assert (1 <= N)%Z by lia. assert (2 <= m)%Z by lia.
  assert (0 <= k /\ k + 1 <= m - 1)%Z as [Hk0 Hk1] by lia.
  replace (N + Z.of_nat nkpts - 2)%Z with (N + m - 1)%Z by lia.
  pose proof (Z.mul_div_le (N + m - 1) m ltac:(lia)) as Hle.
  assert (1 <= (N + m - 1) / m)%Z as Hq.
  { apply Z.div_le_lower_bound; lia. }
  set (q := ((N + m - 1) / m)%Z) in *. clearbody q N m k.
  split; [nia|]. nia.
Qed.

Lemma junction_of_segments (nkpts n kpt : nat) :
  (2 <= nkpts)%nat ->
  junction ((nkpts - 1) * n + 1) nkpts kpt = Z.of_nat ((kpt + 1) * n).
Proof.
  intros Hk. unfold junction.
  replace (Z.of_nat ((nkpts - 1) * n + 1) + Z.of_nat nkpts - 2)%Z
    with ((Z.of_nat n + 1) * (Z.of_nat nkpts - 1))%Z by lia.
  rewrite Z.div_mul by lia. lia.
Qed.

Lemma last_nth_error {A : Type} (l : list A) (d : A) :
  l <> [] -> nth_error l (length l - 1) = Some (last l d).
Proof.
  induction l as [|x l IH]; [contradiction|]. intros _.
  destruct l as [|y l]; [reflexivity|].
  change (last (x :: y :: l) d) with (last (y :: l) d).
  rewrite <- IH by discriminate. cbn [length].
  replace (S (S (length l)) - 1)%nat with (S (S (length l) - 1)) by lia.
  reflexivity.
Qed.

(** X13.  Lines 203-219 on real k-points, in exact arithmetic.  For at
    least one k-point and any number [nkpts] of high-symmetry points the
    fragment returns: no index of the loop is out of bounds.  It gives
    max(2, nkpts) coordinates.  When the path has n steps for each of the
    nkpts - 1 segments (n + 1 points per segment, the junctions counted
    once), the coordinate of the j-th high-symmetry point is the value of
    the path at its k-point, [path[j * n]]. *)
Theorem conventional_high_symmetry_points
        (b : R3 * R3 * R3) (ks : list R3) (nkpts : nat) :
  ks <> [] ->
  exists p sym : list R,
    conventional (map pt ks) (ptm b) nkpts = Ok (map Some p, map Some sym) /\
    length p = length ks /\
    length sym = Nat.max 2 nkpts /\
    forall n, (2 <= nkpts)%nat -> length ks = ((nkpts - 1) * n + 1)%nat ->
      forall j, (j < nkpts)%nat -> nth_error sym j = nth_error p (j * n).
Proof.
  intros Hne. unfold conventional. rewrite (path_of_exact b ks Hne). cbn [bind].
  set (p := pathR (map (absR b) ks)).
  assert (length p = length ks) as Hlen
      by (unfold p; now rewrite pathR_length, length_map).
  assert (1 <= length p)%nat as Hpos.
  { rewrite Hlen. destruct ks; [contradiction | cbn; lia]. }
  set (pick := fun kpt : nat => nth (Z.to_nat (junction (length p) nkpts kpt)) p 0).
  exists p, (0 :: map pick (range (nkpts - 2)) ++ [1 * last p 0]).
  split; [|split; [exact Hlen | split]].
  - unfold sym_kpoint_coor_of.
    rewrite (mapM_ok _ (fun kpt => Some (pick kpt))).
    2:{ intros kpt Hk. apply in_seq in Hk. rewrite length_map.
        apply (getitem_Some p (junction (length p) nkpts kpt)).
        apply junction_in_bounds; lia. }
    cbn [bind].
    assert (amax (map Some p) = Ok (Some (last p 0))) as ->.
    { unfold p. destruct ks as [|k ks]; [contradiction|]. apply amax_path. }
    cbn [bind]. rewrite lit_0, lit_1, mul_Some.
    f_equal. f_equal. cbn [map app]. f_equal.
    rewrite map_app, map_map. reflexivity.
  - cbn [length]. rewrite length_app, length_map. unfold range.
    rewrite length_seq. cbn [length]. lia.
  - intros n Hk Hn j Hj.
    assert (length p = ((nkpts - 1) * n + 1)%nat) as Hp by lia.
    destruct j as [|j].
    + unfold p. destruct ks as [|k ks]; [contradiction | reflexivity].
    + cbn [nth_error].
      destruct (Nat.eq_dec j (nkpts - 2)) as [->|Hmid].
      * rewrite nth_error_app2; rewrite length_map; unfold range;
          rewrite length_seq; [|lia].
        rewrite Nat.sub_diag. cbn [nth_error].
        replace (S (nkpts - 2) * n)%nat with (length p - 1)%nat by nia.
        rewrite (last_nth_error p 0) by (destruct p; [cbn in Hpos; lia | discriminate]).
        f_equal. ring.
      * rewrite nth_error_app1
          by (rewrite length_map; unfold range; rewrite length_seq; lia).
        rewrite nth_error_map. unfold range.
        rewrite nth_error_seq.
        assert ((j <? nkpts - 2)%nat = true) as -> by (apply Nat.ltb_lt; lia).
        cbn [option_map Nat.add]. unfold pick.
        rewrite Hp, junction_of_segments by exact Hk.
        rewrite Nat2Z.id.
        replace ((j + 1) * n)%nat with (S j * n)%nat by lia.
        symmetry. apply nth_error_nth'. rewrite Hp. nia.
Qed.

Lemma conventional_high_symmetry_points_witness :
  exists p sym : list R,
    conventional (map pt [(0, 0, 0); (1, 0, 0)])
                 (ptm ((1, 0, 0), (0, 1, 0), (0, 0, 1))) 2 =
    Ok (map Some p, map Some sym) /\
    length sym = 2%nat.
Proof.
  destruct (conventional_high_symmetry_points
              ((1, 0, 0), (0, 1, 0), (0, 0, 1)) [(0, 0, 0); (1, 0, 0)] 2)
    as (p & sym & H & _ & Hl & _); [discriminate|].
  exists p, sym. split; assumption.
Defined.

End KPathFacts.


(** ** wannier90.mmn: writing and reading the overlap matrix *)

Module MmnFacts.
Import Py Str Binary64 W90 PyFacts AmnFacts Mmn.

Lemma int_format_d (z : Z) : int_ (format_d z) = Ok z.
Proof.
  unfold int_.
  destruct z as [|p|p]; cbn [format_d].
  - reflexivity.
  - destruct (decimal_head (Z.to_N (Z.pos p))) as (c & r & E & Hc & Hr).
    pose proof (number_decimal (Z.to_N (Z.pos p))) as Hn. rewrite E in *.
    assert (sign_of (String c r) = (false, String c r)) as ->
        by apply (sign_of_sign false c r Hc).
    cbn [is_empty]. rewrite Hn. f_equal.
  - destruct (decimal_head (N.pos p)) as (c & r & E & Hc & Hr).
    pose proof (number_decimal (N.pos p)) as Hn. rewrite E in *.
    assert (sign_of ("-" ++ String c r) = (true, String c r)) as ->
        by apply (sign_of_sign true c r Hc).
    cbn [is_empty]. rewrite Hn. reflexivity.
Qed.

Lemma split_block_line (a b c d e : Z) :
  split (block_line a b c d e) =
  [format_d a; format_d b; format_d c; format_d d; format_d e].
Proof.
  unfold block_line, split.
  pose proof (word_format_d a). pose proof (word_format_d b).
  pose proof (word_format_d c). pose proof (word_format_d d).
  pose proof (word_format_d e).
  change (words EmptyString
            (spaces 4 ++ format_d a ++ String " " (spaces 1 ++ format_d b ++
             String " " (spaces 3 ++ format_d c ++
             String " " (spaces 1 ++ format_d d ++
             String " " (spaces 1 ++ format_d e ++ newline)))))
          = [format_d a; format_d b; format_d c; format_d d; format_d e]).
  rewrite words_spaces, words_word by (assumption || reflexivity).
  rewrite words_spaces, words_word by (assumption || reflexivity).
  rewrite words_spaces, words_word by (assumption || reflexivity).
  rewrite words_spaces, words_word by (assumption || reflexivity).
  rewrite words_spaces. unfold newline.
  rewrite words_word by (assumption || reflexivity).
  reflexivity.
Qed.

Lemma split_mmn_line (z : complex) :
  split (mmn_line z) = [numeral 18 (real z); numeral 18 (imag z)].
Proof.
  unfold mmn_line, format_f, rjust, split.
  pose proof (word_numeral 18 (real z)). pose proof (word_numeral 18 (imag z)).
  set (a := (22 - String.length (numeral 18 (real z)))%nat).
  set (b := (22 - String.length (numeral 18 (imag z)))%nat).
  change (words EmptyString
            (spaces 4 ++ (spaces a ++ numeral 18 (real z)) ++
             String " " (spaces 1 ++ (spaces b ++ numeral 18 (imag z)) ++ newline))
          = [numeral 18 (real z); numeral 18 (imag z)]).
  rewrite words_spaces, append_assoc, words_spaces.
  rewrite words_word by (assumption || reflexivity).
  rewrite words_spaces, append_assoc, words_spaces.
  unfold newline. rewrite words_word by (assumption || reflexivity).
  reflexivity.
Qed.

Lemma two_floats_mmn_line (z : complex) :
  two_floats (split (mmn_line z)) = Ok (reread_complex z).
Proof.
  rewrite split_mmn_line. unfold two_floats.
  rewrite !float_numeral. reflexivity.
Qed.

Lemma block_line_ints (a b c d e : Z) :
  mapM int_ (split (block_line a b c d e)) = Ok [a; b; c; d; e].
Proof.
  rewrite split_block_line. cbn [mapM]. now rewrite !int_format_d.
Qed.

(** *** Blocks *)

Lemma read_lines_app (entries rest : list string) :
  read_lines (length entries) (entries ++ rest) = map split entries.
Proof.
  induction entries as [|l entries IH]; [reflexivity|].
  cbn [length app read_lines readline map]. now rewrite IH.
Qed.

Lemma skipn_app_exact {A} (l rest : list A) :
  skipn (length l) (l ++ rest) = rest.
Proof. induction l as [|x l IH]; [reflexivity | exact IH]. Qed.

(** A block: the five integers of its first line, and its entries. *)
Definition block : Type := (Z * Z * Z * Z * Z) * list complex.

Definition block_lines (bl : block) : list string :=
  let '((a, b, c, d, e), zs) := bl in
  block_line a b c d e :: map mmn_line zs.

Lemma read_blocks_blocks (nband2 : nat) (bs : list block) :
  Forall (fun bl => length (snd bl) = nband2) bs ->
  read_blocks (length bs) nband2 (concat (map block_lines bs)) =
  Ok (concat (map (fun bl => map (fun z => split (mmn_line z)) (snd bl)) bs)).
Proof.
  induction 1 as [|[[[[[a b] c] d] e] zs] bs Hz _ IH]; [reflexivity|].
  cbn [length map concat block_lines snd app read_blocks readline] in *.
  rewrite block_line_ints. cbn [bind].
  rewrite <- Hz, <- (length_map mmn_line zs).
  rewrite read_lines_app, skipn_app_exact.
  rewrite length_map, Hz, IH. cbn [bind]. now rewrite map_map.
Qed.

(** *** The round trip *)

Definition shape (nk nn nb : nat) (M : list (list (list (list complex))))
  : Prop :=
  length M = nk /\
  Forall (fun Mk => length Mk = nn /\
                    Forall (fun Mkn => length Mkn = nb /\
                                       Forall (fun row => length row = nb) Mkn)
                           Mk) M.

(** [nn_list] has an entry of at least four integers for every direction
    and k-point. *)
Definition neighbours (nk nn : nat) (nn_list : list (list (list Z))) : Prop :=
  forall n k, (n < nn)%nat -> (k < nk)%nat ->
    exists a b, nth_error nn_list n = Some a /\ nth_error a k = Some b /\
                (4 <= length b)%nat.

Definition block_at (nn_list : list (list (list Z))) (k_id nn : nat)
           (Mkn : list (list complex)) : block :=
  let b := nth k_id (nth nn nn_list []) [] in
  ((Z.of_nat k_id + 1, nth 0 b 0, nth 1 b 0, nth 2 b 0, nth 3 b 0)%Z,
   concat Mkn).

Definition blocks_of (nn_list : list (list (list Z)))
           (M : list (list (list (list complex)))) : list (list block) :=
  imap_from 0 (fun k_id Mk => imap_from 0 (block_at nn_list k_id) Mk) M.

Definition mmn_header (nk nn nb : nat) : list string :=
  [("Generated by the pyWannier90" ++ newline)%string;
   ("    " ++ format_d (Z.of_nat nb) ++
    "    " ++ format_d (Z.of_nat nk) ++
    "    " ++ format_d (Z.of_nat nn) ++ newline)%string].

Lemma mapM_getitem_all {A B} (f : A -> B) (l : list A) (n : nat) :
  length l = n ->
  mapM (fun m => z <- getitem l (Z.of_nat m) ;; Ok (f z))%py (range n) =
  Ok (map f l).
Proof.
  intros Hn. rewrite <- (imap_from_map f l 0).
  apply (mapM_range_imap _ _ l n Hn). intros i x Hi.
  now rewrite getitem_nat, Hi.
Qed.

Lemma imap_from_compose {A B C} (f : B -> C) (g : nat -> A -> B)
      (l : list A) (s : nat) :
  imap_from s (fun i x => f (g i x)) l = map f (imap_from s g l).
Proof.
  revert s. induction l as [|x l IH]; intros s; [reflexivity|].
  cbn [imap_from map]. now rewrite IH.
Qed.

Lemma imap_from_ext {A B} (g h : nat -> A -> B) (l : list A) (s : nat) :
  (forall i x, g i x = h i x) -> imap_from s g l = imap_from s h l.
Proof.
  intros H. revert s. induction l as [|x l IH]; intros s; [reflexivity|].
  cbn [imap_from]. now rewrite H, IH.
Qed.

Lemma export_mmn_lines (nk nn nb : nat) nn_list M :
  shape nk nn nb M -> neighbours nk nn nn_list ->
  export_mmn nk nn nb nn_list M =
  Ok (mmn_header nk nn nb ++
      concat (map block_lines (concat (blocks_of nn_list M)))).
Proof.
  intros [Hk HM] Hnn. unfold export_mmn. cbv zeta.
  rewrite (mapM_range_imap _
             (fun k_id Mk =>
                imap_from 0
                  (fun nn Mkn => block_lines (block_at nn_list k_id nn Mkn)) Mk)
             M nk Hk).
  - cbn [bind]. do 2 f_equal. unfold blocks_of.
    rewrite concat_map. do 2 f_equal.
    rewrite <- imap_from_compose.
    apply imap_from_ext. intros i Mk. apply imap_from_compose.
  - intros i Mk Hi.
    assert (i < nk)%nat as Li by (rewrite <- Hk; apply nth_error_Some; congruence).
    rewrite Forall_forall in HM.
    destruct (HM Mk (nth_error_In _ _ Hi)) as [Hn HMk].
    apply (mapM_range_imap _ _ Mk nn Hn). intros j Mkn Hj.
    assert (j < nn)%nat as Lj by (rewrite <- Hn; apply nth_error_Some; congruence).
    rewrite Forall_forall in HMk.
    destruct (HMk Mkn (nth_error_In _ _ Hj)) as [Hb Hrows].
    destruct (Hnn j i Lj Li) as (a & b & Ha & Hb' & Hlen).
    rewrite getitem_nat, Ha. cbn [bind].
    rewrite getitem_nat, Hb'. cbn [bind].
    unfold block_at.
    rewrite (nth_error_nth _ _ [] Ha), (nth_error_nth _ _ [] Hb').
    destruct b as [|b0 [|b1 [|b2 [|b3 b]]]]; cbn in Hlen; try lia.
    change (getitem (b0 :: b1 :: b2 :: b3 :: b) 0) with (Ok b0).
    cbn [bind slice_1_4 skipn firstn nth].
    rewrite getitem_nat, Hi. cbn [bind].
    rewrite getitem_nat, Hj. cbn [bind].
    rewrite (mapM_getitem_all mmn_line (concat Mkn)).
    + reflexivity.
    + rewrite (concat_uniform_length _ nb Hrows), Hb. cbn. lia.
Qed.

Lemma blocks_of_rows (nk nn nb : nat) nn_list M :
  shape nk nn nb M ->
  length (blocks_of nn_list M) = nk /\
  Forall (fun bls => length bls = nn) (blocks_of nn_list M) /\
  Forall (fun bl : block => length (snd bl) = (nb * nb)%nat)
         (concat (blocks_of nn_list M)).
Proof.
  intros [Hk HM]. unfold blocks_of. rewrite Forall_forall in HM.
  split; [now rewrite imap_from_length|]. split.
  - apply Forall_forall. intros bls Hb.
    apply In_nth_error in Hb as [i Hi]. rewrite imap_from_nth in Hi.
    destruct (nth_error M i) as [Mk|] eqn:E; [|discriminate].
    injection Hi as <-. rewrite imap_from_length.
    apply (HM Mk). eapply nth_error_In; eassumption.
  - apply Forall_concat. apply Forall_forall. intros bls Hb.
    apply In_nth_error in Hb as [i Hi]. rewrite imap_from_nth in Hi.
    destruct (nth_error M i) as [Mk|] eqn:E; [|discriminate].
    injection Hi as <-.
    destruct (HM Mk (nth_error_In _ _ E)) as [_ HMk].
    rewrite Forall_forall in HMk.
    apply Forall_forall. intros bl Hbl.
    apply In_nth_error in Hbl as [j Hj]. rewrite imap_from_nth in Hj.
    destruct (nth_error Mk j) as [Mkn|] eqn:E'; [|discriminate].
    injection Hj as <-. cbn [block_at snd].
    destruct (HMk Mkn (nth_error_In _ _ E')) as [Hb Hrows].
    rewrite (concat_uniform_length _ nb Hrows), Hb. reflexivity.
Qed.

Lemma read_after_export_mmn (nk nn nb : nat) nn_list M :
  shape nk nn nb M ->
  read_M_mat nk nn nb
    (mmn_header nk nn nb ++
     concat (map block_lines (concat (blocks_of nn_list M)))) =
  Ok (map (map (map (map reread_complex))) M).
Proof.
  intros HM. unfold read_M_mat. cbv zeta.
  change (snd (readline (snd (readline (mmn_header nk nn nb ++ ?f))))) with f.
  destruct (blocks_of_rows nk nn nb nn_list M HM) as (Hlen & Hrows & Hent).
  assert (length (concat (blocks_of nn_list M)) = (nn * nk)%nat) as L.
  { rewrite (concat_uniform_length _ nn Hrows). lia. }
  rewrite <- L, (read_blocks_blocks (nb * nb) _ Hent). cbn [bind].
  unfold block in *.
  assert (Forall (fun l : list (list string) => length l = (nb * nb)%nat)
                 (map (fun bl : Z * Z * Z * Z * Z * list complex =>
                         map (fun z => split (mmn_line z)) (snd bl))
                      (concat (blocks_of nn_list M)))) as Huni.
  { apply Forall_map. eapply Forall_impl; [|exact Hent].
    intros bl Hb. cbn beta. now rewrite length_map. }
  destruct HM as [Hk HM]. rewrite Forall_forall in HM.
  rewrite <- (imap_from_map (map (map (map reread_complex))) M 0).
  apply (mapM_range_imap _ _ M _ Hk). intros i Mk Hi.
  destruct (HM Mk (nth_error_In _ _ Hi)) as [Hn HMk].
  rewrite Forall_forall in HMk.
  rewrite <- (imap_from_map (map (map reread_complex)) Mk 0).
  apply (mapM_range_imap _ _ Mk _ Hn). intros j Mkn Hj.
  destruct (HMk Mkn (nth_error_In _ _ Hj)) as [Hb Hrow].
  assert (j < nn)%nat as Lj by (rewrite <- Hn; apply nth_error_Some; congruence).
  rewrite <- (imap_from_map (map reread_complex) Mkn 0).
  apply (mapM_range_imap _ _ Mkn _ Hb). intros n row Hr.
  assert (length row = nb) as Hrl.
  { rewrite Forall_forall in Hrow. apply Hrow. eapply nth_error_In; eassumption. }
  assert (n < nb)%nat as Ln by (rewrite <- Hb; apply nth_error_Some; congruence).
  rewrite <- (imap_from_map reread_complex row 0).
  apply (mapM_range_imap _ _ row _ Hrl). intros m z Hz.
  assert (m < nb)%nat as Lm by (rewrite <- Hrl; apply nth_error_Some; congruence).
  rewrite getitem_nat.
  replace (i * (nb * nb * nn) + j * (nb * nb) + n * nb + m)%nat
    with ((i * nn + j) * (nb * nb) + (n * nb + m))%nat by lia.
  match goal with
  | |- context [nth_error (concat ?L) _] =>
      rewrite (concat_uniform_nth L (nb * nb) (i * nn + j) (n * nb + m));
        [|exact Huni|nia]
  end.
  rewrite nth_error_map.
  rewrite (concat_uniform_nth _ nn i j Hrows Lj).
  unfold blocks_of. rewrite imap_from_nth, Hi. cbn [option_map].
  rewrite imap_from_nth, Hj. cbn [option_map block_at snd].
  rewrite nth_error_map.
  rewrite (concat_uniform_nth _ nb n m Hrow Lm), Hr, Hz.
  cbn [option_map bind]. apply two_floats_mmn_line.
Qed.

(** X14.  The overlap matrix on file.  For an array [M_matrix_loc] of shape
    (num_kpts_loc, nntot_loc, num_bands_loc, num_bands_loc) and an
    [nn_list] with an entry of at least four integers for every direction
    and k-point, the lines that [export_AME] writes to wannier90.mmn are
    read by [read_M_mat] without an exception: the lines of integers are
    skipped, each entry is found at the index [k_id*M3 + nn*M2 + n*M1 + m]
    where the row-major flattening put it.  Each part of each entry comes
    back as the float nearest to its value rounded to 18 decimal places. *)
Theorem mmn_round_trip (nk nn nb : nat) (nn_list : list (list (list Z)))
        (M : list (list (list (list complex)))) :
  shape nk nn nb M -> neighbours nk nn nn_list ->
  exists file,
    export_mmn nk nn nb nn_list M = Ok file /\
    read_M_mat nk nn nb file = Ok (map (map (map (map reread_complex))) M).
Proof.
  intros HM Hnn. eexists. split.
  - apply export_mmn_lines; assumption.
  - apply read_after_export_mmn. assumption.
Qed.

Lemma mmn_round_trip_witness :
  exists file,
    export_mmn 1 2 1 [[[1; 0; 0; -1]]; [[1; 0; 1; 0]]]%Z
               [[[[(half, quarter)]]; [[(minus_three_halves, half)]]]]
    = Ok file /\
    read_M_mat 1 2 1 file =
    Ok (map (map (map (map reread_complex)))
            [[[[(half, quarter)]]; [[(minus_three_halves, half)]]]]).
Proof.
  apply (mmn_round_trip 1 2 1).
  - split; [reflexivity|]. repeat constructor.
  - intros n k Hn Hk. assert (k = 0)%nat as -> by lia.
    destruct n as [|[|n]]; [| |lia]; eexists _, _;
      (split; [reflexivity|]); (split; [reflexivity|]); cbn; lia.
Defined.

End MmnFacts.


(** ** get_wannier: the reality check *)

Module RealityFacts.
Import Py Exact ExactComplex W90 PyFacts PhaseFacts Reality.
Local Open Scope R_scope.

Definition threshold : R := Q2R (1 # 100).

Lemma threshold_value : threshold = / 100.
Proof. unfold threshold, Q2R. cbn. lra. Qed.

(** The largest modulus of column [n], over the number of k-points, reaches
    0.01; or stays below. *)
Definition large (W : list (list (R * R))) (N : Z) (n : nat) : Prop :=
  exists i, (i < length W)%nat /\ threshold <= modulus (entry W i n) / IZR N.

Definition small (W : list (list (R * R))) (N : Z) (n : nat) : Prop :=
  forall i, (i < length W)%nat -> modulus (entry W i n) / IZR N < threshold.

Lemma fix_phase_length (nw : nat) (N : Z) (WF0 WF : list (list complex)) :
  fix_phase nw N WF0 = Ok WF -> length WF = length WF0.
Proof.
  unfold fix_phase. intros H.
  destruct (mapM _ (range nw)) as [ms|e]; [|discriminate]. cbn [bind] in H.
  destruct (mapM _ (range nw)) as [ws|e]; [|discriminate]. cbn [bind] in H.
  apply mapM_length in H. exact H.
Qed.

Lemma column_of {A} (WF : list (list A)) (n : nat) (f : nat -> A) :
  forall s,
    (forall i, (i < length WF)%nat ->
               exists row, nth_error WF i = Some row /\
                           nth_error row n = Some (f (s + i)%nat)) ->
    column WF n = Ok (map f (seq s (length WF))).
Proof.
  unfold column. induction WF as [|row WF IH]; intros s H; [reflexivity|].
  cbn [mapM length seq map].
  destruct (H 0%nat ltac:(cbn; lia)) as (row0 & [= <-] & H0).
  rewrite getitem_nat, H0, Nat.add_0_r.
  rewrite (IH (S s)); [reflexivity|].
  intros i Hi. destruct (H (S i) ltac:(cbn; lia)) as (r & Hr & Hn).
  exists r. split; [exact Hr|]. rewrite Hn. f_equal. f_equal. lia.
Qed.

Lemma divided_zero (z : R * R) (N : Z) : divided z (0, 0) N = None.
Proof.
  unfold divided. cbn [absolute of_float].
  replace (0 * 0 + 0 * 0) with 0 by ring. rewrite sqrt_0.
  assert (div (Some (0, 0)) (Some (0, 0)) = None) as ->.
  { cbn. destruct (Req_dec_T (0 * 0 + 0 * 0) 0) as [_|E]; [reflexivity|].
    exfalso. apply E. ring. }
  destruct z. reflexivity.
Qed.

Lemma modulus_le (z w : R * R) :
  modulus2 z <= modulus2 w -> modulus z <= modulus w.
Proof. intros H. apply sqrt_le_1_alt. exact H. Qed.

Lemma abs_real_le_modulus (z : R * R) : Rabs (fst z) <= modulus z.
Proof.
  destruct z as [a b]. unfold modulus, modulus2. cbn [fst snd].
  rewrite <- sqrt_Rsqr_abs. apply sqrt_le_1_alt. unfold Rsqr. nra.
Qed.

Lemma modulus_fixed (z w : R * R) (N : Z) :
  w <> (0, 0) -> (0 < N)%Z -> modulus (fixed z w N) = modulus z / IZR N.
Proof.
  intros Hw HN. unfold modulus at 1. rewrite fixed_modulus2 by assumption.
  assert (0 < IZR N) as HNr by (apply IZR_lt; assumption).
  rewrite sqrt_div_alt by nra. rewrite sqrt_square by lra. reflexivity.
Qed.

Lemma geb_Some (a : R) :
  geb (fabs (Some a)) (lit (1 # 100)) = true <-> threshold <= Rabs a.
Proof.
  cbn. fold threshold. destruct (Rle_dec threshold (Rabs a)); split;
    intros; try assumption; try reflexivity; try discriminate; contradiction.
Qed.

Lemma filter_none {A} (p : A -> bool) (l : list A) :
  (forall x, In x l -> p x = false) -> filter p l = [].
Proof.
  induction l as [|x l IH]; intros H; [reflexivity|].
  cbn [filter]. rewrite (H x (or_introl eq_refl)). apply IH.
  intros y Hy. apply H. now right.
Qed.

(** The maximum of finite floats. *)
Lemma amax_Some (l : list R) :
  l <> [] -> (forall x, In x l -> 0 <= x) ->
  exists x, KPath.amax (map Some l) = Ok (Some x) /\ 0 <= x.
Proof.
  destruct l as [|x l]; [contradiction|]. intros _ H.
  cbn [map KPath.amax].
  assert (forall (m : R), 0 <= m -> (forall y, In y l -> 0 <= y) ->
            exists r, fold_left
                        (fun (m y : option R) =>
                           if KPath.isnan m then m
                           else if KPath.isnan y then y
                           else if fltb m y then y else m)
                        (map Some l) (Some m) = Some r /\ 0 <= r) as G.
  { clear. induction l as [|y l IH]; intros m Hm Hl;
      [exists m; split; [reflexivity | assumption]|].
    cbn [map fold_left]. rewrite !KPathFacts.isnan_Some.
    cbn [fltb Exact.exact Exact.ltb].
    destruct (Rlt_dec m y).
    - apply IH; [apply Hl; now left | intros; apply Hl; now right].
    - apply IH; [assumption | intros; apply Hl; now right]. }
  destruct (G x) as (r & Hr & Hr0).
  - apply H. now left.
  - intros y Hy. apply H. now right.
  - exists r. rewrite Hr. split; [reflexivity | assumption].
Qed.

(** The column of a Wannier function after the phase fix. *)
Lemma fixed_column (nw : nat) (N : Z) (W : list (list (R * R))) :
  rectangular nw W -> W <> [] ->
  exists WF, fix_phase nw N (finite W) = Ok WF /\
    forall n, (n < nw)%nat ->
      exists m, (m < length W)%nat /\
        (forall i, (i < length W)%nat ->
                   modulus2 (entry W i n) <= modulus2 (entry W m n)) /\
        column WF n =
        Ok (map (fun i => divided (entry W i n) (entry W m n) N)
                (seq 0 (length W))).
Proof.
  intros Hr Hne.
  destruct (fix_phase_finite nw N W Hr Hne) as (ms & WF & HWF & Lms & Hmax & Hent).
  exists WF. split; [exact HWF|]. intros n Hn.
  destruct (nth_error ms n) as [m|] eqn:Em;
    [|apply nth_error_None in Em; lia].
  destruct (Hmax n m Em) as [Hm Hle].
  exists m. split; [exact Hm|]. split; [exact Hle|].
  pose proof (fix_phase_length _ _ _ _ HWF) as L.
  unfold finite in L. rewrite length_map in L. rewrite <- L.
  apply column_of. intros i Hi. cbn [Nat.add].
  apply (Hent i n m); [lia | exact Em].
Qed.

Lemma ratio_max_small (nw : nat) (N : Z) (W : list (list (R * R))) WF (n : nat) :
  rectangular nw W -> W <> [] -> (0 < N)%Z ->
  fix_phase nw N (finite W) = Ok WF -> (n < nw)%nat ->
  small W N n -> ratio_max WF n = Raise ValueError.
Proof.
  intros Hr Hne HN HWF Hn Hsmall.
  destruct (fixed_column nw N W Hr Hne) as (WF' & HWF' & Hcol).
  rewrite HWF in HWF'. injection HWF' as <-.
  unfold ratio_max.
  destruct (Hcol n Hn) as (m & Hm & Hle & ->). cbn [bind].
  rewrite filter_none; [reflexivity|].
  intros z Hz. apply in_map_iff in Hz as (i & <- & Hi). apply in_seq in Hi.
  destruct (Req_dec_T (modulus2 (entry W m n)) 0) as [E|E].
  - apply modulus2_zero in E. rewrite E, divided_zero. reflexivity.
  - assert (entry W m n <> (0, 0)) as Hw by (intros E'; apply E, modulus2_zero, E').
    unfold divided. rewrite fixed_entry by assumption.
    cbn [real]. destruct (fixed (entry W i n) (entry W m n) N) as [a b] eqn:Ef.
    destruct (geb (fabs (Some a)) (lit (1 # 100))) eqn:G; [|reflexivity].
    apply geb_Some in G. exfalso.
    pose proof (abs_real_le_modulus (a, b)) as Ha. cbn [fst] in Ha.
    rewrite <- Ef, modulus_fixed in Ha by assumption.
    specialize (Hsmall i ltac:(lia)). lra.
Qed.

Lemma ratio_max_large (nw : nat) (N : Z) (W : list (list (R * R))) WF (n : nat) :
  rectangular nw W -> W <> [] -> (0 < N)%Z ->
  fix_phase nw N (finite W) = Ok WF -> (n < nw)%nat ->
  large W N n -> exists x, ratio_max WF n = Ok (Some x) /\ 0 <= x.
Proof.
  intros Hr Hne HN HWF Hn (i0 & Hi0 & Hlarge).
  assert (0 < IZR N) as HNr by (apply IZR_lt; assumption).
  assert (0 < threshold) as Ht by (rewrite threshold_value; lra).
  destruct (fixed_column nw N W Hr Hne) as (WF' & HWF' & Hcol).
  rewrite HWF in HWF'. injection HWF' as <-.
  unfold ratio_max.
  destruct (Hcol n Hn) as (m & Hm & Hle & ->). cbn [bind].
  assert (threshold <= modulus (entry W m n) / IZR N) as Hpeak.
  { pose proof (modulus_le _ _ (Hle i0 Hi0)) as H.
    apply Rle_trans with (modulus (entry W i0 n) / IZR N); [exact Hlarge|].
    apply Rmult_le_compat_r; [|exact H].
    apply Rlt_le, Rinv_0_lt_compat, HNr. }
  assert (entry W m n <> (0, 0)) as Hw.
  { intros E. rewrite E in Hpeak. unfold modulus, modulus2 in Hpeak.
    cbn [fst snd] in Hpeak. replace (0 * 0 + 0 * 0) with 0 in Hpeak by ring.
    rewrite sqrt_0 in Hpeak. unfold Rdiv in Hpeak. rewrite Rmult_0_l in Hpeak. lra. }
  rewrite (map_ext (fun i => divided (entry W i n) (entry W m n) N)
                   (fun i => Some (fixed (entry W i n) (entry W m n) N)))
    by (intros; apply fixed_entry; assumption).
  rewrite <- (map_map (fun i => fixed (entry W i n) (entry W m n) N) Some).
  set (zs := map (fun i => fixed (entry W i n) (entry W m n) N) (seq 0 (length W))).
  assert (In (modulus (entry W m n) / IZR N, 0) zs) as Hin.
  { unfold zs. apply in_map_iff. exists m.
    split; [apply fixed_self; assumption | apply in_seq; lia]. }
  clearbody zs.
  set (keep := fun z : R * R => if Rle_dec threshold (Rabs (fst z)) then true else false).
  assert (filter (fun z => geb (fabs (real z)) (lit (1 # 100))) (map Some zs)
          = map Some (filter keep zs)) as ->.
  { clear. induction zs as [|[a b] zs IH]; [reflexivity|].
    cbn [map filter]. rewrite IH.
    cbn [fst real fabs Exact.lift1 geb lit Exact.exact]. fold threshold.
    subst keep. cbn beta. cbn [fst].
    destruct (Rle_dec threshold (Rabs a)); reflexivity. }
  rewrite map_map.
  assert (map (fun z => fabs (fdiv (imag (Some z)) (real (Some z)))) (filter keep zs)
          = map Some (map (fun z => Rabs (snd z / fst z)) (filter keep zs))) as ->.
  { rewrite map_map. apply map_ext_in. intros [a b] Hz.
    apply filter_In in Hz as [_ Hk]. unfold keep in Hk. cbn [fst snd] in *.
    destruct (Rle_dec threshold (Rabs a)) as [Ha|]; [|discriminate].
    cbn [imag real]. rewrite RadiusFacts.div_Some; [reflexivity|].
    intros ->. rewrite Rabs_R0 in Ha. lra. }
  apply amax_Some.
  - assert (In (modulus (entry W m n) / IZR N, 0) (filter keep zs)) as Hk.
    { apply filter_In. split; [exact Hin|]. unfold keep. cbn [fst].
      destruct (Rle_dec threshold (Rabs (modulus (entry W m n) / IZR N)))
        as [|Hno]; [reflexivity|].
      exfalso. apply Hno. rewrite Rabs_right; [exact Hpeak | lra]. }
    intros E. apply map_eq_nil in E. rewrite E in Hk. contradiction.
  - intros x Hx. apply in_map_iff in Hx as (z & <- & _). apply Rabs_pos.
Qed.

(** *** The loop *)

Definition printed_ratios (out : list (nat * option R)) : Prop :=
  Forall (fun p => exists x, snd p = Some x /\ 0 <= x) out.

Lemma reality_check_stops (WF : list (list complex)) (pre : list nat) (rest : list nat) :
  (forall k, In k pre -> exists x, ratio_max WF k = Ok (Some x) /\ 0 <= x) ->
  exists out,
    map fst out = pre /\ printed_ratios out /\
    reality_check WF (pre ++ rest) =
    (out ++ fst (reality_check WF rest), snd (reality_check WF rest)).
Proof.
  induction pre as [|k pre IH]; intros H.
  - exists []. split; [reflexivity|]. split; [constructor|].
    cbn [app]. now destruct (reality_check WF rest).
  - destruct (H k (or_introl eq_refl)) as (x & Hx & Hx0).
    destruct IH as (out & Hout & Hp & Hrc).
    { intros j Hj. apply H. now right. }
    exists ((k, Some x) :: out). split; [cbn; now rewrite Hout|].
    split; [constructor; [exists x; split; [reflexivity | assumption] | exact Hp]|].
    cbn [app reality_check]. rewrite Hx, Hrc. reflexivity.
Qed.

Lemma range_split (nw n : nat) :
  (n < nw)%nat -> range nw = range n ++ n :: seq (S n) (nw - S n).
Proof.
  intros Hn. unfold range.
  replace nw with (n + S (nw - S n))%nat at 1 by lia.
  rewrite seq_app. reflexivity.
Qed.

(** X15.  The end of [get_wannier] (phase fix, reality check, return) on a
    finite grid with [nw] Wannier functions, at least one grid point and
    at least one k-point, in exact arithmetic.  When every Wannier function
    has somewhere a modulus of at least 0.01 * num_kpts, one ratio is
    printed per function, none of them nan, and the fixed grid is returned.
    When the first function whose modulus stays below 0.01 * num_kpts on
    the whole grid is function [n], the ratios of the functions before are
    printed and the maximum over an empty selection raises ValueError: no
    grid is returned. *)
Theorem reality_check_needs_large_values
        (nw : nat) (N : Z) (W : list (list (R * R))) :
  rectangular nw W -> W <> [] -> (0 < N)%Z ->
  ((forall n, (n < nw)%nat -> large W N n) ->
   exists out WF,
     get_wannier_tail nw N (finite W) = (out, Ok WF) /\
     fix_phase nw N (finite W) = Ok WF /\
     map fst out = range nw /\ printed_ratios out) /\
  (forall n, (n < nw)%nat -> small W N n ->
             (forall k, (k < n)%nat -> large W N k) ->
   exists out,
     get_wannier_tail nw N (finite W) = (out, Raise ValueError) /\
     map fst out = range n /\ printed_ratios out).
Proof.
  intros Hr Hne HN.
  destruct (fix_phase_finite nw N W Hr Hne) as (ms & WF & HWF & _).
  unfold get_wannier_tail. rewrite HWF. split.
  - intros Hl.
    destruct (reality_check_stops WF (range nw) []) as (out & Hout & Hp & Hrc).
    { intros k Hk. apply In_range in Hk.
      apply (ratio_max_large nw N W WF k); auto. }
    rewrite app_nil_r in Hrc. rewrite Hrc. cbn [reality_check fst snd bind].
    exists (out ++ []), WF. rewrite app_nil_r. repeat split; assumption.
  - intros n Hn Hs Hl.
    destruct (reality_check_stops WF (range n) (n :: seq (S n) (nw - S n)))
      as (out & Hout & Hp & Hrc).
    { intros k Hk. apply In_range in Hk.
      apply (ratio_max_large nw N W WF k); auto. lia. }
    rewrite (range_split nw n Hn), Hrc. cbn [reality_check].
    rewrite (ratio_max_small nw N W WF n Hr Hne HN HWF Hn Hs).
    cbn [fst snd bind]. exists (out ++ []). rewrite app_nil_r.
    repeat split; assumption.
Qed.

Lemma modulus_real (a : R) : 0 <= a -> modulus (a, 0) = a.
Proof.
  intros Ha. unfold modulus, modulus2. cbn [fst snd].
  replace (a * a + 0 * 0) with (a * a) by ring. apply sqrt_square, Ha.
Qed.

Lemma reality_check_needs_large_values_witness :
  (exists out WF, get_wannier_tail 1 1 (finite [[(1, 0)]]) = (out, Ok WF)) /\
  (exists out, get_wannier_tail 1 1 (finite [[(/ 1000, 0)]])
               = (out, Raise ValueError)).
Proof.
  split.
  - destruct (reality_check_needs_large_values 1 1 [[(1, 0)]]) as [H _].
    + repeat constructor.
    + discriminate.
    + lia.
    + destruct H as (out & WF & H & _).
      * intros n Hn. assert (n = 0)%nat as -> by lia. exists 0%nat.
        split; [cbn; lia|]. unfold entry. cbn [nth].
        rewrite modulus_real, threshold_value by lra. lra.
      * exists out, WF. exact H.
  - destruct (reality_check_needs_large_values 1 1 [[(/ 1000, 0)]]) as [_ H].
    + repeat constructor.
    + discriminate.
    + lia.
    + destruct (H 0%nat) as (out & Ho & _).
      * lia.
      * intros i Hi. cbn in Hi. assert (i = 0)%nat as -> by lia.
        unfold entry. cbn [nth].
        rewrite modulus_real, threshold_value by lra. lra.
      * intros k Hk. lia.
      * exists out. exact Ho.
Defined.

End RealityFacts.


(** ** plot_pband: the band window *)

Module BandWindowFacts.
Import Py BandWindow.
Local Open Scope Z_scope.

Lemma getitem_first (a b : Z) (rest : list Z) :
  getitem (a :: b :: rest) 0 = Ok a.
Proof. apply (PyFacts.getitem_nat (a :: b :: rest) 0). Qed.

Lemma getitem_second (a b : Z) (rest : list Z) :
  getitem (a :: b :: rest) 1 = Ok b.
Proof. apply (PyFacts.getitem_nat (a :: b :: rest) 1). Qed.

Ltac same_window :=
  apply f_equal2; [|reflexivity];
  apply f_equal2; [lia|]; apply f_equal2; [lia | reflexivity].

Lemma window_pair (nbands b0 b1 : Z) (rest : list Z) :
  b0 <= b1 ->
  window nbands (b0 :: b1 :: rest) =
  ((Z.max b0 1 - 1) :: (Z.min b1 nbands - 1) :: rest, Ok tt).
Proof.
  intros H. unfold window.
  rewrite getitem_first, getitem_second.
  destruct (Z.leb_spec b0 b1) as [_|]; [|lia].
  destruct (Z.ltb_spec b0 1); destruct (Z.ltb_spec nbands b1);
    cbn [setitem nth]; same_window.
Qed.

(** X16.  The band window of [plot_pband] for a list [band_idx] of two
    ints (or more), given by the caller.  The lines change the caller's
    list: after a call it holds the zero-based window
    [max(b0, 1) - 1, min(b1, nbands) - 1].  A list with fewer than two
    entries raises IndexError, one with b0 > b1 fails the assert, both
    unchanged.  Calling again with the same list therefore moves the
    window: for 1 <= b0 <= b1 <= nbands, the k-th call (k <= b0) plots the
    bands b0 - k to b1 - k; and after a first call with b1 < 1 or
    b0 > nbands the second call fails the assert. *)
Theorem band_window_moves_on_every_call (nbands b0 b1 : Z) (rest : list Z) :
  window nbands [] = ([], Raise IndexError) /\
  window nbands [b0] = ([b0], Raise IndexError) /\
  (b1 < b0 ->
   window nbands (b0 :: b1 :: rest) = (b0 :: b1 :: rest, Raise AssertionError)) /\
  (b0 <= b1 ->
   window nbands (b0 :: b1 :: rest) =
   ((Z.max b0 1 - 1) :: (Z.min b1 nbands - 1) :: rest, Ok tt)) /\
  (1 <= b0 <= b1 -> b1 <= nbands ->
   forall k, Z.of_nat k <= b0 ->
     calls k nbands (b0 :: b1 :: rest) =
     ((b0 - Z.of_nat k) :: (b1 - Z.of_nat k) :: rest, Ok tt)) /\
  (b0 <= b1 -> b1 < 1 \/ nbands < b0 -> 1 <= nbands ->
   snd (calls 2 nbands (b0 :: b1 :: rest)) = Raise AssertionError).
Proof.
  split; [reflexivity|]. split; [reflexivity|]. split; [|split; [|split]].
  - intros H. unfold window.
    rewrite getitem_first, getitem_second.
    destruct (Z.leb_spec b0 b1); [lia | reflexivity].
  - apply window_pair.
  - intros H0 H1 k. revert b0 b1 H0 H1.
    induction k as [|k IH]; intros b0 b1 H0 H1 Hk.
    + cbn [calls]. same_window.
    + cbn [calls]. rewrite window_pair by lia.
      destruct (Z.eq_dec b0 1) as [->|Hb].
      * assert (k = 0)%nat as -> by lia. cbn [calls].
        same_window.
      * replace (Z.max b0 1 - 1) with (b0 - 1) by lia.
        replace (Z.min b1 nbands - 1) with (b1 - 1) by lia.
        rewrite IH by lia. same_window.
  - intros H Hout Hn. cbn [calls]. rewrite window_pair by lia.
    cbn [calls]. unfold window.
    rewrite getitem_first, getitem_second.
    destruct (Z.leb_spec (Z.max b0 1 - 1) (Z.min b1 nbands - 1)); [lia|].
    reflexivity.
Qed.

End BandWindowFacts.


(** ** _generate_pband, style 3: the share of the first group *)

Module PbandShare.
Import Py Pband PyFacts PbandFacts PbandGroups Exact.
Local Open Scope R_scope.

(** [_generate_pband] on the floats of exact arithmetic. *)
Definition generate_pband_exact :=
  generate_pband fadd fdiv (Some 0).

(** Projections that are numbers: [P[kpt][band][atom][lm]]. *)
Definition numbers (P : list (list (list (list R))))
  : list (list (list (list (option R)))) :=
  map (map (map (map Some))) P.

(** The sum over the atoms of the projection on the label at index [i], at
    one k-point and band. *)
Definition atom_sum (rows : list (list R)) (i : nat) : R :=
  fold_left (fun acc row => acc + nth i row 0) rows 0.

(** [lm_list.index(o)] of a label. *)
Definition position (lm_list : list string) (o : string) : nat :=
  match index lm_list o with
  | Ok i => i
  | Raise _ => 0%nat
  end.

(** The weight of a group of orbitals at one k-point and band: the sum over
    its orbitals and over the atoms. *)
Definition group_weight (lm_list : list string) (each_lm : value)
           (rows : list (list R)) : R :=
  fold_right Rplus 0
    (map (fun o => atom_sum rows (position lm_list o)) (orbitals_of each_lm)).

(** The two groups of a shortcut of style 3 (lines 500-505). *)
Definition shortcut_items (lm : string) : list value :=
  if String.eqb lm "sp" then [Str "s"; strs p_orbitals]
  else if String.eqb lm "sd" then [Str "s"; strs d_orbitals]
  else [strs p_orbitals; strs d_orbitals].

Lemma shortcut_groups (lm : string) : Forall group (shortcut_items lm).
Proof.
  assert (group (strs p_orbitals)) as Hp.
  { split; [discriminate|]. repeat constructor; eexists; reflexivity. }
  assert (group (strs d_orbitals)) as Hd.
  { split; [discriminate|]. repeat constructor; eexists; reflexivity. }
  unfold shortcut_items.
  destruct (String.eqb lm "sp"); [|destruct (String.eqb lm "sd")];
    repeat (apply Forall_cons; [first [exact I | assumption]|]); apply Forall_nil.
Qed.

(** *** Arrays of one shape, entry by entry *)

Lemma map2_map {A B} (f : B -> B -> B) (g h : A -> B) (l : list A) :
  map2 f (map g l) (map h l) = map (fun x => f (g x) (h x)) l.
Proof.
  unfold map2. induction l as [|x l IH]; [reflexivity|].
  cbn [map combine fst snd]. f_equal. exact IH.
Qed.

Lemma map2_Some (a b : list R) :
  map2 fadd (map Some a) (map Some b) = map Some (map2 Rplus a b).
Proof.
  unfold map2. revert b. induction a as [|x a IH]; intros [|y b];
    try reflexivity.
  cbn [map combine fst snd]. f_equal. apply IH.
Qed.

Lemma map2_nth (a b : list R) (i : nat) :
  (i < length a)%nat -> (i < length b)%nat ->
  nth i (map2 Rplus a b) 0 = nth i a 0 + nth i b 0.
Proof.
  unfold map2. revert b i. induction a as [|x a IH]; intros [|y b] [|i] Ha Hb;
    cbn in *; try lia; try reflexivity.
  apply IH; lia.
Qed.

Lemma sum_rows_nth (n i : nat) (rows : list (list R)) : forall init : list R,
  Forall (fun v => length v = n) rows -> length init = n -> (i < n)%nat ->
  nth_error (fold_left (map2 fadd) (map (map Some) rows) (map Some init)) i =
  Some (Some (fold_left (fun acc row => acc + nth i row 0) rows (nth i init 0))).
Proof.
  induction rows as [|r rows IH]; intros init Hrows Hinit Hi.
  - cbn [map fold_left]. rewrite nth_error_map.
    rewrite (nth_error_nth' init 0) by lia. reflexivity.
  - pose proof (Forall_inv Hrows) as Hr.
    pose proof (Forall_inv_tail Hrows) as Hrest. cbn beta in Hr.
    cbn [map fold_left]. rewrite map2_Some.
    rewrite IH; [|exact Hrest| |exact Hi].
    + rewrite map2_nth by lia. reflexivity.
    + rewrite map2_length, Hinit, Hr. apply Nat.min_id.
Qed.

Lemma mapM_map_ok {A B C} (f : B -> result C) (h : A -> B) (k : A -> C)
      (l : list A) :
  (forall x, In x l -> f (h x) = Ok (k x)) ->
  mapM f (map h l) = Ok (map k l).
Proof.
  induction l as [|x l IH]; intros H; [reflexivity|].
  cbn [map mapM]. rewrite (H x (or_introl eq_refl)). cbn [bind].
  rewrite IH by (intros y Hy; apply H; right; exact Hy). reflexivity.
Qed.

(** The array of the values [w] at every k-point and band. *)
Definition on_bands (P : list (list (list (list R)))) (w : list (list R) -> R)
  : list (list (option R)) :=
  map (map (fun rows => Some (w rows))) P.

Section Projections.

Variable lm_list : list string.
Variable P : list (list (list (list R))).
Hypothesis Hshape :
  Forall (Forall (Forall (fun v => length v = length lm_list))) P.

Let summed := sum_atoms fadd (Some 0) (length lm_list) (numbers P).

(** [proj_wf.sum(axis=2)[:,:,i]] *)
Lemma column_summed (i : nat) :
  (i < length lm_list)%nat ->
  Pband.column summed i = Ok (on_bands P (fun rows => atom_sum rows i)).
Proof.
  intros Hi. unfold summed, Pband.column, sum_atoms, numbers, on_bands.
  rewrite map_map.
  apply mapM_map_ok. intros kpt Hkpt. rewrite map_map.
  apply mapM_map_ok. intros rows Hrows.
  rewrite Forall_forall in Hshape. specialize (Hshape kpt Hkpt).
  rewrite Forall_forall in Hshape. specialize (Hshape rows Hrows).
  rewrite getitem_nat.
  replace (repeat (Some 0) (length lm_list))
    with (map Some (repeat 0 (length lm_list))) by apply map_repeat.
  rewrite (sum_rows_nth (length lm_list) i rows _ Hshape
             (repeat_length _ _) Hi).
  unfold atom_sum. rewrite nth_repeat. reflexivity.
Qed.

Lemma index_position (o : string) :
  mem o lm_list = true ->
  index lm_list o = Ok (position lm_list o) /\
  (position lm_list o < length lm_list)%nat.
Proof.
  intros Hm. destruct (index_from_Ok lm_list o 0 Hm) as (i & Hi).
  pose proof (index_from_bound _ _ _ _ Hi) as Hb.
  unfold position, index. rewrite Hi. split; [reflexivity | lia].
Qed.

Lemma grid_add_on_bands (w c : list (list R) -> R) :
  grid_add fadd (on_bands P w) (on_bands P c) =
  on_bands P (fun rows => w rows + c rows).
Proof.
  unfold grid_add, on_bands. rewrite map2_map. apply map_ext. intros kpt.
  now rewrite map2_map.
Qed.

Lemma grid_div_on_bands (w c : list (list R) -> R) :
  grid_div fdiv (on_bands P w) (on_bands P c) =
  map (map (fun rows => fdiv (Some (w rows)) (Some (c rows)))) P.
Proof.
  unfold grid_div, on_bands. rewrite map2_map. apply map_ext. intros kpt.
  now rewrite map2_map.
Qed.

Lemma on_bands_ext (w c : list (list R) -> R) :
  (forall rows, w rows = c rows) -> on_bands P w = on_bands P c.
Proof.
  intros H. unfold on_bands. apply map_ext. intros kpt. apply map_ext.
  intros rows. now rewrite H.
Qed.

(** The loop over the orbitals of a group (lines 530-534), from a running
    sum that is an array already. *)
Lemma orbitals_loop (names : list string) : forall w : list (list R) -> R,
  forallb (fun o => mem o lm_list) names = true ->
  foldM (fun proj_val orb =>
           match orb with
           | Str o =>
               (idx_lm <- index lm_list o ;;
                g <- Pband.column summed idx_lm ;;
                Ok (add_grid fadd (Some 0) proj_val g))%py
           | _ => Raise ValueError
           end) (map Str names) (Sum (on_bands P w)) =
  Ok (Sum (on_bands P (fun rows =>
             fold_left (fun acc o => acc + atom_sum rows (position lm_list o))
                       names (w rows)))).
Proof.
  induction names as [|o names IH]; intros w Hm; [reflexivity|].
  cbn [forallb] in Hm. apply andb_prop in Hm as [Ho Hm].
  destruct (index_position o Ho) as [Hi Hb].
  cbn [map foldM]. rewrite Hi. cbn [bind].
  rewrite (column_summed _ Hb). cbn [bind add_grid].
  rewrite grid_add_on_bands. rewrite (IH _ Hm). reflexivity.
Qed.

Lemma sum_of_group (f : string -> R) (names : list string) : forall a : R,
  fold_left (fun acc o => acc + f o) names a =
  a + fold_right Rplus 0 (map f names).
Proof.
  induction names as [|o names IH]; intros a; cbn [fold_left map fold_right].
  - ring.
  - rewrite IH. ring.
Qed.

(** One group of a shortcut: its array holds the weight of the group. *)
Lemma projection_value (each_lm : value) :
  (exists s, each_lm = Str s) \/
  (exists names, names <> [] /\ each_lm = strs names) ->
  forallb (fun o => mem o lm_list) (orbitals_of each_lm) = true ->
  projection fadd fdiv (Some 0) lm_list summed None each_lm =
  Ok (Sum (on_bands P (group_weight lm_list each_lm))).
Proof.
  intros [(s & ->) | (names & Hne & ->)] Hm.
  - cbn [orbitals_of forallb] in Hm. rewrite andb_true_r in Hm.
    destruct (index_position s Hm) as [Hi Hb].
    cbn [projection]. rewrite Hi. cbn [bind].
    rewrite (column_summed _ Hb). cbn [bind]. do 2 f_equal.
    apply on_bands_ext. intros rows. unfold group_weight.
    cbn [orbitals_of map fold_right]. ring.
  - assert (orbitals_of (strs names) = names) as Hn.
    { unfold strs. cbn [orbitals_of]. clear.
      induction names as [|o names IH]; [reflexivity|].
      cbn [map flat_map app]. now rewrite IH. }
    rewrite Hn in Hm. unfold group_weight. rewrite Hn.
    destruct names as [|o names]; [now elim Hne|].
    cbn [forallb] in Hm. apply andb_prop in Hm as [Ho Hm].
    destruct (index_position o Ho) as [Hi Hb].
    unfold strs. cbn [projection map foldM]. rewrite Hi. cbn [bind].
    rewrite (column_summed _ Hb). cbn [bind add_grid].
    change (map (map (fadd (Some 0)))
                (on_bands P (fun rows => atom_sum rows (position lm_list o))))
      with (map (map (fadd (Some 0)))
                (map (map (fun rows => Some (atom_sum rows (position lm_list o)))) P)).
    rewrite map_map.
    assert (map (fun kpt => map (fadd (Some 0))
                   (map (fun rows => Some (atom_sum rows (position lm_list o))) kpt)) P
            = on_bands P (fun rows => 0 + atom_sum rows (position lm_list o))) as ->.
    { unfold on_bands. apply map_ext. intros kpt. now rewrite map_map. }
    rewrite (orbitals_loop names _ Hm). do 2 f_equal.
    apply on_bands_ext. intros rows. rewrite sum_of_group.
    cbn [map fold_right]. ring.
Qed.

End Projections.

Lemma atom_sum_nonneg (rows : list (list R)) (i : nat) :
  Forall (Forall (fun x => 0 <= x)) rows -> 0 <= atom_sum rows i.
Proof.
  intros H. unfold atom_sum.
  assert (forall a, 0 <= a ->
            0 <= fold_left (fun acc row => acc + nth i row 0) rows a) as G.
  { induction H as [|row rows Hrow _ IH]; intros a Ha; [exact Ha|].
    cbn [fold_left]. apply IH.
    assert (0 <= nth i row 0).
    { destruct (nth_in_or_default i row 0) as [Hin | ->]; [|lra].
      rewrite Forall_forall in Hrow. now apply Hrow. }
    lra. }
  apply G. lra.
Qed.

Lemma group_weight_nonneg (lm_list : list string) (each_lm : value)
      (rows : list (list R)) :
  Forall (Forall (fun x => 0 <= x)) rows -> 0 <= group_weight lm_list each_lm rows.
Proof.
  intros H. unfold group_weight.
  induction (orbitals_of each_lm) as [|o l IH]; cbn [map fold_right]; [lra|].
  pose proof (atom_sum_nonneg rows (position lm_list o) H). lra.
Qed.

(** X17.  [_generate_pband] in style 3 with a shortcut 'sp', 'sd' or 'pd',
    in exact arithmetic, on projections [P[kpt][band][atom][lm]] that are
    numbers, one per label of [lm_list].  The shortcut stands for two
    groups of orbitals; the weight of a group at a k-point and band is the
    sum of the projections over the orbitals of the group and over the
    atoms.  When the orbitals of both groups are labels, the call returns
    one array with an entry for every k-point and band: the weight of the
    first group divided by the sum of the weights of the two groups (line
    537).  When the projections are not negative, the weights are not
    negative, and the entry is nan where both groups have weight 0 and the
    share of the first group, a number between 0 and 1, elsewhere.  When an
    orbital is not a label, [lm_list.index] raises ValueError. *)
Theorem style_3_share
        (one_run : bool) (atom lm_list : list string)
        (P : list (list (list (list R)))) (lm : string) :
  mem lm lm_shortcut_3 = true ->
  Forall (Forall (Forall (fun v => length v = length lm_list))) P ->
  exists g1 g2,
    shortcut_items lm = [g1; g2] /\
    let w1 := group_weight lm_list g1 in
    let w2 := group_weight lm_list g2 in
    let share (rows : list (list R)) : option R :=
      fdiv (Some (w1 rows)) (Some (w1 rows + w2 rows)) in
    (forallb (fun o => mem o lm_list) (named [g1; g2]) = true ->
     generate_pband_exact one_run atom lm_list (numbers P) 3 (Str lm) =
     Ok (Arr2 (map (map share) P))) /\
    (forall rows, Forall (Forall (fun x => 0 <= x)) rows ->
       0 <= w1 rows /\ 0 <= w2 rows /\
       (w1 rows + w2 rows = 0 -> share rows = None) /\
       (w1 rows + w2 rows <> 0 ->
        share rows = Some (w1 rows / (w1 rows + w2 rows)) /\
        0 <= w1 rows / (w1 rows + w2 rows) <= 1)) /\
    (forallb (fun o => mem o lm_list) (named [g1; g2]) = false ->
     generate_pband_exact one_run atom lm_list (numbers P) 3 (Str lm) =
     Raise ValueError).
Proof.
  intros Hlm Hshape.
  assert (exists g1 g2, shortcut_items lm = [g1; g2] /\
            ((exists s, g1 = Str s) \/ (exists names, names <> [] /\ g1 = strs names)) /\
            ((exists s, g2 = Str s) \/ (exists names, names <> [] /\ g2 = strs names)))
    as (g1 & g2 & Hitems & Hg1 & Hg2).
  { unfold shortcut_items.
    destruct (String.eqb lm "sp"); [|destruct (String.eqb lm "sd")];
      do 2 eexists; (split; [reflexivity|]); split;
      first [ left; eexists; reflexivity
            | right; eexists; split; [|reflexivity]; discriminate ]. }
  exists g1, g2. split; [exact Hitems|]. cbv zeta.
  assert (generate_pband_exact one_run atom lm_list (numbers P) 3 (Str lm) =
          (pband <- mapM (projection fadd fdiv (Some 0) lm_list
                            (sum_atoms fadd (Some 0) (length lm_list) (numbers P))
                            None) [g1; g2] ;;
           pband <- asarray (Some 0) pband ;;
           match pband with
           | Arr3 (first :: rest) =>
               Ok (Arr2 (grid_div fdiv first (fold_left (grid_add fadd) rest first)))
           | Arr1 (first :: rest) =>
               Ok (Arr0 (fdiv first (fold_left fadd rest first)))
           | _ => Raise IndexError
           end)%py) as Hrun.
  { unfold generate_pband_exact, generate_pband.
    cbn [Z.eqb Pos.eqb]. rewrite Hlm. cbn [negb]. rewrite <- Hitems.
    unfold shortcut_items. unfold mem, lm_shortcut_3 in Hlm. cbn [existsb] in Hlm.
    destruct (String.eqb lm "sp"); [reflexivity|].
    destruct (String.eqb lm "sd"); [reflexivity|].
    destruct (String.eqb lm "pd"); [reflexivity | discriminate]. }
  split; [|split].
  - intros Hm. rewrite Hrun. unfold named in Hm. cbn [flat_map] in Hm.
    rewrite app_nil_r, forallb_app in Hm. apply andb_prop in Hm as [H1 H2].
    cbn [mapM].
    rewrite (projection_value lm_list P Hshape g1 Hg1 H1). cbn [bind].
    rewrite (projection_value lm_list P Hshape g2 Hg2 H2). cbn [bind].
    unfold asarray. cbn [forallb andb flat_map app bind fold_left].
    rewrite grid_add_on_bands, grid_div_on_bands. reflexivity.
  - intros rows Hrows.
    pose proof (group_weight_nonneg lm_list g1 rows Hrows) as H1.
    pose proof (group_weight_nonneg lm_list g2 rows Hrows) as H2.
    split; [exact H1|]. split; [exact H2|]. split.
    + intros ->. apply RadiusFacts.div_zero.
    + intros Hne. split; [apply RadiusFacts.div_Some, Hne|].
      set (a := group_weight lm_list g1 rows) in *.
      set (b := group_weight lm_list g2 rows) in *.
      assert (0 < a + b) by lra. split.
      * apply Rmult_le_pos; [lra|]. apply Rlt_le, Rinv_0_lt_compat. lra.
      * apply Rmult_le_reg_r with (a + b); [lra|]. field_simplify; lra.
  - intros Hm.
    destruct (projections (option R) fadd fdiv (Some 0) lm_list
                (sum_atoms fadd (Some 0) (length lm_list) (numbers P)) None
                (shortcut_items lm)) as [_ P2].
    + apply sum_atoms_rows. unfold numbers.
      apply Forall_map. eapply Forall_impl; [|exact Hshape]. intros kpt Hk.
      apply Forall_map. eapply Forall_impl; [|exact Hk]. intros rows Hr.
      apply Forall_map. eapply Forall_impl; [|exact Hr]. intros v Hv.
      now rewrite length_map.
    + apply shortcut_groups.
    + rewrite Hitems in P2. rewrite Hrun. unfold grid in *.
      rewrite (P2 Hm). reflexivity.
Qed.

(** One k-point, one band, one atom with projections 1 on s, 2 on py, 3 on
    pz and 4 on px: the share of s in sp is 1/10. *)
Lemma style_3_share_witness :
  generate_pband_exact true ["Ni"%string] vasp_lm_list
    (numbers [[[[1; 2; 3; 4; 0; 0; 0; 0; 0]]]]) 3 (Str "sp") =
  Ok (Arr2 [[Some (1 / 10)]]).
Proof.
  destruct (style_3_share true ["Ni"%string] vasp_lm_list
              [[[[1; 2; 3; 4; 0; 0; 0; 0; 0]]]] "sp" eq_refl)
    as (g1 & g2 & Hitems & Hval & _ & _).
  - repeat constructor.
  - injection Hitems as <- <-. rewrite (Hval eq_refl).
    cbn [map]. unfold group_weight, atom_sum, position.
    cbn [orbitals_of strs p_orbitals map flat_map app fold_right fold_left
         index index_from vasp_lm_list String.eqb Ascii.eqb Bool.eqb nth].
    rewrite RadiusFacts.div_Some by lra.
    match goal with
    | |- context [Some ?x] => replace x with (1 / 10) by lra
    end.
    reflexivity.
Defined.

End PbandShare.


(** ** mcu.wannier90.w90: the standard cell cannot be written *)

Module W90MainFacts.
Import Py W90Main.

Section Externals.

Variables Cell Symmetry : Type.
Variable get_sym : Cell -> result (bool * bool).
Variable get_sym_operators : Cell -> result Symmetry.
Variables cell_to_std cell_to_prim : Cell -> result Cell.
Variable p1 : Cell -> result Symmetry.
Variable write_cif_file : Cell -> Symmetry -> result unit.

(** X18.  The methods of [mcu.wannier90.w90.main] that handle the cell,
    whatever the functions of [mcu.cell] do.  On an object whose
    [get_symmetry()] was not called, [write_cif()] raises AttributeError,
    and [to_convcell()], when the conversion returns, has stored the
    standard cell in [self.cell] before it raises AttributeError.  Once
    [get_symmetry()] and then [to_convcell()] have returned, the object
    holds the standard cell, is marked as standard, and [write_cif()] on
    its own cell with [symmetry=True] raises AttributeError (the class has
    no [to_stdcell]) without writing. *)
Theorem standard_cell_cannot_be_written (self : main Cell) :
  (cell_type self = None ->
   write_cif get_sym_operators cell_to_prim p1 write_cif_file None true self
   = (self, Raise AttributeError) /\
   forall c, cell_to_std (cell self) = Ok c ->
     to_convcell cell_to_std None self
     = (Build_main c None, Raise AttributeError)) /\
  (forall self1 self2 r,
     get_symmetry get_sym None self = (self1, Ok tt) ->
     to_convcell cell_to_std None self1 = (self2, Ok r) ->
     r = None /\
     cell_to_std (cell self) = Ok (cell self2) /\
     (exists p, cell_type self2 = Some (true, p)) /\
     write_cif get_sym_operators cell_to_prim p1 write_cif_file None true self2
     = (self2, Raise AttributeError)).
Proof.
  split.
  - intros Hnone. split.
    + unfold write_cif. rewrite Hnone. reflexivity.
    + intros c Hc. unfold to_convcell, to_cell. rewrite Hc.
      unfold set_cell_type. cbn [cell_type]. rewrite Hnone. reflexivity.
  - intros self1 self2 r H1 H2.
    unfold get_symmetry in H1.
    destruct (get_sym (cell self)) as [t|e]; [|discriminate].
    injection H1 as <-.
    unfold to_convcell, to_cell, set_cell_type in H2. cbn [cell cell_type] in H2.
    destruct (cell_to_std (cell self)) as [c|e]; [|discriminate].
    destruct t as [s p]. injection H2 as <- <-.
    split; [reflexivity|]. split; [reflexivity|].
    split; [exists p; reflexivity|]. reflexivity.
Qed.

End Externals.

End W90MainFacts.


(** ** export_AME never computes and writes in one call *)

Module W90ExportFacts.
Import Py W90Export.

Section Externals.

Variables State Marr Aarr Earr : Type.
Variables make_win setup : State -> State * result unit.
Variable get_M_mat : State -> State * result Marr.
Variable get_A_mat : State -> State * result Aarr.
Variable get_epsilon_mat : State -> State * result Earr.
Variable write_files : w90 State Marr Aarr Earr -> w90 State Marr Aarr Earr * result unit.

Let export := export_AME make_win setup get_M_mat get_A_mat get_epsilon_mat
                         write_files.

(** X19.  [export_AME] on an object whose [A_matrix_loc] is None (as
    [__init__] leaves it), whatever the WAVECAR and libwannier90 give: the
    call never returns and never reaches the lines that write the files;
    it ends with an exception.  When the five steps that compute the
    matrices all return, the exception is the TypeError of the call of
    [export_unk], the three matrices are stored in the object, and a second
    call of [export_AME] goes straight to writing the files. *)
Theorem export_AME_first_call_raises (self : w90 State Marr Aarr Earr) :
  A_matrix_loc self = None ->
  (exists self' e, export self = (self', Raise e)) /\
  (forall s1 s2 s3 s4 s5 M A E,
     make_win (rest self) = (s1, Ok tt) -> setup s1 = (s2, Ok tt) ->
     get_M_mat s2 = (s3, Ok M) -> get_A_mat s3 = (s4, Ok A) ->
     get_epsilon_mat s4 = (s5, Ok E) ->
     let self' := Build_w90 s5 (Some M) (Some A) (Some E) in
     export self = (self', Raise TypeError) /\
     export self' = write_files self').
Proof.
  intros Hnone. unfold export, export_AME. rewrite Hnone. split.
  - destruct (make_win (rest self)) as [s1 [[]|e]]; [|eauto].
    destruct (setup s1) as [s2 [[]|e]]; [|eauto].
    destruct (get_M_mat s2) as [s3 [M|e]]; [|eauto].
    destruct (get_A_mat s3) as [s4 [A|e]]; [|eauto].
    destruct (get_epsilon_mat s4) as [s5 [E|e]]; eauto.
  - intros s1 s2 s3 s4 s5 M A E H1 H2 H3 H4 H5.
    rewrite H1, H2, H3, H4, H5. cbn. split; reflexivity.
Qed.

End Externals.

(** An object without a WAVECAR behind it: every step returns at once. *)
Lemma export_AME_first_call_raises_witness :
  exists self' e,
    export_AME (fun s : unit => (s, Ok tt)) (fun s => (s, Ok tt))
               (fun s => (s, Ok 0%nat)) (fun s => (s, Ok 0%nat))
               (fun s => (s, Ok 0%nat)) (fun self => (self, Ok tt))
               (Build_w90 tt None None None)
    = (self', Raise e).
Proof.
  apply (export_AME_first_call_raises unit nat nat nat
           (fun s => (s, Ok tt)) (fun s => (s, Ok tt))
           (fun s => (s, Ok 0%nat)) (fun s => (s, Ok 0%nat))
           (fun s => (s, Ok 0%nat)) (fun self => (self, Ok tt))
           (Build_w90 tt None None None)).
  reflexivity.
Defined.

End W90ExportFacts.


(** ** theta_lmr and the tables of the User Guide *)

Module TableFacts.
Import Py pywannier90 Exact RadiusFacts ProjectionFacts AngularFacts.
Local Open Scope R_scope.

(** A grid of directions, each given by its polar and azimuthal angle:
    [g_r] hands [theta_lmr] the cosines of the polar angles and the
    azimuthal angles; and the array of the values of an angular function on
    the grid. *)
Definition cosines (g : list (R * R)) : list (option R) :=
  map (fun d => Some (cos (fst d))) g.

Definition azimuths (g : list (R * R)) : list (option R) :=
  map (fun d => Some (snd d)) g.

Definition values (Y : UserGuide.angular) (g : list (R * R)) : list (option R) :=
  map (fun d => Some (Y (fst d) (snd d))) g.

Definition polar (d : R * R) : Prop := 0 <= fst d <= PI.

Lemma sin_of_cos (t : R) : 0 <= t <= PI -> sqrt (1 - cos t ^ 2) = sin t.
Proof.
  intros Ht. pose proof (sin_ge_0 t (proj1 Ht) (proj2 Ht)) as Hs.
  pose proof (sin2_cos2 t) as H. unfold Rsqr in H.
  replace (1 - cos t ^ 2) with (sin t * sin t) by (rewrite <- H; ring).
  apply sqrt_square, Hs.
Qed.

Lemma same_grid (g : list (R * R)) : length (cosines g) = length (azimuths g).
Proof. unfold cosines, azimuths. now rewrite !length_map. Qed.

Section Grid.

Variable g : list (R * R).
Hypothesis Hg : Forall polar g.

Ltac on_grid :=
  unfold theta;
  cbn [String.eqb Ascii.eqb Bool.eqb];
  rewrite ?same_grid, ?Nat.eqb_refl;
  unfold cosines, azimuths, values;
  rewrite ?CartesianFacts.zip_with_map, ?map_map;
  f_equal; apply map_ext_in; intros [t p] Hin;
  pose proof (proj1 (Forall_forall _ _) Hg _ Hin) as Ht;
  unfold polar in Ht; cbn [fst snd] in Ht |- *;
  pose proof (COS_bound t);
  rewrite ?lit_Q1; evaluate side_ok; f_equal;
  repeat change (Pos.to_nat 2) with 2%nat;
  repeat change (Pos.to_nat 3) with 3%nat;
  rewrite ?(sin_of_cos t Ht).

Ltac same_coefficient :=
  repeat match goal with
         | |- context [sqrt (?a / ?b / PI)] =>
             replace (a / b / PI) with (a / (b * PI)) by (field; apply PI_neq0)
         end;
  first [ring | field; side_ok].

(** The sixteen functions of [theta] on the grid are the sixteen entries of
    Table 3.1. *)
Lemma table_s :
  theta "s" (cosines g) (azimuths g) = Ok (values UserGuide.s g).
Proof. on_grid. unfold UserGuide.s. same_coefficient. Qed.

Lemma table_pz :
  theta "pz" (cosines g) (azimuths g) = Ok (values UserGuide.pz g).
Proof. on_grid. unfold UserGuide.pz. same_coefficient. Qed.

Lemma table_px :
  theta "px" (cosines g) (azimuths g) = Ok (values UserGuide.px g).
Proof. on_grid. unfold UserGuide.px. same_coefficient. Qed.

Lemma table_py :
  theta "py" (cosines g) (azimuths g) = Ok (values UserGuide.py g).
Proof. on_grid. unfold UserGuide.py. same_coefficient. Qed.

Lemma table_dz2 :
  theta "dz2" (cosines g) (azimuths g) = Ok (values UserGuide.dz2 g).
Proof. on_grid. unfold UserGuide.dz2. same_coefficient. Qed.

Lemma table_dxz :
  theta "dxz" (cosines g) (azimuths g) = Ok (values UserGuide.dxz g).
Proof. on_grid. unfold UserGuide.dxz. same_coefficient. Qed.

Lemma table_dyz :
  theta "dyz" (cosines g) (azimuths g) = Ok (values UserGuide.dyz g).
Proof. on_grid. unfold UserGuide.dyz. same_coefficient. Qed.

Lemma table_dx2_y2 :
  theta "dx2-y2" (cosines g) (azimuths g) = Ok (values UserGuide.dx2_y2 g).
Proof. on_grid. unfold UserGuide.dx2_y2. same_coefficient. Qed.

Lemma table_dxy :
  theta "pxy" (cosines g) (azimuths g) = Ok (values UserGuide.dxy g).
Proof. on_grid. unfold UserGuide.dxy. same_coefficient. Qed.

Lemma table_fz3 :
  theta "fz3" (cosines g) (azimuths g) = Ok (values UserGuide.fz3 g).
Proof. on_grid. unfold UserGuide.fz3. same_coefficient. Qed.

Lemma table_fxz2 :
  theta "fxz2" (cosines g) (azimuths g) = Ok (values UserGuide.fxz2 g).
Proof. on_grid. unfold UserGuide.fxz2. same_coefficient. Qed.

Lemma table_fyz2 :
  theta "fyz2" (cosines g) (azimuths g) = Ok (values UserGuide.fyz2 g).
Proof. on_grid. unfold UserGuide.fyz2. same_coefficient. Qed.

Lemma table_fz_x2_y2 :
  theta "fz(x2-y2)" (cosines g) (azimuths g) = Ok (values UserGuide.fz_x2_y2 g).
Proof. on_grid. unfold UserGuide.fz_x2_y2. same_coefficient. Qed.

Lemma table_fxyz :
  theta "fxyz" (cosines g) (azimuths g) = Ok (values UserGuide.fxyz g).
Proof. on_grid. unfold UserGuide.fxyz. same_coefficient. Qed.

Lemma table_fx_x2_3y2 :
  theta "fx(x2-3y2)" (cosines g) (azimuths g) = Ok (values UserGuide.fx_x2_3y2 g).
Proof. on_grid. unfold UserGuide.fx_x2_3y2. same_coefficient. Qed.

Lemma table_fy_3x2_y2 :
  theta "fy(3x2-y2)" (cosines g) (azimuths g) = Ok (values UserGuide.fy_3x2_y2 g).
Proof. on_grid. unfold UserGuide.fy_3x2_y2. same_coefficient. Qed.

Ltac hybrid_on_grid :=
  cbn [bind]; unfold values;
  repeat (rewrite map_map || rewrite CartesianFacts.zip_with_map);
  f_equal; apply map_ext; intros [t p]; cbn [fst snd];
  rewrite ?lit_Q1; evaluate side_ok; f_equal.

(** The hybrids of [theta_lmr] on the grid are the entries of Table 3.2. *)
Lemma table_sp (plus : bool) :
  sp_ plus (cosines g) (azimuths g) =
  Ok (values (if plus then UserGuide.sp_1 else UserGuide.sp_2) g).
Proof.
  unfold sp_. rewrite table_s, table_px.
  destruct plus; hybrid_on_grid;
    try (unfold UserGuide.sp_1, UserGuide.sp_2; field; side_ok).
Qed.

Lemma table_sp2_like (sign : bool) :
  sp2_like (lit 1 / fsqrt (lit 3))%fl (lit 1 / fsqrt (lit 6))%fl
           (lit 1 / fsqrt (lit 2))%fl sign (cosines g) (azimuths g) =
  Ok (values (if sign then UserGuide.sp2_1 else UserGuide.sp2_2) g).
Proof.
  unfold sp2_like. rewrite table_s, table_px, table_py.
  destruct sign; hybrid_on_grid;
    try (unfold UserGuide.sp2_1, UserGuide.sp2_2; field; side_ok).
Qed.

Lemma table_sp2_third :
  sp2_third (cosines g) (azimuths g) = Ok (values UserGuide.sp2_3 g).
Proof.
  unfold sp2_third. rewrite table_s, table_px.
  hybrid_on_grid; try (unfold UserGuide.sp2_3; field; side_ok).
Qed.

Lemma table_sp3 :
  sp3 true true true (cosines g) (azimuths g) = Ok (values UserGuide.sp3_1 g) /\
  sp3 true false false (cosines g) (azimuths g) = Ok (values UserGuide.sp3_2 g) /\
  sp3 false true false (cosines g) (azimuths g) = Ok (values UserGuide.sp3_3 g) /\
  sp3 false false true (cosines g) (azimuths g) = Ok (values UserGuide.sp3_4 g).
Proof.
  unfold sp3. rewrite table_s, table_px, table_py, table_pz.
  repeat split; hybrid_on_grid;
    try (unfold UserGuide.sp3_1, UserGuide.sp3_2, UserGuide.sp3_3,
           UserGuide.sp3_4; field).
Qed.

Lemma table_sp3d2_x (plus_p : bool) :
  sp3d2_xy "px" plus_p true (cosines g) (azimuths g) =
  Ok (values (if plus_p then UserGuide.sp3d2_2 else UserGuide.sp3d2_1) g).
Proof.
  unfold sp3d2_xy. rewrite table_s, table_px, table_dz2, table_dx2_y2.
  destruct plus_p; hybrid_on_grid;
    try (unfold UserGuide.sp3d2_2, UserGuide.sp3d2_1; field; side_ok).
Qed.

Lemma table_sp3d2_y (plus_p : bool) :
  sp3d2_xy "py" plus_p false (cosines g) (azimuths g) =
  Ok (values (if plus_p then UserGuide.sp3d2_4 else UserGuide.sp3d2_3) g).
Proof.
  unfold sp3d2_xy. rewrite table_s, table_py, table_dz2, table_dx2_y2.
  destruct plus_p; hybrid_on_grid;
    try (unfold UserGuide.sp3d2_4, UserGuide.sp3d2_3; field; side_ok).
Qed.

Lemma table_sp3d2_z (plus_p : bool) :
  sp3d2_z plus_p (cosines g) (azimuths g) =
  Ok (values (if plus_p then UserGuide.sp3d2_6 else UserGuide.sp3d2_5) g).
Proof.
  unfold sp3d2_z. rewrite table_s, table_pz, table_dz2.
  destruct plus_p; hybrid_on_grid;
    try (unfold UserGuide.sp3d2_6, UserGuide.sp3d2_5; field; side_ok).
Qed.

End Grid.

(** The arrays that [theta_lmr] receives for the directions with polar
    angles [ts] and azimuthal angles [ps]. *)
Lemma grid_of_angles (ts ps : list R) :
  length ts = length ps ->
  map (fun t => Some (cos t)) ts = cosines (combine ts ps) /\
  map Some ps = azimuths (combine ts ps).
Proof.
  revert ps. induction ts as [|t ts IH]; intros [|p ps] Hlen;
    try discriminate Hlen; [split; reflexivity|].
  injection Hlen as Hlen. destruct (IH ps Hlen) as [Hc Hp].
  cbn [combine map cosines azimuths fst snd].
  split; f_equal; assumption.
Qed.

Lemma polar_grid (ts ps : list R) :
  Forall (fun t => 0 <= t <= PI) ts -> Forall polar (combine ts ps).
Proof.
  intros H. revert ps. induction H as [|t ts Ht _ IH]; intros [|p ps];
    cbn [combine]; constructor; [exact Ht | apply IH].
Qed.

Ltac table_entry g Hg :=
  first [ exact (table_s g Hg) | exact (table_pz g Hg)
        | exact (table_px g Hg) | exact (table_py g Hg)
        | exact (table_dz2 g Hg) | exact (table_dxz g Hg)
        | exact (table_dyz g Hg) | exact (table_dx2_y2 g Hg)
        | exact (table_dxy g Hg) | exact (table_fz3 g Hg)
        | exact (table_fxz2 g Hg) | exact (table_fyz2 g Hg)
        | exact (table_fz_x2_y2 g Hg) | exact (table_fxyz g Hg)
        | exact (table_fx_x2_3y2 g Hg) | exact (table_fy_3x2_y2 g Hg)
        | exact (table_sp g Hg true) | exact (table_sp g Hg false)
        | exact (table_sp2_like g Hg true) | exact (table_sp2_like g Hg false)
        | exact (table_sp2_third g Hg)
        | exact (proj1 (table_sp3 g Hg))
        | exact (proj1 (proj2 (table_sp3 g Hg)))
        | exact (proj1 (proj2 (proj2 (table_sp3 g Hg))))
        | exact (proj2 (proj2 (proj2 (table_sp3 g Hg))))
        | exact (table_sp3d2_x g Hg true) | exact (table_sp3d2_x g Hg false)
        | exact (table_sp3d2_y g Hg true) | exact (table_sp3d2_y g Hg false)
        | exact (table_sp3d2_z g Hg true) | exact (table_sp3d2_z g Hg false) ].



End TableFacts.
